(** * The io_uring polling backend of libuv (src/unix/linux-io-uring.c)

    A shallow embedding of the completion-based polling backend: the
    submission ring, the drive loop [uv__uring_io_poll], the stale-request
    invalidator and the direct datagram path, followed by the properties
    established about them.

    Conventions.
    - C integers are [Z]; conversions between widths are written out with
      [to_int32], [to_uint32] and [to_uint64].
    - Objects live in a store indexed by their address ([addr]); the address
      of a watcher, of a send request's [un.uring_req_type] field and of a
      datagram handle's [un.uring_req_type] field are what the code places
      in [sqe->user_data].
    - The code runs in a small state/trace/error monad [M]: the state is the
      [World], the trace records the calls that leave the backend (kernel
      calls and consumer callbacks), and a failure is a fatal assertion, a
      memory fault, a kernel wait that never returns, or exhausted fuel.
    - The kernel is an explicit part of the world: a script of answers for
      [io_uring_submit] and for [io_uring_wait_cqes], and a clock.
    - Consumer callbacks are arbitrary world transformers, bound in a
      Section. *)

From stdpp Require Import base numbers option list gmap relations.
From Stdlib Require Import ZArith Lia.

Local Open Scope Z_scope.

(** ** Constants *)

Definition EINTR : Z := 4.
Definition EBADF : Z := 9.
Definition EAGAIN : Z := 11.
Definition EWOULDBLOCK : Z := EAGAIN.
Definition EBUSY : Z := 16.
Definition ETIME : Z := 62.
Definition ENOBUFS : Z := 105.
Definition ECANCELED : Z := 125.

(** [UV__ERR(x)] is [-(x)] on Unix; the [UV_E*] codes are the negated errnos. *)
Definition UV__ERR (x : Z) : Z := - x.
Definition UV_EAGAIN : Z := UV__ERR EAGAIN.
Definition UV_EBADF : Z := UV__ERR EBADF.
Definition UV_EBUSY : Z := UV__ERR EBUSY.
Definition UV_ENOBUFS : Z := UV__ERR ENOBUFS.
Definition UV_ECANCELED : Z := UV__ERR ECANCELED.

Definition POLLIN : Z := 1.
Definition POLLERR : Z := 8.
Definition POLLHUP : Z := 16.

Definition AF_UNSPEC : Z := 0.
Definition AF_UNIX : Z := 1.
Definition AF_INET : Z := 2.
Definition AF_INET6 : Z := 10.
Definition sizeof_sockaddr_in : Z := 16.
Definition sizeof_sockaddr_in6 : Z := 28.
Definition sizeof_sockaddr_un : Z := 110.
Definition sizeof_sockaddr_storage : Z := 128.
Definition MSG_TRUNC : Z := 32.
Definition SIGPROF : Z := 27.

Definition IOURING_SQ_SIZE : Z := 4096.
Definition UV__UDP_DGRAM_MAXSIZE : Z := 64 * 1024.

(** liburing: [IOSQE_ASYNC] is [1U << 4]; [LIBURING_UDATA_TIMEOUT] is
    [((__u64) -1)]. *)
Definition IOSQE_ASYNC : Z := Z.shiftl 1 4.
Definition LIBURING_UDATA_TIMEOUT : Z := 2 ^ 64 - 1.

(** Modelled from the spec: the handle and loop flag bits, declared in
    uv-common.h and uv.h, which are not among the files at hand.  The spec
    names a read-pending flag on the datagram handle, a closing state, the
    optional signal mask and the idle-time metrics option; the values are
    one bit each. *)
Definition UV_HANDLE_CLOSING : Z := 1.
Definition UV_HANDLE_CLOSED : Z := 2.
Definition UV_HANDLE_READ_PENDING : Z := 65536.
Definition UV_LOOP_BLOCK_SIGPROF : Z := 1.
Definition UV_METRICS_IDLE_TIME : Z := 1.
Definition UV_UDP_PARTIAL : Z := 2.

(** ** Fixed-width conversions *)

Definition to_uint32 (x : Z) : Z := x mod 2 ^ 32.
Definition to_uint64 (x : Z) : Z := x mod 2 ^ 64.
Definition to_int32 (x : Z) : Z := (x + 2 ^ 31) mod 2 ^ 32 - 2 ^ 31.
Definition INT_MAX : Z := 2 ^ 31 - 1.

(** Bit tests and updates, as the C operators. *)
Definition test_flag (flags mask : Z) : bool := negb (Z.land flags mask =? 0).
Definition set_flag (flags mask : Z) : Z := Z.lor flags mask.
Definition clear_flag (flags mask : Z) : Z := Z.land flags (Z.lnot mask).

(** ** Data model *)

Definition addr := Z.

(** The enum behind [un.uring_req_type].  A watcher address read as an
    [int*] yields neither datagram kind. *)
Inductive uring_req_type :=
  | UV__URING_NONE
  | UV__URING_UDP_SENDMSG
  | UV__URING_UDP_RECVMSG.

Inductive opcode :=
  | IORING_OP_NOP
  | IORING_OP_POLL_ADD
  | IORING_OP_POLL_REMOVE
  | IORING_OP_SENDMSG
  | IORING_OP_RECVMSG.

Record io_uring_sqe := mk_sqe {
  sqe_opcode : opcode;
  sqe_flags : Z;
  sqe_fd : Z;
  sqe_addr : Z;
  sqe_poll_events : Z;
  sqe_user_data : Z
}.

Record io_uring_cqe := mk_cqe {
  cqe_user_data : Z;
  cqe_res : Z
}.

(** The user-space side of the ring: entries written and not yet handed to
    the kernel ([sq]), completions not yet consumed ([cq]), and the slots
    that are free, in the order in which they will be handed out, each with
    the entry last written to it ([sq_free]).  A free slot that is not
    listed has never been written and holds zeroes. *)
Record io_uring := mk_ring {
  sq : list io_uring_sqe;
  cq : list io_uring_cqe;
  sq_entries : Z;
  sq_free : list io_uring_sqe
}.

Record uv__io_uring_data := mk_uring {
  ring : io_uring;
  sync_limit : Z
}.

Record uv__io_t := mk_io {
  io_fd : Z;
  io_pevents : Z;
  io_events : Z;
  io_oneshot : bool
}.

Record msghdr := mk_msghdr {
  msg_name : option addr;
  msg_namelen : Z;
  msg_iovlen : Z;
  msg_flags : Z
}.

Definition msghdr_zero : msghdr := mk_msghdr None 0 0 0.

Record uv_udp_send_t := mk_req {
  req_handle : addr;
  req_status : Z;
  req_ss_family : Z;
  req_nbufs : Z;
  req_h : msghdr;
  req_uring_req_type : uring_req_type
}.

Record uv_buf_t := mk_buf {
  buf_base : Z;
  buf_len : Z
}.

Record uv_udp_t := mk_udp {
  udp_flags : Z;
  udp_io_watcher : addr;
  write_queue : list addr;
  write_pending_queue : list addr;
  write_completed_queue : list addr;
  recv_buf : uv_buf_t;
  udp_h : msghdr;
  udp_uring_req_type : uring_req_type
}.

Record uv_loop_t := mk_loop {
  nfds : Z;
  nwatchers : Z;
  watchers : gmap Z addr;
  watcher_queue : list addr;
  pending_queue : list addr;
  loop_time : Z;
  loop_flags : Z;
  internal_flags : Z
}.

(** The kernel as seen from the backend. *)
Inductive submit_outcome :=
  | Accepted
  | Refused (err : Z).

Record wait_outcome := mk_wait {
  wo_res : Z;
  wo_elapsed : Z;
  wo_cqes : list io_uring_cqe
}.

Record kernel := mk_kernel {
  k_now : Z;
  k_inflight : list io_uring_sqe;
  k_submit : list submit_outcome;
  k_wait : list wait_outcome
}.

Record World := mk_world {
  w_loop : uv_loop_t;
  w_uring : option uv__io_uring_data;
  w_io : gmap Z uv__io_t;
  w_reqs : gmap Z uv_udp_send_t;
  w_udp : gmap Z uv_udp_t;
  w_kernel : kernel
}.

(** ** Traces and the monad *)

Inductive event :=
  | EvSubmit (r : Z)
  | EvSigmask (block : bool)
  | EvWait (wait_nr : Z) (ts : option Z) (blocked : Z) (r : Z)
  | EvUpdateTimeout (elapsed : Z) (remaining : Z)
  | EvIoStart (w : addr) (events : Z)
  | EvIoFeed (w : addr)
  | EvIoCb (w : addr) (events : Z)
  | EvAllocCb (handle : addr) (suggested : Z)
  | EvRecvCb (handle : addr) (nread : Z) (with_addr : bool) (flags : Z).

Inductive failure :=
  | AssertionFailed
  | MemoryFault
  | BlockedForever
  | OutOfFuel.

Inductive result (A : Type) :=
  | Val (a : A) (w : World) (tr : list event)
  | Crash (f : failure) (tr : list event).
Arguments Val {A} a w tr.
Arguments Crash {A} f tr.

Definition M (A : Type) : Type := World → result A.

Definition ret {A} (a : A) : M A := fun w => Val a w [].

(** [prepend tr r]: the run [r], after the events [tr]. *)
Definition prepend {A} (tr : list event) (r : result A) : result A :=
  match r with
  | Val a w t => Val a w (tr ++ t)
  | Crash e t => Crash e (tr ++ t)
  end.

Definition bind {A B} (m : M A) (f : A → M B) : M B := fun w =>
  match m w with
  | Val a w1 tr1 => prepend tr1 (f a w1)
  | Crash e tr1 => Crash e tr1
  end.

Declare Scope m_scope.
Delimit Scope m_scope with m.
Notation "x <- m ;; k" := (bind m (fun x => k))
  (at level 100, m at next level, right associativity) : m_scope.
Notation "m ;;; k" := (bind m (fun _ => k))
  (at level 100, right associativity) : m_scope.
Local Open Scope m_scope.

Definition get : M World := fun w => Val w w [].
Definition gets {A} (f : World → A) : M A := fun w => Val (f w) w [].
Definition modify (f : World → World) : M unit := fun w => Val tt (f w) [].
Definition emit (e : event) : M unit := fun w => Val tt w [e].
Definition crash {A} (f : failure) : M A := fun _ => Crash f [].
Definition assert (b : bool) : M unit :=
  if b then ret tt else crash AssertionFailed.
Definition when (b : bool) (m : M unit) : M unit :=
  if b then m else ret tt.

(** Trace of a run, whatever its outcome. *)
Definition trace_of {A} (r : result A) : list event :=
  match r with
  | Val _ _ tr => tr
  | Crash _ tr => tr
  end.

(** ** Field updates *)

Definition set_loop (f : uv_loop_t → uv_loop_t) (w : World) : World :=
  mk_world (f (w_loop w)) (w_uring w) (w_io w) (w_reqs w) (w_udp w) (w_kernel w).
Definition set_uring (u : option uv__io_uring_data) (w : World) : World :=
  mk_world (w_loop w) u (w_io w) (w_reqs w) (w_udp w) (w_kernel w).
Definition set_io (f : gmap Z uv__io_t → gmap Z uv__io_t) (w : World) : World :=
  mk_world (w_loop w) (w_uring w) (f (w_io w)) (w_reqs w) (w_udp w) (w_kernel w).
Definition set_reqs (f : gmap Z uv_udp_send_t → gmap Z uv_udp_send_t) (w : World) : World :=
  mk_world (w_loop w) (w_uring w) (w_io w) (f (w_reqs w)) (w_udp w) (w_kernel w).
Definition set_udp (f : gmap Z uv_udp_t → gmap Z uv_udp_t) (w : World) : World :=
  mk_world (w_loop w) (w_uring w) (w_io w) (w_reqs w) (f (w_udp w)) (w_kernel w).
Definition set_kernel (f : kernel → kernel) (w : World) : World :=
  mk_world (w_loop w) (w_uring w) (w_io w) (w_reqs w) (w_udp w) (f (w_kernel w)).

Definition ring_with_sq (s : list io_uring_sqe) (r : io_uring) : io_uring :=
  mk_ring s (cq r) (sq_entries r) (sq_free r).
Definition ring_with_cq (c : list io_uring_cqe) (r : io_uring) : io_uring :=
  mk_ring (sq r) c (sq_entries r) (sq_free r).
Definition uring_with_ring (f : io_uring → io_uring) (u : uv__io_uring_data) : uv__io_uring_data :=
  mk_uring (f (ring u)) (sync_limit u).

Definition io_with_events (e : Z) (i : uv__io_t) : uv__io_t :=
  mk_io (io_fd i) (io_pevents i) e (io_oneshot i).
Definition io_with_pevents (e : Z) (i : uv__io_t) : uv__io_t :=
  mk_io (io_fd i) e (io_events i) (io_oneshot i).

Definition req_with_h (h : msghdr) (r : uv_udp_send_t) : uv_udp_send_t :=
  mk_req (req_handle r) (req_status r) (req_ss_family r) (req_nbufs r) h
    (req_uring_req_type r).
Definition req_with_type (t : uring_req_type) (r : uv_udp_send_t) : uv_udp_send_t :=
  mk_req (req_handle r) (req_status r) (req_ss_family r) (req_nbufs r) (req_h r) t.
Definition req_with_status (s : Z) (r : uv_udp_send_t) : uv_udp_send_t :=
  mk_req (req_handle r) s (req_ss_family r) (req_nbufs r) (req_h r)
    (req_uring_req_type r).

Definition udp_with_flags (f : Z) (h : uv_udp_t) : uv_udp_t :=
  mk_udp f (udp_io_watcher h) (write_queue h) (write_pending_queue h)
    (write_completed_queue h) (recv_buf h) (udp_h h) (udp_uring_req_type h).
Definition udp_with_queues (q p c : list addr) (h : uv_udp_t) : uv_udp_t :=
  mk_udp (udp_flags h) (udp_io_watcher h) q p c (recv_buf h) (udp_h h)
    (udp_uring_req_type h).
Definition udp_with_recv_buf (b : uv_buf_t) (h : uv_udp_t) : uv_udp_t :=
  mk_udp (udp_flags h) (udp_io_watcher h) (write_queue h) (write_pending_queue h)
    (write_completed_queue h) b (udp_h h) (udp_uring_req_type h).
Definition udp_with_h (m : msghdr) (h : uv_udp_t) : uv_udp_t :=
  mk_udp (udp_flags h) (udp_io_watcher h) (write_queue h) (write_pending_queue h)
    (write_completed_queue h) (recv_buf h) m (udp_uring_req_type h).
Definition udp_with_type (t : uring_req_type) (h : uv_udp_t) : uv_udp_t :=
  mk_udp (udp_flags h) (udp_io_watcher h) (write_queue h) (write_pending_queue h)
    (write_completed_queue h) (recv_buf h) (udp_h h) t.

Definition loop_with_watcher_queue (q : list addr) (l : uv_loop_t) : uv_loop_t :=
  mk_loop (nfds l) (nwatchers l) (watchers l) q (pending_queue l) (loop_time l)
    (loop_flags l) (internal_flags l).
Definition loop_with_pending_queue (q : list addr) (l : uv_loop_t) : uv_loop_t :=
  mk_loop (nfds l) (nwatchers l) (watchers l) (watcher_queue l) q (loop_time l)
    (loop_flags l) (internal_flags l).
Definition loop_with_time (t : Z) (l : uv_loop_t) : uv_loop_t :=
  mk_loop (nfds l) (nwatchers l) (watchers l) (watcher_queue l) (pending_queue l) t
    (loop_flags l) (internal_flags l).
Definition loop_register (fd : Z) (a : addr) (l : uv_loop_t) : uv_loop_t :=
  mk_loop (nfds l + 1) (nwatchers l) (<[fd := a]> (watchers l)) (watcher_queue l)
    (pending_queue l) (loop_time l) (loop_flags l) (internal_flags l).
Definition loop_unregister (fd : Z) (l : uv_loop_t) : uv_loop_t :=
  mk_loop (nfds l - 1) (nwatchers l) (delete fd (watchers l)) (watcher_queue l)
    (pending_queue l) (loop_time l) (loop_flags l) (internal_flags l).

(** ** Store accesses: a dereference of an address that holds no object of
    the expected type is a memory fault. *)

Definition load_uring : M uv__io_uring_data :=
  w <- get;;
  match w_uring w with
  | Some u => ret u
  | None => crash MemoryFault
  end.

Definition store_uring (u : uv__io_uring_data) : M unit :=
  modify (set_uring (Some u)).

Definition load_io (a : addr) : M uv__io_t :=
  w <- get;;
  match w_io w !! a with
  | Some i => ret i
  | None => crash MemoryFault
  end.

Definition store_io (a : addr) (i : uv__io_t) : M unit :=
  modify (set_io (insert a i)).

Definition load_req (a : addr) : M uv_udp_send_t :=
  w <- get;;
  match w_reqs w !! a with
  | Some r => ret r
  | None => crash MemoryFault
  end.

Definition store_req (a : addr) (r : uv_udp_send_t) : M unit :=
  modify (set_reqs (insert a r)).

Definition load_udp (a : addr) : M uv_udp_t :=
  w <- get;;
  match w_udp w !! a with
  | Some h => ret h
  | None => crash MemoryFault
  end.

Definition store_udp (a : addr) (h : uv_udp_t) : M unit :=
  modify (set_udp (insert a h)).

(** [loop->watchers[fd]]: the array has [nwatchers] slots. *)
Definition load_watcher_slot (fd : Z) : M (option addr) :=
  l <- gets w_loop;;
  if (0 <=? fd) && (fd <? nwatchers l) then ret (watchers l !! fd)
  else crash MemoryFault.

(** [*(int* )user_data]: the first word at a tagged address.  It is the
    [uring_req_type] field for the two datagram objects, and something else
    for a watcher. *)
Definition load_op_type (a : addr) : M uring_req_type :=
  w <- get;;
  match w_reqs w !! a with
  | Some r => ret (req_uring_req_type r)
  | None =>
      match w_udp w !! a with
      | Some h => ret (udp_uring_req_type h)
      | None =>
          match w_io w !! a with
          | Some _ => ret UV__URING_NONE
          | None => crash MemoryFault
          end
      end
  end.

Definition uring_req_type_eqb (a b : uring_req_type) : bool :=
  match a, b with
  | UV__URING_NONE, UV__URING_NONE => true
  | UV__URING_UDP_SENDMSG, UV__URING_UDP_SENDMSG => true
  | UV__URING_UDP_RECVMSG, UV__URING_UDP_RECVMSG => true
  | _, _ => false
  end.

(** ** liburing and the kernel *)

Fixpoint upd_last {A} (f : A → A) (l : list A) : list A :=
  match l with
  | [] => []
  | [x] => [f x]
  | x :: l' => x :: upd_last f l'
  end.

Definition blank_sqe : io_uring_sqe := mk_sqe IORING_OP_NOP 0 0 0 0 0.

Definition io_uring_sq_ready (r : io_uring) : Z := Z.of_nat (length (sq r)).
Definition io_uring_cq_ready (r : io_uring) : Z := Z.of_nat (length (cq r)).

(** The slot that will be handed out next, as it was left: liburing does
    not clear a slot when it hands it out again. *)
Definition next_slot (r : io_uring) : io_uring_sqe :=
  default blank_sqe (head (sq_free r)).

Definition ring_take_slot (r : io_uring) : io_uring :=
  mk_ring (sq r ++ [next_slot r]) (cq r) (sq_entries r) (tail (sq_free r)).

(** The ring once the kernel has taken the pending entries: their slots are
    free again, behind the slots that were free already, and keep what was
    written to them. *)
Definition ring_flush (r : io_uring) : io_uring :=
  mk_ring [] (cq r) (sq_entries r) (sq_free r ++ sq r).

(** [io_uring_get_sqe]: the next free slot of the submission ring, or NULL
    ([false]) when the ring is full.  The slot handed out is the last entry
    of [sq]; it still holds what was last written to it. *)
Definition io_uring_get_sqe : M bool :=
  u <- load_uring;;
  if io_uring_sq_ready (ring u) <? sq_entries (ring u) then
    store_uring (uring_with_ring ring_take_slot u);;;
    ret true
  else ret false.

(** Writes through the [sqe] pointer. *)
Definition write_sqe (f : io_uring_sqe → io_uring_sqe) : M unit :=
  u <- load_uring;;
  store_uring (uring_with_ring (ring_with_sq (upd_last f (sq (ring u)))) u).

(** The [io_uring_prep_*] helpers write every field of the slot but
    [user_data], which is left as it was for the caller to set. *)
Definition io_uring_prep_poll_add (fd poll_mask : Z) : M unit :=
  write_sqe (fun s => mk_sqe IORING_OP_POLL_ADD 0 fd 0 poll_mask (sqe_user_data s)).
Definition io_uring_prep_poll_remove (user_data : Z) : M unit :=
  write_sqe (fun s => mk_sqe IORING_OP_POLL_REMOVE 0 (-1) user_data 0 (sqe_user_data s)).
Definition io_uring_prep_sendmsg (fd : Z) (msg : addr) : M unit :=
  write_sqe (fun s => mk_sqe IORING_OP_SENDMSG 0 fd msg 0 (sqe_user_data s)).
Definition io_uring_prep_recvmsg (fd : Z) (msg : addr) : M unit :=
  write_sqe (fun s => mk_sqe IORING_OP_RECVMSG 0 fd msg 0 (sqe_user_data s)).
Definition sqe_set_user_data (d : Z) : M unit :=
  write_sqe (fun s => mk_sqe (sqe_opcode s) (sqe_flags s) (sqe_fd s) (sqe_addr s)
                        (sqe_poll_events s) d).
Definition sqe_set_flags (f : Z) : M unit :=
  write_sqe (fun s => mk_sqe (sqe_opcode s) f (sqe_fd s) (sqe_addr s)
                        (sqe_poll_events s) (sqe_user_data s)).

(** [io_uring_submit]: the kernel takes every pending entry and answers
    their number, or refuses with a negative code and takes none.  With no
    scripted answer left the kernel accepts. *)
Definition io_uring_submit : M Z :=
  u <- load_uring;;
  k <- gets w_kernel;;
  match k_submit k with
  | Refused err :: rest =>
      modify (set_kernel (fun k => mk_kernel (k_now k) (k_inflight k) rest (k_wait k)));;;
      emit (EvSubmit err);;;
      ret err
  | script =>
      let n := io_uring_sq_ready (ring u) in
      modify (set_kernel (fun k =>
        mk_kernel (k_now k) (k_inflight k ++ sq (ring u)) (tail script) (k_wait k)));;;
      store_uring (uring_with_ring ring_flush u);;;
      emit (EvSubmit n);;;
      ret n
  end.

Definition io_uring_cq_advance (n : Z) : M unit :=
  u <- load_uring;;
  store_uring (uring_with_ring (ring_with_cq (drop (Z.to_nat n) (cq (ring u)))) u).

(** [io_uring_wait_cqes(ring, &cqe, wait_nr, ts, sigmask)], called with an
    empty completion ring.  The scripted answer gives the result code, the
    completions the kernel posts meanwhile and how long the kernel would
    hold the caller; the call never blocks when [wait_nr] is 0 and never
    longer than [ts] (in milliseconds here).  With no scripted answer left
    nothing ever completes: a non-blocking call answers [-EAGAIN], a bounded
    one [-ETIME] after [ts], an unbounded one never returns. *)
Definition blocked_for (wait_nr : Z) (ts : option Z) (d : Z) : Z :=
  if wait_nr =? 0 then 0
  else match ts with
       | Some t => Z.min (Z.max 0 d) t
       | None => Z.max 0 d
       end.

Definition kernel_elapse (d : Z) (cqes : list io_uring_cqe)
    (rest : list wait_outcome) (w : World) : World :=
  set_uring (uring_with_ring (fun r => ring_with_cq (cq r ++ cqes) r) <$> w_uring w)
    (set_kernel (fun k => mk_kernel (k_now k + d) (k_inflight k) (k_submit k) rest) w).

Definition io_uring_wait_cqes (wait_nr : Z) (ts : option Z) : M Z :=
  k <- gets w_kernel;;
  match k_wait k with
  | o :: rest =>
      let d := blocked_for wait_nr ts (wo_elapsed o) in
      modify (kernel_elapse d (wo_cqes o) rest);;;
      emit (EvWait wait_nr ts d (wo_res o));;;
      ret (wo_res o)
  | [] =>
      if wait_nr =? 0 then
        emit (EvWait wait_nr ts 0 (- EAGAIN));;; ret (- EAGAIN)
      else match ts with
           | Some t =>
               modify (kernel_elapse t [] []);;;
               emit (EvWait wait_nr ts t (- ETIME));;;
               ret (- ETIME)
           | None => crash BlockedForever
           end
  end.

(** ** Helpers of the event loop that live outside linux-io-uring.c *)

(** Intrusive queues are lists of addresses; [QUEUE_REMOVE] unlinks a node
    from whichever queue holds it. *)
Definition queue_remove (a : addr) (q : list addr) : list addr :=
  filter (λ x, x ≠ a) q.
Definition queue_insert_tail (a : addr) (q : list addr) : list addr := q ++ [a].
Definition queue_mem (a : addr) (q : list addr) : bool := bool_decide (a ∈ q).

(** Modelled from the spec: [uv__is_closing] (uv-common.h), the closing
    state of a handle that the receive path tests. *)
Definition uv__is_closing (h : uv_udp_t) : bool :=
  test_flag (udp_flags h) (Z.lor UV_HANDLE_CLOSING UV_HANDLE_CLOSED).

(** Modelled from the spec: [uv__io_active] (core.c), whether the watcher is
    still interested in the given events. *)
Definition uv__io_active (i : uv__io_t) (events : Z) : bool :=
  negb (Z.land (io_pevents i) events =? 0).

(** Modelled from the spec: [uv__update_time] (internal.h), the time-base
    update hook: the loop's timestamp becomes the current clock reading. *)
Definition uv__update_time : M unit :=
  k <- gets w_kernel;;
  modify (set_loop (loop_with_time (to_uint64 (k_now k)))).

(** Modelled from the spec: the idle-time metrics hooks (core.c).  They
    touch only the metrics record, which is not part of the world here. *)
Definition uv__metrics_set_provider_entry_time : M unit := ret tt.
Definition uv__metrics_update_idle_time : M unit := ret tt.

(** Modelled from the spec: [uv__io_start] (core.c), the rebuild-interest
    entry point.  It adds the events to the requested mask and, unless the
    armed mask already equals the requested one, puts the watcher on the
    list of watchers pending registration (consumed by the submission
    stage) and enters it in the registry. *)
Definition uv__io_start (a : addr) (events : Z) : M unit :=
  emit (EvIoStart a events);;;
  i <- load_io a;;
  let i' := io_with_pevents (Z.lor (io_pevents i) events) i in
  store_io a i';;;
  if io_events i' =? io_pevents i' then ret tt
  else
    l <- gets w_loop;;
    when (negb (queue_mem a (watcher_queue l)))
      (modify (set_loop (loop_with_watcher_queue
                           (queue_insert_tail a (watcher_queue l)))));;;
    l <- gets w_loop;;
    when (bool_decide (watchers l !! io_fd i' = None))
      (modify (set_loop (loop_register (io_fd i') a))).

(** Modelled from the spec: [uv__io_feed] (core.c), which wakes a watcher:
    it is put on the loop's pending queue so that the generic watcher path
    runs its callback. *)
Definition uv__io_feed (a : addr) : M unit :=
  emit (EvIoFeed a);;;
  l <- gets w_loop;;
  when (negb (queue_mem a (pending_queue l)))
    (modify (set_loop (loop_with_pending_queue
                         (queue_insert_tail a (pending_queue l))))).

(** Modelled from the spec: [uv__io_stop] (core.c), the counterpart of
    [uv__io_start].  It does nothing for a watcher without a descriptor or
    one that was never started; otherwise it takes the events out of the
    requested mask, and a watcher that is left requesting nothing leaves
    the list of watchers pending registration and, if its descriptor is
    registered (to itself, or the assertion fails), the registry: the
    slot is emptied, [nfds] decremented and the armed mask cleared.  A
    watcher that still requests something is put on the pending list. *)
Definition uv__io_stop (a : addr) (events : Z) : M unit :=
  assert (negb (events =? 0));;;
  i <- load_io a;;
  if io_fd i =? -1 then ret tt
  else
    assert (0 <=? io_fd i);;;
    l <- gets w_loop;;
    if nwatchers l <=? io_fd i then ret tt
    else
      let i' := io_with_pevents (Z.land (io_pevents i) (Z.lnot events)) i in
      store_io a i';;;
      if io_pevents i' =? 0 then
        modify (set_loop (loop_with_watcher_queue (queue_remove a (watcher_queue l))));;;
        match watchers l !! io_fd i' with
        | None => ret tt
        | Some b =>
            assert (b =? a);;;
            assert (0 <? nfds l);;;
            modify (set_loop (loop_unregister (io_fd i')));;;
            store_io a (io_with_events 0 i')
        end
      else
        l <- gets w_loop;;
        when (negb (queue_mem a (watcher_queue l)))
          (modify (set_loop (loop_with_watcher_queue
                               (queue_insert_tail a (watcher_queue l))))).

(** [pthread_sigmask(how, &sigset, NULL)] with a valid set cannot fail; the
    call is recorded in the trace. *)
Definition pthread_sigmask (block : bool) : M Z :=
  emit (EvSigmask block);;; ret 0.

(** ** Ring context and SQE allocator *)

Definition uv__io_uring_submit : M Z :=
  u <- load_uring;;
  if negb (io_uring_sq_ready (ring u) =? 0) then
    r <- io_uring_submit;;
    if r <? 0 then
      (* Can't have more reqs pending. Wait for more completions *)
      if r =? UV_EBUSY then ret 0
      else ret r
    else ret r
  else ret 0.

Definition uv__io_uring_get_sqe : M bool :=
  sqe <- io_uring_get_sqe;;
  if negb sqe then
    (* We're full! Submit and try again *)
    r <- uv__io_uring_submit;;
    assert (0 <=? r);;;
    io_uring_get_sqe
  else ret sqe.

(** [if (io_uring_sq_ready(&io_uring->ring) > io_uring->sync_limit)
       sqe->flags = IOSQE_ASYNC;] *)
Definition flag_async_over_limit : M unit :=
  u <- load_uring;;
  when (sync_limit u <? io_uring_sq_ready (ring u)) (sqe_set_flags IOSQE_ASYNC).

(** ** Stale-request invalidator *)

Definition uv__uring_platform_invalidate_fd (fd : Z) : M unit :=
  assert (0 <=? fd);;;
  w <- get;;
  match w_uring w with
  | None => ret tt
  | Some _ =>
      slot <- load_watcher_slot fd;;
      match slot with
      | None => ret tt
      | Some a =>
          sqe <- uv__io_uring_get_sqe;;
          assert sqe;;;
          io_uring_prep_poll_remove a;;;
          sqe_set_user_data 0;;;
          r <- uv__io_uring_submit;;
          assert (0 <=? r)
      end
  end.

(** ** Watcher submission stage: the [while (!QUEUE_EMPTY(&loop->watcher_queue))]
    loop of [uv__uring_io_poll] *)

Definition submit_watcher (a : addr) : M unit :=
  modify (set_loop (fun l => loop_with_watcher_queue
                               (queue_remove a (watcher_queue l)) l));;;
  i <- load_io a;;
  l <- gets w_loop;;
  assert (negb (io_pevents i =? 0));;;
  assert (0 <=? io_fd i);;;
  assert (io_fd i <? to_int32 (nwatchers l));;;
  sqe <- uv__io_uring_get_sqe;;
  assert sqe;;;
  io_uring_prep_poll_add (io_fd i) (io_pevents i);;;
  sqe_set_user_data a;;;
  flag_async_over_limit;;;
  store_io a (io_with_events (io_pevents i) i).

Fixpoint submit_watchers (fuel : nat) : M unit :=
  l <- gets w_loop;;
  match watcher_queue l with
  | [] => ret tt
  | a :: _ =>
      match fuel with
      | O => crash OutOfFuel
      | S n => submit_watcher a;;; submit_watchers n
      end
  end.

(** ** Direct datagram path: send *)

(** [QUEUE_REMOVE(&req->queue)]: the request leaves whichever send queue it
    is linked on. *)
Definition unlink_req (req : addr) (h : uv_udp_t) : uv_udp_t :=
  udp_with_queues (queue_remove req (write_queue h))
    (queue_remove req (write_pending_queue h))
    (queue_remove req (write_completed_queue h)) h.

Definition QUEUE_REMOVE_req (req : addr) : M unit :=
  modify (set_udp (fmap (unlink_req req))).

Definition send_msghdr (req : addr) (r : uv_udp_send_t) : M msghdr :=
  namelen <-
    (if req_ss_family r =? AF_UNSPEC then ret 0
     else if req_ss_family r =? AF_INET6 then ret sizeof_sockaddr_in6
     else if req_ss_family r =? AF_INET then ret sizeof_sockaddr_in
     else if req_ss_family r =? AF_UNIX then ret sizeof_sockaddr_un
     else crash AssertionFailed);;
  ret (mk_msghdr (if req_ss_family r =? AF_UNSPEC then None else Some req)
         namelen (req_nbufs r) 0).

Definition udp_sendmsg_one (handle req : addr) : M unit :=
  r <- load_req req;;
  h <- send_msghdr req r;;
  store_req req (req_with_h h r);;;
  sqe <- uv__io_uring_get_sqe;;
  assert sqe;;;
  hd <- load_udp handle;;
  i <- load_io (udp_io_watcher hd);;
  io_uring_prep_sendmsg (io_fd i) req;;;
  r <- load_req req;;
  store_req req (req_with_type UV__URING_UDP_SENDMSG r);;;
  sqe_set_user_data req;;;
  flag_async_over_limit;;;
  QUEUE_REMOVE_req req;;;
  hd <- load_udp handle;;
  store_udp handle
    (udp_with_queues (write_queue hd)
       (queue_insert_tail req (write_pending_queue hd))
       (write_completed_queue hd) hd).

Fixpoint udp_sendmsg_loop (fuel : nat) (handle : addr) : M unit :=
  hd <- load_udp handle;;
  match write_queue hd with
  | [] => ret tt
  | req :: _ =>
      match fuel with
      | O => crash OutOfFuel
      | S n => udp_sendmsg_one handle req;;; udp_sendmsg_loop n handle
      end
  end.

Definition uv__uring_udp_sendmsg (handle : addr) : M unit :=
  hd <- load_udp handle;;
  udp_sendmsg_loop (length (write_queue hd)) handle.

Definition uv__uring_udp_sendmsg_done (req : addr) (status : Z) : M unit :=
  r <- load_req req;;
  let handle := req_handle r in
  if (status =? UV_EAGAIN) || (status =? UV__ERR EWOULDBLOCK) || (status =? UV_ENOBUFS)
  then
    QUEUE_REMOVE_req req;;;
    hd <- load_udp handle;;
    store_udp handle
      (udp_with_queues (queue_insert_tail req (write_queue hd))
         (write_pending_queue hd) (write_completed_queue hd) hd)
  else
    store_req req (req_with_status status r);;;
    QUEUE_REMOVE_req req;;;
    hd <- load_udp handle;;
    store_udp handle
      (udp_with_queues (write_queue hd) (write_pending_queue hd)
         (queue_insert_tail req (write_completed_queue hd)) hd);;;
    hd <- load_udp handle;;
    uv__io_feed (udp_io_watcher hd).

(** ** The code that calls back into the consumer *)

Section Backend.

(** [&loop->signal_io_watcher], and the consumer's callbacks: a watcher's
    [cb], and a datagram handle's [alloc_cb] and [recv_cb].  A callback may
    change the world in any way. *)
Variable signal_io_watcher : addr.
Variable io_cb : addr → Z → World → World.
Variable alloc_cb : addr → Z → World → World.
Variable recv_cb : addr → Z → bool → Z → World → World.

Definition call_io_cb (a : addr) (events : Z) : M unit :=
  emit (EvIoCb a events);;; modify (io_cb a events).

Definition call_alloc_cb (handle : addr) (suggested : Z) : M unit :=
  emit (EvAllocCb handle suggested);;; modify (alloc_cb handle suggested).

Definition call_recv_cb (handle : addr) (nread : Z) (with_addr : bool) (flags : Z)
    : M unit :=
  emit (EvRecvCb handle nread with_addr flags);;;
  modify (recv_cb handle nread with_addr flags).

(** *** Direct datagram path: receive

    [uv__uring_udp_recvmsg] and [uv__uring_udp_recvmsg_done] call each
    other; the body of each is written against the other one. *)

(** The tail of [uv__uring_udp_recvmsg], once the consumer has supplied a
    buffer: from [memset(&handle->h, ...)] to the end. *)
Definition udp_recvmsg_submit (handle : addr) (hd : uv_udp_t) : M unit :=
  let h := mk_msghdr (Some handle) sizeof_sockaddr_storage 1 0 in
  store_udp handle
    (udp_with_flags (set_flag (udp_flags hd) UV_HANDLE_READ_PENDING)
       (udp_with_h h hd));;;
  sqe <- uv__io_uring_get_sqe;;
  assert sqe;;;
  i <- load_io (udp_io_watcher hd);;
  io_uring_prep_recvmsg (io_fd i) handle;;;
  hd <- load_udp handle;;
  store_udp handle (udp_with_type UV__URING_UDP_RECVMSG hd);;;
  sqe_set_user_data handle;;;
  flag_async_over_limit.

Definition udp_recvmsg_body (done : addr → Z → M unit) (handle : addr) : M unit :=
  hd <- load_udp handle;;
  if test_flag (udp_flags hd) UV_HANDLE_READ_PENDING then ret tt
  else
    store_udp handle (udp_with_recv_buf (mk_buf 0 0) hd);;;
    call_alloc_cb handle UV__UDP_DGRAM_MAXSIZE;;;
    hd <- load_udp handle;;
    if (buf_base (recv_buf hd) =? 0) || (buf_len (recv_buf hd) =? 0) then
      done handle UV_ENOBUFS
    else udp_recvmsg_submit handle hd.

(** [if (uv__io_active(&handle->io_watcher, POLLIN) && !uv__is_closing(handle))
       uv__uring_udp_recvmsg(handle);] *)
Definition restart_if_active (recvmsg : addr → M unit) (handle : addr) : M unit :=
  hd <- load_udp handle;;
  i <- load_io (udp_io_watcher hd);;
  when (uv__io_active i POLLIN && negb (uv__is_closing hd)) (recvmsg handle).

Definition udp_recvmsg_done_body (recvmsg : addr → M unit) (handle : addr)
    (status : Z) : M unit :=
  hd <- load_udp handle;;
  if uv__is_closing hd then ret tt
  else
    let status := if status =? UV_EBADF then UV_ECANCELED else status in
    store_udp handle
      (udp_with_flags (clear_flag (udp_flags hd) UV_HANDLE_READ_PENDING) hd);;;
    if status <? 0 then
      if (status =? UV_EAGAIN) || (status =? UV__ERR EWOULDBLOCK) then
        call_recv_cb handle 0 false 0;;;
        restart_if_active recvmsg handle
      else
        call_recv_cb handle status false 0
    else
      hd <- load_udp handle;;
      let flags :=
        if test_flag (msg_flags (udp_h hd)) MSG_TRUNC then Z.lor 0 UV_UDP_PARTIAL
        else 0 in
      call_recv_cb handle status true flags;;;
      restart_if_active recvmsg handle.

Fixpoint udp_recvmsg_done_fuel (fuel : nat) (handle : addr) (status : Z) : M unit :=
  match fuel with
  | O => crash OutOfFuel
  | S n =>
      udp_recvmsg_done_body (udp_recvmsg_body (udp_recvmsg_done_fuel n))
        handle status
  end.

(** A completion restarts the receive at most once, and a restart can only
    complete at once with [UV_ENOBUFS], which does not restart: the depth of
    the mutual calls is bounded (see [udp_recvmsg_done_fuel_enough]). *)
Definition uv__uring_udp_recvmsg (handle : addr) : M unit :=
  udp_recvmsg_body (udp_recvmsg_done_fuel 1) handle.

Definition uv__uring_udp_recvmsg_done (handle : addr) (status : Z) : M unit :=
  udp_recvmsg_done_fuel 2 handle status.

(** *** The drive loop *)

(** The local variables of [uv__uring_io_poll] that live across iterations
    of its [for (;;)]. *)
Record locals := mk_locals {
  timeout : Z;
  real_timeout : Z;
  base : Z;
  sigmask : Z;
  have_signals : Z;
  nevents : Z;
  reset_timeout : Z;
  user_timeout : Z
}.

Definition with_timeout (t : Z) (l : locals) : locals :=
  mk_locals t (real_timeout l) (base l) (sigmask l) (have_signals l) (nevents l)
    (reset_timeout l) (user_timeout l).
Definition with_real_timeout (t : Z) (l : locals) : locals :=
  mk_locals (timeout l) t (base l) (sigmask l) (have_signals l) (nevents l)
    (reset_timeout l) (user_timeout l).
Definition with_have_signals (s : Z) (l : locals) : locals :=
  mk_locals (timeout l) (real_timeout l) (base l) (sigmask l) s (nevents l)
    (reset_timeout l) (user_timeout l).
Definition with_nevents (n : Z) (l : locals) : locals :=
  mk_locals (timeout l) (real_timeout l) (base l) (sigmask l) (have_signals l) n
    (reset_timeout l) (user_timeout l).
Definition with_reset_timeout (r : Z) (l : locals) : locals :=
  mk_locals (timeout l) (real_timeout l) (base l) (sigmask l) (have_signals l)
    (nevents l) r (user_timeout l).

(** How one pass through the body of the [for (;;)] ends: the function
    returns, or the loop goes round again. *)
Inductive control :=
  | Returned
  | Continue (l : locals).

(** [if (reset_timeout != 0) { timeout = user_timeout; reset_timeout = 0; }] *)
Definition restore_user_timeout (l : locals) : locals :=
  if negb (reset_timeout l =? 0) then
    with_reset_timeout 0 (with_timeout (user_timeout l) l)
  else l.

(** The code at the label [update_timeout]. *)
Definition update_timeout (l : locals) : M control :=
  assert (0 <? timeout l);;;
  lp <- gets w_loop;;
  let elapsed := to_uint64 (loop_time lp - base l) in
  let real := to_int32 (to_uint64 (to_uint64 (real_timeout l) - elapsed)) in
  emit (EvUpdateTimeout elapsed real);;;
  if real <=? 0 then ret Returned
  else ret (Continue (with_timeout real (with_real_timeout real l))).

(** The [do { r = io_uring_wait_cqes(...); } while (r == -EINTR);] loop.
    Every retry passes the same [ts]. *)
Fixpoint wait_cqes_retry (fuel : nat) (wait_nr : Z) (ts : option Z) : M Z :=
  r <- io_uring_wait_cqes wait_nr ts;;
  if r =? - EINTR then
    match fuel with
    | O => crash OutOfFuel
    | S n => wait_cqes_retry n wait_nr ts
    end
  else ret r.

(** [if (sigmask != 0) if (pthread_sigmask(how, &sigset, NULL)) abort();] *)
Definition sigmask_around_wait (l : locals) (block : bool) : M unit :=
  if negb (sigmask l =? 0) then
    r <- pthread_sigmask block;;
    if negb (r =? 0) then crash AssertionFailed else ret tt
  else ret tt.

(** The arguments of the wait: [timeout == 0 ? 0 : 1] and
    [timeout > 0 ? &ts : NULL], with [ts] set from [timeout]. *)
Definition wait_nr_of (l : locals) : Z := if timeout l =? 0 then 0 else 1.
Definition ts_of (l : locals) : option Z :=
  if 0 <? timeout l then Some (timeout l) else None.

(** What follows the wait, from [if (r == EAGAIN)] to the end of the
    [if (io_uring_cq_ready(ring) == 0)] block: either control leaves the
    iteration ([inr]), or it falls through to the drain ([inl]). *)
Definition after_wait (l : locals) (r : Z) : M (locals + control) :=
  if r =? EAGAIN then
    assert (timeout l =? 0);;;
    let l := restore_user_timeout l in
    if timeout l =? 0 then ret (inr Returned)
    else
      (* We may have been inside the system call for longer than |timeout|
         milliseconds so we need to update the timestamp to avoid drift. *)
      c <- update_timeout l;; ret (inr c)
  else
    (* Update loop->time unconditionally. *)
    uv__update_time;;;
    if r =? - ETIME then
      (* No events available. It returned because of a timeout. *)
      let l := restore_user_timeout l in
      if timeout l =? -1 then ret (inr (Continue l))
      else if timeout l =? 0 then ret (inr Returned)
      else c <- update_timeout l;; ret (inr c)
    else ret (inl l).

(** The body of [if (io_uring_cq_ready(ring) == 0) { ... }]. *)
Definition wait_stage (l : locals) : M (locals + control) :=
  sigmask_around_wait l true;;;
  k <- gets w_kernel;;
  r <- wait_cqes_retry (length (k_wait k)) (wait_nr_of l) (ts_of l);;
  assert ((r =? 0) || (r =? - EAGAIN) || (r =? - ETIME));;;
  let l := with_timeout (real_timeout l) l in
  sigmask_around_wait l false;;;
  after_wait l r.

(** The generic watcher path for one completion. *)
Definition dispatch_watcher (l : locals) (a : addr) (res : Z) : M locals :=
  i <- load_io a;;
  let events := to_uint32 res in
  if io_fd i =? -1 then ret l
  else
    slot <- load_watcher_slot (io_fd i);;
    match slot with
    | None => (* don't arm again if already closed *) ret l
    | Some _ =>
        (* arm the watcher again as IORING_OP_POLL_ADD works as EPOLLONESHOT *)
        (if negb (io_oneshot i) then
           store_io a (io_with_events 0 i);;;
           i <- load_io a;;
           uv__io_start a (io_pevents i);;;
           i <- load_io a;;
           store_io a (io_with_events (io_pevents i) i)
         else ret tt);;;
        i <- load_io a;;
        let events := Z.land events (Z.lor (Z.lor (io_pevents i) POLLERR) POLLHUP) in
        if negb (events =? 0) then
          (* Run signal watchers last. *)
          l <- (if a =? signal_io_watcher then
                  ret (with_have_signals 1 l)
                else
                  uv__metrics_update_idle_time;;;
                  call_io_cb a events;;;
                  ret l);;
          ret (with_nevents (nevents l + 1) l)
        else ret l
    end.

(** The body of [io_uring_for_each_cqe] for one completion ([count++] is
    done by the caller). *)
Definition process_cqe (l : locals) (cqe : io_uring_cqe) : M locals :=
  (* Ignore timeouts and cancelled requests *)
  if (cqe_user_data cqe =? LIBURING_UDATA_TIMEOUT) || (cqe_user_data cqe =? 0) then
    ret l
  else
    op_type <- load_op_type (cqe_user_data cqe);;
    if uring_req_type_eqb op_type UV__URING_UDP_SENDMSG then
      uv__metrics_update_idle_time;;;
      uv__uring_udp_sendmsg_done (cqe_user_data cqe) (cqe_res cqe);;;
      ret (with_nevents (nevents l + 1) l)
    else if uring_req_type_eqb op_type UV__URING_UDP_RECVMSG then
      uv__metrics_update_idle_time;;;
      uv__uring_udp_recvmsg_done (cqe_user_data cqe) (cqe_res cqe);;;
      ret (with_nevents (nevents l + 1) l)
    else
      dispatch_watcher l (cqe_user_data cqe) (cqe_res cqe).

(** [io_uring_for_each_cqe(ring, head, cqe) { count++; ... }] over the
    completions that are ready. *)
Fixpoint for_each_cqe (cqes : list io_uring_cqe) (l : locals) (count : Z)
    : M (locals * Z) :=
  match cqes with
  | [] => ret (l, count)
  | cqe :: rest =>
      l <- process_cqe l cqe;;
      for_each_cqe rest l (count + 1)
  end.

(** From [count = 0;] to the end of the loop body. *)
Definition drain_stage (l : locals) : M control :=
  u <- load_uring;;
  lc <- for_each_cqe (cq (ring u)) l 0;;
  let l := fst lc in
  io_uring_cq_advance (snd lc);;;
  let l := restore_user_timeout l in
  if negb (have_signals l =? 0) then
    uv__metrics_update_idle_time;;;
    call_io_cb signal_io_watcher POLLIN;;;
    ret Returned  (* Event loop should cycle now so don't poll again. *)
  else if negb (nevents l =? 0) then ret Returned
  else if timeout l =? 0 then ret Returned
  else if timeout l =? -1 then ret (Continue l)
  else update_timeout l.

(** One pass through the body of the [for (;;)]. *)
Definition poll_iteration (l : locals) : M control :=
  when (negb (timeout l =? 0)) uv__metrics_set_provider_entry_time;;;
  u <- load_uring;;
  (* If there're already cqe's to be consumed, no need to wait for them *)
  if io_uring_cq_ready (ring u) =? 0 then
    s <- wait_stage l;;
    match s with
    | inl l => drain_stage l
    | inr c => ret c
    end
  else drain_stage l.

Fixpoint poll_loop (fuel : nat) (l : locals) : M unit :=
  match fuel with
  | O => crash OutOfFuel
  | S n =>
      c <- poll_iteration l;;
      match c with
      | Returned => ret tt
      | Continue l => poll_loop n l
      end
  end.

(** The locals as the code sets them between the flush and the loop. *)
Definition initial_locals (timeout : Z) (lp : uv_loop_t) : locals :=
  let sigmask :=
    if test_flag (loop_flags lp) UV_LOOP_BLOCK_SIGPROF
    then Z.lor 0 (Z.shiftl 1 (SIGPROF - 1)) else 0 in
  if test_flag (internal_flags lp) UV_METRICS_IDLE_TIME then
    mk_locals 0 timeout (loop_time lp) sigmask 0 0 1 timeout
  else
    mk_locals timeout timeout (loop_time lp) sigmask 0 0 0 0.

Definition uv__uring_io_poll (fuel : nat) (timeout : Z) : M unit :=
  lp <- gets w_loop;;
  if nfds lp =? 0 then
    assert (bool_decide (watcher_queue lp = []));;;
    ret tt
  else
    submit_watchers (length (watcher_queue lp));;;
    r <- uv__io_uring_submit;;
    assert (0 <=? r);;;
    (* As the io_uring_submit may take a while! *)
    uv__update_time;;;
    assert (-1 <=? timeout);;;
    lp <- gets w_loop;;
    poll_loop fuel (initial_locals timeout lp).

End Backend.

(** * Vocabulary of the properties *)

(** ** Callbacks that do nothing, and a loop with one watched socket *)

Definition idle_io_cb : addr → Z → World → World := fun _ _ w => w.
Definition idle_alloc_cb : addr → Z → World → World := fun _ _ w => w.
Definition idle_recv_cb : addr → Z → bool → Z → World → World := fun _ _ _ _ w => w.

Definition sample_signal_watcher : addr := 900.
Definition sample_watcher : addr := 1000.
Definition sample_req_addr : addr := 2000.
Definition sample_handle : addr := 3000.

(** What an earlier pass left in the slot that the sample ring hands out
    next: a flagged send, tagged with its request. *)
Definition stale_slot : io_uring_sqe :=
  mk_sqe IORING_OP_SENDMSG IOSQE_ASYNC 3 sample_req_addr 0 sample_req_addr.

Definition sample_ring : uv__io_uring_data :=
  mk_uring (mk_ring [] [] IOURING_SQ_SIZE [stale_slot]) 40.

Definition sample_req : uv_udp_send_t :=
  mk_req sample_handle 0 AF_INET 1 msghdr_zero UV__URING_UDP_SENDMSG.

(** A datagram handle on descriptor 3 with one send in flight. *)
Definition sample_udp : uv_udp_t :=
  mk_udp 0 sample_watcher [] [sample_req_addr] [] (mk_buf 0 0) msghdr_zero
    UV__URING_NONE.

Definition sample_loop : uv_loop_t :=
  mk_loop 1 8 {[ 3 := sample_watcher ]} [] [] 0 0 0.

Definition sample_world : World :=
  mk_world sample_loop (Some sample_ring)
    {[ sample_watcher := mk_io 3 POLLIN POLLIN false ]}
    {[ sample_req_addr := sample_req ]}
    {[ sample_handle := sample_udp ]}
    (mk_kernel 0 [] [] []).

(** A loop that watches nothing. *)
Definition empty_world : World :=
  mk_world (mk_loop 0 8 ∅ [] [] 0 0 0) (Some sample_ring) ∅ ∅ ∅ (mk_kernel 0 [] [] []).

(** ** Send completion *)

Definition would_block (status : Z) : Prop := status = - EAGAIN.
Definition no_buffer_space (status : Z) : Prop := status = - ENOBUFS.
Definition transient_status (status : Z) : bool :=
  (status =? - EAGAIN) || (status =? - ENOBUFS).

(** The requests linked on the queue [q] other than [req], in their
    order. *)
Definition others (req : addr) (q : list addr) : list addr :=
  filter (λ x, x ≠ req) q.

(** What a send completion leaves behind, for a request [r] at [req] whose
    handle was [hd].  The request has left the queue of requests in flight
    ([write_pending_queue]) and is linked once, at the tail of the queue it
    moved to; the other requests are where they were, in their order.  On
    a transient status it moved to the pending queue ([write_queue]), its
    status is untouched and nobody is woken; on any other status it moved
    to the completed queue with the status recorded, and the handle's
    watcher has been fed to the loop. *)
Definition sendmsg_done_post (req : addr) (status : Z) (w : World)
    (r : uv_udp_send_t) (hd : uv_udp_t) (res : result unit) : Prop :=
  ∃ w' r' hd',
    res = Val tt w' (if transient_status status then []
                     else [EvIoFeed (udp_io_watcher hd)]) ∧
    w_reqs w' !! req = Some r' ∧
    w_udp w' !! req_handle r = Some hd' ∧
    (req ∉ write_pending_queue hd') ∧
    write_pending_queue hd' = others req (write_pending_queue hd) ∧
    if transient_status status then
      write_queue hd' = others req (write_queue hd) ++ [req] ∧
      write_completed_queue hd' = others req (write_completed_queue hd) ∧
      (req ∉ write_completed_queue hd') ∧
      r' = r ∧
      w_loop w' = w_loop w
    else
      write_queue hd' = others req (write_queue hd) ∧
      (req ∉ write_queue hd') ∧
      write_completed_queue hd' = others req (write_completed_queue hd) ++ [req] ∧
      req_status r' = status ∧
      udp_io_watcher hd ∈ pending_queue (w_loop w').

(** ** Submission entries *)

(** The entries the backend writes. *)
Definition poll_add_sqe (a : addr) (i : uv__io_t) (flags : Z) : io_uring_sqe :=
  mk_sqe IORING_OP_POLL_ADD flags (io_fd i) 0 (io_pevents i) a.
Definition cancel_sqe (a : addr) : io_uring_sqe :=
  mk_sqe IORING_OP_POLL_REMOVE 0 (-1) a 0 0.
Definition sendmsg_sqe (req : addr) (fd : Z) (flags : Z) : io_uring_sqe :=
  mk_sqe IORING_OP_SENDMSG flags fd req 0 req.
Definition recvmsg_sqe (handle : addr) (fd : Z) (flags : Z) : io_uring_sqe :=
  mk_sqe IORING_OP_RECVMSG flags fd handle 0 handle.

(** The flag a new entry gets from the occupancy of the ring at the time it
    is written (the new entry included). *)
Definition async_flag_for (u : uv__io_uring_data) : Z :=
  if sync_limit u <? io_uring_sq_ready (ring u) then IOSQE_ASYNC else 0.

(** The last entry written to the submission ring. *)
Definition last_sqe (w : World) : option io_uring_sqe :=
  match w_uring w with
  | Some u => last (sq (ring u))
  | None => None
  end.

(** The kernel takes whatever is flushed. *)
Definition kernel_accepts (w : World) : Prop :=
  Forall (λ o, o = Accepted) (k_submit (w_kernel w)).

(** What the kernel answers to the next flush. *)
Definition next_submit (w : World) : submit_outcome :=
  match k_submit (w_kernel w) with
  | o :: _ => o
  | [] => Accepted
  end.

(** The world after a flush that the kernel took. *)
Definition flushed (u : uv__io_uring_data) (w : World) : World :=
  set_uring (Some (uring_with_ring ring_flush u))
    (set_kernel (fun k => mk_kernel (k_now k) (k_inflight k ++ sq (ring u))
                            (tail (k_submit k)) (k_wait k)) w).

(** The parts of the world that are no ring and no kernel. *)
Definition same_objects (w w' : World) : Prop :=
  w_loop w' = w_loop w ∧ w_io w' = w_io w ∧ w_reqs w' = w_reqs w ∧
  w_udp w' = w_udp w.

(** The world after [io_uring_get_sqe] handed out a slot. *)
Definition slot_taken (u : uv__io_uring_data) (w : World) : World :=
  set_uring (Some (uring_with_ring ring_take_slot u)) w.

(** The world after a flush that the kernel refused: the answer is used up,
    the entries stay on the ring. *)
Definition refused (w : World) : World :=
  set_kernel (fun k => mk_kernel (k_now k) (k_inflight k) (tail (k_submit k)) (k_wait k)) w.

(** What invalidating [fd], registered to the watcher [a], leaves behind
    when the kernel takes the flush: everything that was pending has been
    handed to the kernel, and after it the cancellation of [a], tagged 0. *)
Definition cancellation_submitted (a : addr) (u : uv__io_uring_data) (w : World)
    (res : result unit) : Prop :=
  ∃ w' u' tr,
    res = Val tt w' tr ∧
    w_uring w' = Some u' ∧
    sq (ring u') = [] ∧
    cq (ring u') = cq (ring u) ∧
    k_inflight (w_kernel w') = k_inflight (w_kernel w) ++ sq (ring u) ++ [cancel_sqe a] ∧
    sqe_user_data (cancel_sqe a) = 0 ∧
    sqe_addr (cancel_sqe a) = a ∧
    same_objects w w'.

(** What it leaves behind when the kernel does not take the flush: the
    cancellation of [a], tagged 0, waits on the ring behind what was
    pending, and nothing has reached the kernel. *)
Definition cancellation_pending (a : addr) (u : uv__io_uring_data) (w w' : World)
    : Prop :=
  ∃ u',
    w_uring w' = Some u' ∧
    sq (ring u') = sq (ring u) ++ [cancel_sqe a] ∧
    cq (ring u') = cq (ring u) ∧
    k_inflight (w_kernel w') = k_inflight (w_kernel w) ∧
    same_objects w w'.

(** The run of the invalidator on a descriptor registered to [a], on a ring
    with a free slot, by the kernel's answer to the flush that follows the
    write: taken, the cancellation is with the kernel; refused with
    [-EBUSY], the call returns and the cancellation waits on the ring; any
    other error fails the assertion. *)
Definition cancellation_attempt (a : addr) (u : uv__io_uring_data) (w : World)
    (res : result unit) : Prop :=
  match next_submit w with
  | Accepted =>
      cancellation_submitted a u w res ∧
      trace_of res = [EvSubmit (io_uring_sq_ready (ring u) + 1)]
  | Refused err =>
      if (err =? UV_EBUSY) || (0 <=? err) then
        ∃ w', res = Val tt w' [EvSubmit err] ∧ cancellation_pending a u w w'
      else res = Crash AssertionFailed [EvSubmit err]
  end.

(** A poll request on the descriptor [fd] is with the kernel. *)
Definition poll_outstanding (fd : Z) (w : World) : Prop :=
  ∃ e, e ∈ k_inflight (w_kernel w) ∧
       sqe_opcode e = IORING_OP_POLL_ADD ∧ sqe_fd e = fd.

(** A loop whose watcher on descriptor 3 has been stopped, so that its
    slot in the registry is empty, while the poll request written for it
    is still with the kernel. *)
Definition orphaned_poll_world : World :=
  mk_world (mk_loop 0 8 ∅ [] [] 0 0 0) (Some sample_ring)
    {[ sample_watcher := mk_io 3 0 0 false ]} ∅ ∅
    (mk_kernel 0 [mk_sqe IORING_OP_POLL_ADD 0 3 0 POLLIN sample_watcher] [] []).

(** The sample loop with a kernel that answers the next flush [-EBUSY]. *)
Definition ebusy_world : World :=
  set_kernel (fun k => mk_kernel (k_now k) (k_inflight k) [Refused UV_EBUSY] (k_wait k))
    sample_world.

Definition ignored_tag (user_data : Z) : Prop :=
  user_data = 0 ∨ user_data = LIBURING_UDATA_TIMEOUT.

(** Every entry written so far, in the order written: those the kernel
    holds, then those still on the submission ring. *)
Definition submitted_entries (w : World) : list io_uring_sqe :=
  k_inflight (w_kernel w) ++
  match w_uring w with
  | Some u => sq (ring u)
  | None => []
  end.

(** What the ring operations leave alone: the objects, the clock, the
    scripted waits, and of the ring its threshold, its size and its
    completions. *)
Definition ring_frame (w w' : World) : Prop :=
  same_objects w w' ∧
  k_now (w_kernel w') = k_now (w_kernel w) ∧
  k_wait (w_kernel w') = k_wait (w_kernel w) ∧
  ∃ u u',
    w_uring w = Some u ∧ w_uring w' = Some u' ∧
    sync_limit u' = sync_limit u ∧
    cq (ring u') = cq (ring u) ∧
    sq_entries (ring u') = sq_entries (ring u).

(** The places where the backend writes a new submission entry. *)
Inductive writer :=
  | WritePollAdd (a : addr)
  | WriteSendmsg (handle req : addr)
  | WriteRecvmsg (handle : addr) (hd : uv_udp_t)
  | WriteCancel (fd : Z) (a : addr).

Definition run_writer (wr : writer) : M unit :=
  match wr with
  | WritePollAdd a => submit_watcher a
  | WriteSendmsg handle req => udp_sendmsg_one handle req
  | WriteRecvmsg handle hd => udp_recvmsg_submit handle hd
  | WriteCancel fd _ => uv__uring_platform_invalidate_fd fd
  end.

(** The invalidator writes only for a registered descriptor. *)
Definition writes (wr : writer) (w : World) : Prop :=
  match wr with
  | WriteCancel fd a =>
      is_Some (w_uring w) ∧ watchers (w_loop w) !! fd = Some a
  | _ => True
  end.

Definition entry_of (wr : writer) (e : io_uring_sqe) : Prop :=
  match wr with
  | WritePollAdd a => sqe_opcode e = IORING_OP_POLL_ADD ∧ sqe_user_data e = a
  | WriteSendmsg _ req => sqe_opcode e = IORING_OP_SENDMSG ∧ sqe_user_data e = req
  | WriteRecvmsg handle _ =>
      sqe_opcode e = IORING_OP_RECVMSG ∧ sqe_user_data e = handle
  | WriteCancel _ a =>
      sqe_opcode e = IORING_OP_POLL_REMOVE ∧ sqe_addr e = a ∧ sqe_user_data e = 0
  end.

(** The flag of the entry [e] that [wr] wrote, in the world [w'] it left:
    the three batched writers flag by occupancy, the cancellation is never
    flagged. *)
Definition flagged_by_occupancy (wr : writer) (w' : World) (e : io_uring_sqe) : Prop :=
  match wr with
  | WriteCancel _ _ => sqe_flags e = 0
  | _ =>
      ∃ u', w_uring w' = Some u' ∧ last (sq (ring u')) = Some e ∧
        sqe_flags e = async_flag_for u' ∧
        (sqe_flags e = IOSQE_ASYNC ↔ sync_limit u' < io_uring_sq_ready (ring u'))
  end.

(** A ring on which 41 entries are pending, above the threshold of 40, and
    a loop with descriptor 3 registered. *)
Definition crowded_ring : uv__io_uring_data :=
  mk_uring (mk_ring (replicate 41 (sendmsg_sqe sample_req_addr 3 0)) [] IOURING_SQ_SIZE []) 40.

Definition crowded_world : World := set_uring (Some crowded_ring) sample_world.

(** The world a run ends in ([d] when it crashed). *)
Definition world_of {A} (r : result A) (d : World) : World :=
  match r with
  | Val _ w _ => w
  | Crash _ _ => d
  end.

(** ** Receive completion *)

(** The status a receive completion is reported with. *)
Definition remapped_status (status : Z) : Z :=
  if status =? UV_EBADF then UV_ECANCELED else status.

Definition read_pending (handle : addr) (w : World) : bool :=
  match w_udp w !! handle with
  | Some hd => test_flag (udp_flags hd) UV_HANDLE_READ_PENDING
  | None => false
  end.

(** The world in which the consumer's [recv_cb] is called. *)
Definition read_pending_cleared (handle : addr) (hd : uv_udp_t) (w : World) : World :=
  set_udp (insert handle
             (udp_with_flags (clear_flag (udp_flags hd) UV_HANDLE_READ_PENDING) hd)) w.

Definition truncation_flag (hd : uv_udp_t) : Z :=
  if test_flag (msg_flags (udp_h hd)) MSG_TRUNC then UV_UDP_PARTIAL else 0.

(** A handle that is closing while its receive is still pending. *)
Definition closing_world : World :=
  set_udp (insert sample_handle
             (udp_with_flags (Z.lor UV_HANDLE_CLOSING UV_HANDLE_READ_PENDING) sample_udp))
    sample_world.

(** ** Dispatch to a watcher *)

(** The test [w->fd == -1 || loop->watchers[w->fd] == NULL]: the descriptor
    was closed, or its registry slot no longer holds a watcher. *)
Definition descriptor_gone (i : uv__io_t) (w : World) : Prop :=
  io_fd i = -1 ∨ watchers (w_loop w) !! io_fd i = None.

Definition armed_mask (a : addr) (w : World) : option Z :=
  io_events <$> w_io w !! a.

(** The world in which [uv__io_start] is entered ([w->events = 0]), and the
    world after [w->events = w->pevents]. *)
Definition armed_cleared (a : addr) (i : uv__io_t) (w : World) : World :=
  set_io (insert a (io_with_events 0 i)) w.

Definition armed_again (a : addr) (w : World) : World :=
  match w_io w !! a with
  | Some i => set_io (insert a (io_with_events (io_pevents i) i)) w
  | None => w
  end.

(** A loop on which descriptor 3 has been closed and opened again: the
    socket watcher still names it, but its slot in the registry now holds
    another watcher. *)
Definition replacing_watcher : addr := 1100.

Definition replaced_world : World :=
  set_io (insert replacing_watcher (mk_io 3 POLLIN POLLIN false))
    (set_loop (fun l => mk_loop (nfds l) (nwatchers l) {[ 3 := replacing_watcher ]}
                          (watcher_queue l) (pending_queue l) (loop_time l)
                          (loop_flags l) (internal_flags l))
       sample_world).

(** The events a watcher is told of. *)
Definition masked_events (i : uv__io_t) (res : Z) : Z :=
  Z.land (to_uint32 res) (Z.lor (Z.lor (io_pevents i) POLLERR) POLLHUP).

(** The delivery of [ev] to the watcher [a], in the world [w]: nothing for
    no events, a note for later for the signal watcher, the callback for any
    other watcher. *)
Definition delivered (sig : addr) (io_cb : addr → Z → World → World)
    (l : locals) (a : addr) (ev : Z) (w : World) : result locals :=
  if ev =? 0 then Val l w []
  else if a =? sig then
    Val (with_nevents (nevents l + 1) (with_have_signals 1 l)) w []
  else
    Val (with_nevents (nevents l + 1) l) (io_cb a ev w) [EvIoCb a ev].

(** A completion that has something to tell the signal watcher, in the
    world [w] in which the drain comes to it: it carries the watcher's tag,
    the watcher's descriptor is still there, and some reported event is one
    the watcher asked for (or an error or a hang-up). *)
Definition signal_ready (sig : addr) (cqe : io_uring_cqe) (w : World) : Prop :=
  cqe_user_data cqe = sig ∧ sig ≠ 0 ∧ sig ≠ LIBURING_UDATA_TIMEOUT ∧
  w_reqs w !! sig = None ∧ w_udp w !! sig = None ∧
  ∃ i, w_io w !! sig = Some i ∧ ¬ descriptor_gone i w ∧
       masked_events i (cqe_res cqe) ≠ 0.

Definition sample_io : uv__io_t := mk_io 3 POLLIN POLLIN false.
Definition no_events_yet : locals := mk_locals (-1) (-1) 0 0 0 0 0 0.

(** ** Traces of the drive loop *)

(** [quiet p m]: every event of every run of [m] satisfies [p]. *)
Definition quiet {A} (p : event → bool) (m : M A) : Prop :=
  ∀ w, Forall (λ e, p e = true) (trace_of (m w)).

(** Predicates that hold of every event but a watcher callback and a
    wait. *)
Record harmless (p : event → bool) : Prop := mk_harmless {
  harmless_submit : ∀ r, p (EvSubmit r) = true;
  harmless_sigmask : ∀ b, p (EvSigmask b) = true;
  harmless_update_timeout : ∀ e r, p (EvUpdateTimeout e r) = true;
  harmless_io_start : ∀ a e, p (EvIoStart a e) = true;
  harmless_io_feed : ∀ a, p (EvIoFeed a) = true;
  harmless_alloc_cb : ∀ h s, p (EvAllocCb h s) = true;
  harmless_recv_cb : ∀ h n a f, p (EvRecvCb h n a f) = true
}.

Definition is_signal_cb (sig : addr) (e : event) : bool :=
  match e with
  | EvIoCb a _ => a =? sig
  | _ => false
  end.

Definition no_signal_cb (sig : addr) (e : event) : bool := negb (is_signal_cb sig e).

Definition no_wait (e : event) : bool :=
  match e with
  | EvWait _ _ _ _ => false
  | _ => true
  end.

(** The time spent inside the kernel waiting, over a trace. *)
Definition blocked_time (tr : list event) : Z :=
  foldr (λ e acc, match e with EvWait _ _ d _ => d + acc | _ => acc end) 0 tr.

(** What the drain leaves alone as long as it delivers nothing: the clock,
    the scripted waits, the loop's timestamp and the ring. *)
Definition undisturbed (w w' : World) : Prop :=
  w_kernel w' = w_kernel w ∧
  loop_time (w_loop w') = loop_time (w_loop w) ∧
  w_uring w' = w_uring w.

(** A loop whose completion ring holds a completion for the signal watcher
    (descriptor 4) ahead of one for the socket watcher (descriptor 3). *)
Definition signal_ring : uv__io_uring_data :=
  mk_uring (mk_ring [] [mk_cqe sample_signal_watcher POLLIN; mk_cqe sample_watcher POLLIN]
              IOURING_SQ_SIZE []) 40.

Definition signal_world : World :=
  mk_world (mk_loop 2 8 {[ 3 := sample_watcher; 4 := sample_signal_watcher ]} [] [] 0 0 0)
    (Some signal_ring)
    {[ sample_watcher := mk_io 3 POLLIN POLLIN false;
       sample_signal_watcher := mk_io 4 POLLIN POLLIN false ]}
    ∅ ∅ (mk_kernel 0 [] [] []).

(** ** The wait and the timeout *)

(** The kernel's answer to the next [io_uring_wait_cqes]: the result code,
    the time blocked and the world after; [None] when the call never
    returns. *)
Definition next_wait (wait_nr : Z) (ts : option Z) (w : World)
    : option (Z * Z * World) :=
  match k_wait (w_kernel w) with
  | o :: rest =>
      let d := blocked_for wait_nr ts (wo_elapsed o) in
      Some (wo_res o, d, kernel_elapse d (wo_cqes o) rest w)
  | [] =>
      if wait_nr =? 0 then Some (- EAGAIN, 0, w)
      else match ts with
           | Some t => Some (- ETIME, t, kernel_elapse t [] [] w)
           | None => None
           end
  end.

(** No scripted wait is interrupted by a signal. *)
Definition no_eintr (w : World) : Prop :=
  Forall (λ o, wo_res o ≠ - EINTR) (k_wait (w_kernel w)).

(** [assert(r == 0 || r == -EAGAIN || r == -ETIME)] *)
Definition valid_wait_result (r : Z) : bool :=
  (r =? 0) || (r =? - EAGAIN) || (r =? - ETIME).

(** The events around one wait that was not interrupted. *)
Definition wait_events (l : locals) (d r : Z) : list event :=
  (if sigmask l =? 0 then [] else [EvSigmask true]) ++
  [EvWait (wait_nr_of l) (ts_of l) d r] ++
  (if sigmask l =? 0 then [] else [EvSigmask false]).

(** The drift correction at [update_timeout], for a loop timestamp [time]. *)
Definition elapsed_since_entry (l : locals) (time : Z) : Z :=
  to_uint64 (time - base l).

Definition remaining_budget (l : locals) (time : Z) : Z :=
  to_int32 (to_uint64 (to_uint64 (real_timeout l) - elapsed_since_entry l time)).

Definition after_correction (l : locals) (time : Z) : control :=
  let real := remaining_budget l time in
  if real <=? 0 then Returned
  else Continue (with_timeout real (with_real_timeout real l)).

(** What the loop does with the timeout [timeout l] once a wait has brought
    nothing, in the world [w] and after the events [tr]: an unbounded wait
    is repeated, a non-blocking poll returns, a bounded wait is corrected
    for the time elapsed. *)
Definition timeout_verdict (l : locals) (w : World) (tr : list event)
    : result control :=
  let time := loop_time (w_loop w) in
  if timeout l =? -1 then Val (Continue l) w tr
  else if timeout l =? 0 then Val Returned w tr
  else if 0 <? timeout l then
    Val (after_correction l time) w
      (tr ++ [EvUpdateTimeout (elapsed_since_entry l time) (remaining_budget l time)])
  else Crash AssertionFailed tr.

Definition is_update_timeout (e : event) : bool :=
  match e with
  | EvUpdateTimeout _ _ => true
  | _ => false
  end.

(** The world after [uv__update_time]. *)
Definition time_updated (w : World) : World :=
  set_loop (loop_with_time (to_uint64 (k_now (w_kernel w)))) w.

(** The locals when the wait has returned: [timeout = real_timeout], then
    the caller's timeout if the zero-length probe was still pending. *)
Definition locals_after_wait (l : locals) : locals :=
  restore_user_timeout (with_timeout (real_timeout l) l).

Definition returned {A} (r : result A) : bool :=
  match r with
  | Val _ _ _ => true
  | Crash _ _ => false
  end.

(** The sample loop with a scripted kernel. *)
Definition with_waits (script : list wait_outcome) (w : World) : World :=
  set_kernel (fun k => mk_kernel (k_now k) (k_inflight k) (k_submit k) script) w.

(** Nothing is ready and the kernel says so at once. *)
Definition eagain_world : World := with_waits [mk_wait (- EAGAIN) 0 []] sample_world.

(** Nothing becomes ready within 50 ms. *)
Definition etime_world : World := with_waits [mk_wait (- ETIME) 50 []] sample_world.

(** A first wait is interrupted by a signal after 60 ms; the second one
    runs into its timeout. *)
Definition eintr_world : World :=
  with_waits [mk_wait (- EINTR) 60 []; mk_wait (- ETIME) 1000 []] sample_world.

(** ** The deadline *)

(** The state of the timeout at the head of the loop, for a call with
    timeout [T] that has so far spent [B] ms blocked: either the
    zero-length probe is still pending and the whole request is left, or the
    next wait is bounded by the remaining budget, which together with the
    time already blocked does not exceed [T]. *)
Definition budget_ok (T B : Z) (l : locals) : Prop :=
  (reset_timeout l ≠ 0 ∧ timeout l = 0 ∧ user_timeout l = T ∧ real_timeout l = T ∧
   B = 0)
  ∨ (reset_timeout l = 0 ∧ timeout l = real_timeout l ∧ 0 ≤ real_timeout l ∧
     B + real_timeout l ≤ T).

(** The loop's timestamp is current, and [base] is the timestamp at entry,
    [B] ms ago. *)
Definition clock_ok (B : Z) (l : locals) (w : World) : Prop :=
  loop_time (w_loop w) = to_uint64 (k_now (w_kernel w)) ∧
  base l = to_uint64 (k_now (w_kernel w) - B).

Definition loop_head (T B : Z) (l : locals) (w : World) : Prop :=
  have_signals l = 0 ∧ nevents l = 0 ∧ no_eintr w ∧
  0 ≤ B ∧ 0 ≤ T ≤ INT_MAX ∧
  budget_ok T B l ∧ clock_ok B l w.

(** How an iteration that goes round again leaves the locals [l1] it
    decided on. *)
Definition continues (l1 : locals) (time : Z) (l' : locals) : Prop :=
  (timeout l1 = -1 ∧ l' = l1) ∨
  (0 < timeout l1 ∧ after_correction l1 time = Continue l').

(** The clock and the scripted waits. *)
Definition same_clock (w w' : World) : Prop :=
  k_now (w_kernel w') = k_now (w_kernel w) ∧
  k_wait (w_kernel w') = k_wait (w_kernel w).

(** The locals [l'] after a correction of [l] for [elapsed] ms: the
    remaining budget has gone down by [elapsed], is still positive, and is
    the timeout of the next wait. *)
Definition corrected_by (l l' : locals) (elapsed : Z) : Prop :=
  real_timeout l' = real_timeout l - elapsed ∧
  timeout l' = real_timeout l' ∧
  0 < real_timeout l'.

(** After 20 ms the kernel posts the completion of a cancelled request
    (tag 0); nothing else ever completes. *)
Definition spurious_world : World :=
  with_waits [mk_wait 0 20 [mk_cqe 0 0]] sample_world.

(** ** One receive per handle *)

(** The submission entry of a receive started on [handle]. *)
Definition is_receive_of (handle : addr) (e : io_uring_sqe) : bool :=
  match sqe_opcode e with
  | IORING_OP_RECVMSG => sqe_user_data e =? handle
  | _ => false
  end.

Definition receives_of (handle : addr) (l : list io_uring_sqe) : list io_uring_sqe :=
  List.filter (is_receive_of handle) l.

(** The receives of [handle] written to the ring or held by the kernel and
    not completed yet. *)
Definition outstanding (handle : addr) (w : World) : nat :=
  length (receives_of handle (submitted_entries w)).

Definition receive_state (handle : addr) (w : World) : nat * bool :=
  (outstanding handle w, read_pending handle w).

(** At most one receive of [handle] is outstanding, and while one is the
    handle is marked read-pending. *)
Definition receive_guarded (handle : addr) (w : World) : Prop :=
  (outstanding handle w ≤ 1)%nat ∧
  (outstanding handle w = 1%nat → read_pending handle w = true).

(** The kernel completes the entry between [k1] and [k2] of those it holds. *)
Definition kernel_takes (k1 k2 : list io_uring_sqe) (w : World) : World :=
  set_kernel (fun k => mk_kernel (k_now k) (k1 ++ k2) (k_submit k) (k_wait k)) w.

(** What can happen to the receives of a loop: a receive is started on some
    handle, the ring is flushed to the kernel, or the kernel completes a
    receive it holds and the completion is reported. *)
Inductive receive_step (alloc_cb : addr → Z → World → World)
    (recv_cb : addr → Z → bool → Z → World → World) : World → World → Prop :=
  | start_receive handle w w' tr :
      uv__uring_udp_recvmsg alloc_cb recv_cb handle w = Val tt w' tr →
      receive_step alloc_cb recv_cb w w'
  | flush_ring w r w' tr :
      uv__io_uring_submit w = Val r w' tr →
      receive_step alloc_cb recv_cb w w'
  | receive_completes handle status w k1 e k2 w' tr :
      k_inflight (w_kernel w) = k1 ++ e :: k2 →
      is_receive_of handle e = true →
      uv__uring_udp_recvmsg_done alloc_cb recv_cb handle status (kernel_takes k1 k2 w)
        = Val tt w' tr →
      receive_step alloc_cb recv_cb w w'.

(** A consumer that lends a buffer of 64 KiB at address 5000, and one that
    starts the next receive from within its receive callback. *)
Definition lending_alloc_cb : addr → Z → World → World := fun handle _ w =>
  match w_udp w !! handle with
  | Some hd => set_udp (insert handle (udp_with_recv_buf (mk_buf 5000 65536) hd)) w
  | None => w
  end.

Definition eager_recv_cb : addr → Z → bool → Z → World → World := fun handle _ _ _ w =>
  world_of (uv__uring_udp_recvmsg lending_alloc_cb idle_recv_cb handle w) w.

(** The sample loop after a receive was started on the sample handle, and
    after that receive was flushed to the kernel and completed with 10
    bytes, the consumer starting the next one from its callback. *)
Definition receiving_world : World :=
  world_of (uv__uring_udp_recvmsg lending_alloc_cb eager_recv_cb sample_handle sample_world)
    sample_world.

Definition receiving_flushed_world : World :=
  world_of (uv__io_uring_submit receiving_world) receiving_world.

Definition redelivered_world : World :=
  world_of (uv__uring_udp_recvmsg_done lending_alloc_cb eager_recv_cb sample_handle 10
              (kernel_takes [] [] receiving_flushed_world))
    receiving_flushed_world.

(** * Further properties of the backend: vocabulary *)

(** [keeps P m]: every run of [m] that returns from a world where [P] holds
    ends in a world where [P] holds. *)
Definition keeps {A} (P : World → Prop) (m : M A) : Prop :=
  ∀ w a w' tr, P w → m w = Val a w' tr → P w'.

(** ** The submission ring *)

(** The submission ring holds no more entries than it has slots. *)
Definition within_capacity (w : World) : Prop :=
  match w_uring w with
  | Some u => io_uring_sq_ready (ring u) ≤ sq_entries (ring u)
  | None => True
  end.

(** A full ring of two slots, and a kernel that answers the next flush with
    [-EBUSY]. *)
Definition full_ring : uv__io_uring_data :=
  mk_uring (mk_ring [poll_add_sqe sample_watcher sample_io 0;
                     poll_add_sqe sample_watcher sample_io 0] [] 2 []) 40.

Definition full_world : World := set_uring (Some full_ring) sample_world.

Definition busy_world : World :=
  set_kernel (fun k => mk_kernel (k_now k) (k_inflight k) [Refused UV_EBUSY] (k_wait k))
    full_world.

(** [fails_with Q m]: a run of [m] that does not return fails for a reason
    in [Q]. *)
Definition fails_with {A} (Q : failure → Prop) (m : M A) : Prop :=
  ∀ w f tr, m w = Crash f tr → Q f.

(** A failure of the code itself, as opposed to a bound of the model. *)
Definition genuine (f : failure) : Prop := f ≠ OutOfFuel.

(** ** The send queues of a datagram handle *)

(** The requests linked on the three send queues of a handle. *)
Definition queued_requests (hd : uv_udp_t) : list addr :=
  write_queue hd ++ write_pending_queue hd ++ write_completed_queue hd.

(** The entries of [es] are datagram sends, tagged in order with the
    requests [reqs]. *)
Definition sends_of (reqs : list addr) (es : list io_uring_sqe) : Prop :=
  map sqe_user_data es = reqs ∧
  Forall (λ e, sqe_opcode e = IORING_OP_SENDMSG ∧ sqe_addr e = sqe_user_data e) es.

(** What [uv__uring_udp_sendmsg] leaves behind for a handle that was [hd]:
    the pending requests have moved, in order, to the tail of the queue of
    requests in flight, and one send has been written for each. *)
Definition sendmsg_post (handle : addr) (hd : uv_udp_t) (w w' : World) : Prop :=
  ∃ hd' es,
    w_udp w' !! handle = Some hd' ∧
    write_queue hd' = [] ∧
    write_pending_queue hd' = write_pending_queue hd ++ write_queue hd ∧
    write_completed_queue hd' = write_completed_queue hd ∧
    submitted_entries w' = submitted_entries w ++ es ∧
    sends_of (write_queue hd) es.

(** A handle with two datagrams to send, to an IPv4 and to an IPv6 peer. *)
Definition second_req_addr : addr := 2100.

Definition two_sends_world : World :=
  set_reqs (insert second_req_addr
              (mk_req sample_handle 0 AF_INET6 1 msghdr_zero UV__URING_NONE))
    (set_udp (insert sample_handle
                (mk_udp 0 sample_watcher [sample_req_addr; second_req_addr] [] []
                   (mk_buf 0 0) msghdr_zero UV__URING_NONE))
       sample_world).

(** The queues of a handle after the completion of [req] with [status]:
    a transient status puts the request back at the tail of the pending
    requests, any other at the tail of the completed ones. *)
Definition queues_after_completion (req : addr) (status : Z) (hd hd' : uv_udp_t) : Prop :=
  if transient_status status then
    write_queue hd' = queue_remove req (write_queue hd) ++ [req] ∧
    write_pending_queue hd' = queue_remove req (write_pending_queue hd) ∧
    write_completed_queue hd' = queue_remove req (write_completed_queue hd)
  else
    write_queue hd' = queue_remove req (write_queue hd) ∧
    write_pending_queue hd' = queue_remove req (write_pending_queue hd) ∧
    write_completed_queue hd' = queue_remove req (write_completed_queue hd) ++ [req].

(** The sample handle with its request in flight and a second request
    pending, together with a second handle that owns a request of its own. *)
Definition other_handle : addr := 3100.
Definition other_req_addr : addr := 2200.

Definition two_handles_world : World :=
  set_reqs (insert second_req_addr
              (mk_req sample_handle 0 AF_INET6 1 msghdr_zero UV__URING_NONE))
    (set_udp (insert other_handle
                (mk_udp 0 sample_watcher [other_req_addr] [] [] (mk_buf 0 0)
                   msghdr_zero UV__URING_NONE))
       (set_udp (insert sample_handle
                   (mk_udp 0 sample_watcher [second_req_addr] [sample_req_addr] []
                      (mk_buf 0 0) msghdr_zero UV__URING_NONE))
          sample_world)).

(** ** The events of one dispatch *)

(** The test [w->fd == -1 || loop->watchers[w->fd] == NULL], as a boolean. *)
Definition descriptor_goneb (i : uv__io_t) (w : World) : bool :=
  (io_fd i =? -1) || bool_decide (watchers (w_loop w) !! io_fd i = None).

(** What the dispatch of a completion [res] to the watcher [a] (which is
    [i] when the completion is taken up) lets out of the backend: nothing
    for a descriptor that is gone; otherwise the re-arming of a watcher that
    is not one-shot, followed by the callback if an event the watcher asked
    for is reported and the watcher is not the signal watcher. *)
Definition dispatch_events (sig a : addr) (i : uv__io_t) (res : Z) (w : World)
    : list event :=
  if descriptor_goneb i w then []
  else
    (if io_oneshot i then [] else [EvIoStart a (io_pevents i)]) ++
    (if (masked_events i res =? 0) || (a =? sig) then []
     else [EvIoCb a (masked_events i res)]).

(** A one-shot watcher on descriptor 5. *)
Definition oneshot_watcher : addr := 1100.

Definition oneshot_world : World :=
  set_io (insert oneshot_watcher (mk_io 5 POLLIN POLLIN true))
    (set_loop (loop_register 5 oneshot_watcher) sample_world).

(** ** A receive for which the consumer has no buffer *)

(** The world in which the consumer's [alloc_cb] is called: the receive
    buffer of the handle has been reset. *)
Definition recv_buf_reset (handle : addr) (hd : uv_udp_t) (w : World) : World :=
  set_udp (insert handle (udp_with_recv_buf (mk_buf 0 0) hd)) w.

Definition no_buffer (hd : uv_udp_t) : Prop :=
  buf_base (recv_buf hd) = 0 ∨ buf_len (recv_buf hd) = 0.

(** ** The watcher submission stage of the poll *)

(** What the stage leaves behind for the watchers [q] that were pending
    registration: the list is empty, every watcher on it is armed with the
    events it asked for, one poll request has been written for each, in the
    order of the list, and no other watcher has been touched. *)
Definition watchers_submitted (q : list addr) (w w' : World) : Prop :=
  watcher_queue (w_loop w') = [] ∧
  (∀ a i, a ∉ q → w_io w !! a = Some i → w_io w' !! a = Some i) ∧
  ∃ es,
    submitted_entries w' = submitted_entries w ++ es ∧
    Forall2 (λ a e, ∃ i, w_io w !! a = Some i ∧ io_pevents i ≠ 0 ∧
                         w_io w' !! a = Some (io_with_events (io_pevents i) i) ∧
                         e = poll_add_sqe a i (sqe_flags e)) q es.

(** The sample loop with its two watchers pending registration. *)
Definition pending_world : World :=
  set_loop (loop_with_watcher_queue [sample_watcher; sample_signal_watcher]) signal_world.

(** ** A poll that must not block *)

(** An event that takes no time: anything but a wait the kernel held. *)
Definition instant (e : event) : bool :=
  match e with
  | EvWait _ _ d _ => d =? 0
  | _ => true
  end.

(** The locals of a non-blocking poll at the head of the loop. *)
Definition nonblocking (l : locals) : Prop :=
  timeout l = 0 ∧ real_timeout l = 0 ∧ user_timeout l = 0 ∧ nevents l = 0.

(** A kernel whose first answer to a non-blocking wait is an interruption. *)
Definition interrupted_probe_world : World :=
  with_waits [mk_wait (- EINTR) 70 []; mk_wait (- EAGAIN) 30 []] sample_world.

(** ** Waiting and delivering *)

(** An event by which the consumer learns of something: one of its
    callbacks is run, or a handle's watcher is woken for it. *)
Definition delivery (e : event) : bool :=
  match e with
  | EvIoCb _ _ | EvAllocCb _ _ | EvRecvCb _ _ _ _ | EvIoFeed _ => true
  | _ => false
  end.

Definition no_delivery (e : event) : bool := negb (delivery e).

(** No wait follows the first delivery of the trace. *)
Fixpoint waits_before_deliveries (tr : list event) : bool :=
  match tr with
  | [] => true
  | e :: tr' => if delivery e then forallb no_wait tr' else waits_before_deliveries tr'
  end.

(** A kernel that reports, after 20 ms, the completion of a cancelled
    request and an event for the socket watcher, and would then keep a
    further wait for a second. *)
Definition eventful_world : World :=
  with_waits [mk_wait 0 20 [mk_cqe 0 0; mk_cqe sample_watcher POLLIN];
              mk_wait (- ETIME) 1000 []] sample_world.

(** * Loop set-up, tear-down and the descriptor check *)

Definition ENOMEM : Z := 12.
Definition EINVAL : Z := 22.
Definition UV_ENOMEM : Z := UV__ERR ENOMEM.
Definition UV_EINVAL : Z := UV__ERR EINVAL.
Definition POLLNVAL : Z := 32.

(** The calls by which set-up and tear-down leave linux-io-uring.c:
    [uv__malloc] (with whether it gave a block), [uv__free],
    [io_uring_queue_init] (with its arguments and result),
    [io_uring_queue_exit], [uv__io_stop] on the inotify watcher and
    [uv__close]. *)
Inductive platform_call :=
  | CallMalloc (ok : bool)
  | CallFree
  | CallQueueInit (entries flags r : Z)
  | CallQueueExit
  | CallIoStop (events : Z)
  | CallClose (fd : Z).

(** The loop as set-up and tear-down see it: the ring is [w_uring] of the
    world, the other fields they touch are kept beside it
    ([inotify_read_watcher] is the address of the watcher embedded in the
    loop), and the calls made so far are logged, latest last. *)
Record platform := mk_platform {
  pl_world : World;
  backend_fd : Z;
  inotify_fd : Z;
  inotify_watchers : option addr;
  inotify_read_watcher : addr;
  pl_calls : list platform_call
}.

Definition uv__get_io_uring (p : platform) : option uv__io_uring_data :=
  w_uring (pl_world p).

(** The ring [io_uring_queue_init] sets up: nothing pending, nothing
    completed, every slot free and zeroed. *)
Definition fresh_ring : io_uring :=
  mk_ring [] [] IOURING_SQ_SIZE (replicate (Z.to_nat IOURING_SQ_SIZE) blank_sqe).

(** [uv__uring_platform_loop_init], for an allocator that gives a block or
    not ([alloc]) and an [io_uring_queue_init] that answers [r], leaving
    [errno]. *)
Definition uv__uring_platform_loop_init (alloc : bool) (r errno : Z) (p : platform)
    : Z * platform :=
  let w := set_uring None (pl_world p) in
  if negb alloc then
    (UV_ENOMEM,
     mk_platform w (-1) (-1) None (inotify_read_watcher p)
       (pl_calls p ++ [CallMalloc false]))
  else if negb (r =? 0) then
    (UV__ERR errno,
     mk_platform w (-1) (-1) None (inotify_read_watcher p)
       (pl_calls p ++ [CallMalloc true; CallQueueInit IOURING_SQ_SIZE 0 r; CallFree]))
  else
    (0,
     mk_platform
       (set_uring (Some (mk_uring fresh_ring 40)) w)
       (-1) (-1) None (inotify_read_watcher p)
       (pl_calls p ++ [CallMalloc true; CallQueueInit IOURING_SQ_SIZE 0 r])).

(** [uv__uring_platform_loop_delete]; [None] when an assertion of
    [uv__io_stop] fails. *)
Definition uv__uring_platform_loop_delete (p : platform) : option platform :=
  let p1 :=
    match uv__get_io_uring p with
    | Some _ =>
        mk_platform (set_uring None (pl_world p)) (backend_fd p) (inotify_fd p)
          (inotify_watchers p) (inotify_read_watcher p)
          (pl_calls p ++ [CallQueueExit; CallFree])
    | None => p
    end in
  if inotify_fd p1 =? -1 then Some p1
  else
    match uv__io_stop (inotify_read_watcher p1) POLLIN (pl_world p1) with
    | Val _ w' _ =>
        Some (mk_platform w' (backend_fd p1) (-1) (inotify_watchers p1)
                (inotify_read_watcher p1)
                (pl_calls p1 ++ [CallIoStop POLLIN; CallClose (inotify_fd p1)]))
    | Crash _ _ => None
    end.

(** What [uv__io_stop(loop, a, POLLIN)] makes of the watcher [a], when it
    was started: POLLIN is out of its requested mask, and a watcher left
    requesting nothing is neither pending registration nor in the registry
    under its descriptor. *)
Definition inotify_stopped (a : addr) (w w' : World) : Prop :=
  ∀ i, w_io w !! a = Some i → 0 ≤ io_fd i < nwatchers (w_loop w) →
    ∃ i', w_io w' !! a = Some i' ∧
      io_pevents i' = Z.land (io_pevents i) (Z.lnot POLLIN) ∧
      (io_pevents i' = 0 →
         (a ∉ watcher_queue (w_loop w')) ∧ watchers (w_loop w') !! io_fd i = None).

(** What tear-down leaves of the objects: the requests and the datagram
    handles, and every watcher but the inotify watcher [a]. *)
Definition objects_but (a : addr) (w w' : World) : Prop :=
  w_reqs w' = w_reqs w ∧ w_udp w' = w_udp w ∧
  ∀ b, b ≠ a → w_io w' !! b = w_io w !! b.

(** The blocks and the rings the logged calls leave behind. *)
Definition live_blocks (calls : list platform_call) : Z :=
  foldr (λ c n, match c with
                | CallMalloc true => n + 1
                | CallFree => n - 1
                | _ => n
                end) 0 calls.

Definition open_rings (calls : list platform_call) : Z :=
  foldr (λ c n, match c with
                | CallQueueInit _ _ r => if r =? 0 then n + 1 else n
                | CallQueueExit => n - 1
                | _ => n
                end) 0 calls.

(** The number of rings the loop holds (0 or 1), and the descriptors the
    logged calls closed, in order. *)
Definition rings_held (p : platform) : Z :=
  match uv__get_io_uring p with
  | Some _ => 1
  | None => 0
  end.

Definition closed_fds (calls : list platform_call) : list Z :=
  flat_map (λ c, match c with CallClose fd => [fd] | _ => [] end) calls.

(** The inotify watcher of the sample loop. *)
Definition sample_inotify_watcher : addr := 5000.

(** A loop before set-up, with an inotify descriptor open. *)
Definition raw_platform : platform :=
  mk_platform (set_uring None sample_world) 7 9 None sample_inotify_watcher [].

(** The loop after a successful set-up, once inotify has been started on
    descriptor 5: its watcher is registered beside the socket's and asks
    for POLLIN. *)
Definition running_platform : platform :=
  mk_platform
    (set_io (insert sample_inotify_watcher (mk_io 5 POLLIN POLLIN false))
       (set_loop (loop_register 5 sample_inotify_watcher) sample_world))
    (-1) 5 None sample_inotify_watcher
    [CallMalloc true; CallQueueInit IOURING_SQ_SIZE 0 0].

(** ** [uv__uring_io_check_fd] *)

(** One answer of [poll(p, 1, 0)]: its result, [errno], and the [revents]
    it left in [p]. *)
Record poll_answer := mk_poll_answer {
  pa_rv : Z;
  pa_errno : Z;
  pa_revents : Z
}.

(** A call of [poll] as the code makes it: the descriptor, the events asked
    for and the timeout. *)
Record poll_call := mk_poll_call {
  pc_fd : Z;
  pc_events : Z;
  pc_timeout : Z
}.

(** [rv == -1 && (errno == EINTR || errno == EAGAIN)] *)
Definition poll_interrupted (a : poll_answer) : bool :=
  (pa_rv a =? -1) && ((pa_errno a =? EINTR) || (pa_errno a =? EAGAIN)).

(** The [do ... while] loop over the answers the kernel gives, in order.
    It yields the calls made and, unless the answers run out, the answer
    that ended the loop with the answers not used. *)
Fixpoint poll_retry (fd : Z) (answers : list poll_answer)
    : list poll_call * option (poll_answer * list poll_answer) :=
  match answers with
  | [] => ([], None)
  | a :: rest =>
      if poll_interrupted a then
        let (calls, r) := poll_retry fd rest in
        (mk_poll_call fd POLLIN 0 :: calls, r)
      else ([mk_poll_call fd POLLIN 0], Some (a, rest))
  end.

Definition uv__uring_io_check_fd (fd : Z) (answers : list poll_answer)
    : list poll_call * option (Z * list poll_answer) :=
  let (calls, r) := poll_retry fd answers in
  (calls,
   match r with
   | None => None
   | Some (a, rest) =>
       Some (if pa_rv a =? -1 then UV__ERR (pa_errno a)
             else if negb (Z.land (pa_revents a) POLLNVAL =? 0) then UV_EINVAL
             else 0,
             rest)
   end).

(** The verdict on the answer that ends the loop. *)
Definition check_verdict (a : poll_answer) : Z :=
  if pa_rv a =? -1 then - pa_errno a
  else if Z.testbit (pa_revents a) 5 then UV_EINVAL
  else 0.

(** ** The completions the drain takes up *)

(** The completions that are ready on the ring. *)
Definition completions (w : World) : list io_uring_cqe :=
  match w_uring w with
  | Some u => cq (ring u)
  | None => []
  end.

(** The completion ring holds [c]. *)
Definition ready (c : list io_uring_cqe) (w : World) : Prop := completions w = c.

(** A loop whose completion ring holds three completions: one of a
    cancelled request, one for the socket watcher and one for a send. *)
Definition batch_world : World :=
  set_uring (Some (mk_uring (mk_ring [] [mk_cqe 0 0; mk_cqe sample_watcher POLLIN;
                                         mk_cqe sample_req_addr 10]
                               IOURING_SQ_SIZE []) 40)) sample_world.

(** What starting a receive with the consumer's buffer leaves behind, for a
    handle that was [hd1] when the allocator returned in the world [w1]:
    the handle is marked read-pending, its message header names the one
    buffer and has room for any peer address, and one receive on the
    handle's descriptor has been written, tagged with the handle. *)
Definition recv_started (handle : addr) (hd1 : uv_udp_t) (w1 w' : World) : Prop :=
  ∃ hd' i e,
    w_udp w' !! handle = Some hd' ∧
    test_flag (udp_flags hd') UV_HANDLE_READ_PENDING = true ∧
    recv_buf hd' = recv_buf hd1 ∧
    udp_h hd' = mk_msghdr (Some handle) sizeof_sockaddr_storage 1 0 ∧
    udp_uring_req_type hd' = UV__URING_UDP_RECVMSG ∧
    w_io w1 !! udp_io_watcher hd1 = Some i ∧
    submitted_entries w' = submitted_entries w1 ++ [e] ∧
    e = recvmsg_sqe handle (io_fd i) (sqe_flags e).

(** ** The profiling signal around the waits *)

(** Whether the loop was asked to keep SIGPROF away from its waits. *)
Definition blocks_sigprof (w : World) : bool :=
  test_flag (loop_flags (w_loop w)) UV_LOOP_BLOCK_SIGPROF.

(** The events of the loop outside its waits: everything but a change of
    the signal mask and a wait. *)
Definition outside_wait (e : event) : bool :=
  match e with
  | EvSigmask _ | EvWait _ _ _ _ => false
  | _ => true
  end.

(** The events of handling completions and of registering watchers: the
    submissions, the re-arming of watchers and what the consumer is told. *)
Definition completion_work (e : event) : bool :=
  match e with
  | EvSigmask _ | EvWait _ _ _ _ | EvUpdateTimeout _ _ => false
  | _ => true
  end.

Definition is_wait (e : event) : bool :=
  match e with
  | EvWait _ _ _ _ => true
  | _ => false
  end.

Definition no_event (e : event) : bool := false.

(** [mask_run blocking blocked tr] follows the signal mask along [tr], begun
    with SIGPROF [blocked], and gives the state of the mask at the end.  It
    gives [None] as soon as the trace leaves the discipline: the mask is
    changed though the loop is not [blocking], or to the state it is in
    already; a wait is made with the signal unblocked though the loop is
    [blocking] (or blocked though it is not); or anything but a wait
    happens while the signal is blocked. *)
Fixpoint mask_run (blocking blocked : bool) (tr : list event) : option bool :=
  match tr with
  | [] => Some blocked
  | EvSigmask b :: tr =>
      if blocking && xorb b blocked then mask_run blocking b tr else None
  | EvWait _ _ _ _ :: tr =>
      if eqb blocked blocking then mask_run blocking blocked tr else None
  | _ :: tr =>
      if blocked then None else mask_run blocking blocked tr
  end.

(** A run keeps the discipline from the mask state [b]; one that returns
    leaves the mask in the state [b']. *)
Definition masked_result {A} (blocking b b' : bool) (r : result A) : Prop :=
  match r with
  | Val _ _ tr => mask_run blocking b tr = Some b'
  | Crash _ tr => is_Some (mask_run blocking b tr)
  end.

Definition masks {A} (blocking b b' : bool) (m : M A) : Prop :=
  ∀ w, masked_result blocking b b' (m w).

(** [l'] is [l] but for the two counters of the drain. *)
Definition counters_apart (l l' : locals) : Prop :=
  timeout l' = timeout l ∧ real_timeout l' = real_timeout l ∧ base l' = base l ∧
  sigmask l' = sigmask l ∧ reset_timeout l' = reset_timeout l ∧
  user_timeout l' = user_timeout l.

(** The loop goes round with the signal set it began with. *)
Definition same_sigmask (l : locals) (c : control) : Prop :=
  match c with
  | Returned => True
  | Continue l' => sigmask l' = sigmask l
  end.

(** ** A poll without a timeout *)

(** An event that bounds a wait: a wait given a deadline, or the
    arithmetic at [update_timeout] that shortens the next one. *)
Definition no_deadline (e : event) : bool :=
  match e with
  | EvWait _ (Some _) _ _ | EvUpdateTimeout _ _ => false
  | _ => true
  end.

(** The locals of a poll entered with timeout -1, at the head of the loop:
    the timeout is -1, or it is the 0 of the first pass of a loop that
    measures its idle time, with -1 set aside to be restored. *)
Definition unbounded (l : locals) : Prop :=
  real_timeout l = -1 ∧ (timeout l = -1 ∨ timeout l = 0) ∧
  (if reset_timeout l =? 0 then timeout l = -1 else user_timeout l = -1).

(** [yields Q m]: whatever [m] returns satisfies [Q]. *)
Definition yields {A} (Q : A → Prop) (m : M A) : Prop :=
  ∀ w a w' tr, m w = Val a w' tr → Q a.

(** Every wait the kernel is scripted to answer comes back without a
    completion: interrupted by a signal, woken for nothing, timed out, or
    told that nothing is ready. *)
Definition barren (w : World) : Prop :=
  Forall (λ o, wo_cqes o = [] ∧
               (wo_res o = - EINTR ∨ wo_res o = 0 ∨ wo_res o = - ETIME ∨
                wo_res o = - EAGAIN))
    (k_wait (w_kernel w)).

(** [outcome Q F r]: a result [r] that is a value satisfies [Q], one that
    is a failure satisfies [F]. *)
Definition outcome {A} (Q : A → World → Prop) (F : failure → Prop)
    (r : result A) : Prop :=
  match r with
  | Val a w _ => Q a w
  | Crash f _ => F f
  end.

(** The loop has its ring, nothing has completed and nothing will. *)
Definition starved (w : World) : Prop :=
  is_Some (w_uring w) ∧ completions w = [] ∧ barren w.

(** Nothing is left to hand to the kernel: no watcher awaits registration
    and no entry is pending on the ring. *)
Definition all_submitted (w : World) : Prop :=
  watcher_queue (w_loop w) = [] ∧
  ∀ u, w_uring w = Some u → sq (ring u) = [].

(** The loop at the head of a pass that has counted no event, with
    nothing completed and nothing to come. *)
Definition waiting_in_vain (l : locals) (w : World) : Prop :=
  unbounded l ∧ have_signals l = 0 ∧ nevents l = 0 ∧ starved w.

(** The passes the loop can still make before the kernel has no answer
    left: one for each scripted wait, and one for the zero-length probe of
    a loop that measures its idle time. *)
Definition passes_left (l : locals) (w : World) : nat :=
  (length (k_wait (w_kernel w)) + (if (timeout l =? 0)%Z then 1 else 0))%nat.

(** A kernel that interrupts the first wait, wakes the second one for
    nothing, lets the third one lapse and then stays silent. *)
Definition barren_world : World :=
  with_waits [mk_wait (- EINTR) 70 []; mk_wait 0 30 []; mk_wait (- ETIME) 10 []]
    sample_world.

(** * Properties *)

(** ** The monad *)

Lemma prepend_nil {A} (r : result A) : prepend [] r = r.
Proof. by destruct r. Qed.

Lemma prepend_prepend {A} tr1 tr2 (r : result A) :
  prepend tr1 (prepend tr2 r) = prepend (tr1 ++ tr2) r.
Proof. destruct r; simpl; by rewrite app_assoc. Qed.

Lemma trace_of_prepend {A} tr (r : result A) :
  trace_of (prepend tr r) = tr ++ trace_of r.
Proof. by destruct r. Qed.

Lemma bind_val {A B} (m : M A) (f : A → M B) w a w1 tr1 :
  m w = Val a w1 tr1 → bind m f w = prepend tr1 (f a w1).
Proof. intros H. unfold bind. by rewrite H. Qed.

Lemma bind_crash {A B} (m : M A) (f : A → M B) w e tr :
  m w = Crash e tr → bind m f w = Crash e tr.
Proof. intros H. unfold bind. by rewrite H. Qed.

Lemma bind_inv_val {A B} (m : M A) (f : A → M B) w b w2 tr :
  bind m f w = Val b w2 tr →
  ∃ a w1 tr1 tr2,
    m w = Val a w1 tr1 ∧ f a w1 = Val b w2 tr2 ∧ tr = tr1 ++ tr2.
Proof.
  unfold bind. destruct (m w) as [a w1 tr1|]; [|done].
  destruct (f a w1) as [b' w2' tr2|] eqn:Hf; [|done].
  simpl. intros [= -> -> <-]. by exists a, w1, tr1, tr2.
Qed.

Lemma prepend_inv_val {A} tr1 (r : result A) a w tr :
  prepend tr1 r = Val a w tr → ∃ tr2, r = Val a w tr2 ∧ tr = tr1 ++ tr2.
Proof. destruct r; [|done]. simpl. intros [= -> -> <-]. eauto. Qed.

(** ** Queues *)

Lemma queue_mem_true a q : queue_mem a q = true ↔ a ∈ q.
Proof. unfold queue_mem. apply bool_decide_eq_true. Qed.

Lemma queue_remove_not_in a q : a ∉ queue_remove a q.
Proof. unfold queue_remove. rewrite list_elem_of_filter. tauto. Qed.

Lemma queue_remove_length a q :
  (length (queue_remove a q) ≤ length q)%nat.
Proof. unfold queue_remove. apply length_filter. Qed.

Lemma queue_remove_head_length a q :
  (length (queue_remove a (a :: q)) ≤ length q)%nat.
Proof.
  unfold queue_remove. rewrite filter_cons_False by tauto. apply length_filter.
Qed.

(** ** Inversion of the primitive steps *)

Lemma ret_inv {A} (a b : A) w w' tr :
  ret a w = Val b w' tr → b = a ∧ w' = w ∧ tr = [].
Proof. unfold ret. by intros [= -> -> <-]. Qed.

Lemma gets_inv {A} (f : World → A) b w w' tr :
  gets f w = Val b w' tr → b = f w ∧ w' = w ∧ tr = [].
Proof. unfold gets. by intros [= <- <- <-]. Qed.

Lemma get_inv b w w' tr : get w = Val b w' tr → b = w ∧ w' = w ∧ tr = [].
Proof. unfold get. by intros [= <- <- <-]. Qed.

Lemma modify_inv f w (u : unit) w' tr :
  modify f w = Val u w' tr → w' = f w ∧ tr = [].
Proof. unfold modify. by intros [= <- <-]. Qed.

Lemma emit_inv e w (u : unit) w' tr :
  emit e w = Val u w' tr → w' = w ∧ tr = [e].
Proof. unfold emit. by intros [= <- <-]. Qed.

Lemma assert_inv b w (u : unit) w' tr :
  assert b w = Val u w' tr → b = true ∧ w' = w ∧ tr = [].
Proof. unfold assert. destruct b; [|done]. unfold ret. by intros [= <- <-]. Qed.

Lemma load_io_inv a i w w' tr :
  load_io a w = Val i w' tr → w_io w !! a = Some i ∧ w' = w ∧ tr = [].
Proof.
  unfold load_io, bind, get. destruct (w_io w !! a); [|done].
  cbn. by intros [= <- <- <-].
Qed.

Lemma load_req_inv a r w w' tr :
  load_req a w = Val r w' tr → w_reqs w !! a = Some r ∧ w' = w ∧ tr = [].
Proof.
  unfold load_req, bind, get. destruct (w_reqs w !! a); [|done].
  cbn. by intros [= <- <- <-].
Qed.

Lemma load_udp_inv a h w w' tr :
  load_udp a w = Val h w' tr → w_udp w !! a = Some h ∧ w' = w ∧ tr = [].
Proof.
  unfold load_udp, bind, get. destruct (w_udp w !! a); [|done].
  cbn. by intros [= <- <- <-].
Qed.

Lemma load_uring_inv u w w' tr :
  load_uring w = Val u w' tr → w_uring w = Some u ∧ w' = w ∧ tr = [].
Proof.
  unfold load_uring, bind, get. destruct (w_uring w); [|done].
  cbn. by intros [= <- <- <-].
Qed.

Lemma load_io_eq a i w : w_io w !! a = Some i → load_io a w = Val i w [].
Proof. intros H. unfold load_io, bind, get. by rewrite H. Qed.

Lemma load_req_eq a r w : w_reqs w !! a = Some r → load_req a w = Val r w [].
Proof. intros H. unfold load_req, bind, get. by rewrite H. Qed.

Lemma load_udp_eq a h w : w_udp w !! a = Some h → load_udp a w = Val h w [].
Proof. intros H. unfold load_udp, bind, get. by rewrite H. Qed.

(** Splits a run of [x <- m;; k] that returned into the run of [m] and the
    run of [k]. *)
Ltac bind_inv H :=
  let a := fresh "a" in
  let w := fresh "w" in
  let tr1 := fresh "tr" in
  let tr2 := fresh "tr" in
  let Hm := fresh "Hm" in
  apply bind_inv_val in H as (a & w & tr1 & tr2 & Hm & H & ->).

(** The same, naming the value and the world in between. *)
Ltac bind_inv_as H a w :=
  let tr1 := fresh "tr" in
  let tr2 := fresh "tr" in
  let Hm := fresh "Hm" in
  apply bind_inv_val in H as (a & w & tr1 & tr2 & Hm & H & ->).

(** Resolves a primitive step that returned. *)
Ltac prim_inv H :=
  first
    [ apply ret_inv in H as (-> & -> & ->)
    | apply gets_inv in H as (-> & -> & ->)
    | apply get_inv in H as (-> & -> & ->)
    | apply modify_inv in H as (-> & ->)
    | apply emit_inv in H as (-> & ->)
    | apply assert_inv in H as (? & -> & ->)
    | apply load_io_inv in H as (? & -> & ->)
    | apply load_req_inv in H as (? & -> & ->)
    | apply load_udp_inv in H as (? & -> & ->)
    | apply load_uring_inv in H as (? & -> & ->) ].

(** One primitive step of a run that returned: splits it off and resolves
    it. *)
Ltac step H :=
  let a := fresh "a" in
  let w := fresh "w" in
  let tr1 := fresh "tr" in
  let tr2 := fresh "tr" in
  let Hm := fresh "Hm" in
  apply bind_inv_val in H as (a & w & tr1 & tr2 & Hm & H & ->);
  prim_inv Hm; try discriminate.

Lemma bind_ext {A B} (m : M A) (f g : A → M B) w :
  (∀ a w', f a w' = g a w') → bind m f w = bind m g w.
Proof. intros H. unfold bind. destruct (m w); [|done]. by rewrite H. Qed.

(** Case analysis on the test at the head of a run. *)
Ltac case_if H :=
  match type of H with
  | (if ?b then _ else _) _ = _ => destruct b eqn:?
  | (match ?b with _ => _ end) _ = _ => destruct b eqn:?
  | (if ?b then _ else _) = _ => destruct b eqn:?
  end.

(** ** The poll entry point on a loop that watches nothing *)

(** C10.  With [nfds == 0] (and the pending-registration list empty, which
    the code asserts) [uv__uring_io_poll] returns at once, whatever the
    timeout and the callbacks: the world is unchanged and the trace is empty,
    so nothing was submitted, no wait was entered and no callback ran. *)
Theorem io_poll_nothing_watched sig io_cb alloc_cb recv_cb fuel timeout w :
  nfds (w_loop w) = 0 →
  watcher_queue (w_loop w) = [] →
  uv__uring_io_poll sig io_cb alloc_cb recv_cb fuel timeout w = Val tt w [].
Proof.
  intros Hn Hq. unfold uv__uring_io_poll, bind, gets.
  rewrite Hn. simpl. rewrite Hq. reflexivity.
Qed.

Lemma io_poll_nothing_watched_witness :
  uv__uring_io_poll sample_signal_watcher idle_io_cb idle_alloc_cb idle_recv_cb
      0 (-1) empty_world
    = Val tt empty_world [].
Proof. apply io_poll_nothing_watched; reflexivity. Defined.

(** ** Send completion *)

Lemma transient_status_spec status :
  transient_status status = true ↔ would_block status ∨ no_buffer_space status.
Proof.
  unfold transient_status, would_block, no_buffer_space.
  rewrite orb_true_iff, !Z.eqb_eq. tauto.
Qed.

Lemma sendmsg_done_test status :
  (status =? UV_EAGAIN) || (status =? UV__ERR EWOULDBLOCK) || (status =? UV_ENOBUFS)
  = transient_status status.
Proof.
  unfold transient_status, UV_EAGAIN, UV_ENOBUFS, UV__ERR, EWOULDBLOCK.
  by destruct (status =? - EAGAIN), (status =? - ENOBUFS).
Qed.

Lemma others_out req q : req ∉ others req q.
Proof. unfold others. rewrite list_elem_of_filter. by intros [? _]. Qed.

(** C8.  A send completion moves the request back to the pending queue
    exactly when the status is would-block or no-buffer-space; with every
    other status the request ends on the completed queue with the status
    recorded and the handle's watcher is woken ([uv__io_feed]).  Either
    way the request has left the queue of requests in flight and is linked
    once, at the tail of the queue it moved to, and the other requests of
    the handle keep their queues and their order. *)
Theorem udp_sendmsg_done_outcome req status w r hd :
  w_reqs w !! req = Some r →
  w_udp w !! req_handle r = Some hd →
  sendmsg_done_post req status w r hd (uv__uring_udp_sendmsg_done req status w)
  ∧ (transient_status status = true ↔ would_block status ∨ no_buffer_space status).
Proof.
  intros Hr Hh. split; [|apply transient_status_spec].
  unfold sendmsg_done_post, uv__uring_udp_sendmsg_done.
  unfold bind at 1. unfold load_req at 1. unfold bind at 1, get. rewrite Hr.
  cbn [ret prepend app]. rewrite sendmsg_done_test.
  destruct (transient_status status) eqn:E.
  - unfold QUEUE_REMOVE_req, load_udp, store_udp, bind, modify, get, ret. cbn.
    rewrite lookup_fmap, Hh. cbn.
    eexists _, r, _. split; [reflexivity|]. cbn.
    rewrite lookup_insert_eq. split; [done|]. split; [reflexivity|]. cbn.
    split; [apply others_out|]. split; [reflexivity|].
    split; [reflexivity|]. split; [reflexivity|].
    split; [apply others_out|]. done.
  - unfold QUEUE_REMOVE_req, load_udp, store_req, store_udp, uv__io_feed, bind,
      modify, get, gets, emit, ret, when. cbn.
    rewrite lookup_fmap, Hh. cbn. rewrite lookup_insert_eq. cbn.
    destruct (queue_mem (udp_io_watcher hd) (pending_queue (w_loop w))) eqn:Hm; cbn.
    + eexists _, _, _. split; [reflexivity|]. cbn.
      rewrite !lookup_insert_eq. split; [done|]. split; [reflexivity|]. cbn.
      split; [apply others_out|]. split; [reflexivity|].
      split; [reflexivity|]. split; [apply others_out|].
      split; [reflexivity|]. split; [reflexivity|].
      by apply queue_mem_true.
    + eexists _, _, _. split; [reflexivity|]. cbn.
      rewrite !lookup_insert_eq. split; [done|]. split; [reflexivity|]. cbn.
      split; [apply others_out|]. split; [reflexivity|].
      split; [reflexivity|]. split; [apply others_out|].
      split; [reflexivity|]. split; [reflexivity|].
      unfold queue_insert_tail. set_solver.
Qed.

(** A request in flight bounces with no-buffer-space and is pending again;
    the same request completes with 10 bytes sent and is on the completed
    queue. *)
Lemma udp_sendmsg_done_outcome_witness :
  write_pending_queue sample_udp = [sample_req_addr]
  ∧ sendmsg_done_post sample_req_addr (- ENOBUFS) sample_world sample_req sample_udp
      (uv__uring_udp_sendmsg_done sample_req_addr (- ENOBUFS) sample_world)
  ∧ sendmsg_done_post sample_req_addr 10 sample_world sample_req sample_udp
      (uv__uring_udp_sendmsg_done sample_req_addr 10 sample_world)
  ∧ (transient_status (- ENOBUFS) = true
     ↔ would_block (- ENOBUFS) ∨ no_buffer_space (- ENOBUFS)).
Proof.
  split; [reflexivity|].
  destruct (udp_sendmsg_done_outcome sample_req_addr (- ENOBUFS) sample_world
              sample_req sample_udp eq_refl eq_refl) as [H1 H2].
  split; [exact H1|]. split; [|exact H2].
  exact (proj1 (udp_sendmsg_done_outcome sample_req_addr 10 sample_world
                  sample_req sample_udp eq_refl eq_refl)).
Defined.

(** ** The submission ring *)

Lemma upd_last_snoc {A} (f : A → A) l x : upd_last f (l ++ [x]) = l ++ [f x].
Proof.
  induction l as [|y l IH]; [done|].
  simpl. rewrite IH. by destruct l.
Qed.

Lemma upd_last_length {A} (f : A → A) l : length (upd_last f l) = length l.
Proof.
  induction l as [|y l IH]; [done|].
  destruct l; [done|]. simpl in *. by rewrite IH.
Qed.

Lemma load_uring_eq w u : w_uring w = Some u → load_uring w = Val u w [].
Proof. intros H. unfold load_uring, bind, get. by rewrite H. Qed.

Lemma io_uring_get_sqe_eq w u :
  w_uring w = Some u →
  io_uring_get_sqe w =
    if io_uring_sq_ready (ring u) <? sq_entries (ring u) then
      Val true (set_uring (Some (uring_with_ring ring_take_slot u)) w) []
    else Val false w [].
Proof.
  intros H. unfold io_uring_get_sqe.
  rewrite (bind_val _ _ _ _ _ _ (load_uring_eq _ _ H)), prepend_nil.
  by destruct (_ <? _).
Qed.

Lemma write_sqe_eq f w u :
  w_uring w = Some u →
  write_sqe f w =
    Val tt (set_uring (Some (uring_with_ring
                               (ring_with_sq (upd_last f (sq (ring u)))) u)) w) [].
Proof.
  intros H. unfold write_sqe.
  by rewrite (bind_val _ _ _ _ _ _ (load_uring_eq _ _ H)), prepend_nil.
Qed.

Lemma flag_async_over_limit_eq w u :
  w_uring w = Some u →
  flag_async_over_limit w =
    Val tt (if sync_limit u <? io_uring_sq_ready (ring u) then
              set_uring (Some (uring_with_ring
                (ring_with_sq (upd_last (fun s =>
                   mk_sqe (sqe_opcode s) IOSQE_ASYNC (sqe_fd s) (sqe_addr s)
                     (sqe_poll_events s) (sqe_user_data s)) (sq (ring u)))) u)) w
            else w) [].
Proof.
  intros H. unfold flag_async_over_limit.
  rewrite (bind_val _ _ _ _ _ _ (load_uring_eq _ _ H)), prepend_nil.
  unfold when, sqe_set_flags. destruct (_ <? _); [|done].
  by rewrite (write_sqe_eq _ _ _ H).
Qed.

Lemma uv__io_uring_submit_accepted w u :
  w_uring w = Some u →
  next_submit w = Accepted →
  sq (ring u) ≠ [] →
  uv__io_uring_submit w =
    Val (io_uring_sq_ready (ring u)) (flushed u w) [EvSubmit (io_uring_sq_ready (ring u))].
Proof.
  intros H Hk Hq. unfold uv__io_uring_submit.
  rewrite (bind_val _ _ _ _ _ _ (load_uring_eq _ _ H)), prepend_nil.
  assert (Hn : (io_uring_sq_ready (ring u) =? 0) = false).
  { apply Z.eqb_neq. unfold io_uring_sq_ready.
    destruct (sq (ring u)); [done|]. simpl length. lia. }
  rewrite Hn. cbn [negb].
  assert (Hs : io_uring_submit w =
    Val (io_uring_sq_ready (ring u)) (flushed u w) [EvSubmit (io_uring_sq_ready (ring u))]).
  { unfold io_uring_submit.
    rewrite (bind_val _ _ _ _ _ _ (load_uring_eq _ _ H)), prepend_nil.
    unfold next_submit in Hk. unfold bind at 1, gets.
    destruct (k_submit (w_kernel w)) as [|[|err] rest] eqn:Hks; try done;
      rewrite prepend_nil; unfold bind, modify, store_uring, emit, ret; cbn;
      unfold flushed, set_kernel; cbn; rewrite Hks; reflexivity. }
  rewrite (bind_val _ _ _ _ _ _ Hs).
  assert ((io_uring_sq_ready (ring u) <? 0) = false) as ->
    by (apply Z.ltb_ge; unfold io_uring_sq_ready; lia).
  cbn. reflexivity.
Qed.

Lemma uv__io_uring_submit_refused w u err :
  w_uring w = Some u →
  next_submit w = Refused err →
  sq (ring u) ≠ [] →
  uv__io_uring_submit w =
    Val (if err <? 0 then if err =? UV_EBUSY then 0 else err else err) (refused w)
      [EvSubmit err].
Proof.
  intros H Hk Hq. unfold uv__io_uring_submit.
  rewrite (bind_val _ _ _ _ _ _ (load_uring_eq _ _ H)), prepend_nil.
  assert ((io_uring_sq_ready (ring u) =? 0) = false) as ->.
  { apply Z.eqb_neq. unfold io_uring_sq_ready. destruct (sq (ring u)); [done|].
    simpl length. lia. }
  cbn [negb].
  assert (Hs : io_uring_submit w = Val err (refused w) [EvSubmit err]).
  { unfold io_uring_submit.
    rewrite (bind_val _ _ _ _ _ _ (load_uring_eq _ _ H)), prepend_nil.
    unfold next_submit in Hk. unfold bind at 1, gets.
    destruct (k_submit (w_kernel w)) as [|o rest] eqn:E; [done|]. subst o.
    rewrite prepend_nil. unfold bind, modify, emit, ret, refused, set_kernel. cbn.
    rewrite E. reflexivity. }
  rewrite (bind_val _ _ _ _ _ _ Hs).
  destruct (err <? 0); [destruct (err =? UV_EBUSY)|]; reflexivity.
Qed.

Lemma uv__io_uring_submit_empty w u :
  w_uring w = Some u → sq (ring u) = [] → uv__io_uring_submit w = Val 0 w [].
Proof.
  intros H Hq. unfold uv__io_uring_submit.
  rewrite (bind_val _ _ _ _ _ _ (load_uring_eq _ _ H)), prepend_nil.
  unfold io_uring_sq_ready. by rewrite Hq.
Qed.

Lemma uv__io_uring_get_sqe_free w u :
  w_uring w = Some u →
  io_uring_sq_ready (ring u) < sq_entries (ring u) →
  uv__io_uring_get_sqe w = Val true (slot_taken u w) [].
Proof.
  intros Hu Hfree. apply Z.ltb_lt in Hfree. unfold uv__io_uring_get_sqe.
  erewrite bind_val by (rewrite (io_uring_get_sqe_eq _ _ Hu), Hfree; reflexivity).
  reflexivity.
Qed.

(** A flush of a ring that holds something calls the kernel. *)
Lemma uv__io_uring_submit_calls w u r w' tr :
  w_uring w = Some u → sq (ring u) ≠ [] →
  uv__io_uring_submit w = Val r w' tr →
  ∃ n, tr = [EvSubmit n].
Proof.
  intros Hu Hq H. destruct (next_submit w) as [|err] eqn:Hk.
  - rewrite (uv__io_uring_submit_accepted _ _ Hu Hk Hq) in H.
    injection H as _ _ <-. by eexists.
  - rewrite (uv__io_uring_submit_refused _ _ _ Hu Hk Hq) in H.
    injection H as _ _ <-. by eexists.
Qed.

Lemma kernel_accepts_next w : kernel_accepts w → next_submit w = Accepted.
Proof.
  unfold kernel_accepts, next_submit. destruct (k_submit _); [done|].
  by inversion 1.
Qed.

Lemma kernel_accepts_flushed u w : kernel_accepts w → kernel_accepts (flushed u w).
Proof.
  unfold kernel_accepts, flushed. cbn. destruct (k_submit _); [done|].
  by inversion 1.
Qed.

Lemma same_objects_refl w : same_objects w w.
Proof. by unfold same_objects. Qed.

Lemma same_objects_trans w1 w2 w3 :
  same_objects w1 w2 → same_objects w2 w3 → same_objects w1 w3.
Proof. unfold same_objects. intros (-> & -> & -> & ->) (-> & -> & -> & ->). done. Qed.

Lemma ring_frame_refl w u : w_uring w = Some u → ring_frame w w.
Proof. intros H. unfold ring_frame, same_objects. repeat split; eauto 10. Qed.

Lemma ring_frame_trans w1 w2 w3 :
  ring_frame w1 w2 → ring_frame w2 w3 → ring_frame w1 w3.
Proof.
  intros (Ho1 & Hn1 & Hw1 & u1 & u2 & Hu1 & Hu2 & Hs1 & Hc1 & He1)
         (Ho2 & Hn2 & Hw2 & u2' & u3 & Hu2' & Hu3 & Hs2 & Hc2 & He2).
  assert (u2' = u2) as -> by congruence.
  split; [by eapply same_objects_trans|].
  split; [congruence|]. split; [congruence|].
  exists u1, u3. repeat split; congruence.
Qed.

Lemma ring_frame_set_sq w u s :
  w_uring w = Some u →
  ring_frame w (set_uring (Some (uring_with_ring (ring_with_sq s) u)) w).
Proof.
  intros H. split; [by unfold same_objects|]. do 2 (split; [done|]).
  exists u, (uring_with_ring (ring_with_sq s) u). by repeat split.
Qed.

Lemma ring_frame_take_slot w u :
  w_uring w = Some u →
  ring_frame w (set_uring (Some (uring_with_ring ring_take_slot u)) w).
Proof.
  intros H. split; [by unfold same_objects|]. do 2 (split; [done|]).
  exists u, (uring_with_ring ring_take_slot u). by repeat split.
Qed.

(** A flush hands entries to the kernel or leaves them on the ring; it
    loses none and adds none. *)
Lemma io_uring_submit_inv w r w' tr :
  io_uring_submit w = Val r w' tr →
  ring_frame w w' ∧ submitted_entries w' = submitted_entries w ∧ tr = [EvSubmit r].
Proof.
  unfold io_uring_submit. intros H.
  apply bind_inv_val in H as (u & w1 & tr1 & tr2 & Hu & H & ->).
  unfold load_uring, bind, get in Hu. destruct (w_uring w) as [u0|] eqn:Hw; [|done].
  cbn in Hu. injection Hu as <- <- <-. rename u0 into u.
  unfold bind at 1, gets in H. rewrite prepend_nil in H.
  assert (Hacc : ∀ script, k_submit (w_kernel w) = script →
    (bind (modify (set_kernel (fun k => mk_kernel (k_now k)
            (k_inflight k ++ sq (ring u)) (tail script) (k_wait k))))
       (fun _ => bind (store_uring (uring_with_ring ring_flush u))
          (fun _ => bind (emit (EvSubmit (io_uring_sq_ready (ring u))))
             (fun _ => ret (io_uring_sq_ready (ring u)))))) w = Val r w' tr2 →
    ring_frame w w' ∧ submitted_entries w' = submitted_entries w ∧
    [] ++ tr2 = [EvSubmit r]).
  { intros script Hs Hr. unfold bind, modify, store_uring, emit, ret in Hr.
    cbn in Hr. injection Hr as <- <- <-.
    split.
    - split; [by unfold same_objects|]. do 2 (split; [done|]).
      exists u, (uring_with_ring ring_flush u). by repeat split.
    - split; [|done]. unfold submitted_entries. cbn. rewrite Hw.
      by rewrite app_nil_r. }
  destruct (k_submit (w_kernel w)) as [|[|err] rest] eqn:Hks.
  - by apply (Hacc []).
  - by apply (Hacc (Accepted :: rest)).
  - unfold bind, modify, emit, ret in H. cbn in H. injection H as <- <- <-.
    split; [|done].
    split; [by unfold same_objects|]. do 2 (split; [done|]).
    exists u, u. by repeat split.
Qed.

Lemma uv__io_uring_submit_inv w r w' tr :
  uv__io_uring_submit w = Val r w' tr →
  ring_frame w w' ∧ submitted_entries w' = submitted_entries w ∧
  (tr = [] ∨ ∃ n, tr = [EvSubmit n]).
Proof.
  unfold uv__io_uring_submit. intros H.
  apply bind_inv_val in H as (u & w1 & tr1 & tr2 & Hu & H & ->).
  unfold load_uring, bind, get in Hu. destruct (w_uring w) as [u0|] eqn:Hw; [|done].
  cbn in Hu. injection Hu as <- <- <-. rename u0 into u.
  destruct (negb _).
  - apply bind_inv_val in H as (r1 & w2 & tr3 & tr4 & Hs & H & ->).
    apply io_uring_submit_inv in Hs as (Hf & He & ->).
    assert (w' = w2 ∧ tr4 = []) as [-> ->].
    { destruct (r1 <? 0); [destruct (r1 =? UV_EBUSY)|];
        unfold ret in H; by injection H as <- <- <-. }
    split; [done|]. split; [done|]. right. by eexists.
  - unfold ret in H. injection H as <- <- <-.
    split; [by eapply ring_frame_refl|]. split; [done|]. by left.
Qed.

Lemma io_uring_get_sqe_inv w w' tr :
  io_uring_get_sqe w = Val true w' tr →
  ring_frame w w' ∧ tr = [] ∧
  ∃ u', w_uring w' = Some u' ∧
    ∃ x, (∃ s', sq (ring u') = s' ++ [x]) ∧
         submitted_entries w' = submitted_entries w ++ [x].
Proof.
  intros H. destruct (w_uring w) as [u|] eqn:Hw.
  - rewrite (io_uring_get_sqe_eq _ _ Hw) in H.
    destruct (_ <? _); [|done]. injection H as <- <-.
    split; [by apply ring_frame_take_slot|]. split; [done|].
    eexists. split; [done|]. exists (next_slot (ring u)). split; [by eexists|].
    unfold submitted_entries. cbn. rewrite Hw. by rewrite app_assoc.
  - unfold io_uring_get_sqe, bind, load_uring, bind, get in H. by rewrite Hw in H.
Qed.

(** The allocator hands out the slot after everything written before. *)
Lemma uv__io_uring_get_sqe_inv w w' tr :
  uv__io_uring_get_sqe w = Val true w' tr →
  ring_frame w w' ∧
  (tr = [] ∨ ∃ n, tr = [EvSubmit n]) ∧
  ∃ u', w_uring w' = Some u' ∧
    ∃ x, (∃ s', sq (ring u') = s' ++ [x]) ∧
         submitted_entries w' = submitted_entries w ++ [x].
Proof.
  unfold uv__io_uring_get_sqe. intros H.
  apply bind_inv_val in H as (b & w1 & tr1 & tr2 & Hg & H & ->).
  destruct b; cbn [negb] in H.
  - unfold ret in H. injection H as <- <-.
    apply io_uring_get_sqe_inv in Hg as (Hf & -> & Hu).
    split; [done|]. split; [by left|done].
  - assert (w1 = w ∧ tr1 = []) as [-> ->].
    { unfold io_uring_get_sqe, bind, load_uring, bind, get in Hg.
      destruct (w_uring w); [|done]. cbn in Hg.
      destruct (_ <? _); cbn in Hg; [done|]. by injection Hg as <- <-. }
    apply bind_inv_val in H as (r & w2 & tr3 & tr4 & Hs & H & ->).
    apply uv__io_uring_submit_inv in Hs as (Hf1 & He1 & Htr).
    apply bind_inv_val in H as ([] & w3 & tr5 & tr6 & Ha & H & ->).
    assert (w3 = w2 ∧ tr5 = []) as [-> ->].
    { unfold assert in Ha. destruct (0 <=? r); [|done].
      unfold ret in Ha. by injection Ha as <- <-. }
    apply io_uring_get_sqe_inv in H as (Hf2 & -> & u' & Hu' & x & Hs' & He2).
    split; [by eapply ring_frame_trans|].
    split.
    { destruct Htr as [->|[n ->]]; [by left|right; by eexists]. }
    exists u'. split; [done|]. exists x. split; [done|]. by rewrite He2, He1.
Qed.

(** ** The stale-request invalidator and the ignored tags *)

Lemma load_watcher_slot_eq w fd :
  0 ≤ fd < nwatchers (w_loop w) →
  load_watcher_slot fd w = Val (watchers (w_loop w) !! fd) w [].
Proof.
  intros [H0 H1]. unfold load_watcher_slot, bind, gets. cbn.
  apply Z.leb_le in H0. apply Z.ltb_lt in H1. by rewrite H0, H1.
Qed.

(** The cancellation, once the allocator has handed out a slot: whatever
    the slot held, the entry written is the cancellation of [a] with the
    tag 0. *)
Lemma cancel_written a w u s x (k : M unit) :
  w_uring w = Some u →
  sq (ring u) = s ++ [x] →
  (io_uring_prep_poll_remove a;;; sqe_set_user_data 0;;; k) w =
    k (set_uring (Some (uring_with_ring (ring_with_sq (s ++ [cancel_sqe a])) u)) w).
Proof.
  intros Hu Hs.
  unfold io_uring_prep_poll_remove, sqe_set_user_data.
  erewrite bind_val by (by apply write_sqe_eq).
  rewrite prepend_nil. cbn [ring uring_with_ring ring_with_sq sq].
  rewrite Hs, upd_last_snoc.
  erewrite bind_val by (by apply write_sqe_eq).
  rewrite prepend_nil.
  cbn [ring uring_with_ring ring_with_sq sq cq sq_entries sq_free sync_limit].
  rewrite upd_last_snoc. cbn [sqe_opcode sqe_flags sqe_fd sqe_addr sqe_poll_events].
  reflexivity.
Qed.

Lemma cancel_in_slot a w u s x :
  w_uring w = Some u →
  sq (ring u) = s ++ [x] →
  next_submit w = Accepted →
  ∃ w' u',
    (io_uring_prep_poll_remove a;;;
     sqe_set_user_data 0;;;
     r <- uv__io_uring_submit;;
     assert (0 <=? r)) w = Val tt w' [EvSubmit (Z.of_nat (length s) + 1)] ∧
    w_uring w' = Some u' ∧
    sq (ring u') = [] ∧
    cq (ring u') = cq (ring u) ∧
    k_inflight (w_kernel w') = k_inflight (w_kernel w) ++ s ++ [cancel_sqe a] ∧
    same_objects w w'.
Proof.
  intros Hu Hs Hk. rewrite (cancel_written _ _ _ _ _ _ Hu Hs).
  erewrite bind_val.
  2:{ apply uv__io_uring_submit_accepted; [reflexivity|done|].
      cbn. by destruct s. }
  cbn [prepend]. unfold assert.
  destruct (0 <=? _) eqn:E.
  2:{ apply Z.leb_gt in E. unfold io_uring_sq_ready in E. lia. }
  cbn. eexists _, _. split.
  { unfold io_uring_sq_ready. cbn. rewrite length_app. cbn.
    by rewrite Nat2Z.inj_add. }
  cbn. repeat split; try reflexivity.
Qed.

Lemma cancel_in_slot_refused a w u s x err :
  w_uring w = Some u →
  sq (ring u) = s ++ [x] →
  next_submit w = Refused err →
  (io_uring_prep_poll_remove a;;;
   sqe_set_user_data 0;;;
   r <- uv__io_uring_submit;;
   assert (0 <=? r)) w =
    if (err =? UV_EBUSY) || (0 <=? err) then
      Val tt (refused (set_uring (Some (uring_with_ring
                                          (ring_with_sq (s ++ [cancel_sqe a])) u)) w))
        [EvSubmit err]
    else Crash AssertionFailed [EvSubmit err].
Proof.
  intros Hu Hs Hk. rewrite (cancel_written _ _ _ _ _ _ Hu Hs).
  erewrite bind_val.
  2:{ eapply (uv__io_uring_submit_refused _ _ err); [reflexivity|done|].
      cbn. by destruct s. }
  cbn [prepend]. unfold assert.
  destruct (err =? UV_EBUSY) eqn:Eb.
  - apply Z.eqb_eq in Eb. subst err. cbn. reflexivity.
  - cbn [orb]. destruct (0 <=? err) eqn:Ep.
    + assert ((if err <? 0 then err else err) = err) as -> by (by destruct (err <? 0)).
      rewrite Ep. reflexivity.
    + assert ((if err <? 0 then err else err) = err) as -> by (by destruct (err <? 0)).
      rewrite Ep. reflexivity.
Qed.

(** With a kernel that takes every flush the allocator always finds a
    slot: at once, or after flushing a full ring. *)
Lemma get_sqe_accepting w u :
  w_uring w = Some u →
  0 < sq_entries (ring u) →
  kernel_accepts w →
  ∃ w1 u1 tr s x,
    uv__io_uring_get_sqe w = Val true w1 tr ∧
    w_uring w1 = Some u1 ∧
    sq (ring u1) = s ++ [x] ∧
    k_inflight (w_kernel w1) ++ s = k_inflight (w_kernel w) ++ sq (ring u) ∧
    cq (ring u1) = cq (ring u) ∧
    sync_limit u1 = sync_limit u ∧
    kernel_accepts w1 ∧
    same_objects w w1.
Proof.
  intros Hu He Hk. unfold uv__io_uring_get_sqe.
  destruct (io_uring_sq_ready (ring u) <? sq_entries (ring u)) eqn:Hfull.
  - erewrite bind_val by (rewrite (io_uring_get_sqe_eq _ _ Hu), Hfull; reflexivity).
    cbn. eexists _, _, _, (sq (ring u)), _. split; [reflexivity|]. cbn.
    repeat split; try reflexivity. done.
  - erewrite bind_val by (rewrite (io_uring_get_sqe_eq _ _ Hu), Hfull; reflexivity).
    cbn [negb prepend app]. rewrite prepend_nil.
    assert (Hne : sq (ring u) ≠ []).
    { apply Z.ltb_ge in Hfull. unfold io_uring_sq_ready in Hfull.
      destruct (sq (ring u)); [simpl in Hfull; lia|done]. }
    erewrite bind_val
      by (apply uv__io_uring_submit_accepted; [done|by apply kernel_accepts_next|done]).
    unfold assert. destruct (0 <=? _) eqn:E.
    2:{ apply Z.leb_gt in E. unfold io_uring_sq_ready in E. lia. }
    unfold bind at 1, ret. rewrite prepend_nil.
    erewrite io_uring_get_sqe_eq by reflexivity.
    cbn [ring uring_with_ring ring_flush sq sq_entries io_uring_sq_ready length].
    assert ((io_uring_sq_ready (ring_flush (ring u)) <? sq_entries (ring u)) = true)
      as -> by (apply Z.ltb_lt; unfold io_uring_sq_ready; simpl; lia).
    cbn. eexists _, _, _, [], _. split; [reflexivity|]. cbn.
    repeat split; try reflexivity.
    + by rewrite app_nil_r.
    + by apply (kernel_accepts_flushed u) in Hk.
Qed.

Lemma invalidate_fd_to_slot fd (a : addr) u w :
  0 ≤ fd < nwatchers (w_loop w) →
  w_uring w = Some u →
  watchers (w_loop w) !! fd = Some a →
  uv__uring_platform_invalidate_fd fd w =
    (sqe <- uv__io_uring_get_sqe;;
     assert sqe;;;
     io_uring_prep_poll_remove a;;;
     sqe_set_user_data 0;;;
     r <- uv__io_uring_submit;;
     assert (0 <=? r)) w.
Proof.
  intros [Hfd0 Hfd1] Hu Hw. unfold uv__uring_platform_invalidate_fd.
  unfold assert at 1.
  assert ((0 <=? fd) = true) as -> by by apply Z.leb_le.
  unfold bind at 1, ret. rewrite prepend_nil.
  unfold bind at 1, get. rewrite prepend_nil, Hu.
  erewrite bind_val by (by apply load_watcher_slot_eq).
  by rewrite prepend_nil, Hw.
Qed.

Lemma invalidate_fd_accepting fd (a : addr) u w :
  0 ≤ fd < nwatchers (w_loop w) →
  w_uring w = Some u →
  watchers (w_loop w) !! fd = Some a →
  0 < sq_entries (ring u) →
  kernel_accepts w →
  cancellation_submitted a u w (uv__uring_platform_invalidate_fd fd w).
Proof.
  intros Hfd Hu Hw He Hk.
  rewrite (invalidate_fd_to_slot _ _ _ _ Hfd Hu Hw).
  unfold cancellation_submitted.
  destruct (get_sqe_accepting w u Hu He Hk)
    as (w1 & u1 & tr1 & s & x & Hg & Hu1 & Hs1 & Hin1 & Hc1 & _ & Hk1 & Ho1).
  rewrite (bind_val _ _ _ _ _ _ Hg).
  unfold assert at 1. unfold bind at 1, ret. rewrite prepend_nil.
  destruct (cancel_in_slot a w1 u1 s x Hu1 Hs1 (kernel_accepts_next _ Hk1))
    as (w' & u' & Hrun & Hu' & Hs' & Hc' & Hin' & Ho').
  rewrite Hrun. cbn [prepend].
  eexists w', u', _. split; [done|]. split; [done|]. split; [done|].
  split; [congruence|]. split.
  { by rewrite Hin', app_assoc, Hin1, <- app_assoc. }
  split; [done|]. split; [done|]. by eapply same_objects_trans.
Qed.

(** On a ring with a free slot the cancellation is written without a
    flush, and the flush that follows is the kernel's to take or refuse. *)
Lemma invalidate_fd_free_slot fd (a : addr) u w :
  0 ≤ fd < nwatchers (w_loop w) →
  w_uring w = Some u →
  watchers (w_loop w) !! fd = Some a →
  io_uring_sq_ready (ring u) < sq_entries (ring u) →
  cancellation_attempt a u w (uv__uring_platform_invalidate_fd fd w).
Proof.
  intros Hfd Hu Hw Hfree.
  rewrite (invalidate_fd_to_slot _ _ _ _ Hfd Hu Hw).
  rewrite (bind_val _ _ _ _ _ _ (uv__io_uring_get_sqe_free _ _ Hu Hfree)), prepend_nil.
  unfold assert at 1. unfold bind at 1, ret. rewrite prepend_nil.
  unfold slot_taken.
  set (w1 := set_uring (Some (uring_with_ring ring_take_slot u)) w).
  assert (Hu1 : w_uring w1 = Some (uring_with_ring ring_take_slot u)) by done.
  assert (Hs1 : sq (ring (uring_with_ring ring_take_slot u))
                = sq (ring u) ++ [next_slot (ring u)]) by done.
  unfold cancellation_attempt.
  destruct (next_submit w) as [|err] eqn:Hn.
  - destruct (cancel_in_slot a w1 _ _ _ Hu1 Hs1 Hn)
      as (w' & u' & Hrun & Hu' & Hs' & Hc' & Hin' & Ho').
    rewrite Hrun. split; [|done].
    eexists w', u', _. split; [done|]. repeat split; try done.
    all: by destruct Ho' as (? & ? & ? & ?).
  - rewrite (cancel_in_slot_refused a w1 _ _ _ err Hu1 Hs1 Hn).
    destruct ((err =? UV_EBUSY) || (0 <=? err)); [|done].
    eexists. split; [reflexivity|].
    eexists. split; [reflexivity|]. by repeat split.
Qed.

Lemma process_cqe_ignored sig io_cb alloc_cb recv_cb l cqe w :
  ignored_tag (cqe_user_data cqe) →
  process_cqe sig io_cb alloc_cb recv_cb l cqe w = Val l w [].
Proof.
  intros H. unfold process_cqe.
  assert ((cqe_user_data cqe =? LIBURING_UDATA_TIMEOUT) || (cqe_user_data cqe =? 0)
          = true) as ->; [|done].
  apply orb_true_iff. rewrite !Z.eqb_eq. destruct H; auto.
Qed.




(** ** The asynchronous flag of new entries *)

Lemma async_flag_for_iff u :
  async_flag_for u = IOSQE_ASYNC ↔ sync_limit u < io_uring_sq_ready (ring u).
Proof.
  unfold async_flag_for. destruct (_ <? _) eqn:E.
  - apply Z.ltb_lt in E. done.
  - apply Z.ltb_ge in E. split; [done|lia].
Qed.

Lemma last_submitted_entries w u e :
  w_uring w = Some u → last (sq (ring u)) = Some e →
  last (submitted_entries w) = Some e.
Proof.
  intros Hu He. unfold submitted_entries. rewrite Hu.
  destruct (sq (ring u)) as [|x s] using rev_ind; [done|].
  rewrite last_snoc in He. injection He as ->.
  by rewrite app_assoc, last_snoc.
Qed.

Lemma write_sqe_inv f w (x : unit) w' tr :
  write_sqe f w = Val x w' tr →
  ∃ u, w_uring w = Some u ∧
    w' = set_uring (Some (uring_with_ring
                            (ring_with_sq (upd_last f (sq (ring u)))) u)) w ∧
    tr = [].
Proof.
  intros H. destruct (w_uring w) as [u|] eqn:Hu.
  - rewrite (write_sqe_eq _ _ _ Hu) in H. injection H as <- <-. eauto.
  - unfold write_sqe, bind, load_uring, bind, get in H. by rewrite Hu in H.
Qed.

(** The flag of the entry in the slot, after the occupancy test. *)
Lemma flag_async_over_limit_inv w (x : unit) w' tr u s e :
  flag_async_over_limit w = Val x w' tr →
  w_uring w = Some u →
  sq (ring u) = s ++ [e] →
  sqe_flags e = 0 →
  tr = [] ∧ same_objects w w' ∧ w_kernel w' = w_kernel w ∧
  ∃ u', w_uring w' = Some u' ∧
    sq (ring u') =
      s ++ [mk_sqe (sqe_opcode e) (async_flag_for u') (sqe_fd e) (sqe_addr e)
              (sqe_poll_events e) (sqe_user_data e)].
Proof.
  intros H Hu Hs Hf. rewrite (flag_async_over_limit_eq _ _ Hu) in H.
  injection H as <- <-. split; [done|].
  unfold async_flag_for. destruct (sync_limit u <? _) eqn:E.
  - split; [done|]. split; [done|]. eexists. split; [reflexivity|].
    cbn. rewrite Hs, upd_last_snoc. unfold io_uring_sq_ready. cbn.
    rewrite !length_app. cbn. unfold io_uring_sq_ready in E.
    rewrite Hs, length_app in E. cbn in E. by rewrite E.
  - split; [apply same_objects_refl|]. split; [done|]. exists u. split; [done|].
    rewrite E, Hs. destruct e; cbn in *. by subst.
Qed.

Lemma submit_watcher_entry a w w' tr :
  submit_watcher a w = Val tt w' tr →
  ∃ u' e, w_uring w' = Some u' ∧ last (sq (ring u')) = Some e ∧
    sqe_opcode e = IORING_OP_POLL_ADD ∧ sqe_user_data e = a ∧
    sqe_flags e = async_flag_for u'.
Proof.
  unfold submit_watcher. intros H.
  do 6 step H.
  bind_inv_as H sqe w1. destruct sqe; [|by step H].
  apply uv__io_uring_get_sqe_inv in Hm as (_ & _ & u1 & Hu1 & x0 & [s Hs] & _).
  step H.
  unfold io_uring_prep_poll_add, sqe_set_user_data in H.
  bind_inv H. apply write_sqe_inv in Hm as (u2 & Hu2 & -> & ->).
  assert (u2 = u1) as -> by congruence.
  bind_inv H. apply write_sqe_inv in Hm as (u3 & Hu3 & -> & ->).
  cbn in Hu3. injection Hu3 as <-.
  bind_inv H.
  eapply flag_async_over_limit_inv in Hm as (-> & Ho & Hk & u' & Hu' & Hs');
    [|reflexivity| |].
  2:{ cbn. rewrite Hs, !upd_last_snoc. reflexivity. }
  2:{ reflexivity. }
  unfold store_io in H. prim_inv H.
  exists u'. eexists. split; [done|]. split.
  { rewrite Hs'. apply last_snoc. }
  done.
Qed.

Lemma send_msghdr_inv req r h w w' tr :
  send_msghdr req r w = Val h w' tr → w' = w ∧ tr = [].
Proof.
  unfold send_msghdr. intros H. bind_inv H. prim_inv H.
  repeat (destruct (_ =? _) in Hm); (prim_inv Hm || done); done.
Qed.

Lemma udp_sendmsg_one_entry handle req w w' tr :
  udp_sendmsg_one handle req w = Val tt w' tr →
  ∃ u' e, w_uring w' = Some u' ∧ last (sq (ring u')) = Some e ∧
    sqe_opcode e = IORING_OP_SENDMSG ∧ sqe_user_data e = req ∧
    sqe_flags e = async_flag_for u'.
Proof.
  unfold udp_sendmsg_one. intros H.
  step H. bind_inv_as H h w0. apply send_msghdr_inv in Hm as [-> ->].
  unfold store_req in H. step H.
  bind_inv_as H sqe w1. destruct sqe; [|by step H].
  apply uv__io_uring_get_sqe_inv in Hm as (_ & _ & u1 & Hu1 & x0 & [s Hs] & _).
  do 3 step H.
  unfold io_uring_prep_sendmsg, sqe_set_user_data in H.
  bind_inv H. apply write_sqe_inv in Hm as (u2 & Hu2 & -> & ->).
  assert (u2 = u1) as -> by congruence.
  do 2 step H.
  bind_inv H. apply write_sqe_inv in Hm as (u3 & Hu3 & -> & ->).
  cbn in Hu3. injection Hu3 as <-.
  bind_inv H.
  eapply flag_async_over_limit_inv in Hm as (-> & Ho & Hk & u' & Hu' & Hs');
    [|reflexivity| |].
  2:{ cbn. rewrite Hs, !upd_last_snoc. reflexivity. }
  2:{ reflexivity. }
  unfold QUEUE_REMOVE_req, store_udp in H. do 2 step H. prim_inv H.
  exists u'. eexists. split; [done|]. split.
  { rewrite Hs'. apply last_snoc. }
  done.
Qed.

Lemma udp_recvmsg_submit_entry handle hd w w' tr :
  udp_recvmsg_submit handle hd w = Val tt w' tr →
  ∃ u' e, w_uring w' = Some u' ∧ last (sq (ring u')) = Some e ∧
    sqe_opcode e = IORING_OP_RECVMSG ∧ sqe_user_data e = handle ∧
    sqe_flags e = async_flag_for u'.
Proof.
  unfold udp_recvmsg_submit. intros H.
  unfold store_udp in H. step H.
  bind_inv_as H sqe w1. destruct sqe; [|by step H].
  apply uv__io_uring_get_sqe_inv in Hm as (_ & _ & u1 & Hu1 & x0 & [s Hs] & _).
  do 2 step H.
  unfold io_uring_prep_recvmsg, sqe_set_user_data in H.
  bind_inv H. apply write_sqe_inv in Hm as (u2 & Hu2 & -> & ->).
  assert (u2 = u1) as -> by congruence.
  do 2 step H.
  bind_inv H. apply write_sqe_inv in Hm as (u3 & Hu3 & -> & ->).
  cbn in Hu3. injection Hu3 as <-.
  eapply flag_async_over_limit_inv in H as (-> & Ho & Hk & u' & Hu' & Hs');
    [|reflexivity| |].
  2:{ cbn. rewrite Hs, !upd_last_snoc. reflexivity. }
  2:{ reflexivity. }
  exists u'. eexists. split; [done|]. split.
  { rewrite Hs'. apply last_snoc. }
  done.
Qed.

(** The cancellation is the last entry written, whatever the kernel
    answered to the flush, and it is never flagged; the run ends with the
    attempt to flush it. *)
Lemma invalidate_fd_entry fd (a : addr) w w' tr :
  is_Some (w_uring w) →
  watchers (w_loop w) !! fd = Some a →
  uv__uring_platform_invalidate_fd fd w = Val tt w' tr →
  last (submitted_entries w') = Some (cancel_sqe a) ∧
  ∃ tr0 r, tr = tr0 ++ [EvSubmit r].
Proof.
  intros [u Hu] Hw. unfold uv__uring_platform_invalidate_fd. intros H.
  do 2 step H. rewrite Hu in H.
  bind_inv_as H slot w0.
  assert (slot = Some a ∧ w0 = w) as [-> ->].
  { unfold load_watcher_slot in Hm. step Hm. destruct (_ && _); [|done].
    prim_inv Hm. done. }
  bind_inv_as H sqe w1. destruct sqe; [|by step H].
  apply uv__io_uring_get_sqe_inv in Hm0 as (_ & _ & u1 & Hu1 & x0 & [s Hs] & He).
  step H.
  unfold io_uring_prep_poll_remove, sqe_set_user_data in H.
  bind_inv H. apply write_sqe_inv in Hm0 as (u2 & Hu2 & -> & ->).
  assert (u2 = u1) as -> by congruence.
  bind_inv H. apply write_sqe_inv in Hm0 as (u3 & Hu3 & -> & ->).
  cbn in Hu3. injection Hu3 as <-.
  bind_inv_as H r w2.
  pose proof Hm0 as Hcall.
  eapply uv__io_uring_submit_calls in Hcall as [n ->]; [|reflexivity|].
  2:{ cbn. rewrite Hs, !upd_last_snoc. by destruct s. }
  apply uv__io_uring_submit_inv in Hm0 as (_ & Hsub & _).
  prim_inv H. split.
  - rewrite Hsub. unfold submitted_entries. cbn.
    rewrite Hs, !upd_last_snoc, app_assoc. apply last_snoc.
  - eexists _, n. rewrite app_nil_r. rewrite !app_assoc. reflexivity.
Qed.

(** C2 (amended).  Each entry written by the watcher submission stage, by
    the datagram send and by the datagram receive is flagged
    [IOSQE_ASYNC] exactly when the occupancy of the submission ring at that
    time, the new entry included, exceeds [sync_limit], and carries no flag
    otherwise (whatever flag the slot held before).  The poll cancellation
    written by the invalidator is never flagged; it is not left for a
    later flush: the invalidator ends with an attempt to flush the ring,
    which the kernel may take or refuse. *)
Theorem new_entry_flag wr w w' tr :
  writes wr w →
  run_writer wr w = Val tt w' tr →
  ∃ e, last (submitted_entries w') = Some e ∧ entry_of wr e ∧
    flagged_by_occupancy wr w' e ∧
    match wr with
    | WriteCancel _ _ => ∃ tr0 r, tr = tr0 ++ [EvSubmit r]
    | _ => True
    end.
Proof.
  intros Hw H. destruct wr as [a|handle req|handle hd|fd a]; cbn in *.
  - apply submit_watcher_entry in H as (u' & e & Hu & He & Ho & Hd & Hf).
    exists e. split; [by eapply last_submitted_entries|]. split; [done|].
    split; [|done].
    exists u'. repeat split; try done; rewrite Hf; apply async_flag_for_iff.
  - apply udp_sendmsg_one_entry in H as (u' & e & Hu & He & Ho & Hd & Hf).
    exists e. split; [by eapply last_submitted_entries|]. split; [done|].
    split; [|done].
    exists u'. repeat split; try done; rewrite Hf; apply async_flag_for_iff.
  - apply udp_recvmsg_submit_entry in H as (u' & e & Hu & He & Ho & Hd & Hf).
    exists e. split; [by eapply last_submitted_entries|]. split; [done|].
    split; [|done].
    exists u'. repeat split; try done; rewrite Hf; apply async_flag_for_iff.
  - destruct Hw as [Hu Hr].
    destruct (invalidate_fd_entry _ _ _ _ _ Hu Hr H) as [Hl Htr].
    exists (cancel_sqe a). split; [done|]. done.
Qed.

(** On a ring with 41 entries pending and the threshold 40 the poll
    request written for the socket watcher is flagged; on the sample ring,
    which is empty, it is not, though the slot it is written to held a
    flagged entry. *)
Lemma new_entry_flag_witness :
  (∃ e,
     last (submitted_entries
             (world_of (submit_watcher sample_watcher crowded_world) crowded_world))
       = Some e ∧
     entry_of (WritePollAdd sample_watcher) e ∧
     sqe_flags e = IOSQE_ASYNC)
  ∧ (∃ e,
       last (submitted_entries
               (world_of (submit_watcher sample_watcher sample_world) sample_world))
         = Some e ∧
       entry_of (WritePollAdd sample_watcher) e ∧
       sqe_flags (next_slot (ring sample_ring)) = IOSQE_ASYNC ∧
       sqe_flags e = 0).
Proof.
  split.
  - destruct (new_entry_flag (WritePollAdd sample_watcher) crowded_world
                (world_of (submit_watcher sample_watcher crowded_world) crowded_world)
                [] I) as (e & Hl & He & (u' & Hu' & _ & Hf & _) & _).
    { vm_compute. reflexivity. }
    exists e. split; [exact Hl|]. split; [exact He|].
    vm_compute in Hu'. injection Hu' as <-. rewrite Hf. reflexivity.
  - destruct (new_entry_flag (WritePollAdd sample_watcher) sample_world
                (world_of (submit_watcher sample_watcher sample_world) sample_world)
                [] I) as (e & Hl & He & (u' & Hu' & _ & Hf & _) & _).
    { vm_compute. reflexivity. }
    exists e. split; [exact Hl|]. split; [exact He|]. split; [reflexivity|].
    vm_compute in Hu'. injection Hu' as <-. rewrite Hf. reflexivity.
Defined.

(** C2, as stated, fails for the poll cancellation: with 41 entries pending
    and a threshold of 40, the cancellation written on invalidating
    descriptor 3 is the 42nd entry on the ring and carries no flag. *)
Lemma cancellation_not_flagged :
  last (submitted_entries
          (world_of (uv__uring_platform_invalidate_fd 3 crowded_world) crowded_world))
    = Some (cancel_sqe sample_watcher)
  ∧ sqe_flags (cancel_sqe sample_watcher) = 0
  ∧ io_uring_sq_ready (ring crowded_ring) + 1 = 42
  ∧ sync_limit crowded_ring = 40
  ∧ trace_of (uv__uring_platform_invalidate_fd 3 crowded_world) = [EvSubmit 42].
Proof. vm_compute. repeat split; reflexivity. Qed.

(** ** Receive completion *)

Section Receive.

Variable alloc_cb : addr → Z → World → World.
Variable recv_cb : addr → Z → bool → Z → World → World.

(** A completion with [UV_ENOBUFS] never restarts the receive. *)
Lemma udp_recvmsg_done_body_enobufs f g handle w :
  udp_recvmsg_done_body recv_cb f handle UV_ENOBUFS w =
  udp_recvmsg_done_body recv_cb g handle UV_ENOBUFS w.
Proof. reflexivity. Qed.

Lemma udp_recvmsg_body_ext d1 d2 :
  (∀ h w, d1 h UV_ENOBUFS w = d2 h UV_ENOBUFS w) →
  ∀ h w, udp_recvmsg_body alloc_cb d1 h w = udp_recvmsg_body alloc_cb d2 h w.
Proof.
  intros Hd h w. unfold udp_recvmsg_body.
  apply bind_ext. intros hd w1. destruct (test_flag _ _); [done|].
  apply bind_ext. intros _ w2. apply bind_ext. intros _ w3.
  apply bind_ext. intros hd' w4. by destruct (_ || _).
Qed.

Lemma restart_if_active_ext r1 r2 :
  (∀ h w, r1 h w = r2 h w) →
  ∀ h w, restart_if_active r1 h w = restart_if_active r2 h w.
Proof.
  intros Hr h w. unfold restart_if_active.
  apply bind_ext. intros hd w1. apply bind_ext. intros i w2.
  unfold when. by destruct (_ && _).
Qed.

Lemma udp_recvmsg_done_body_ext r1 r2 :
  (∀ h w, r1 h w = r2 h w) →
  ∀ h s w, udp_recvmsg_done_body recv_cb r1 h s w =
           udp_recvmsg_done_body recv_cb r2 h s w.
Proof.
  intros Hr h s w. unfold udp_recvmsg_done_body.
  apply bind_ext. intros hd w1. destruct (uv__is_closing hd); [done|].
  apply bind_ext. intros _ w2. destruct (_ <? 0).
  - destruct (_ || _); [|done].
    apply bind_ext. intros _ w3. by apply restart_if_active_ext.
  - apply bind_ext. intros hd' w3. apply bind_ext. intros _ w4.
    by apply restart_if_active_ext.
Qed.

(** Two levels of the mutual calls are all there is: more fuel changes
    nothing, and the fuel never runs out. *)
Lemma udp_recvmsg_done_fuel_enough n handle status w :
  udp_recvmsg_done_fuel alloc_cb recv_cb (S (S n)) handle status w =
  uv__uring_udp_recvmsg_done alloc_cb recv_cb handle status w.
Proof.
  unfold uv__uring_udp_recvmsg_done. cbn [udp_recvmsg_done_fuel].
  apply udp_recvmsg_done_body_ext. intros h w'.
  apply udp_recvmsg_body_ext. intros h' w''.
  destruct n; [done|]. cbn [udp_recvmsg_done_fuel].
  apply udp_recvmsg_done_body_enobufs.
Qed.

Lemma uv__uring_udp_recvmsg_done_unfold handle status w :
  uv__uring_udp_recvmsg_done alloc_cb recv_cb handle status w =
  udp_recvmsg_done_body recv_cb (uv__uring_udp_recvmsg alloc_cb recv_cb)
    handle status w.
Proof. reflexivity. Qed.


Lemma test_flag_clear_flag flags mask : test_flag (clear_flag flags mask) mask = false.
Proof.
  unfold test_flag, clear_flag.
  rewrite <- Z.land_assoc, (Z.land_comm (Z.lnot mask)), Z.land_lnot_diag, Z.land_0_r.
  reflexivity.
Qed.

Lemma read_pending_cleared_spec handle hd w :
  read_pending handle (read_pending_cleared handle hd w) = false.
Proof.
  unfold read_pending, read_pending_cleared. cbn.
  rewrite lookup_insert_eq. cbn. apply test_flag_clear_flag.
Qed.

Lemma remapped_status_ebadf : remapped_status UV_EBADF = UV_ECANCELED.
Proof. reflexivity. Qed.

Lemma remapped_status_other status :
  status ≠ UV_EBADF → remapped_status status = status.
Proof. intros H. unfold remapped_status. by apply Z.eqb_neq in H as ->. Qed.

(** C3 (amended).  A receive completion for a handle that is closing is
    dropped: no flag is touched and nothing is reported.  For a handle that
    is not closing the read-pending flag is cleared first, and [recv_cb] is
    then called in that world with the remapped status ([UV_EBADF] becomes
    [UV_ECANCELED]): as a zero-length delivery without address on
    would-block, as an error without address on any other negative status,
    and as a delivery with the peer address otherwise; the first and the
    last restart the receive if the handle is still interested. *)
Theorem recv_completion_reported handle status w hd :
  w_udp w !! handle = Some hd →
  let st := remapped_status status in
  let w1 := read_pending_cleared handle hd w in
  let restart := restart_if_active (uv__uring_udp_recvmsg alloc_cb recv_cb) handle in
  uv__uring_udp_recvmsg_done alloc_cb recv_cb handle status w =
    (if uv__is_closing hd then Val tt w []
     else if st <? 0 then
       if st =? UV_EAGAIN then
         prepend [EvRecvCb handle 0 false 0] (restart (recv_cb handle 0 false 0 w1))
       else
         Val tt (recv_cb handle st false 0 w1) [EvRecvCb handle st false 0]
     else
       prepend [EvRecvCb handle st true (truncation_flag hd)]
         (restart (recv_cb handle st true (truncation_flag hd) w1)))
  ∧ read_pending handle w1 = false
  ∧ remapped_status UV_EBADF = UV_ECANCELED.
Proof.
  intros Hh st w1 restart.
  split; [|split; [apply read_pending_cleared_spec|reflexivity]].
  rewrite uv__uring_udp_recvmsg_done_unfold. unfold udp_recvmsg_done_body.
  rewrite (bind_val _ _ _ _ _ _ (load_udp_eq _ _ _ Hh)), prepend_nil.
  destruct (uv__is_closing hd); [done|].
  fold (remapped_status status). fold st.
  unfold store_udp at 1. unfold bind at 1, modify. rewrite prepend_nil.
  fold (read_pending_cleared handle hd w). fold w1.
  destruct (st <? 0).
  - replace ((st =? UV_EAGAIN) || (st =? UV__ERR EWOULDBLOCK)) with (st =? UV_EAGAIN)
      by (unfold UV_EAGAIN, EWOULDBLOCK; by destruct (st =? _)).
    destruct (st =? UV_EAGAIN).
    + unfold call_recv_cb, bind, emit, modify. cbn [prepend app]. reflexivity.
    + unfold call_recv_cb, bind, emit, modify. cbn. reflexivity.
  - erewrite bind_val.
    2:{ apply load_udp_eq. unfold w1, read_pending_cleared. cbn.
        apply lookup_insert_eq. }
    rewrite prepend_nil. cbn [udp_h udp_with_flags].
    unfold call_recv_cb, bind, emit, modify. cbn [prepend app].
    reflexivity.
Qed.

End Receive.

Lemma recv_completion_reported_witness :
  uv__uring_udp_recvmsg_done idle_alloc_cb idle_recv_cb sample_handle UV_EBADF sample_world
    = Val tt (idle_recv_cb sample_handle UV_ECANCELED false 0
                (read_pending_cleared sample_handle sample_udp sample_world))
        [EvRecvCb sample_handle UV_ECANCELED false 0]
  ∧ read_pending sample_handle
      (read_pending_cleared sample_handle sample_udp sample_world) = false
  ∧ remapped_status UV_EBADF = UV_ECANCELED.
Proof.
  exact (recv_completion_reported idle_alloc_cb idle_recv_cb sample_handle UV_EBADF
           sample_world sample_udp eq_refl).
Defined.

(** C3, as stated, fails for a handle that is closing: the completion with
    [UV_EBADF] of its pending receive leaves the read-pending flag set and
    reports nothing. *)
Lemma closing_handle_completion_dropped :
  uv__uring_udp_recvmsg_done idle_alloc_cb idle_recv_cb sample_handle UV_EBADF
    closing_world = Val tt closing_world []
  ∧ read_pending sample_handle closing_world = true.
Proof. split; reflexivity. Qed.

(** ** Dispatch to a watcher *)

(** [uv__io_start] on a watcher that exists always returns, and leaves the
    watcher on the list of pending registrations when its armed mask
    differs from the requested one. *)
Lemma uv__io_start_spec a events w i :
  w_io w !! a = Some i →
  ∃ w',
    uv__io_start a events w = Val tt w' [EvIoStart a events] ∧
    w_io w' = <[a := io_with_pevents (Z.lor (io_pevents i) events) i]> (w_io w) ∧
    w_uring w' = w_uring w ∧ w_kernel w' = w_kernel w ∧
    w_reqs w' = w_reqs w ∧ w_udp w' = w_udp w ∧
    loop_time (w_loop w') = loop_time (w_loop w) ∧
    (io_events i ≠ Z.lor (io_pevents i) events → a ∈ watcher_queue (w_loop w')).
Proof.
  intros Hi. unfold uv__io_start.
  unfold bind at 1, emit. rewrite (bind_val _ _ _ _ _ _ (load_io_eq _ _ _ Hi)).
  rewrite prepend_nil. unfold store_io at 1. unfold bind at 1, modify.
  rewrite prepend_nil. cbn [io_events io_pevents io_with_pevents io_fd].
  destruct (io_events i =? Z.lor (io_pevents i) events) eqn:E.
  - cbn. eexists. split; [reflexivity|]. cbn. repeat split; try done.
    apply Z.eqb_eq in E. done.
  - unfold bind, gets, when, modify, ret. cbn.
    destruct (queue_mem a (watcher_queue (w_loop w))) eqn:Hq; cbn;
      destruct (bool_decide _); cbn;
      (eexists; split; [reflexivity|]; cbn; repeat split; try done; intros _).
    all: try (by apply queue_mem_true).
    all: unfold queue_insert_tail; set_solver.
Qed.

Section Dispatch.

Variable signal_io_watcher : addr.
Variable io_cb : addr → Z → World → World.

Lemma dispatch_watcher_gone l a res w i :
  w_io w !! a = Some i →
  io_fd i = -1 ∨ 0 ≤ io_fd i < nwatchers (w_loop w) →
  descriptor_gone i w →
  dispatch_watcher signal_io_watcher io_cb l a res w = Val l w [].
Proof.
  intros Hi Hfd Hg. unfold dispatch_watcher.
  rewrite (bind_val _ _ _ _ _ _ (load_io_eq _ _ _ Hi)), prepend_nil.
  destruct (io_fd i =? -1) eqn:E; [done|]. apply Z.eqb_neq in E.
  destruct Hfd as [|Hfd]; [done|]. destruct Hg as [|Hg]; [done|].
  by rewrite (bind_val _ _ _ _ _ _ (load_watcher_slot_eq _ _ Hfd)), prepend_nil, Hg.
Qed.

Lemma dispatch_watcher_rearm l a res w i :
  w_io w !! a = Some i →
  0 ≤ io_fd i < nwatchers (w_loop w) →
  ¬ descriptor_gone i w →
  io_oneshot i = false →
  ∃ w2,
    uv__io_start a (io_pevents i) (armed_cleared a i w)
      = Val tt w2 [EvIoStart a (io_pevents i)] ∧
    armed_mask a (armed_cleared a i w) = Some 0 ∧
    armed_mask a (armed_again a w2) = Some (io_pevents i) ∧
    (io_pevents i ≠ 0 → a ∈ watcher_queue (w_loop (armed_again a w2))) ∧
    w_uring (armed_again a w2) = w_uring w ∧
    w_kernel (armed_again a w2) = w_kernel w ∧
    dispatch_watcher signal_io_watcher io_cb l a res w =
      prepend [EvIoStart a (io_pevents i)]
        (delivered signal_io_watcher io_cb l a (masked_events i res)
           (armed_again a w2)).
Proof.
  intros Hi Hfd Hg Ho.
  assert (Hi0 : w_io (armed_cleared a i w) !! a = Some (io_with_events 0 i))
    by (cbn; apply lookup_insert_eq).
  destruct (uv__io_start_spec a (io_pevents i) _ _ Hi0)
    as (w2 & Hstart & Hio & Hur & Hker & _ & _ & _ & Hq).
  cbn [io_pevents io_with_events io_events] in Hio, Hq.
  rewrite Z.lor_diag in Hio, Hq.
  assert (Hi2 : w_io w2 !! a = Some (io_with_pevents (io_pevents i) (io_with_events 0 i)))
    by (rewrite Hio; apply lookup_insert_eq).
  exists w2. split; [done|]. split.
  { unfold armed_mask. by rewrite Hi0. }
  split.
  { unfold armed_mask, armed_again. rewrite Hi2. cbn. by rewrite lookup_insert_eq. }
  split.
  { intros Hp. unfold armed_again. rewrite Hi2. cbn. apply Hq. congruence. }
  split; [unfold armed_again; by rewrite Hi2|].
  split; [unfold armed_again; by rewrite Hi2|].
  unfold dispatch_watcher.
  rewrite (bind_val _ _ _ _ _ _ (load_io_eq _ _ _ Hi)), prepend_nil.
  destruct (io_fd i =? -1) eqn:E.
  { apply Z.eqb_eq in E. exfalso. apply Hg. by left. }
  rewrite (bind_val _ _ _ _ _ _ (load_watcher_slot_eq _ _ Hfd)), prepend_nil.
  destruct (watchers (w_loop w) !! io_fd i) eqn:Hs.
  2:{ exfalso. apply Hg. by right. }
  rewrite Ho. cbn [negb].
  erewrite bind_val.
  2:{ unfold store_io at 1. unfold bind at 1, modify. rewrite prepend_nil.
      fold (armed_cleared a i w).
      rewrite (bind_val _ _ _ _ _ _ (load_io_eq _ _ _ Hi0)), prepend_nil.
      cbn [io_pevents io_with_events].
      rewrite (bind_val _ _ _ _ _ _ Hstart).
      rewrite (bind_val _ _ _ _ _ _ (load_io_eq _ _ _ Hi2)), prepend_nil.
      unfold store_io, modify. cbn [prepend]. reflexivity. }
  assert (Hi3 : w_io (armed_again a w2) !! a =
                Some (io_with_events (io_pevents i)
                        (io_with_pevents (io_pevents i) (io_with_events 0 i)))).
  { unfold armed_again. rewrite Hi2. cbn. by rewrite lookup_insert_eq. }
  assert (Hw3 : set_io (insert a (io_with_events
                   (io_pevents (io_with_pevents (io_pevents i) (io_with_events 0 i)))
                   (io_with_pevents (io_pevents i) (io_with_events 0 i)))) w2
                = armed_again a w2).
  { unfold armed_again. by rewrite Hi2. }
  rewrite Hw3. rewrite app_nil_r. f_equal.
  rewrite (bind_val _ _ _ _ _ _ (load_io_eq _ _ _ Hi3)), prepend_nil.
  cbn [io_pevents io_with_events io_with_pevents].
  unfold delivered. fold (masked_events i res).
  destruct (masked_events i res =? 0); [done|]. cbn [negb].
  destruct (a =? signal_io_watcher).
  - reflexivity.
  - reflexivity.
Qed.

(** C5 (amended).  A completion for a watcher whose descriptor is gone
    ([fd == -1], or an empty slot in the registry) is skipped entirely.
    For a watcher that is not one-shot and whose descriptor is not gone
    (its slot holds a watcher, be it another one), [uv__io_start] is called
    with the requested mask while the armed mask is 0, which puts the
    watcher on the list of watchers pending registration, the watcher is
    marked armed again, and only then is the callback run: the trace of the
    dispatch is the call of [uv__io_start] followed by the delivery.  No
    poll request is written meanwhile: the ring and the kernel are as they
    were when the callback runs, and the request is left to the watcher
    stage of the next poll. *)
Theorem watcher_rearmed_before_callback l a res w i :
  w_io w !! a = Some i →
  io_fd i = -1 ∨ 0 ≤ io_fd i < nwatchers (w_loop w) →
  (descriptor_gone i w →
     dispatch_watcher signal_io_watcher io_cb l a res w = Val l w [])
  ∧ (¬ descriptor_gone i w → io_oneshot i = false →
     ∃ w2,
       uv__io_start a (io_pevents i) (armed_cleared a i w)
         = Val tt w2 [EvIoStart a (io_pevents i)] ∧
       armed_mask a (armed_cleared a i w) = Some 0 ∧
       armed_mask a (armed_again a w2) = Some (io_pevents i) ∧
       (io_pevents i ≠ 0 → a ∈ watcher_queue (w_loop (armed_again a w2))) ∧
       w_uring (armed_again a w2) = w_uring w ∧
       w_kernel (armed_again a w2) = w_kernel w ∧
       dispatch_watcher signal_io_watcher io_cb l a res w =
         prepend [EvIoStart a (io_pevents i)]
           (delivered signal_io_watcher io_cb l a (masked_events i res)
              (armed_again a w2))).
Proof.
  intros Hi Hfd. split.
  - by apply dispatch_watcher_gone.
  - intros Hg Ho. apply dispatch_watcher_rearm; try done.
    destruct Hfd as [Hfd|]; [|done]. exfalso. apply Hg. by left.
Qed.

End Dispatch.

Lemma watcher_rearmed_before_callback_witness :
  ∃ w2,
    uv__io_start sample_watcher (io_pevents sample_io)
        (armed_cleared sample_watcher sample_io sample_world)
      = Val tt w2 [EvIoStart sample_watcher (io_pevents sample_io)] ∧
    armed_mask sample_watcher (armed_cleared sample_watcher sample_io sample_world)
      = Some 0 ∧
    armed_mask sample_watcher (armed_again sample_watcher w2)
      = Some (io_pevents sample_io) ∧
    (io_pevents sample_io ≠ 0 →
     sample_watcher ∈ watcher_queue (w_loop (armed_again sample_watcher w2))) ∧
    w_uring (armed_again sample_watcher w2) = w_uring sample_world ∧
    w_kernel (armed_again sample_watcher w2) = w_kernel sample_world ∧
    dispatch_watcher sample_signal_watcher idle_io_cb no_events_yet sample_watcher
        POLLIN sample_world =
      prepend [EvIoStart sample_watcher (io_pevents sample_io)]
        (delivered sample_signal_watcher idle_io_cb no_events_yet sample_watcher
           (masked_events sample_io POLLIN) (armed_again sample_watcher w2)).
Proof.
  refine (proj2 (watcher_rearmed_before_callback sample_signal_watcher idle_io_cb
                   no_events_yet sample_watcher POLLIN sample_world sample_io
                   eq_refl _) _ _).
  - right. cbn. lia.
  - intros [H|H]; [discriminate H|]. vm_compute in H. discriminate H.
  - reflexivity.
Defined.

(** C5, as stated, fails on both counts.  A replaced descriptor is not
    skipped: the socket watcher still names descriptor 3, whose slot in the
    registry holds another watcher, and its completion is dispatched all
    the same, callback included.  And no poll request is issued before
    the callback: all that precedes it is the call of [uv__io_start], after
    which every entry written is the same as before. *)
Lemma replaced_descriptor_dispatched :
  w_io replaced_world !! sample_watcher = Some sample_io
  ∧ watchers (w_loop replaced_world) !! io_fd sample_io = Some replacing_watcher
  ∧ replacing_watcher ≠ sample_watcher
  ∧ trace_of (dispatch_watcher sample_signal_watcher idle_io_cb no_events_yet
                sample_watcher POLLIN replaced_world)
    = [EvIoStart sample_watcher POLLIN; EvIoCb sample_watcher POLLIN]
  ∧ submitted_entries
      (world_of (dispatch_watcher sample_signal_watcher idle_io_cb no_events_yet
                   sample_watcher POLLIN replaced_world) replaced_world)
    = submitted_entries replaced_world.
Proof. vm_compute. repeat split; (reflexivity || discriminate). Qed.

(** ** What the stages of the loop emit *)

Lemma harmless_no_signal_cb sig : harmless (no_signal_cb sig).
Proof. by constructor. Qed.

Lemma harmless_no_wait : harmless no_wait.
Proof. by constructor. Qed.

Lemma blocked_time_app tr1 tr2 :
  blocked_time (tr1 ++ tr2) = blocked_time tr1 + blocked_time tr2.
Proof.
  induction tr1 as [|e tr1 IH]; [done|].
  simpl. destruct e; rewrite ?IH; lia.
Qed.

Lemma blocked_time_no_wait tr :
  Forall (λ e, no_wait e = true) tr → blocked_time tr = 0.
Proof.
  induction 1 as [|e tr He _ IH]; [done|].
  simpl. by destruct e.
Qed.

Section Quiet.

Context {p : event → bool}.

Lemma quiet_ret {A} (a : A) : quiet p (ret a).
Proof. intros w. constructor. Qed.

Lemma quiet_bind {A B} (m : M A) (f : A → M B) :
  quiet p m → (∀ a, quiet p (f a)) → quiet p (bind m f).
Proof.
  intros Hm Hf w. unfold bind. specialize (Hm w).
  destruct (m w) as [a w1 tr1|]; [|done].
  rewrite trace_of_prepend. apply Forall_app. split; [done|]. apply Hf.
Qed.

Lemma quiet_get : quiet p get.
Proof. intros w. constructor. Qed.

Lemma quiet_gets {A} (f : World → A) : quiet p (gets f).
Proof. intros w. constructor. Qed.

Lemma quiet_modify f : quiet p (modify f).
Proof. intros w. constructor. Qed.

Lemma quiet_crash {A} e : quiet p (@crash A e).
Proof. intros w. constructor. Qed.

Lemma quiet_emit e : p e = true → quiet p (emit e).
Proof. intros H w. by repeat constructor. Qed.

Lemma quiet_assert b : quiet p (assert b).
Proof. destruct b; [apply quiet_ret|apply quiet_crash]. Qed.

Lemma quiet_when b m : quiet p m → quiet p (when b m).
Proof. destruct b; [done|intros _; apply quiet_ret]. Qed.

End Quiet.

(** Takes a computation apart along its binds and branches; what remains
    are the events emitted and the calls of other functions. *)
Ltac quiet_step :=
  match goal with
  | |- quiet _ (ret _) => apply quiet_ret
  | |- quiet _ (bind _ _) => apply quiet_bind; [|intros ?]
  | |- quiet _ get => apply quiet_get
  | |- quiet _ (gets _) => apply quiet_gets
  | |- quiet _ (modify _) => apply quiet_modify
  | |- quiet _ (crash _) => apply quiet_crash
  | |- quiet _ (assert _) => apply quiet_assert
  | |- quiet _ (when _ _) => apply quiet_when
  | |- quiet _ (emit _) => apply quiet_emit
  | |- quiet _ (if ?b then _ else _) => destruct b eqn:?
  | |- quiet _ (match ?x with _ => _ end) => destruct x eqn:?
  | |- quiet _ (let _ := _ in _) => cbv zeta
  end.

Ltac quiet_tac := repeat quiet_step.

Section QuietStages.

Context {p : event → bool} (Hp : harmless p).

Local Ltac side :=
  first [ apply (harmless_submit p Hp) | apply (harmless_sigmask p Hp)
        | apply (harmless_update_timeout p Hp) | apply (harmless_io_start p Hp)
        | apply (harmless_io_feed p Hp) | apply (harmless_alloc_cb p Hp)
        | apply (harmless_recv_cb p Hp) ].

Lemma quiet_load_uring : quiet p load_uring.
Proof. unfold load_uring. quiet_tac. Qed.

Lemma quiet_load_io a : quiet p (load_io a).
Proof. unfold load_io. quiet_tac. Qed.

Lemma quiet_load_req a : quiet p (load_req a).
Proof. unfold load_req. quiet_tac. Qed.

Lemma quiet_load_udp a : quiet p (load_udp a).
Proof. unfold load_udp. quiet_tac. Qed.

Lemma quiet_load_watcher_slot fd : quiet p (load_watcher_slot fd).
Proof. unfold load_watcher_slot. quiet_tac. Qed.

Lemma quiet_load_op_type a : quiet p (load_op_type a).
Proof. unfold load_op_type. quiet_tac. Qed.

Lemma quiet_write_sqe f : quiet p (write_sqe f).
Proof. unfold write_sqe, store_uring. quiet_tac. apply quiet_load_uring. Qed.

Lemma quiet_io_uring_get_sqe : quiet p io_uring_get_sqe.
Proof. unfold io_uring_get_sqe, store_uring. quiet_tac. apply quiet_load_uring. Qed.

Lemma quiet_io_uring_submit : quiet p io_uring_submit.
Proof.
  unfold io_uring_submit, store_uring. quiet_tac; try side.
  apply quiet_load_uring.
Qed.

Lemma quiet_uv__io_uring_submit : quiet p uv__io_uring_submit.
Proof.
  unfold uv__io_uring_submit. quiet_tac;
    first [apply quiet_load_uring | apply quiet_io_uring_submit].
Qed.

Lemma quiet_uv__io_uring_get_sqe : quiet p uv__io_uring_get_sqe.
Proof.
  unfold uv__io_uring_get_sqe. quiet_tac;
    first [apply quiet_io_uring_get_sqe | apply quiet_uv__io_uring_submit].
Qed.

Lemma quiet_flag_async_over_limit : quiet p flag_async_over_limit.
Proof.
  unfold flag_async_over_limit, sqe_set_flags. quiet_tac;
    first [apply quiet_load_uring | apply quiet_write_sqe].
Qed.

Lemma quiet_io_uring_cq_advance n : quiet p (io_uring_cq_advance n).
Proof. unfold io_uring_cq_advance, store_uring. quiet_tac. apply quiet_load_uring. Qed.

Lemma quiet_uv__io_start a events : quiet p (uv__io_start a events).
Proof.
  unfold uv__io_start, store_io. quiet_tac; try side. apply quiet_load_io.
Qed.

Lemma quiet_uv__io_feed a : quiet p (uv__io_feed a).
Proof. unfold uv__io_feed. quiet_tac; side. Qed.

Lemma quiet_uv__update_time : quiet p uv__update_time.
Proof. unfold uv__update_time. quiet_tac. Qed.

Lemma quiet_uv__uring_udp_sendmsg_done req status :
  quiet p (uv__uring_udp_sendmsg_done req status).
Proof.
  unfold uv__uring_udp_sendmsg_done, QUEUE_REMOVE_req, store_udp, store_req.
  quiet_tac;
    first [apply quiet_load_req | apply quiet_load_udp | apply quiet_uv__io_feed].
Qed.

Section Callbacks.

Variable signal_io_watcher : addr.
Variable io_cb : addr → Z → World → World.
Variable alloc_cb : addr → Z → World → World.
Variable recv_cb : addr → Z → bool → Z → World → World.

Lemma quiet_call_recv_cb h n a f : quiet p (call_recv_cb recv_cb h n a f).
Proof. unfold call_recv_cb. quiet_tac; side. Qed.

Lemma quiet_call_alloc_cb h s : quiet p (call_alloc_cb alloc_cb h s).
Proof. unfold call_alloc_cb. quiet_tac; side. Qed.

Lemma quiet_udp_recvmsg_submit handle hd : quiet p (udp_recvmsg_submit handle hd).
Proof.
  unfold udp_recvmsg_submit, store_udp, io_uring_prep_recvmsg, sqe_set_user_data.
  quiet_tac;
    first [ apply quiet_uv__io_uring_get_sqe | apply quiet_load_io
          | apply quiet_load_udp | apply quiet_write_sqe
          | apply quiet_flag_async_over_limit ].
Qed.

Lemma quiet_udp_recvmsg_body done handle :
  (∀ h s, quiet p (done h s)) → quiet p (udp_recvmsg_body alloc_cb done handle).
Proof.
  intros Hd. unfold udp_recvmsg_body, store_udp.
  quiet_tac;
    first [ apply quiet_load_udp | apply quiet_call_alloc_cb | apply Hd
          | apply quiet_udp_recvmsg_submit ].
Qed.

Lemma quiet_restart_if_active recvmsg handle :
  (∀ h, quiet p (recvmsg h)) → quiet p (restart_if_active recvmsg handle).
Proof.
  intros Hr. unfold restart_if_active.
  quiet_tac; first [apply quiet_load_udp | apply quiet_load_io | apply Hr].
Qed.

Lemma quiet_udp_recvmsg_done_body recvmsg handle status :
  (∀ h, quiet p (recvmsg h)) →
  quiet p (udp_recvmsg_done_body recv_cb recvmsg handle status).
Proof.
  intros Hr. unfold udp_recvmsg_done_body, store_udp.
  quiet_tac;
    first [ apply quiet_load_udp | apply quiet_call_recv_cb
          | by apply quiet_restart_if_active ].
Qed.

Lemma quiet_udp_recvmsg_done_fuel fuel handle status :
  quiet p (udp_recvmsg_done_fuel alloc_cb recv_cb fuel handle status).
Proof.
  revert handle status. induction fuel as [|n IH]; intros handle status.
  - apply quiet_crash.
  - cbn [udp_recvmsg_done_fuel]. apply quiet_udp_recvmsg_done_body.
    intros h. by apply quiet_udp_recvmsg_body.
Qed.

Lemma quiet_uv__uring_udp_recvmsg_done handle status :
  quiet p (uv__uring_udp_recvmsg_done alloc_cb recv_cb handle status).
Proof. apply quiet_udp_recvmsg_done_fuel. Qed.

(** A watcher callback is emitted for a watcher other than the signal
    watcher only. *)
Hypothesis Hcb : ∀ a ev, (a =? signal_io_watcher) = false → p (EvIoCb a ev) = true.

Lemma quiet_dispatch_watcher l a res :
  quiet p (dispatch_watcher signal_io_watcher io_cb l a res).
Proof.
  unfold dispatch_watcher, store_io, call_io_cb, uv__metrics_update_idle_time.
  quiet_tac;
    first [ apply quiet_load_io | apply quiet_load_watcher_slot
          | apply quiet_uv__io_start | by apply Hcb ].
Qed.

Lemma quiet_process_cqe l cqe :
  quiet p (process_cqe signal_io_watcher io_cb alloc_cb recv_cb l cqe).
Proof.
  unfold process_cqe, uv__metrics_update_idle_time.
  quiet_tac;
    first [ apply quiet_load_op_type | apply quiet_uv__uring_udp_sendmsg_done
          | apply quiet_uv__uring_udp_recvmsg_done | apply quiet_dispatch_watcher ].
Qed.

Lemma quiet_for_each_cqe cqes l count :
  quiet p (for_each_cqe signal_io_watcher io_cb alloc_cb recv_cb cqes l count).
Proof.
  revert l count. induction cqes as [|cqe rest IH]; intros l count.
  - apply quiet_ret.
  - cbn [for_each_cqe]. apply quiet_bind; [apply quiet_process_cqe|].
    intros l'. apply IH.
Qed.

Lemma quiet_update_timeout l : quiet p (update_timeout l).
Proof. unfold update_timeout. quiet_tac; side. Qed.

End Callbacks.

End QuietStages.

(** ** What the batch notes about the signal watcher *)

Section Noted.

Variable signal_io_watcher : addr.
Variable io_cb : addr → Z → World → World.
Variable alloc_cb : addr → Z → World → World.
Variable recv_cb : addr → Z → bool → Z → World → World.

Local Abbreviation dispatch := (dispatch_watcher signal_io_watcher io_cb).
Local Abbreviation process := (process_cqe signal_io_watcher io_cb alloc_cb recv_cb).
Local Abbreviation for_each := (for_each_cqe signal_io_watcher io_cb alloc_cb recv_cb).

Lemma load_watcher_slot_inv fd slot w w' tr :
  load_watcher_slot fd w = Val slot w' tr →
  slot = watchers (w_loop w) !! fd ∧ w' = w ∧ tr = [].
Proof.
  unfold load_watcher_slot. intros H. step H. case_if H; [|done].
  by apply ret_inv in H.
Qed.

(** The tail of [dispatch_watcher], from the masking of the events on. *)
Lemma dispatch_tail_have_signals l a ev w l' w' tr :
  (if negb (ev =? 0) then
     l <- (if a =? signal_io_watcher then ret (with_have_signals 1 l)
           else uv__metrics_update_idle_time;;; call_io_cb io_cb a ev;;; ret l);;
     ret (with_nevents (nevents l + 1) l)
   else ret l) w = Val l' w' tr →
  (have_signals l' = have_signals l ∨ have_signals l' = 1) ∧
  (a = signal_io_watcher → ev ≠ 0 → have_signals l' = 1).
Proof.
  intros H. case_if H.
  - bind_inv_as H l1 w1. apply ret_inv in H as (-> & _ & _). cbn.
    case_if Hm.
    + apply ret_inv in Hm as (-> & _ & _). cbn. split; [by right|done].
    + unfold uv__metrics_update_idle_time, call_io_cb in Hm. repeat step Hm.
      apply ret_inv in Hm as (-> & _ & _). split; [by left|].
      intros ->. by rewrite Z.eqb_refl in *.
  - apply ret_inv in H as (-> & _ & _). split; [by left|].
    intros _ Hev. apply negb_false_iff, Z.eqb_eq in Heqb. done.
Qed.

Lemma dispatch_watcher_have_signals l a res w l' w' tr :
  dispatch l a res w = Val l' w' tr →
  (have_signals l' = have_signals l ∨ have_signals l' = 1) ∧
  (a = signal_io_watcher →
   ∀ i, w_io w !! a = Some i → ¬ descriptor_gone i w → masked_events i res ≠ 0 →
        have_signals l' = 1).
Proof.
  unfold dispatch_watcher. intros H. step H. rename a0 into i0.
  case_if H.
  { apply ret_inv in H as (-> & _ & _). split; [by left|].
    intros _ i Hi Hg. destruct Hg. left. apply Z.eqb_eq in Heqb. congruence. }
  bind_inv_as H slot w1. apply load_watcher_slot_inv in Hm as (-> & -> & ->).
  destruct (watchers (w_loop w) !! io_fd i0) as [s|] eqn:Hslot.
  2:{ apply ret_inv in H as (-> & _ & _). split; [by left|].
      intros _ i Hi Hg. destruct Hg. right. congruence. }
  bind_inv_as H x w2. step H. rename a0 into i2.
  assert (Hp : io_pevents i2 = io_pevents i0).
  { case_if Hm.
    - unfold store_io in Hm. repeat step Hm.
      bind_inv_as Hm y w3.
      match type of Hm0 with
      | uv__io_start _ _ ?w0 = _ =>
          destruct (uv__io_start_spec a (io_pevents a0) w0 a0) as (w4 & Hs & Hio & _);
            [done|]
      end.
      rewrite Hs in Hm0. injection Hm0 as <- <- <-.
      step Hm. apply modify_inv in Hm as (-> & _).
      cbn in H1. rewrite lookup_insert_eq in H1. injection H1 as <-. cbn.
      rewrite Hio, lookup_insert_eq in H3. injection H3 as <-. cbn.
      cbn in H2. rewrite lookup_insert_eq in H2. injection H2 as <-. cbn.
      apply Z.lor_diag.
    - apply ret_inv in Hm as (_ & -> & _). congruence. }
  apply dispatch_tail_have_signals in H as [H1' H2'].
  split; [done|]. intros Ha i Hi Hg Hev. apply H2'; [done|].
  assert (i = i0) as -> by congruence.
  unfold masked_events in Hev. by rewrite Hp.
Qed.

Lemma load_op_type_inv a t w w' tr :
  load_op_type a w = Val t w' tr →
  w' = w ∧ tr = [] ∧
  (w_reqs w !! a = None → w_udp w !! a = None → t = UV__URING_NONE).
Proof.
  unfold load_op_type. intros H. step H.
  destruct (w_reqs w !! a); [by apply ret_inv in H as (-> & -> & ->)|].
  destruct (w_udp w !! a); [by apply ret_inv in H as (-> & -> & ->)|].
  destruct (w_io w !! a); [|done].
  by apply ret_inv in H as (-> & -> & ->).
Qed.

Lemma process_cqe_have_signals l cqe w l' w' tr :
  process l cqe w = Val l' w' tr →
  (have_signals l' = have_signals l ∨ have_signals l' = 1) ∧
  (signal_ready signal_io_watcher cqe w → have_signals l' = 1).
Proof.
  unfold process_cqe. intros H. case_if H.
  { apply ret_inv in H as (-> & _ & _). split; [by left|].
    intros (Hd & H0 & Ht & _). rewrite Hd in Heqb.
    apply orb_true_iff in Heqb as [E|E]; apply Z.eqb_eq in E; done. }
  bind_inv_as H t w1. apply load_op_type_inv in Hm as (-> & -> & Ht).
  case_if H; [|case_if H].
  - unfold uv__metrics_update_idle_time in H. step H.
    bind_inv_as H x w2. apply ret_inv in H as (-> & _ & _).
    split; [by left|]. intros (Hd & _ & _ & Hr & Hu & _).
    rewrite Ht in Heqb0 by (by rewrite Hd). done.
  - unfold uv__metrics_update_idle_time in H. step H.
    bind_inv_as H x w2. apply ret_inv in H as (-> & _ & _).
    split; [by left|]. intros (Hd & _ & _ & Hr & Hu & _).
    rewrite Ht in Heqb1 by (by rewrite Hd). done.
  - apply dispatch_watcher_have_signals in H as [H1 H2].
    split; [done|]. intros (Hd & _ & _ & _ & _ & i & Hi & Hg & Hev).
    rewrite Hd in *. by apply (H2 eq_refl i).
Qed.

Lemma for_each_cqe_have_signals cqes l n w l' n' w' tr :
  for_each cqes l n w = Val (l', n') w' tr →
  have_signals l ≠ 0 → have_signals l' ≠ 0.
Proof.
  revert l n w tr. induction cqes as [|cqe rest IH]; intros l n w tr H Hl.
  - apply ret_inv in H as (Heq & _ & _). by injection Heq as -> _.
  - cbn [for_each_cqe] in H. bind_inv_as H l1 w1.
    apply (IH _ _ _ _ H).
    apply process_cqe_have_signals in Hm as [[->| ->] _]; done.
Qed.

Lemma for_each_cqe_app_inv c1 c2 l n w r w' tr :
  for_each (c1 ++ c2) l n w = Val r w' tr →
  ∃ l0 n0 w0 tr0 tr1,
    for_each c1 l n w = Val (l0, n0) w0 tr0 ∧
    for_each c2 l0 n0 w0 = Val r w' tr1.
Proof.
  revert l n w tr. induction c1 as [|cqe rest IH]; intros l n w tr H.
  - by exists l, n, w, [], tr.
  - cbn [app for_each_cqe] in H. bind_inv_as H l1 w1.
    apply IH in H as (l0 & n0 & w0 & tra & trb & H1 & H2).
    exists l0, n0, w0, (tr0 ++ tra), trb. split; [|done].
    cbn [for_each_cqe]. rewrite (bind_val _ _ _ _ _ _ Hm), H1. reflexivity.
Qed.

(** A completion of the batch that has something to tell the signal watcher
    when the drain comes to it is noted, and stays noted to the end of the
    batch. *)
Lemma signal_completion_noted c1 cqe c2 l w l0 n0 w0 tr0 l' n w1 tr1 :
  for_each (c1 ++ cqe :: c2) l 0 w = Val (l', n) w1 tr1 →
  for_each c1 l 0 w = Val (l0, n0) w0 tr0 →
  signal_ready signal_io_watcher cqe w0 →
  have_signals l' ≠ 0.
Proof.
  intros H H1 Hr.
  apply for_each_cqe_app_inv in H as (l0' & n0' & w0' & tr0' & tr1' & H1' & H2).
  rewrite H1 in H1'. injection H1' as <- <- <- <-.
  cbn [for_each_cqe] in H2. bind_inv_as H2 l2 w2.
  apply process_cqe_have_signals in Hm as [_ Hm].
  apply (for_each_cqe_have_signals _ _ _ _ _ _ _ _ H2).
  rewrite (Hm Hr). done.
Qed.

End Noted.

(** ** The signal watcher runs last *)

Section SignalLast.

Variable signal_io_watcher : addr.
Variable io_cb : addr → Z → World → World.
Variable alloc_cb : addr → Z → World → World.
Variable recv_cb : addr → Z → bool → Z → World → World.

Local Abbreviation for_each := (for_each_cqe signal_io_watcher io_cb alloc_cb recv_cb).
Local Abbreviation drain := (drain_stage signal_io_watcher io_cb alloc_cb recv_cb).
Local Abbreviation iteration := (poll_iteration signal_io_watcher io_cb alloc_cb recv_cb).
Local Abbreviation loop := (poll_loop signal_io_watcher io_cb alloc_cb recv_cb).

Lemma no_signal_cb_other a ev :
  (a =? signal_io_watcher) = false → no_signal_cb signal_io_watcher (EvIoCb a ev) = true.
Proof. intros H. unfold no_signal_cb. cbn. by rewrite H. Qed.

(** While the batch is processed the signal watcher's callback is never
    run. *)
Lemma for_each_cqe_no_signal_cb cqes l count w :
  Forall (λ e, no_signal_cb signal_io_watcher e = true)
    (trace_of (for_each cqes l count w)).
Proof.
  apply (quiet_for_each_cqe (harmless_no_signal_cb signal_io_watcher)).
  apply no_signal_cb_other.
Qed.

Lemma have_signals_restore l :
  have_signals (restore_user_timeout l) = have_signals l.
Proof. unfold restore_user_timeout. by destruct (negb _). Qed.

Lemma nevents_restore l : nevents (restore_user_timeout l) = nevents l.
Proof. unfold restore_user_timeout. by destruct (negb _). Qed.

Lemma io_uring_cq_advance_eq n w u :
  w_uring w = Some u →
  io_uring_cq_advance n w =
    Val tt (set_uring (Some (uring_with_ring
                               (ring_with_cq (drop (Z.to_nat n) (cq (ring u)))) u)) w) [].
Proof.
  intros H. unfold io_uring_cq_advance.
  by rewrite (bind_val _ _ _ _ _ _ (load_uring_eq _ _ H)), prepend_nil.
Qed.

(** The drain, split at the end of the batch. *)
Lemma drain_stage_unfold l w u :
  w_uring w = Some u →
  drain l w =
    match for_each (cq (ring u)) l 0 w with
    | Val lc w1 tr1 =>
        prepend tr1
          ((io_uring_cq_advance (snd lc);;;
            let l := restore_user_timeout (fst lc) in
            if negb (have_signals l =? 0) then
              uv__metrics_update_idle_time;;;
              call_io_cb io_cb signal_io_watcher POLLIN;;;
              ret Returned
            else if negb (nevents l =? 0) then ret Returned
            else if timeout l =? 0 then ret Returned
            else if timeout l =? -1 then ret (Continue l)
            else update_timeout l) w1)
    | Crash f tr1 => Crash f tr1
    end.
Proof.
  intros H. unfold drain_stage.
  rewrite (bind_val _ _ _ _ _ _ (load_uring_eq _ _ H)), prepend_nil.
  unfold bind at 1. by destruct (for_each _ _ _ _).
Qed.

Lemma iteration_with_completions l w u :
  w_uring w = Some u → cq (ring u) ≠ [] → iteration l w = drain l w.
Proof.
  intros H Hc. unfold poll_iteration.
  assert (Hw : when (negb (timeout l =? 0)) uv__metrics_set_provider_entry_time w
               = Val tt w []) by (by destruct (negb _)).
  rewrite (bind_val _ _ _ _ _ _ Hw), prepend_nil.
  rewrite (bind_val _ _ _ _ _ _ (load_uring_eq _ _ H)), prepend_nil.
  assert ((io_uring_cq_ready (ring u) =? 0) = false) as ->; [|done].
  apply Z.eqb_neq. unfold io_uring_cq_ready. destruct (cq (ring u)); [done|].
  simpl length. lia.
Qed.

Lemma poll_loop_returned n l w w' tr :
  iteration l w = Val Returned w' tr → loop (S n) l w = Val tt w' tr.
Proof.
  intros H. cbn [poll_loop]. rewrite (bind_val _ _ _ _ _ _ H). cbn.
  by rewrite app_nil_r.
Qed.


End SignalLast.


(** ** A drain that delivers nothing disturbs nothing *)

Lemma undisturbed_refl w : undisturbed w w.
Proof. by unfold undisturbed. Qed.

Lemma undisturbed_trans w1 w2 w3 :
  undisturbed w1 w2 → undisturbed w2 w3 → undisturbed w1 w3.
Proof. unfold undisturbed. intros (-> & -> & ->) (-> & -> & ->). done. Qed.

Lemma uv__io_start_undisturbed a events w (x : unit) w' tr :
  uv__io_start a events w = Val x w' tr → undisturbed w w'.
Proof.
  unfold uv__io_start, store_io. intros H. do 3 step H.
  destruct (_ =? _).
  - prim_inv H. done.
  - step H. bind_inv H. unfold when in Hm.
    destruct (negb _); prim_inv Hm; step H; unfold when in H;
      destruct (bool_decide _); prim_inv H; done.
Qed.

Section Progress.

Variable signal_io_watcher : addr.
Variable io_cb : addr → Z → World → World.
Variable alloc_cb : addr → Z → World → World.
Variable recv_cb : addr → Z → bool → Z → World → World.

(** A completion either counts as an event, or leaves the locals as they
    were and the clock, the kernel and the ring undisturbed. *)
Lemma dispatch_watcher_progress l a res w l' w' tr :
  dispatch_watcher signal_io_watcher io_cb l a res w = Val l' w' tr →
  nevents l' = nevents l + 1 ∨ (l' = l ∧ undisturbed w w').
Proof.
  unfold dispatch_watcher. intros H. step H.
  case_if H.
  { prim_inv H. right. split; [done|apply undisturbed_refl]. }
  bind_inv_as H slot w0.
  assert (w0 = w) as ->.
  { unfold load_watcher_slot in Hm. step Hm. destruct (_ && _); [|done].
    by prim_inv Hm. }
  destruct slot; [|prim_inv H; right; split; [done|apply undisturbed_refl]].
  bind_inv_as H x w1.
  assert (Hu : undisturbed w w1).
  { case_if Hm0.
    - unfold store_io in Hm0. do 2 step Hm0. bind_inv Hm0.
      apply uv__io_start_undisturbed in Hm1. step Hm0. prim_inv Hm0.
      destruct Hm1 as (? & ? & ?). done.
    - prim_inv Hm0. apply undisturbed_refl. }
  step H. case_if H.
  - left. bind_inv_as H l1 w2. prim_inv H.
    case_if Hm1.
    + prim_inv Hm1. done.
    + unfold uv__metrics_update_idle_time, call_io_cb in Hm1.
      repeat step Hm1. prim_inv Hm1. done.
  - prim_inv H. by right.
Qed.

Lemma process_cqe_progress l cqe w l' w' tr :
  process_cqe signal_io_watcher io_cb alloc_cb recv_cb l cqe w = Val l' w' tr →
  nevents l' = nevents l + 1 ∨ (l' = l ∧ undisturbed w w').
Proof.
  unfold process_cqe. intros H.
  case_if H.
  { prim_inv H. right. split; [done|apply undisturbed_refl]. }
  bind_inv_as H op w0.
  case_if H.
  { left. do 2 bind_inv H. by prim_inv H. }
  case_if H.
  { left. do 2 bind_inv H. by prim_inv H. }
  assert (w0 = w) as ->.
  { unfold load_op_type in Hm. step Hm.
    repeat case_if Hm; first [by prim_inv Hm | by unfold crash in Hm]. }
  by apply dispatch_watcher_progress in H.
Qed.

Lemma for_each_cqe_progress cqes l count w l' count' w' tr :
  for_each_cqe signal_io_watcher io_cb alloc_cb recv_cb cqes l count w
    = Val (l', count') w' tr →
  nevents l < nevents l' ∨ (l' = l ∧ undisturbed w w').
Proof.
  revert l count w tr. induction cqes as [|cqe rest IH]; intros l count w tr H.
  - cbn in H. apply ret_inv in H as (Heq & -> & ->). injection Heq as -> ->.
    right. split; [done|apply undisturbed_refl].
  - cbn [for_each_cqe] in H. bind_inv_as H l1 w1.
    apply process_cqe_progress in Hm. apply IH in H.
    destruct Hm as [Hm|[-> Hu1]], H as [H|[-> Hu2]].
    + left. lia.
    + left. lia.
    + by left.
    + right. split; [done|]. by eapply undisturbed_trans.
Qed.

End Progress.

(** ** The wait *)

Lemma io_uring_wait_cqes_eq wait_nr ts w :
  io_uring_wait_cqes wait_nr ts w =
    match next_wait wait_nr ts w with
    | Some (r, d, w') => Val r w' [EvWait wait_nr ts d r]
    | None => Crash BlockedForever []
    end.
Proof.
  unfold io_uring_wait_cqes, next_wait, bind, gets. cbn [prepend app].
  destruct (k_wait (w_kernel w)) as [|o rest]; [|done].
  destruct (wait_nr =? 0); [done|]. by destruct ts.
Qed.

(** A wait that is not interrupted is not retried. *)
Lemma wait_cqes_retry_eq fuel wait_nr ts w r d w' :
  next_wait wait_nr ts w = Some (r, d, w') →
  r ≠ - EINTR →
  wait_cqes_retry fuel wait_nr ts w = Val r w' [EvWait wait_nr ts d r].
Proof.
  intros Hn Hr.
  assert (Hw : io_uring_wait_cqes wait_nr ts w = Val r w' [EvWait wait_nr ts d r])
    by (by rewrite io_uring_wait_cqes_eq, Hn).
  apply Z.eqb_neq in Hr.
  destruct fuel; cbn [wait_cqes_retry]; rewrite (bind_val _ _ _ _ _ _ Hw), Hr;
    reflexivity.
Qed.

Lemma wait_cqes_retry_blocked fuel wait_nr ts w :
  next_wait wait_nr ts w = None →
  wait_cqes_retry fuel wait_nr ts w = Crash BlockedForever [].
Proof.
  intros Hn.
  assert (Hw : io_uring_wait_cqes wait_nr ts w = Crash BlockedForever [])
    by (by rewrite io_uring_wait_cqes_eq, Hn).
  destruct fuel; cbn [wait_cqes_retry]; by rewrite (bind_crash _ _ _ _ _ Hw).
Qed.

Lemma sigmask_around_wait_eq l block w :
  sigmask_around_wait l block w =
    Val tt w (if sigmask l =? 0 then [] else [EvSigmask block]).
Proof.
  unfold sigmask_around_wait. by destruct (sigmask l =? 0).
Qed.

(** The wait stage, for a wait that is not interrupted. *)
Lemma wait_stage_eq l w r d w1 :
  next_wait (wait_nr_of l) (ts_of l) w = Some (r, d, w1) →
  r ≠ - EINTR →
  wait_stage l w =
    if valid_wait_result r then
      prepend (wait_events l d r) (after_wait (with_timeout (real_timeout l) l) r w1)
    else
      Crash AssertionFailed
        ((if sigmask l =? 0 then [] else [EvSigmask true])
         ++ [EvWait (wait_nr_of l) (ts_of l) d r]).
Proof.
  intros Hn Hr. unfold wait_stage.
  rewrite (bind_val _ _ _ _ _ _ (sigmask_around_wait_eq _ _ _)).
  unfold bind at 1, gets. rewrite prepend_nil.
  rewrite (bind_val _ _ _ _ _ _ (wait_cqes_retry_eq _ _ _ _ _ _ _ Hn Hr)).
  fold (valid_wait_result r). unfold wait_events.
  destruct (valid_wait_result r).
  - unfold assert, bind at 1, ret. rewrite prepend_nil.
    rewrite (bind_val _ _ _ _ _ _ (sigmask_around_wait_eq _ _ _)).
    rewrite !prepend_prepend, <- app_assoc. reflexivity.
  - unfold assert, bind at 1, crash. cbn. reflexivity.
Qed.

Lemma uv__update_time_eq w : uv__update_time w = Val tt (time_updated w) [].
Proof. reflexivity. Qed.

Lemma update_timeout_eq l w :
  update_timeout l w =
    if 0 <? timeout l then
      Val (after_correction l (loop_time (w_loop w))) w
        [EvUpdateTimeout (elapsed_since_entry l (loop_time (w_loop w)))
           (remaining_budget l (loop_time (w_loop w)))]
    else Crash AssertionFailed [].
Proof.
  unfold update_timeout, after_correction, remaining_budget, elapsed_since_entry.
  destruct (0 <? timeout l); [|done].
  unfold assert, bind, ret, gets, emit. cbn. by destruct (_ <=? 0).
Qed.

(** The valid results are 0, [-EAGAIN] and [-ETIME]; none of them is the
    positive [EAGAIN] that the code compares with first. *)
Lemma valid_wait_result_not_eagain r :
  valid_wait_result r = true → (r =? EAGAIN) = false.
Proof.
  unfold valid_wait_result. rewrite !orb_true_iff, !Z.eqb_eq.
  intros [[->| ->]| ->]; reflexivity.
Qed.

Lemma after_wait_etime l w :
  after_wait l (- ETIME) w =
    match timeout_verdict (restore_user_timeout l) (time_updated w) [] with
    | Val c w' tr => Val (inr c) w' tr
    | Crash f tr => Crash f tr
    end.
Proof.
  unfold after_wait. change (- ETIME =? EAGAIN) with false.
  change (- ETIME =? - ETIME) with true. cbv iota.
  rewrite (bind_val _ _ _ _ _ _ (uv__update_time_eq _)), prepend_nil.
  unfold timeout_verdict.
  destruct (timeout (restore_user_timeout l) =? -1); [done|].
  destruct (timeout (restore_user_timeout l) =? 0); [done|].
  unfold bind. rewrite update_timeout_eq.
  destruct (0 <? timeout (restore_user_timeout l)); [|done].
  cbn. reflexivity.
Qed.

Lemma after_wait_fallthrough l r w :
  valid_wait_result r = true → r ≠ - ETIME →
  after_wait l r w = Val (inl l) (time_updated w) [].
Proof.
  intros Hv Hr. unfold after_wait.
  rewrite (valid_wait_result_not_eagain _ Hv).
  rewrite (bind_val _ _ _ _ _ _ (uv__update_time_eq _)), prepend_nil.
  apply Z.eqb_neq in Hr. by rewrite Hr.
Qed.

(** ** What the loop does when a wait brings nothing *)

Lemma prepend_timeout_verdict l w tr :
  prepend tr (timeout_verdict l w []) = timeout_verdict l w tr.
Proof.
  unfold timeout_verdict.
  destruct (timeout l =? -1); [by cbn; rewrite app_nil_r|].
  destruct (timeout l =? 0); [by cbn; rewrite app_nil_r|].
  destruct (0 <? timeout l); cbn; by rewrite ?app_nil_r.
Qed.

Section Policy.

Variable signal_io_watcher : addr.
Variable io_cb : addr → Z → World → World.
Variable alloc_cb : addr → Z → World → World.
Variable recv_cb : addr → Z → bool → Z → World → World.

Local Abbreviation drain := (drain_stage signal_io_watcher io_cb alloc_cb recv_cb).
Local Abbreviation iteration := (poll_iteration signal_io_watcher io_cb alloc_cb recv_cb).

(** An iteration that finds the completion ring empty. *)
Lemma iteration_without_completions l w u :
  w_uring w = Some u → cq (ring u) = [] →
  iteration l w =
    match wait_stage l w with
    | Val (inl l') w' tr => prepend tr (drain l' w')
    | Val (inr c) w' tr => Val c w' tr
    | Crash f tr => Crash f tr
    end.
Proof.
  intros H Hc. unfold poll_iteration.
  assert (Hw : when (negb (timeout l =? 0)) uv__metrics_set_provider_entry_time w
               = Val tt w []) by (by destruct (negb _)).
  rewrite (bind_val _ _ _ _ _ _ Hw), prepend_nil.
  rewrite (bind_val _ _ _ _ _ _ (load_uring_eq _ _ H)), prepend_nil.
  unfold io_uring_cq_ready. rewrite Hc. cbn [length].
  change (Z.of_nat 0 =? 0) with true. cbv iota.
  unfold bind. destruct (wait_stage l w) as [[l'|c] w' tr|]; [done| |done].
  cbn. by rewrite app_nil_r.
Qed.

(** A drain over an empty completion ring goes straight to the decision on
    the timeout. *)
Lemma drain_nothing l w u :
  w_uring w = Some u → cq (ring u) = [] →
  have_signals l = 0 → nevents l = 0 →
  ∃ w',
    drain l w = timeout_verdict (restore_user_timeout l) w' [] ∧
    w_loop w' = w_loop w ∧ w_kernel w' = w_kernel w.
Proof.
  intros Hu Hc Hs Hn. rewrite (drain_stage_unfold _ _ _ _ _ _ _ Hu), Hc.
  cbn [for_each_cqe ret fst snd]. rewrite prepend_nil.
  rewrite (bind_val _ _ _ _ _ _ (io_uring_cq_advance_eq _ _ _ Hu)), prepend_nil.
  rewrite have_signals_restore, nevents_restore, Hs, Hn. cbn [Z.eqb negb].
  exists (set_uring (Some (uring_with_ring
            (ring_with_cq (drop (Z.to_nat 0) (cq (ring u)))) u)) w).
  split; [|split; reflexivity].
  unfold timeout_verdict.
  destruct (timeout (restore_user_timeout l) =? 0) eqn:E0.
  { apply Z.eqb_eq in E0. rewrite E0. reflexivity. }
  destruct (timeout (restore_user_timeout l) =? -1); [done|].
  rewrite update_timeout_eq. by destruct (0 <? _).
Qed.

Lemma wait_events_no_correction l d r :
  Forall (λ e, is_update_timeout e = false) (wait_events l d r).
Proof.
  unfold wait_events. destruct (sigmask l =? 0); by repeat constructor.
Qed.

(** C1 (amended).  In the WAIT state (empty completion ring), let the wait
    end with [-ETIME], or with [-EAGAIN] and nothing ready.  The loop first
    restores the caller's timeout if the zero-length probe was pending, and
    then decides on that timeout: [-1] loops again and [0] returns to the
    caller, both without any correction; only a positive timeout has the
    time elapsed since entry subtracted from the remaining budget, after
    which the call returns if the budget is used up and loops again with
    the reduced timeout otherwise.  No correction happens before that
    decision. *)
Theorem wait_outcome_policy l w u o rest :
  w_uring w = Some u →
  cq (ring u) = [] →
  k_wait (w_kernel w) = o :: rest →
  wo_res o = - ETIME ∨ (wo_res o = - EAGAIN ∧ wo_cqes o = []) →
  have_signals l = 0 →
  nevents l = 0 →
  let d := blocked_for (wait_nr_of l) (ts_of l) (wo_elapsed o) in
  ∃ w1,
    iteration l w
      = timeout_verdict (locals_after_wait l) w1 (wait_events l d (wo_res o)) ∧
    loop_time (w_loop w1) = to_uint64 (k_now (w_kernel w) + d) ∧
    Forall (λ e, is_update_timeout e = false) (wait_events l d (wo_res o)).
Proof.
  intros Hu Hc Hk Hr Hs Hn d.
  assert (Hnext : next_wait (wait_nr_of l) (ts_of l) w
                  = Some (wo_res o, d, kernel_elapse d (wo_cqes o) rest w))
    by (unfold next_wait; by rewrite Hk).
  rewrite (iteration_without_completions _ _ _ Hu Hc).
  destruct Hr as [Hr|[Hr Hq]].
  - rewrite (wait_stage_eq _ _ _ _ _ Hnext) by (rewrite Hr; done).
    rewrite Hr. change (valid_wait_result (- ETIME)) with true. cbv iota.
    rewrite after_wait_etime.
    exists (time_updated (kernel_elapse d (wo_cqes o) rest w)).
    split; [|split; [reflexivity|apply wait_events_no_correction]].
    rewrite <- (prepend_timeout_verdict _ _ (wait_events _ _ _)).
    unfold locals_after_wait.
    by destruct (timeout_verdict _ _ _).
  - rewrite (wait_stage_eq _ _ _ _ _ Hnext) by (rewrite Hr; done).
    rewrite Hr. change (valid_wait_result (- EAGAIN)) with true. cbv iota.
    rewrite after_wait_fallthrough by done. cbn [prepend].
    rewrite app_nil_r.
    edestruct (drain_nothing (with_timeout (real_timeout l) l)
                 (time_updated (kernel_elapse d (wo_cqes o) rest w)))
      as (w1 & Hd & Hl & Hkk); [| | | |].
    { cbn. rewrite Hu. cbn. reflexivity. }
    { cbn. by rewrite Hc, Hq. }
    { done. }
    { done. }
    exists w1. rewrite Hd, prepend_timeout_verdict.
    split; [reflexivity|]. split; [by rewrite Hl|apply wait_events_no_correction].
Qed.

End Policy.

Lemma wait_outcome_policy_witness :
  ∃ w1,
    poll_iteration sample_signal_watcher idle_io_cb idle_alloc_cb idle_recv_cb
        (initial_locals 50 sample_loop) etime_world
      = timeout_verdict (locals_after_wait (initial_locals 50 sample_loop)) w1
          (wait_events (initial_locals 50 sample_loop)
             (blocked_for 1 (Some 50) 50) (- ETIME)) ∧
    loop_time (w_loop w1) = to_uint64 (0 + blocked_for 1 (Some 50) 50) ∧
    Forall (λ e, is_update_timeout e = false)
      (wait_events (initial_locals 50 sample_loop) (blocked_for 1 (Some 50) 50)
         (- ETIME)).
Proof.
  apply (wait_outcome_policy sample_signal_watcher idle_io_cb idle_alloc_cb
           idle_recv_cb (initial_locals 50 sample_loop) etime_world sample_ring
           (mk_wait (- ETIME) 50 []) []); try reflexivity.
  by left.
Defined.

(** C1, as stated, fails for a non-blocking poll: with timeout 0 and
    nothing ready the wait answers [-EAGAIN] and the call returns; the only
    event is the wait, no correction of the timeout is attempted. *)
Lemma nonblocking_poll_not_corrected :
  trace_of (uv__uring_io_poll sample_signal_watcher idle_io_cb idle_alloc_cb
              idle_recv_cb 1 0 eagain_world)
    = [EvWait 0 None 0 (- EAGAIN)]
  ∧ returned (uv__uring_io_poll sample_signal_watcher idle_io_cb idle_alloc_cb
                idle_recv_cb 1 0 eagain_world) = true.
Proof. split; reflexivity. Qed.

(** ** The deadline *)

(** The drift correction is exact as long as the timeout and the time
    blocked fit an [int]. *)
Lemma budget_arith real B now :
  0 ≤ B ≤ INT_MAX → 0 ≤ real ≤ INT_MAX →
  to_uint64 (to_uint64 now - to_uint64 (now - B)) = B ∧
  to_int32 (to_uint64 (to_uint64 real - B)) = real - B.
Proof.
  unfold INT_MAX, to_uint64, to_int32. intros HB Hr.
  change (2 ^ 64) with 18446744073709551616.
  change (2 ^ 32) with 4294967296.
  change (2 ^ 31) with 2147483648 in *.
  split; Z.div_mod_to_equations; lia.
Qed.

Lemma correction_exact l now B :
  base l = to_uint64 (now - B) →
  0 ≤ B ≤ INT_MAX → 0 ≤ real_timeout l ≤ INT_MAX →
  elapsed_since_entry l (to_uint64 now) = B ∧
  remaining_budget l (to_uint64 now) = real_timeout l - B.
Proof.
  intros Hb HB Hr. unfold remaining_budget, elapsed_since_entry. rewrite Hb.
  destruct (budget_arith (real_timeout l) B now HB Hr) as [-> ->]. done.
Qed.

Lemma restore_after_wait T B l :
  budget_ok T B l → restore_user_timeout l = locals_after_wait l.
Proof.
  unfold locals_after_wait, restore_user_timeout.
  intros [(Hr & _)|(Hr & Ht & _)]; destruct l; cbn in *.
  - apply Z.eqb_neq in Hr. by rewrite Hr.
  - subst. reflexivity.
Qed.

(** The budget after an iteration that goes round again, [B'] ms having
    been blocked by then. *)
Lemma budget_continues T B B' l now l' :
  0 ≤ T ≤ INT_MAX →
  budget_ok T B l →
  0 ≤ B ≤ B' →
  (reset_timeout l ≠ 0 → B' = 0) →
  (reset_timeout l = 0 → B' ≤ B + real_timeout l) →
  base l = to_uint64 (now - B') →
  continues (locals_after_wait l) (to_uint64 now) l' →
  budget_ok T B' l' ∧ base l' = base l ∧
  have_signals l' = have_signals l ∧ nevents l' = nevents l ∧
  corrected_by l l' B'.
Proof.
  intros HT Hb HB H1 H2 Hbase Hc.
  assert (Hl1 : real_timeout (locals_after_wait l) = real_timeout l ∧
                base (locals_after_wait l) = base l ∧
                have_signals (locals_after_wait l) = have_signals l ∧
                nevents (locals_after_wait l) = nevents l ∧
                reset_timeout (locals_after_wait l) = 0 ∧
                timeout (locals_after_wait l) = real_timeout l).
  { unfold locals_after_wait, restore_user_timeout.
    destruct Hb as [(Hr & _ & Hu & Hrt & _)|(Hr & Ht & _)]; destruct l; cbn in *.
    - apply Z.eqb_neq in Hr. rewrite Hr. cbn. repeat split; congruence.
    - subst. cbn. done. }
  destruct Hl1 as (Hreal & Hbase1 & Hsig & Hnev & Hreset & Htime).
  assert (Hrange : 0 ≤ real_timeout l ≤ INT_MAX ∧ 0 ≤ B' ≤ INT_MAX ∧
                   B' + (real_timeout l - B') ≤ T).
  { destruct Hb as [(Hr & _ & _ & Hrt & HB0)|(Hr & _ & H0 & Hle)].
    - specialize (H1 Hr). lia.
    - specialize (H2 Hr). lia. }
  destruct Hrange as (Hr1 & Hr2 & Hr3).
  destruct Hc as [[Hm1 _]|[Hpos Hc]]; [lia|].
  unfold after_correction in Hc.
  destruct (correction_exact (locals_after_wait l) now B') as [_ Hrem];
    [congruence|done|by rewrite Hreal|].
  rewrite Hrem, Hreal in Hc.
  destruct (real_timeout l - B' <=? 0) eqn:E; [done|].
  apply Z.leb_gt in E. injection Hc as <-.
  split; [|split; [by cbn|split; [by cbn|split; [by cbn|]]]].
  - right. cbn. rewrite Hreset. repeat split; lia.
  - unfold corrected_by. cbn. lia.
Qed.

Lemma io_uring_cq_advance_inv n w (x : unit) w' tr :
  io_uring_cq_advance n w = Val x w' tr →
  w_kernel w' = w_kernel w ∧ w_loop w' = w_loop w ∧ tr = [].
Proof.
  unfold io_uring_cq_advance, store_uring. intros H. step H. prim_inv H. done.
Qed.

Lemma next_wait_facts wait_nr ts w r d w1 :
  next_wait wait_nr ts w = Some (r, d, w1) →
  no_eintr w →
  r ≠ - EINTR ∧ no_eintr w1 ∧
  k_now (w_kernel w1) = k_now (w_kernel w) + d ∧
  w_loop w1 = w_loop w ∧
  (wait_nr = 0 → d = 0) ∧
  (∀ t, ts = Some t → 0 ≤ t → 0 ≤ d ≤ t).
Proof.
  unfold next_wait, no_eintr. intros H Hn.
  destruct (k_wait (w_kernel w)) as [|o rest] eqn:Hk.
  - destruct (wait_nr =? 0) eqn:E.
    + injection H as <- <- <-. rewrite Hk.
      split; [done|]. split; [constructor|]. split; [lia|]. split; [done|].
      split; [done|]. intros t _ Ht. lia.
    + destruct ts as [t|]; [|done]. injection H as <- <- <-.
      cbn. split; [done|]. split; [constructor|]. split; [done|]. split; [done|].
      split; [intros ->; done|]. intros t' [= ->] ?. lia.
  - injection H as <- <- <-. inversion Hn as [|? ? Ho Hrest]; subst.
    cbn. split; [done|]. split; [done|]. split; [done|]. split; [done|].
    unfold blocked_for. split.
    + intros ->. done.
    + intros t -> Ht. destruct (wait_nr =? 0); lia.
Qed.

Section Deadline.

Variable signal_io_watcher : addr.
Variable io_cb : addr → Z → World → World.
Variable alloc_cb : addr → Z → World → World.
Variable recv_cb : addr → Z → bool → Z → World → World.

Local Abbreviation for_each := (for_each_cqe signal_io_watcher io_cb alloc_cb recv_cb).
Local Abbreviation drain := (drain_stage signal_io_watcher io_cb alloc_cb recv_cb).
Local Abbreviation iteration := (poll_iteration signal_io_watcher io_cb alloc_cb recv_cb).
Local Abbreviation loop := (poll_loop signal_io_watcher io_cb alloc_cb recv_cb).
Local Abbreviation io_poll :=
  (uv__uring_io_poll signal_io_watcher io_cb alloc_cb recv_cb).

(** The drain never waits. *)
Lemma quiet_drain_stage l : quiet no_wait (drain l).
Proof.
  unfold drain_stage, call_io_cb, uv__metrics_update_idle_time.
  apply quiet_bind; [apply quiet_load_uring|intros u].
  apply quiet_bind; [by apply (quiet_for_each_cqe harmless_no_wait)|intros lc].
  apply quiet_bind; [apply quiet_io_uring_cq_advance|intros _].
  quiet_tac; try done. apply quiet_update_timeout, harmless_no_wait.
Qed.

Lemma drain_blocked_time l w : blocked_time (trace_of (drain l w)) = 0.
Proof. apply blocked_time_no_wait, quiet_drain_stage. Qed.

(** A drain that goes round again has delivered nothing and has disturbed
    nothing. *)
Lemma drain_continues l w l' w' tr :
  have_signals l = 0 → nevents l = 0 →
  drain l w = Val (Continue l') w' tr →
  w_kernel w' = w_kernel w ∧
  loop_time (w_loop w') = loop_time (w_loop w) ∧
  continues (restore_user_timeout l) (loop_time (w_loop w)) l'.
Proof.
  intros Hs Hn H. unfold drain_stage in H. step H.
  bind_inv_as H lc w1. destruct lc as [l1 n].
  apply for_each_cqe_progress in Hm. cbn [fst snd] in H.
  bind_inv_as H x w2. apply io_uring_cq_advance_inv in Hm0 as (Hk & Hl & ->).
  rewrite have_signals_restore, nevents_restore in H.
  case_if H.
  { unfold uv__metrics_update_idle_time, call_io_cb in H.
    repeat step H. all: by apply ret_inv in H as [? _]. }
  case_if H; [by apply ret_inv in H as [? _]|].
  apply negb_false_iff, Z.eqb_eq in Heqb0.
  destruct Hm as [Hm|[-> (Hk1 & Ht1 & _)]]; [lia|].
  case_if H; [by apply ret_inv in H as [? _]|].
  case_if H.
  - apply Z.eqb_eq in Heqb2. apply ret_inv in H as (Hc & Hw & Htr).
    injection Hc as Hc. subst l' w' tr2.
    rewrite Hk, Hl, Hk1, Ht1. split; [done|]. split; [done|]. by left.
  - rewrite update_timeout_eq in H. case_if H; [|done].
    apply Z.ltb_lt in Heqb3. injection H as H <- <-.
    rewrite Hk, Hl, Hk1, Ht1. split; [done|]. split; [done|]. right. split; [done|].
    by rewrite Hl, Ht1 in H.
Qed.

Lemma wait_stage_blocked l w :
  next_wait (wait_nr_of l) (ts_of l) w = None →
  wait_stage l w
    = Crash BlockedForever (if sigmask l =? 0 then [] else [EvSigmask true]).
Proof.
  intros Hn. unfold wait_stage.
  rewrite (bind_val _ _ _ _ _ _ (sigmask_around_wait_eq _ _ _)).
  unfold bind at 1, gets. rewrite prepend_nil.
  rewrite (bind_crash _ _ _ _ _ (wait_cqes_retry_blocked _ _ _ _ Hn)).
  cbn. by rewrite app_nil_r.
Qed.

Lemma blocked_time_wait_events l d r : blocked_time (wait_events l d r) = d.
Proof. unfold wait_events. destruct (sigmask l =? 0); cbn; lia. Qed.

Lemma loop_head_bound T B l w : loop_head T B l w → B ≤ T.
Proof.
  intros (_ & _ & _ & HB & HT & [(_ & _ & _ & _ & ->)|(_ & _ & H0 & Hle)] & _); lia.
Qed.


Lemma wait_bound T B l d :
  budget_ok T B l →
  (wait_nr_of l = 0 → d = 0) →
  (∀ t, ts_of l = Some t → 0 ≤ t → 0 ≤ d ≤ t) →
  0 ≤ d ∧ (reset_timeout l ≠ 0 → d = 0) ∧ (reset_timeout l = 0 → d ≤ real_timeout l).
Proof.
  unfold wait_nr_of, ts_of. intros Hb H0 Ht.
  destruct Hb as [(Hr & Hz & _)|(Hr & Heq & Hpos & _)].
  - rewrite Hz in H0. cbn in H0. specialize (H0 eq_refl). lia.
  - destruct (timeout l =? 0) eqn:E0.
    + specialize (H0 eq_refl). apply Z.eqb_eq in E0. lia.
    + apply Z.eqb_neq in E0.
      assert ((0 <? timeout l) = true) as E by (apply Z.ltb_lt; lia).
      rewrite E in Ht. specialize (Ht _ eq_refl). lia.
Qed.

(** The loop-head invariant after an iteration that goes round again, in
    which a wait blocked for [d] ms. *)
Lemma loop_head_next T B l w d w2 l' :
  loop_head T B l w →
  no_eintr w2 →
  k_now (w_kernel w2) = k_now (w_kernel w) + d →
  loop_time (w_loop w2) = to_uint64 (k_now (w_kernel w2)) →
  0 ≤ d ∧ (reset_timeout l ≠ 0 → d = 0) ∧ (reset_timeout l = 0 → d ≤ real_timeout l) →
  continues (locals_after_wait l) (loop_time (w_loop w2)) l' →
  loop_head T (B + d) l' w2 ∧ corrected_by l l' (B + d).
Proof.
  intros (Hs & Hn & _ & HB & HT & Hb & Ht & Hbase) Hne Hnow Htime (Hd & Hd1 & Hd2) Hc.
  rewrite Htime in Hc.
  destruct (budget_continues T B (B + d) l (k_now (w_kernel w2)) l')
    as (Hb' & Hbase' & Hs' & Hn' & Hcor); try done.
  - lia.
  - intros Hr. specialize (Hd1 Hr).
    destruct Hb as [(_ & _ & _ & _ & ->)|(Hr' & _)]; [lia|done].
  - intros Hr. specialize (Hd2 Hr). lia.
  - rewrite Hbase. f_equal. lia.
  - split; [|done].
    split; [congruence|]. split; [congruence|]. split; [done|].
    split; [lia|]. split; [done|]. split; [done|].
    split; [done|]. rewrite Hbase', Hbase. f_equal. lia.
Qed.

Lemma time_updated_facts w :
  w_kernel (time_updated w) = w_kernel w ∧
  loop_time (w_loop (time_updated w)) = to_uint64 (k_now (w_kernel w)) ∧
  w_uring (time_updated w) = w_uring w.
Proof. done. Qed.

(** One iteration keeps the time blocked within the budget. *)
Lemma iteration_step T B l w :
  loop_head T B l w →
  match iteration l w with
  | Val Returned _ tr => B + blocked_time tr ≤ T
  | Val (Continue l') w' tr =>
      loop_head T (B + blocked_time tr) l' w' ∧
      corrected_by l l' (B + blocked_time tr)
  | Crash _ tr => B + blocked_time tr ≤ T
  end.
Proof.
  intros Hh. pose proof (loop_head_bound _ _ _ _ Hh) as HBT.
  pose proof Hh as (Hs & Hn & Hne & HB & HT & Hb & Ht & Hbase).
  destruct (w_uring w) as [u|] eqn:Hu.
  2:{ unfold poll_iteration.
      assert (Hw : when (negb (timeout l =? 0)) uv__metrics_set_provider_entry_time w
                   = Val tt w []) by (by destruct (negb _)).
      rewrite (bind_val _ _ _ _ _ _ Hw), prepend_nil.
      unfold bind, load_uring, bind, get. rewrite Hu. cbn. lia. }
  destruct (cq (ring u)) as [|c cs] eqn:Hc.
  - rewrite (iteration_without_completions _ _ _ _ _ _ _ Hu Hc).
    destruct (next_wait (wait_nr_of l) (ts_of l) w) as [[[r d] w1]|] eqn:Hnext.
    2:{ rewrite (wait_stage_blocked _ _ Hnext). destruct (sigmask l =? 0); cbn; lia. }
    destruct (next_wait_facts _ _ _ _ _ _ Hnext Hne)
      as (Hr & Hne1 & Hnow & Hloop & Hd0 & Hdt).
    pose proof (wait_bound _ _ _ _ Hb Hd0 Hdt) as Hd.
    assert (HBd : B + d ≤ T).
    { destruct Hd as (? & Hd1 & Hd2).
      destruct Hb as [(Hr' & _ & _ & _ & ->)|(Hr' & _ & _ & ?)].
      - rewrite (Hd1 Hr'). lia.
      - specialize (Hd2 Hr'). lia. }
    rewrite (wait_stage_eq _ _ _ _ _ Hnext Hr).
    destruct (valid_wait_result r) eqn:Hv.
    2:{ rewrite blocked_time_app. destruct (sigmask l =? 0); cbn; lia. }
    destruct (time_updated_facts w1) as (Hk2 & Ht2 & Hu2).
    destruct (Z.eq_dec r (- ETIME)) as [->|Hne_etime].
    + rewrite after_wait_etime. fold (locals_after_wait l).
      unfold timeout_verdict.
      destruct (timeout (locals_after_wait l) =? -1) eqn:E1.
      { cbn. rewrite app_nil_r, blocked_time_wait_events.
        apply (loop_head_next T B l w d _ _ Hh);
          [unfold no_eintr; by rewrite Hk2|by rewrite Hk2|by rewrite Ht2, Hk2|done|].
        left. apply Z.eqb_eq in E1. done. }
      destruct (timeout (locals_after_wait l) =? 0) eqn:E0.
      { cbn. rewrite app_nil_r, blocked_time_wait_events. lia. }
      destruct (0 <? timeout (locals_after_wait l)) eqn:Ep.
      2:{ cbn. rewrite app_nil_r, blocked_time_wait_events. lia. }
      cbn [prepend app].
      assert (Hbt : blocked_time
                (wait_events l d (- ETIME) ++
                  [EvUpdateTimeout
                     (elapsed_since_entry (locals_after_wait l)
                        (loop_time (w_loop (time_updated w1))))
                     (remaining_budget (locals_after_wait l)
                        (loop_time (w_loop (time_updated w1))))]) = d).
      { rewrite blocked_time_app, blocked_time_wait_events. cbn. lia. }
      destruct (after_correction (locals_after_wait l)
                  (loop_time (w_loop (time_updated w1)))) as [|l'] eqn:Hac;
        rewrite Hbt; [lia|].
      apply (loop_head_next T B l w d _ _ Hh);
        [unfold no_eintr; by rewrite Hk2|by rewrite Hk2|by rewrite Ht2, Hk2|done|].
      right. apply Z.ltb_lt in Ep. done.
    + rewrite after_wait_fallthrough by done. cbn [prepend]. rewrite app_nil_r.
      pose proof (drain_blocked_time (with_timeout (real_timeout l) l) (time_updated w1))
        as Hdb.
      destruct (drain (with_timeout (real_timeout l) l) (time_updated w1))
        as [[|l'] w' tr|f tr] eqn:Hdr; cbn [trace_of prepend] in *;
        rewrite blocked_time_app, blocked_time_wait_events, Hdb, Z.add_0_r; try lia.
      apply drain_continues in Hdr as (Hk3 & Ht3 & Hcont); [|done..].
      apply (loop_head_next T B l w d _ _ Hh);
        [unfold no_eintr; by rewrite Hk3, Hk2|by rewrite Hk3, Hk2
        |by rewrite Ht3, Ht2, Hk3, Hk2|done|].
      by rewrite Ht3.
  - rewrite (iteration_with_completions _ _ _ _ _ _ _ Hu) by (by rewrite Hc).
    pose proof (drain_blocked_time l w) as Hdb.
    destruct (drain l w) as [[|l'] w' tr|f tr] eqn:Hdr; cbn [trace_of] in *;
      rewrite Hdb; try lia.
    apply drain_continues in Hdr as (Hk3 & Ht3 & Hcont); [|done..].
    rewrite (restore_after_wait _ _ _ Hb) in Hcont.
    apply (loop_head_next T B l w 0 _ _ Hh);
      [unfold no_eintr; by rewrite Hk3|rewrite Hk3; lia|by rewrite Ht3, Hk3| |].
    + split; [done|]. split; [done|]. intros Hr0.
      destruct Hb as [(Hr' & _)|(_ & _ & ? & _)]; [done|lia].
    + by rewrite Ht3.
Qed.

Lemma poll_loop_deadline T fuel :
  ∀ B l w, loop_head T B l w → B + blocked_time (trace_of (loop fuel l w)) ≤ T.
Proof.
  induction fuel as [|n IH]; intros B l w Hh.
  - cbn. pose proof (loop_head_bound _ _ _ _ Hh). lia.
  - cbn [poll_loop]. pose proof (iteration_step _ _ _ _ Hh) as Hi.
    unfold bind. destruct (iteration l w) as [[|l'] w' tr|f tr]; cbn.
    + rewrite app_nil_r. done.
    + rewrite trace_of_prepend, blocked_time_app.
      destruct Hi as [Hi _]. specialize (IH _ _ _ Hi). lia.
    + done.
Qed.

End Deadline.

(** ** From the entry of [uv__uring_io_poll] to the head of its loop *)

Lemma same_clock_refl w : same_clock w w.
Proof. by unfold same_clock. Qed.

Lemma same_clock_trans w1 w2 w3 :
  same_clock w1 w2 → same_clock w2 w3 → same_clock w1 w3.
Proof. unfold same_clock. intros [-> ->] [-> ->]. done. Qed.

Lemma ring_frame_same_clock w w' : ring_frame w w' → same_clock w w'.
Proof. intros (_ & Hn & Hw & _). by split. Qed.

Lemma flag_async_over_limit_kernel w (x : unit) w' tr :
  flag_async_over_limit w = Val x w' tr → w_kernel w' = w_kernel w.
Proof.
  unfold flag_async_over_limit, sqe_set_flags, when. intros H. step H.
  case_if H.
  - apply write_sqe_inv in H as (u & _ & -> & _). done.
  - by prim_inv H.
Qed.

Lemma submit_watcher_same_clock a w (x : unit) w' tr :
  submit_watcher a w = Val x w' tr → same_clock w w'.
Proof.
  unfold submit_watcher. intros H.
  do 6 step H.
  bind_inv_as H sqe w1. destruct sqe; [|by step H].
  apply uv__io_uring_get_sqe_inv in Hm as (Hf & _).
  apply ring_frame_same_clock in Hf. step H.
  unfold io_uring_prep_poll_add, sqe_set_user_data in H.
  bind_inv H. apply write_sqe_inv in Hm as (u2 & _ & -> & ->).
  bind_inv H. apply write_sqe_inv in Hm as (u3 & _ & -> & ->).
  bind_inv H. apply flag_async_over_limit_kernel in Hm.
  unfold store_io in H. prim_inv H.
  destruct Hf as [Hn Hw]. unfold same_clock. cbn in *. rewrite Hm. cbn. done.
Qed.

Lemma submit_watchers_same_clock fuel :
  ∀ w (x : unit) w' tr, submit_watchers fuel w = Val x w' tr → same_clock w w'.
Proof.
  induction fuel as [|n IH]; intros w x w' tr H.
  - cbn [submit_watchers] in H. step H. case_if H; [|done].
    prim_inv H. apply same_clock_refl.
  - cbn [submit_watchers] in H. step H. case_if H.
    + prim_inv H. apply same_clock_refl.
    + bind_inv H. apply submit_watcher_same_clock in Hm. apply IH in H.
      by eapply same_clock_trans.
Qed.

Section QuietSubmission.

Context {p : event → bool} (Hp : harmless p).

Lemma quiet_submit_watcher a : quiet p (submit_watcher a).
Proof.
  unfold submit_watcher, io_uring_prep_poll_add, sqe_set_user_data, store_io.
  quiet_tac;
    first [ apply quiet_load_io | by apply quiet_uv__io_uring_get_sqe
          | apply quiet_write_sqe | apply quiet_flag_async_over_limit ].
Qed.

Lemma quiet_submit_watchers fuel : quiet p (submit_watchers fuel).
Proof.
  induction fuel as [|n IH]; cbn [submit_watchers]; quiet_tac;
    first [apply quiet_submit_watcher | apply IH].
Qed.

End QuietSubmission.

Lemma initial_locals_head T w :
  0 ≤ T ≤ INT_MAX →
  no_eintr w →
  loop_head T 0 (initial_locals T (w_loop (time_updated w))) (time_updated w).
Proof.
  intros HT Hne. unfold loop_head, initial_locals, clock_ok, budget_ok.
  rewrite Z.sub_0_r.
  destruct (test_flag (internal_flags _) _); cbn.
  - do 5 (split; [done|]). split; [|done]. left. done.
  - do 5 (split; [done|]). split; [|done]. right. lia.
Qed.

Section Entry.

Variable signal_io_watcher : addr.
Variable io_cb : addr → Z → World → World.
Variable alloc_cb : addr → Z → World → World.
Variable recv_cb : addr → Z → bool → Z → World → World.

Local Abbreviation iteration := (poll_iteration signal_io_watcher io_cb alloc_cb recv_cb).
Local Abbreviation loop := (poll_loop signal_io_watcher io_cb alloc_cb recv_cb).
Local Abbreviation io_poll :=
  (uv__uring_io_poll signal_io_watcher io_cb alloc_cb recv_cb).

(** From the flush to the loop. *)
Lemma io_poll_after_flush fuel T r w :
  (assert (0 <=? r);;;
   uv__update_time;;;
   assert (-1 <=? T);;;
   lp <- gets w_loop;;
   loop fuel (initial_locals T lp)) w = Crash AssertionFailed []
  ∨ (assert (0 <=? r);;;
     uv__update_time;;;
     assert (-1 <=? T);;;
     lp <- gets w_loop;;
     loop fuel (initial_locals T lp)) w
    = loop fuel (initial_locals T (w_loop (time_updated w))) (time_updated w).
Proof.
  destruct (0 <=? r); [|by left].
  destruct (-1 <=? T); [|by left].
  right. unfold assert. unfold bind at 1, ret. rewrite prepend_nil.
  rewrite (bind_val _ _ _ _ _ _ (uv__update_time_eq _)), prepend_nil.
  unfold bind at 1. rewrite prepend_nil.
  unfold bind at 1, gets. by rewrite prepend_nil.
Qed.

(** The poll call, split at the head of its loop. *)
Lemma io_poll_reaches_loop fuel T w :
  0 ≤ T ≤ INT_MAX →
  no_eintr w →
  ∃ tr0 r,
    io_poll fuel T w = prepend tr0 r ∧
    blocked_time tr0 = 0 ∧
    (trace_of r = [] ∨ ∃ l w0, r = loop fuel l w0 ∧ loop_head T 0 l w0).
Proof.
  intros HT Hne. unfold uv__uring_io_poll.
  unfold bind at 1. unfold gets at 1. rewrite prepend_nil.
  destruct (nfds (w_loop w) =? 0).
  { eexists [], _. rewrite prepend_nil. split; [reflexivity|]. split; [done|].
    left. unfold assert. by case_bool_decide. }
  destruct (submit_watchers (length (watcher_queue (w_loop w))) w)
    as [[] w1 tr1|f tr1] eqn:Hsw.
  2:{ rewrite (bind_crash _ _ _ _ _ Hsw).
      exists tr1, (Crash f []). cbn. rewrite app_nil_r. split; [done|].
      split; [|by left]. apply blocked_time_no_wait.
      pose proof (quiet_submit_watchers harmless_no_wait
                    (length (watcher_queue (w_loop w))) w) as Hq.
      by rewrite Hsw in Hq. }
  assert (Hbt1 : blocked_time tr1 = 0).
  { apply blocked_time_no_wait.
    pose proof (quiet_submit_watchers harmless_no_wait
                  (length (watcher_queue (w_loop w))) w) as Hq.
    by rewrite Hsw in Hq. }
  apply submit_watchers_same_clock in Hsw as Hc1.
  rewrite (bind_val _ _ _ _ _ _ Hsw).
  destruct (uv__io_uring_submit w1) as [r w2 tr2|f tr2] eqn:Hsub.
  2:{ rewrite (bind_crash _ _ _ _ _ Hsub).
      exists (tr1 ++ tr2), (Crash f []). cbn. rewrite app_nil_r. split; [done|].
      split; [|by left]. rewrite blocked_time_app, Hbt1. apply blocked_time_no_wait.
      pose proof (quiet_uv__io_uring_submit harmless_no_wait w1) as Hq.
      by rewrite Hsub in Hq. }
  assert (Hbt2 : blocked_time tr2 = 0).
  { apply blocked_time_no_wait.
    pose proof (quiet_uv__io_uring_submit harmless_no_wait w1) as Hq.
    by rewrite Hsub in Hq. }
  apply uv__io_uring_submit_inv in Hsub as Hc2. destruct Hc2 as (Hc2 & _ & _).
  apply ring_frame_same_clock in Hc2.
  rewrite (bind_val _ _ _ _ _ _ Hsub), prepend_prepend.
  exists (tr1 ++ tr2). eexists. split; [reflexivity|].
  split; [rewrite blocked_time_app; lia|].
  destruct (io_poll_after_flush fuel T r w2) as [->| ->]; [by left|].
  right. eexists _, _. split; [reflexivity|].
  apply initial_locals_head; [done|].
  destruct Hc1 as [_ Hw1], Hc2 as [_ Hw2]. unfold no_eintr in *. congruence.
Qed.

(** C6 (amended).  For a timeout [T] with [0 <= T <= INT_MAX]:
    - when no wait is interrupted by a signal, the time blocked in the
      kernel over the whole call never exceeds [T];
    - an iteration that goes round again has first corrected the timeout:
      the remaining budget is the previous one less the whole time blocked
      since entry, it is positive and it bounds the next wait;
    - at the correction, a budget of zero or less makes the function
      return at once, in the same world and with no callback run.
    A wait that answers [-EINTR] is retried with the same, uncorrected
    timeout; that case is left out here. *)
Theorem deadline_kept T :
  0 ≤ T ≤ INT_MAX →
  (∀ fuel w, no_eintr w → blocked_time (trace_of (io_poll fuel T w)) ≤ T)
  ∧ (∀ B l w l' w' tr,
       loop_head T B l w →
       iteration l w = Val (Continue l') w' tr →
       corrected_by l l' (B + blocked_time tr))
  ∧ (∀ l w,
       0 < timeout l →
       remaining_budget l (loop_time (w_loop w)) ≤ 0 →
       update_timeout l w =
         Val Returned w
           [EvUpdateTimeout (elapsed_since_entry l (loop_time (w_loop w)))
              (remaining_budget l (loop_time (w_loop w)))]).
Proof.
  intros HT. split; [|split].
  - intros fuel w Hne.
    destruct (io_poll_reaches_loop fuel T w HT Hne)
      as (tr0 & r & -> & Hbt & [Hr|(l & w0 & -> & Hh)]);
      rewrite trace_of_prepend, blocked_time_app, Hbt.
    + rewrite Hr. cbn. lia.
    + pose proof (poll_loop_deadline signal_io_watcher io_cb alloc_cb recv_cb
                    T fuel 0 l w0 Hh). lia.
  - intros B l w l' w' tr Hh Hi.
    pose proof (iteration_step signal_io_watcher io_cb alloc_cb recv_cb T B l w Hh) as Hs.
    rewrite Hi in Hs. by destruct Hs.
  - intros l w Hpos Hrem. rewrite update_timeout_eq.
    apply Z.ltb_lt in Hpos. rewrite Hpos. unfold after_correction.
    apply Z.leb_le in Hrem. by rewrite Hrem.
Qed.

End Entry.

Lemma deadline_kept_witness :
  blocked_time
    (trace_of (uv__uring_io_poll sample_signal_watcher idle_io_cb idle_alloc_cb
                 idle_recv_cb 5 50 spurious_world)) ≤ 50
  ∧ corrected_by (initial_locals 50 sample_loop) (mk_locals 30 30 0 0 0 0 0 0)
      (0 + blocked_time [EvWait 1 (Some 50) 20 0; EvUpdateTimeout 20 30])
  ∧ update_timeout (mk_locals 30 30 0 0 0 0 0 0) (with_waits [] (time_updated
        (set_kernel (fun k => mk_kernel 50 [] [] []) sample_world)))
    = Val Returned
        (with_waits [] (time_updated
           (set_kernel (fun k => mk_kernel 50 [] [] []) sample_world)))
        [EvUpdateTimeout 50 (-20)].
Proof.
  assert (HT : 0 ≤ 50 ≤ INT_MAX) by (unfold INT_MAX; lia).
  destruct (deadline_kept sample_signal_watcher idle_io_cb idle_alloc_cb idle_recv_cb
              50 HT) as (Ha & Hb & Hc).
  split; [|split].
  - apply Ha. repeat constructor. discriminate.
  - apply (Hb 0 (initial_locals 50 sample_loop) spurious_world _
             (world_of (poll_iteration sample_signal_watcher idle_io_cb idle_alloc_cb
                          idle_recv_cb (initial_locals 50 sample_loop) spurious_world)
                spurious_world)).
    + unfold loop_head, budget_ok, clock_ok, no_eintr. vm_compute.
      split; [done|]. split; [done|]. split; [repeat constructor; discriminate|].
      split; [done|]. split; [done|]. split; [right; done|]. done.
    + vm_compute. reflexivity.
  - apply Hc.
    + done.
    + vm_compute. discriminate.
Defined.

(** C6, as stated, fails when a wait is interrupted by a signal: the retry
    passes the same timeout, uncorrected.  With a timeout of 100 ms, a wait
    interrupted after 60 ms and a retry that runs into its timeout, the call
    spends 160 ms blocked. *)
Lemma interrupted_wait_exceeds_timeout :
  trace_of (uv__uring_io_poll sample_signal_watcher idle_io_cb idle_alloc_cb
              idle_recv_cb 5 100 eintr_world)
    = [EvWait 1 (Some 100) 60 (- EINTR); EvWait 1 (Some 100) 100 (- ETIME);
       EvUpdateTimeout 160 (-60)]
  ∧ blocked_time
      (trace_of (uv__uring_io_poll sample_signal_watcher idle_io_cb idle_alloc_cb
                   idle_recv_cb 5 100 eintr_world)) = 160.
Proof. split; reflexivity. Qed.

(** ** One receive per handle *)

Lemma receives_of_app h l1 l2 :
  receives_of h (l1 ++ l2) = receives_of h l1 ++ receives_of h l2.
Proof. apply List.filter_app. Qed.

Lemma is_receive_of_other h h' e :
  is_receive_of h' e = true → h ≠ h' → is_receive_of h e = false.
Proof.
  unfold is_receive_of. destruct (sqe_opcode e); try done.
  intros ->%Z.eqb_eq Hne. by apply Z.eqb_neq.
Qed.

Lemma receive_state_ext h w w' :
  submitted_entries w' = submitted_entries w → w_udp w' = w_udp w →
  receive_state h w' = receive_state h w.
Proof.
  intros Hs Hu. unfold receive_state, outstanding, read_pending. by rewrite Hs, Hu.
Qed.

Lemma receive_guarded_state h w w' :
  receive_state h w' = receive_state h w → receive_guarded h w → receive_guarded h w'.
Proof.
  unfold receive_state, receive_guarded. intros [= -> ->]. done.
Qed.

Lemma receive_guarded_idle h w : outstanding h w = 0%nat → receive_guarded h w.
Proof. unfold receive_guarded. intros ->. split; [lia|done]. Qed.

Lemma read_pending_store_ne h h' x w :
  h ≠ h' → read_pending h (set_udp (insert h' x) w) = read_pending h w.
Proof. intros Hne. unfold read_pending. cbn. by rewrite lookup_insert_ne. Qed.

Lemma read_pending_store_eq h x w :
  read_pending h (set_udp (insert h x) w) = test_flag (udp_flags x) UV_HANDLE_READ_PENDING.
Proof. unfold read_pending. cbn. by rewrite lookup_insert_eq. Qed.

Lemma test_flag_set_flag flags mask : mask ≠ 0 → test_flag (set_flag flags mask) mask = true.
Proof.
  intros Hm. unfold test_flag, set_flag.
  rewrite Z.land_lor_distr_l, Z.land_diag.
  apply negb_true_iff, Z.eqb_neq. intros H. apply Z.lor_eq_0_iff in H as [_ H]. done.
Qed.

(** Starting the receive proper marks the handle and adds one entry, the
    receive of this handle, whether or not the ring had to be flushed. *)
Lemma udp_recvmsg_submit_effect handle hd w w' tr :
  udp_recvmsg_submit handle hd w = Val tt w' tr →
  (∃ e, submitted_entries w' = submitted_entries w ++ [e] ∧
        is_receive_of handle e = true) ∧
  ∃ hd', w_udp w' = <[handle := hd']> (w_udp w) ∧
         test_flag (udp_flags hd') UV_HANDLE_READ_PENDING = true.
Proof.
  unfold udp_recvmsg_submit. intros H.
  unfold store_udp in H. step H.
  bind_inv_as H sqe w1. destruct sqe; [|by step H].
  apply uv__io_uring_get_sqe_inv in Hm as (Hf & _ & u1 & Hu1 & x0 & [s Hs] & Hse).
  do 2 step H.
  unfold io_uring_prep_recvmsg, sqe_set_user_data in H.
  bind_inv H. apply write_sqe_inv in Hm as (u2 & Hu2 & -> & ->).
  assert (u2 = u1) as -> by congruence.
  do 2 step H.
  bind_inv H. apply write_sqe_inv in Hm as (u3 & Hu3 & -> & ->).
  cbn in Hu3. injection Hu3 as <-.
  eapply flag_async_over_limit_inv in H as (-> & Ho & Hk & u' & Hu' & Hs');
    [|reflexivity| |].
  2:{ cbn. rewrite Hs, !upd_last_snoc. reflexivity. }
  2:{ reflexivity. }
  destruct Hf as ((_ & _ & _ & Hud) & _).
  destruct Ho as (_ & _ & _ & Hud').
  cbn in H1, Hud, Hud', Hk.
  split.
  - eexists. split; [|shelve].
    unfold submitted_entries in *. rewrite Hu', Hs', Hk. cbn.
    rewrite Hu1, Hs in Hse. cbn in Hse.
    rewrite app_assoc in Hse. apply app_inj_tail in Hse as [Hse _].
    rewrite app_assoc, Hse. reflexivity.
  - eexists. split.
    + rewrite Hud', Hud. apply insert_insert_eq.
    + cbn. rewrite Hud in H1. rewrite lookup_insert_eq in H1. injection H1 as <-.
      cbn. apply test_flag_set_flag. done.
  Unshelve. cbn. apply Z.eqb_refl.
Qed.

Lemma outstanding_snoc h w w' e :
  submitted_entries w' = submitted_entries w ++ [e] →
  outstanding h w' =
    (outstanding h w + (if is_receive_of h e then 1 else 0))%nat.
Proof.
  intros Hs. unfold outstanding. rewrite Hs, receives_of_app, length_app.
  unfold receives_of at 2. cbn. by destruct (is_receive_of h e).
Qed.

Lemma udp_recvmsg_submit_guarded h handle hd w w' tr :
  udp_recvmsg_submit handle hd w = Val tt w' tr →
  receive_guarded h w → (handle = h → outstanding h w = 0%nat) →
  receive_guarded h w'.
Proof.
  intros H Hg H0.
  apply udp_recvmsg_submit_effect in H as ((e & Hs & He) & hd' & Hu & Hf).
  pose proof (outstanding_snoc h _ _ _ Hs) as Ho.
  destruct (decide (handle = h)) as [->|Hne].
  - rewrite He, (H0 eq_refl) in Ho. split; [lia|]. intros _.
    unfold read_pending. rewrite Hu, lookup_insert_eq. done.
  - rewrite (is_receive_of_other h handle e He) in Ho by done.
    rewrite Nat.add_0_r in Ho.
    destruct Hg as [Hg1 Hg2]. split; [lia|].
    rewrite Ho. intros H1. unfold read_pending. rewrite Hu, lookup_insert_ne by done.
    by apply Hg2.
Qed.

Lemma read_pending_store_flags (h handle : addr) hd x w :
  w_udp w !! handle = Some hd → udp_flags x = udp_flags hd →
  read_pending h (set_udp (insert handle x) w) = read_pending h w.
Proof.
  intros Hh Hf. destruct (decide (h = handle)) as [->|Hne].
  - rewrite read_pending_store_eq. unfold read_pending. by rewrite Hh, Hf.
  - by apply read_pending_store_ne.
Qed.

Lemma receive_guarded_not_pending h w :
  receive_guarded h w → read_pending h w = false → outstanding h w = 0%nat.
Proof.
  intros [H1 H2] Hp. destruct (outstanding h w) as [|[|n]]; [done| |lia].
  rewrite H2 in Hp; done.
Qed.

Section ReceiveOnce.

Variable alloc_cb : addr → Z → World → World.
Variable recv_cb : addr → Z → bool → Z → World → World.
Variable h : addr.

(** The consumer's allocator neither starts nor completes a receive of [h],
    and its receive callback starts one, if at all, through the backend. *)
Hypothesis alloc_cb_keeps :
  ∀ a n w, receive_state h (alloc_cb a n w) = receive_state h w.
Hypothesis recv_cb_keeps :
  ∀ a n b f w, receive_guarded h w → receive_guarded h (recv_cb a n b f w).

Local Abbreviation recvmsg := (uv__uring_udp_recvmsg alloc_cb recv_cb).
Local Abbreviation recvmsg_done := (uv__uring_udp_recvmsg_done alloc_cb recv_cb).

Lemma udp_recvmsg_noop handle w :
  read_pending handle w = true → recvmsg handle w = Val tt w [].
Proof.
  unfold read_pending. intros H.
  destruct (w_udp w !! handle) as [hd|] eqn:Hh; [|done].
  unfold uv__uring_udp_recvmsg, udp_recvmsg_body, bind, load_udp, bind, get.
  cbn. rewrite Hh. cbn. rewrite H. reflexivity.
Qed.

Lemma udp_recvmsg_body_guarded (done : addr → Z → M unit) handle w w' tr :
  (∀ w w' tr, receive_guarded h w → (handle = h → outstanding h w = 0%nat) →
     done handle UV_ENOBUFS w = Val tt w' tr → receive_guarded h w') →
  receive_guarded h w →
  udp_recvmsg_body alloc_cb done handle w = Val tt w' tr →
  receive_guarded h w'.
Proof.
  intros Hdone Hg H. unfold udp_recvmsg_body in H.
  step H. case_if H.
  { by apply ret_inv in H as (_ & -> & _). }
  unfold store_udp, call_alloc_cb in H. repeat step H.
  set (w0 := set_udp _ w) in *.
  assert (Hst : receive_state h (alloc_cb handle UV__UDP_DGRAM_MAXSIZE w0)
                = receive_state h w).
  { rewrite alloc_cb_keeps. unfold receive_state. f_equal.
    by apply (read_pending_store_flags h handle a). }
  assert (Hg2 := receive_guarded_state _ _ _ Hst Hg).
  assert (Hz : handle = h →
               outstanding h (alloc_cb handle UV__UDP_DGRAM_MAXSIZE w0) = 0%nat).
  { intros ->. apply receive_guarded_not_pending; [done|].
    injection Hst as _ ->. unfold read_pending. by rewrite H0. }
  case_if H.
  - by eapply Hdone.
  - by eapply udp_recvmsg_submit_guarded.
Qed.

Lemma restart_if_active_guarded (restart : addr → M unit) handle w w' tr :
  (∀ w w' tr, receive_guarded h w → restart handle w = Val tt w' tr →
     receive_guarded h w') →
  receive_guarded h w →
  restart_if_active restart handle w = Val tt w' tr →
  receive_guarded h w'.
Proof.
  intros Hr Hg H. unfold restart_if_active in H. do 2 step H.
  unfold when in H. case_if H.
  - by eapply Hr.
  - by apply ret_inv in H as (_ & -> & _).
Qed.

Lemma call_recv_cb_guarded handle n b f w (x : unit) w' tr :
  receive_guarded h w →
  call_recv_cb recv_cb handle n b f w = Val x w' tr →
  receive_guarded h w'.
Proof.
  intros Hg H. unfold call_recv_cb in H. repeat step H.
  apply modify_inv in H as (-> & _). by apply recv_cb_keeps.
Qed.

Lemma udp_recvmsg_done_body_guarded (restart : addr → M unit) handle status w w' tr :
  (∀ w w' tr, receive_guarded h w → restart handle w = Val tt w' tr →
     receive_guarded h w') →
  receive_guarded h w → (handle = h → outstanding h w = 0%nat) →
  udp_recvmsg_done_body recv_cb restart handle status w = Val tt w' tr →
  receive_guarded h w'.
Proof.
  intros Hr Hg Hz H. unfold udp_recvmsg_done_body in H.
  step H. case_if H.
  { by apply ret_inv in H as (_ & -> & _). }
  unfold store_udp in H. step H.
  set (w1 := set_udp _ w) in *.
  assert (Hg1 : receive_guarded h w1).
  { destruct (decide (handle = h)) as [->|Hne].
    - apply receive_guarded_idle. by apply Hz.
    - eapply receive_guarded_state; [|exact Hg].
      unfold receive_state. f_equal. by apply read_pending_store_ne. }
  clearbody w1.
  case_if H; [case_if H|].
  - bind_inv_as H x w2. eapply restart_if_active_guarded; [exact Hr| |exact H].
    by eapply call_recv_cb_guarded.
  - by eapply call_recv_cb_guarded.
  - step H. bind_inv_as H x w2.
    eapply restart_if_active_guarded; [exact Hr| |exact H].
    by eapply call_recv_cb_guarded.
Qed.

Lemma udp_recvmsg_done_fuel_guarded fuel handle status w w' tr :
  receive_guarded h w → (handle = h → outstanding h w = 0%nat) →
  udp_recvmsg_done_fuel alloc_cb recv_cb fuel handle status w = Val tt w' tr →
  receive_guarded h w'.
Proof.
  revert status w w' tr. induction fuel as [|n IH]; intros status w w' tr Hg Hz H.
  { done. }
  cbn [udp_recvmsg_done_fuel] in H.
  eapply udp_recvmsg_done_body_guarded; [|exact Hg|exact Hz|exact H].
  intros w1 w1' tr1 Hg1 H1.
  eapply udp_recvmsg_body_guarded; [|exact Hg1|exact H1].
  intros w2 w2' tr2 Hg2 Hz2 H2. by eapply IH.
Qed.

Lemma udp_recvmsg_guarded handle w w' tr :
  receive_guarded h w → recvmsg handle w = Val tt w' tr → receive_guarded h w'.
Proof.
  intros Hg H. unfold uv__uring_udp_recvmsg in H.
  eapply udp_recvmsg_body_guarded; [|exact Hg|exact H].
  intros w2 w2' tr2 Hg2 Hz2 H2. by eapply udp_recvmsg_done_fuel_guarded.
Qed.

Lemma uv__io_uring_submit_guarded w r w' tr :
  receive_guarded h w → uv__io_uring_submit w = Val r w' tr → receive_guarded h w'.
Proof.
  intros Hg H. apply uv__io_uring_submit_inv in H as (((_ & _ & _ & Hu) & _) & Hs & _).
  eapply receive_guarded_state; [|exact Hg]. by apply receive_state_ext.
Qed.

Lemma kernel_takes_guarded handle k1 e k2 w :
  k_inflight (w_kernel w) = k1 ++ e :: k2 →
  is_receive_of handle e = true →
  receive_guarded h w →
  receive_guarded h (kernel_takes k1 k2 w) ∧
  (handle = h → outstanding h (kernel_takes k1 k2 w) = 0%nat).
Proof.
  intros Hk He [Hg1 Hg2].
  assert (Ho : outstanding h w =
          (outstanding h (kernel_takes k1 k2 w)
           + (if is_receive_of h e then 1 else 0))%nat).
  { unfold outstanding, submitted_entries, kernel_takes. cbn. rewrite Hk.
    unfold receives_of. rewrite !List.filter_app. cbn [List.filter].
    destruct (is_receive_of h e); rewrite !length_app; cbn [length]; lia. }
  assert (Hp : read_pending h (kernel_takes k1 k2 w) = read_pending h w) by done.
  destruct (decide (handle = h)) as [->|Hne].
  - rewrite He in Ho. split; [|lia]. apply receive_guarded_idle. lia.
  - rewrite (is_receive_of_other h handle e He) in Ho by done.
    rewrite Nat.add_0_r in Ho. split; [|done].
    unfold receive_guarded. rewrite Hp, <- Ho. done.
Qed.

Lemma receive_step_guarded w w' :
  receive_step alloc_cb recv_cb w w' → receive_guarded h w → receive_guarded h w'.
Proof.
  intros Hstep Hg. destruct Hstep as [handle w w' tr H|w r w' tr H
                                      |handle status w k1 e k2 w' tr Hk He H].
  - by eapply udp_recvmsg_guarded.
  - by eapply uv__io_uring_submit_guarded.
  - destruct (kernel_takes_guarded handle k1 e k2 w Hk He Hg) as [Hg1 Hz].
    by eapply udp_recvmsg_done_fuel_guarded.
Qed.


End ReceiveOnce.

Lemma lending_alloc_cb_keeps h a n w :
  receive_state h (lending_alloc_cb a n w) = receive_state h w.
Proof.
  unfold lending_alloc_cb. destruct (w_udp w !! a) as [hd|] eqn:Hh; [|done].
  unfold receive_state. f_equal. by apply (read_pending_store_flags h a hd).
Qed.

Lemma idle_recv_cb_keeps h a n b f w :
  receive_guarded h w → receive_guarded h (idle_recv_cb a n b f w).
Proof. done. Qed.

Lemma eager_recv_cb_keeps h a n b f w :
  receive_guarded h w → receive_guarded h (eager_recv_cb a n b f w).
Proof.
  intros Hg. unfold eager_recv_cb.
  destruct (uv__uring_udp_recvmsg _ _ a w) as [[] w' tr|] eqn:E; [|done].
  cbn [world_of].
  eapply (udp_recvmsg_guarded lending_alloc_cb idle_recv_cb h); [| |exact Hg|exact E].
  - intros. apply lending_alloc_cb_keeps.
  - intros. by apply idle_recv_cb_keeps.
Qed.


(** * Further properties of the backend *)

(** ** Invariants along a computation *)

Section Keeps.

Context {P : World → Prop}.

Lemma keeps_ret {A} (a : A) : keeps P (ret a).
Proof. intros w b w' tr HP H. by apply ret_inv in H as (_ & -> & _). Qed.

Lemma keeps_bind {A B} (m : M A) (f : A → M B) :
  keeps P m → (∀ a, keeps P (f a)) → keeps P (bind m f).
Proof.
  intros Hm Hf w b w' tr HP H. bind_inv_as H a w1.
  eapply Hf; [|exact H]. by eapply Hm.
Qed.

Lemma keeps_get : keeps P get.
Proof. intros w b w' tr HP H. by apply get_inv in H as (_ & -> & _). Qed.

Lemma keeps_gets {A} (f : World → A) : keeps P (gets f).
Proof. intros w b w' tr HP H. by apply gets_inv in H as (_ & -> & _). Qed.

Lemma keeps_modify f : (∀ w, P w → P (f w)) → keeps P (modify f).
Proof. intros Hf w b w' tr HP H. apply modify_inv in H as (-> & _). by apply Hf. Qed.

Lemma keeps_crash {A} e : keeps P (@crash A e).
Proof. intros w b w' tr HP H. done. Qed.

Lemma keeps_emit e : keeps P (emit e).
Proof. intros w b w' tr HP H. by apply emit_inv in H as (-> & _). Qed.

Lemma keeps_assert b : keeps P (assert b).
Proof. destruct b; [apply keeps_ret|apply keeps_crash]. Qed.

Lemma keeps_when b m : keeps P m → keeps P (when b m).
Proof. destruct b; [done|intros _; apply keeps_ret]. Qed.

Lemma keeps_load_uring : keeps P load_uring.
Proof. intros w b w' tr HP H. by apply load_uring_inv in H as (_ & -> & _). Qed.

Lemma keeps_load_io a : keeps P (load_io a).
Proof. intros w b w' tr HP H. by apply load_io_inv in H as (_ & -> & _). Qed.

Lemma keeps_load_req a : keeps P (load_req a).
Proof. intros w b w' tr HP H. by apply load_req_inv in H as (_ & -> & _). Qed.

Lemma keeps_load_udp a : keeps P (load_udp a).
Proof. intros w b w' tr HP H. by apply load_udp_inv in H as (_ & -> & _). Qed.

End Keeps.

(** Takes a computation apart along its binds and branches; what remains
    are the changes of the world and the calls of other functions. *)
Ltac keeps_step :=
  match goal with
  | |- keeps _ (ret _) => apply keeps_ret
  | |- keeps _ (bind _ _) => apply keeps_bind; [|intros ?]
  | |- keeps _ get => apply keeps_get
  | |- keeps _ (gets _) => apply keeps_gets
  | |- keeps _ (crash _) => apply keeps_crash
  | |- keeps _ (assert _) => apply keeps_assert
  | |- keeps _ (when _ _) => apply keeps_when
  | |- keeps _ (emit _) => apply keeps_emit
  | |- keeps _ load_uring => apply keeps_load_uring
  | |- keeps _ (load_io _) => apply keeps_load_io
  | |- keeps _ (load_req _) => apply keeps_load_req
  | |- keeps _ (load_udp _) => apply keeps_load_udp
  | |- keeps _ (modify _) => apply keeps_modify
  | |- keeps _ (if ?b then _ else _) => destruct b eqn:?
  | |- keeps _ (match ?x with _ => _ end) => destruct x eqn:?
  | |- keeps _ (let _ := _ in _) => cbv zeta
  end.

Ltac keeps_tac := repeat keeps_step.

(** ** The slot allocator and the flush *)

(** X2.  [uv__io_uring_get_sqe] hands out a slot without calling the kernel
    as long as the ring has a free slot.  On a full ring it flushes first:
    if the kernel takes the flush, the slot handed out is the first one of
    the emptied ring; if the kernel answers [-EBUSY] the entries stay on
    the ring and no slot is handed out (NULL); any other error of the flush
    is fatal. *)
Theorem get_sqe_on_full_ring w u :
  w_uring w = Some u →
  (io_uring_sq_ready (ring u) < sq_entries (ring u) →
     uv__io_uring_get_sqe w = Val true (slot_taken u w) [])
  ∧ (sq (ring u) ≠ [] →
     io_uring_sq_ready (ring u) = sq_entries (ring u) →
     uv__io_uring_get_sqe w =
       match next_submit w with
       | Accepted =>
           Val true (slot_taken (uring_with_ring ring_flush u) (flushed u w))
             [EvSubmit (io_uring_sq_ready (ring u))]
       | Refused err =>
           if err =? UV_EBUSY then Val false (refused w) [EvSubmit err]
           else if err <? 0 then Crash AssertionFailed [EvSubmit err]
           else Val false (refused w) [EvSubmit err]
       end).
Proof.
  intros Hu. split.
  - intros Hlt. unfold uv__io_uring_get_sqe.
    unfold bind at 1. rewrite (io_uring_get_sqe_eq _ _ Hu).
    apply Z.ltb_lt in Hlt. rewrite Hlt. reflexivity.
  - intros Hq Hfull. unfold uv__io_uring_get_sqe.
    unfold bind at 1. rewrite (io_uring_get_sqe_eq _ _ Hu).
    assert ((io_uring_sq_ready (ring u) <? sq_entries (ring u)) = false) as ->
      by (apply Z.ltb_ge; lia).
    cbn [negb prepend app].
    assert (Hpos : 0 < sq_entries (ring u)).
    { rewrite <- Hfull. unfold io_uring_sq_ready. destruct (sq (ring u)); [done|].
      simpl length. lia. }
    destruct (next_submit w) as [|err] eqn:Hk.
    + rewrite (bind_val _ _ _ _ _ _ (uv__io_uring_submit_accepted _ _ Hu Hk Hq)).
      assert ((0 <=? io_uring_sq_ready (ring u)) = true) as ->
        by (apply Z.leb_le; unfold io_uring_sq_ready; lia).
      unfold assert, bind at 1, ret at 1. cbn [prepend app].
      erewrite io_uring_get_sqe_eq by reflexivity. cbn.
      change (io_uring_sq_ready (ring_flush (ring u))) with 0.
      apply Z.ltb_lt in Hpos. rewrite Hpos. reflexivity.
    + rewrite (bind_val _ _ _ _ _ _ (uv__io_uring_submit_refused _ _ _ Hu Hk Hq)).
      assert (Hfull' : io_uring_get_sqe (refused w) = Val false (refused w) []).
      { erewrite io_uring_get_sqe_eq by (unfold refused; cbn; exact Hu).
        by assert ((io_uring_sq_ready (ring u) <? sq_entries (ring u)) = false) as ->
          by (apply Z.ltb_ge; lia). }
      destruct (err =? UV_EBUSY) eqn:Eb.
      * apply Z.eqb_eq in Eb as ->. cbn.
        change (UV_EBUSY <? 0) with true. cbv iota.
        change (0 <=? 0) with true.
        unfold assert, bind at 1, ret at 1. cbn [prepend app].
        rewrite Hfull'. reflexivity.
      * cbn. destruct (err <? 0) eqn:En.
        -- apply Z.ltb_lt in En.
           assert ((0 <=? err) = false) as -> by (apply Z.leb_gt; lia). reflexivity.
        -- apply Z.ltb_ge in En.
           assert ((0 <=? err) = true) as -> by (by apply Z.leb_le).
           unfold assert, bind at 1, ret at 1. cbn [prepend app].
           rewrite Hfull'. reflexivity.
Qed.

Lemma get_sqe_on_full_ring_witness :
  uv__io_uring_get_sqe sample_world = Val true (slot_taken sample_ring sample_world) []
  ∧ uv__io_uring_get_sqe busy_world = Val false (refused busy_world) [EvSubmit UV_EBUSY].
Proof.
  split.
  - apply (proj1 (get_sqe_on_full_ring sample_world sample_ring eq_refl)).
    vm_compute. reflexivity.
  - apply (proj2 (get_sqe_on_full_ring busy_world full_ring eq_refl)); [done|].
    reflexivity.
Defined.

(** X3.  A flush loses nothing: every entry written is afterwards on the
    ring or with the kernel, as before.  Its result is never [-EBUSY] (a busy
    kernel is reported as 0 entries taken); a negative result is the
    kernel's refusal, and the ring is then as it was.  After a flush the
    kernel took, the result is the number of entries that were pending and a
    second flush does nothing and does not call the kernel. *)
Theorem flush_loses_nothing w r w' tr :
  uv__io_uring_submit w = Val r w' tr →
  submitted_entries w' = submitted_entries w
  ∧ r ≠ UV_EBUSY
  ∧ (r < 0 → next_submit w = Refused r ∧ w_uring w' = w_uring w)
  ∧ (next_submit w = Accepted →
     (∀ u, w_uring w = Some u → r = io_uring_sq_ready (ring u))
     ∧ uv__io_uring_submit w' = Val 0 w' []).
Proof.
  intros H. split; [by apply uv__io_uring_submit_inv in H as (_ & ? & _)|].
  destruct (w_uring w) as [u|] eqn:Hu.
  2:{ unfold uv__io_uring_submit in H. bind_inv H.
      apply load_uring_inv in Hm as (? & _). congruence. }
  destruct (decide (sq (ring u) = [])) as [Hq|Hq].
  { rewrite (uv__io_uring_submit_empty _ _ Hu Hq) in H. injection H as <- <- <-.
    split; [done|]. split; [lia|]. intros _. split.
    - intros u' [= <-]. unfold io_uring_sq_ready. by rewrite Hq.
    - by apply (uv__io_uring_submit_empty _ u). }
  destruct (next_submit w) as [|err] eqn:Hk.
  - rewrite (uv__io_uring_submit_accepted _ _ Hu Hk Hq) in H. injection H as <- <- <-.
    split; [unfold io_uring_sq_ready, UV_EBUSY, UV__ERR, EBUSY; lia|].
    split; [unfold io_uring_sq_ready; lia|]. intros _. split.
    + by intros u' [= <-].
    + by eapply uv__io_uring_submit_empty.
  - rewrite (uv__io_uring_submit_refused _ _ _ Hu Hk Hq) in H. injection H as <- <- <-.
    split; [|split; [|done]].
    + destruct (err <? 0) eqn:En.
      * destruct (err =? UV_EBUSY) eqn:Eb; [done|]. by apply Z.eqb_neq.
      * apply Z.ltb_ge in En. unfold UV_EBUSY, UV__ERR, EBUSY. lia.
    + intros Hneg. destruct (err <? 0) eqn:En; [|apply Z.ltb_ge in En; lia].
      destruct (err =? UV_EBUSY); [lia|]. done.
Qed.

Lemma flush_loses_nothing_witness :
  submitted_entries (flushed full_ring full_world) = submitted_entries full_world
  ∧ 2 ≠ UV_EBUSY
  ∧ uv__io_uring_submit (flushed full_ring full_world)
    = Val 0 (flushed full_ring full_world) [].
Proof.
  destruct (flush_loses_nothing full_world 2 (flushed full_ring full_world) [EvSubmit 2])
    as (H1 & H2 & _ & H3); [reflexivity|].
  split; [exact H1|]. split; [exact H2|]. by apply H3.
Defined.

(** ** The invalidator with nothing to cancel *)

Lemma invalidate_fd_without_ring fd w :
  0 ≤ fd → w_uring w = None → uv__uring_platform_invalidate_fd fd w = Val tt w [].
Proof.
  intros Hfd Hu. unfold uv__uring_platform_invalidate_fd.
  assert ((0 <=? fd) = true) as -> by (by apply Z.leb_le).
  unfold assert, bind, ret, get. cbn. by rewrite Hu.
Qed.

(** X4.  Invalidating a descriptor has no effect at all when the loop has
    no ring (before [uv__uring_platform_loop_init] succeeded or after
    [uv__uring_platform_loop_delete]) or when no watcher is registered for
    the descriptor: nothing is written, the kernel is not called.  A
    negative descriptor is a fatal assertion. *)
Theorem invalidate_fd_nothing_to_cancel fd w :
  (fd < 0 → uv__uring_platform_invalidate_fd fd w = Crash AssertionFailed [])
  ∧ (0 ≤ fd → w_uring w = None →
     uv__uring_platform_invalidate_fd fd w = Val tt w [])
  ∧ (0 ≤ fd < nwatchers (w_loop w) → watchers (w_loop w) !! fd = None →
     uv__uring_platform_invalidate_fd fd w = Val tt w []).
Proof.
  split; [|split].
  - intros Hfd. unfold uv__uring_platform_invalidate_fd.
    by assert ((0 <=? fd) = false) as -> by (apply Z.leb_gt; lia).
  - apply invalidate_fd_without_ring.
  - intros Hfd Hs. unfold uv__uring_platform_invalidate_fd.
    assert ((0 <=? fd) = true) as -> by (apply Z.leb_le; lia).
    unfold assert, bind at 1, ret at 1. cbn [prepend app].
    unfold bind at 1, get. cbn [prepend app].
    destruct (w_uring w); [|done].
    by rewrite (bind_val _ _ _ _ _ _ (load_watcher_slot_eq _ _ Hfd)), Hs.
Qed.

Lemma invalidate_fd_nothing_to_cancel_witness :
  uv__uring_platform_invalidate_fd 5 sample_world = Val tt sample_world []
  ∧ uv__uring_platform_invalidate_fd (-1) sample_world = Crash AssertionFailed [].
Proof.
  destruct (invalidate_fd_nothing_to_cancel 5 sample_world) as (_ & _ & H).
  destruct (invalidate_fd_nothing_to_cancel (-1) sample_world) as (Hneg & _).
  split; [apply H; [vm_compute; split; [discriminate|reflexivity]|reflexivity]|].
  apply Hneg. reflexivity.
Defined.

(** ** Why a computation fails *)

Section FailsWith.

Context {Q : failure → Prop}.

Lemma fails_with_ret {A} (a : A) : fails_with Q (ret a).
Proof. intros w f tr H. done. Qed.

Lemma fails_with_bind {A B} (m : M A) (k : A → M B) :
  fails_with Q m → (∀ a, fails_with Q (k a)) → fails_with Q (bind m k).
Proof.
  intros Hm Hk w f tr H. unfold bind in H.
  destruct (m w) as [a w1 tr1|f1 tr1] eqn:E.
  - destruct (k a w1) as [|f2 tr2] eqn:E2; [done|].
    cbn in H. injection H as <- _. by eapply Hk.
  - injection H as <- _. by eapply Hm.
Qed.

Lemma fails_with_get : fails_with Q get.
Proof. intros w f tr H. done. Qed.

Lemma fails_with_gets {A} (g : World → A) : fails_with Q (gets g).
Proof. intros w f tr H. done. Qed.

Lemma fails_with_modify g : fails_with Q (modify g).
Proof. intros w f tr H. done. Qed.

Lemma fails_with_emit e : fails_with Q (emit e).
Proof. intros w f tr H. done. Qed.

Lemma fails_with_crash {A} f : Q f → fails_with Q (@crash A f).
Proof. intros HQ w f' tr H. unfold crash in H. by injection H as <- _. Qed.

Lemma fails_with_assert b : Q AssertionFailed → fails_with Q (assert b).
Proof. intros HQ. destruct b; [apply fails_with_ret|by apply fails_with_crash]. Qed.

Lemma fails_with_when b m : fails_with Q m → fails_with Q (when b m).
Proof. destruct b; [done|intros _; apply fails_with_ret]. Qed.

End FailsWith.

Ltac fails_step :=
  match goal with
  | |- fails_with _ (ret _) => apply fails_with_ret
  | |- fails_with _ (bind _ _) => apply fails_with_bind; [|intros ?]
  | |- fails_with _ get => apply fails_with_get
  | |- fails_with _ (gets _) => apply fails_with_gets
  | |- fails_with _ (modify _) => apply fails_with_modify
  | |- fails_with _ (emit _) => apply fails_with_emit
  | |- fails_with _ (crash _) => apply fails_with_crash
  | |- fails_with _ (assert _) => apply fails_with_assert
  | |- fails_with _ (when _ _) => apply fails_with_when
  | |- fails_with _ (if ?b then _ else _) => destruct b eqn:?
  | |- fails_with _ (match ?x with _ => _ end) => destruct x eqn:?
  | |- fails_with _ (let _ := _ in _) => cbv zeta
  end.

Ltac fails_tac := repeat fails_step; try (unfold genuine; discriminate).

Lemma genuine_load_uring : fails_with genuine load_uring.
Proof. unfold load_uring. fails_tac. Qed.

Lemma genuine_load_io a : fails_with genuine (load_io a).
Proof. unfold load_io. fails_tac. Qed.

Lemma genuine_load_req a : fails_with genuine (load_req a).
Proof. unfold load_req. fails_tac. Qed.

Lemma genuine_load_udp a : fails_with genuine (load_udp a).
Proof. unfold load_udp. fails_tac. Qed.

Lemma genuine_write_sqe f : fails_with genuine (write_sqe f).
Proof. unfold write_sqe, store_uring. fails_tac. apply genuine_load_uring. Qed.

Lemma genuine_io_uring_get_sqe : fails_with genuine io_uring_get_sqe.
Proof. unfold io_uring_get_sqe, store_uring. fails_tac. apply genuine_load_uring. Qed.

Lemma genuine_io_uring_submit : fails_with genuine io_uring_submit.
Proof. unfold io_uring_submit, store_uring. fails_tac. all: apply genuine_load_uring. Qed.

Lemma genuine_uv__io_uring_submit : fails_with genuine uv__io_uring_submit.
Proof.
  unfold uv__io_uring_submit. fails_tac;
    first [apply genuine_load_uring | apply genuine_io_uring_submit].
Qed.

Lemma genuine_uv__io_uring_get_sqe : fails_with genuine uv__io_uring_get_sqe.
Proof.
  unfold uv__io_uring_get_sqe. fails_tac;
    first [apply genuine_io_uring_get_sqe | apply genuine_uv__io_uring_submit].
Qed.

Lemma genuine_flag_async_over_limit : fails_with genuine flag_async_over_limit.
Proof.
  unfold flag_async_over_limit, sqe_set_flags. fails_tac;
    first [apply genuine_load_uring | apply genuine_write_sqe].
Qed.

Ltac genuine_side :=
  first [ apply genuine_load_uring | apply genuine_load_io | apply genuine_load_req
        | apply genuine_load_udp | apply genuine_write_sqe
        | apply genuine_uv__io_uring_get_sqe | apply genuine_uv__io_uring_submit
        | apply genuine_flag_async_over_limit ].

Lemma genuine_udp_sendmsg_one handle req : fails_with genuine (udp_sendmsg_one handle req).
Proof.
  unfold udp_sendmsg_one, send_msghdr, io_uring_prep_sendmsg, sqe_set_user_data,
    store_req, store_udp, QUEUE_REMOVE_req.
  fails_tac; genuine_side.
Qed.

(** ** The datagram send drains the queue of pending requests *)

Lemma udp_sendmsg_one_effect handle req hd w w' tr :
  w_udp w !! handle = Some hd →
  udp_sendmsg_one handle req w = Val tt w' tr →
  (∃ e, submitted_entries w' = submitted_entries w ++ [e] ∧
        sqe_opcode e = IORING_OP_SENDMSG ∧ sqe_addr e = req ∧ sqe_user_data e = req) ∧
  ∃ hd', w_udp w' !! handle = Some hd' ∧
    write_queue hd' = queue_remove req (write_queue hd) ∧
    write_pending_queue hd' = queue_remove req (write_pending_queue hd) ++ [req] ∧
    write_completed_queue hd' = queue_remove req (write_completed_queue hd).
Proof.
  intros Hh. unfold udp_sendmsg_one. intros H.
  step H. bind_inv_as H h w0. apply send_msghdr_inv in Hm as [-> ->].
  unfold store_req in H. step H.
  bind_inv_as H sqe w1. destruct sqe; [|by step H].
  apply uv__io_uring_get_sqe_inv in Hm as (Hf & _ & u1 & Hu1 & x0 & [s Hs] & Hse).
  do 3 step H.
  unfold io_uring_prep_sendmsg, sqe_set_user_data in H.
  bind_inv H. apply write_sqe_inv in Hm as (u2 & Hu2 & -> & ->).
  assert (u2 = u1) as -> by congruence.
  do 2 step H.
  bind_inv H. apply write_sqe_inv in Hm as (u3 & Hu3 & -> & ->).
  cbn in Hu3. injection Hu3 as <-.
  bind_inv H.
  eapply flag_async_over_limit_inv in Hm as (-> & Ho & Hk & u' & Hu' & Hs');
    [|reflexivity| |].
  2:{ cbn. rewrite Hs, !upd_last_snoc. reflexivity. }
  2:{ reflexivity. }
  unfold QUEUE_REMOVE_req, store_udp in H. do 2 step H. prim_inv H.
  destruct Hf as ((_ & _ & _ & Hud) & _).
  destruct Ho as (_ & _ & _ & Hud').
  cbn in Hud, Hud', Hk.
  split.
  - eexists. split; [|shelve].
    unfold submitted_entries in *. cbn. rewrite Hu', Hs', Hk. cbn.
    rewrite Hu1, Hs in Hse. cbn in Hse.
    rewrite app_assoc in Hse. apply app_inj_tail in Hse as [Hse _].
    rewrite app_assoc, Hse. reflexivity.
  - eexists. split; [cbn; apply lookup_insert_eq|].
    match goal with
    | Hl : w_udp _ !! handle = Some ?x |- _ =>
        cbn in Hl; rewrite lookup_fmap, Hud', Hud, Hh in Hl; cbn in Hl;
        injection Hl as <-
    end.
    done.
  Unshelve. done.
Qed.

Lemma queue_remove_absent a q : a ∉ q → queue_remove a q = q.
Proof.
  intros Ha. unfold queue_remove. induction q as [|x q IH]; [done|].
  apply not_elem_of_cons in Ha as [Hx Hq].
  rewrite filter_cons_True by done. by rewrite IH.
Qed.

Lemma queue_remove_head a q : a ∉ q → queue_remove a (a :: q) = q.
Proof.
  intros Ha. unfold queue_remove. rewrite filter_cons_False by tauto.
  by apply queue_remove_absent.
Qed.

Lemma udp_sendmsg_loop_drains fuel handle w hd :
  w_udp w !! handle = Some hd →
  NoDup (queued_requests hd) →
  (length (write_queue hd) ≤ fuel)%nat →
  match udp_sendmsg_loop fuel handle w with
  | Val _ w' _ => sendmsg_post handle hd w w'
  | Crash f _ => genuine f
  end.
Proof.
  revert w hd. induction fuel as [|n IH]; intros w hd Hh Hnd Hlen.
  - destruct (write_queue hd) as [|req rest] eqn:Hq; [|simpl in Hlen; lia].
    cbn [udp_sendmsg_loop].
    rewrite (bind_val _ _ _ _ _ _ (load_udp_eq _ _ _ Hh)), Hq. cbn.
    exists hd, []. rewrite Hq, !app_nil_r. by repeat split.
  - cbn [udp_sendmsg_loop].
    rewrite (bind_val _ _ _ _ _ _ (load_udp_eq _ _ _ Hh)), prepend_nil.
    destruct (write_queue hd) as [|req rest] eqn:Hq.
    { cbn. exists hd, []. rewrite Hq, !app_nil_r. by repeat split. }
    unfold bind at 1.
    destruct (udp_sendmsg_one handle req w) as [[] w1 tr1|f tr1] eqn:Hone.
    2:{ by eapply genuine_udp_sendmsg_one. }
    destruct (udp_sendmsg_one_effect _ _ _ _ _ _ Hh Hone)
      as ((e & Hes & Hop & Haddr & Hud) & hd1 & Hh1 & Hq1 & Hp1 & Hc1).
    unfold queued_requests in Hnd. rewrite Hq in Hnd.
    apply NoDup_cons in Hnd as [Hreq Hnd].
    rewrite !not_elem_of_app in Hreq. destruct Hreq as (Hr1 & Hr2 & Hr3).
    rewrite Hq, queue_remove_head in Hq1 by done.
    rewrite queue_remove_absent in Hp1 by done.
    rewrite queue_remove_absent in Hc1 by done.
    assert (Hnd1 : NoDup (queued_requests hd1)).
    { unfold queued_requests. rewrite Hq1, Hp1, Hc1.
      apply NoDup_app in Hnd as (Hn1 & Hn2 & Hn3).
      apply NoDup_app in Hn3 as (Hn3 & Hn4 & Hn5).
      apply NoDup_app. split; [done|]. split.
      - intros x Hx. rewrite !elem_of_app, list_elem_of_singleton.
        intros [[Hxp| ->]|Hxc]; [|done|].
        + apply (Hn2 x Hx). apply elem_of_app. by left.
        + apply (Hn2 x Hx). apply elem_of_app. by right.
      - apply NoDup_app. split; [|split; [|done]].
        + apply NoDup_app. split; [done|]. split; [|apply NoDup_singleton].
          intros x Hx. rewrite list_elem_of_singleton. by intros ->.
        + intros x. rewrite elem_of_app, list_elem_of_singleton.
          intros [Hxp| ->]; [by apply Hn4|done]. }
    specialize (IH w1 hd1 Hh1 Hnd1).
    rewrite Hq1 in IH. simpl in Hlen.
    specialize (IH ltac:(lia)).
    destruct (udp_sendmsg_loop n handle w1) as [[] w' tr'|f tr']; cbn; [|done].
    destruct IH as (hd' & es & Hh' & Hq' & Hp' & Hc' & Hes' & Hmap & Hall).
    exists hd', (e :: es). split; [done|]. split; [done|].
    split; [by rewrite Hp', Hp1, Hq1, Hq, <- app_assoc|].
    split; [by rewrite Hc', Hc1|].
    split; [by rewrite Hes', Hes, <- app_assoc|].
    split; [cbn; by rewrite Hud, Hmap, Hq1, Hq|].
    constructor; [|done]. by rewrite Haddr, Hud.
Qed.

(** X5.  [uv__uring_udp_sendmsg] empties the handle's queue of pending
    requests: when it returns, every request that was pending is on the
    queue of requests in flight, behind those already there and in the
    same order, the completed queue is untouched, and one send, tagged with
    the request, has been written for each, in that order.  The loop ends:
    it fails only for a fault of the code (a missing object, an unsupported
    address family, a ring that yields no slot), never for lack of fuel. *)
Theorem udp_sendmsg_drains_queue handle w hd :
  w_udp w !! handle = Some hd →
  NoDup (queued_requests hd) →
  match uv__uring_udp_sendmsg handle w with
  | Val _ w' _ => sendmsg_post handle hd w w'
  | Crash f _ => genuine f
  end.
Proof.
  intros Hh Hnd. unfold uv__uring_udp_sendmsg.
  rewrite (bind_val _ _ _ _ _ _ (load_udp_eq _ _ _ Hh)), prepend_nil.
  by apply udp_sendmsg_loop_drains.
Qed.

Lemma udp_sendmsg_drains_queue_witness :
  sendmsg_post sample_handle
    (mk_udp 0 sample_watcher [sample_req_addr; second_req_addr] [] []
       (mk_buf 0 0) msghdr_zero UV__URING_NONE)
    two_sends_world
    (world_of (uv__uring_udp_sendmsg sample_handle two_sends_world) two_sends_world).
Proof.
  pose proof (udp_sendmsg_drains_queue sample_handle two_sends_world _ eq_refl) as H.
  remember (uv__uring_udp_sendmsg sample_handle two_sends_world) as r eqn:E.
  vm_compute in E. subst r. apply H.
  apply (bool_decide_unpack _). vm_compute. exact I.
Defined.

(** ** Send completions and the queues *)

Lemma genuine_uv__uring_udp_sendmsg_done req status :
  fails_with genuine (uv__uring_udp_sendmsg_done req status).
Proof.
  unfold uv__uring_udp_sendmsg_done, store_req, store_udp, QUEUE_REMOVE_req, uv__io_feed.
  fails_tac; genuine_side.
Qed.

Lemma unlink_req_absent req hd :
  req ∉ queued_requests hd → unlink_req req hd = hd.
Proof.
  unfold queued_requests. rewrite !not_elem_of_app. intros (H1 & H2 & H3).
  unfold unlink_req, udp_with_queues. rewrite !queue_remove_absent by done.
  by destruct hd.
Qed.

Lemma uv__uring_udp_sendmsg_done_queues req status r hd w w' tr :
  w_reqs w !! req = Some r →
  w_udp w !! req_handle r = Some hd →
  uv__uring_udp_sendmsg_done req status w = Val tt w' tr →
  (∃ hd', w_udp w' !! req_handle r = Some hd' ∧
          queues_after_completion req status hd hd') ∧
  (∀ h2, h2 ≠ req_handle r → w_udp w' !! h2 = unlink_req req <$> w_udp w !! h2) ∧
  w_uring w' = w_uring w ∧ w_kernel w' = w_kernel w.
Proof.
  intros Hr Hh. unfold uv__uring_udp_sendmsg_done. intros H.
  step H. assert (a = r) as -> by congruence.
  rewrite sendmsg_done_test in H. unfold queues_after_completion.
  unfold QUEUE_REMOVE_req, store_req, store_udp, uv__io_feed in H.
  destruct (transient_status status).
  - repeat step H. apply modify_inv in H as (-> & _). cbn.
    match goal with
    | Hl : w_udp _ !! req_handle r = Some ?x |- _ =>
        cbn in Hl; rewrite lookup_fmap, Hh in Hl; cbn in Hl; injection Hl as <-
    end.
    split; [|split; [|done]].
    + eexists. split; [apply lookup_insert_eq|]. done.
    + intros h2 Hne. by rewrite lookup_insert_ne, lookup_fmap.
  - repeat step H.
    assert (Hw : w_udp w' = <[req_handle r :=
                 udp_with_queues (write_queue (unlink_req req hd))
                   (write_pending_queue (unlink_req req hd))
                   (queue_insert_tail req (write_completed_queue (unlink_req req hd)))
                   (unlink_req req hd)]> (unlink_req req <$> w_udp w)
               ∧ w_uring w' = w_uring w ∧ w_kernel w' = w_kernel w).
    { repeat match goal with
        | Hl : w_udp _ !! req_handle r = Some _ |- _ =>
            cbn in Hl; first [ rewrite lookup_fmap, Hh in Hl
                             | rewrite lookup_insert_eq in Hl ];
            cbn in Hl; injection Hl as <-
        end.
      unfold when in H. case_if H.
      - apply modify_inv in H as (-> & _). done.
      - apply ret_inv in H as (_ & -> & _). done. }
    destruct Hw as (Hw & Hu & Hk). rewrite Hw.
    split; [|split; [|done]].
    + eexists. split; [apply lookup_insert_eq|]. done.
    + intros h2 Hne. by rewrite lookup_insert_ne, lookup_fmap.
Qed.

Lemma queue_remove_app a q1 q2 :
  queue_remove a (q1 ++ q2) = queue_remove a q1 ++ queue_remove a q2.
Proof. unfold queue_remove. apply filter_app. Qed.

Lemma queue_remove_perm a q : NoDup q → a ∈ q → q ≡ₚ a :: queue_remove a q.
Proof.
  induction q as [|x q IH]; intros Hnd Ha; [by apply elem_of_nil in Ha|].
  apply NoDup_cons in Hnd as [Hx Hnd].
  destruct (decide (x = a)) as [->|Hne].
  - by rewrite queue_remove_head.
  - apply elem_of_cons in Ha as [->|Ha]; [done|].
    unfold queue_remove. rewrite filter_cons_True by done.
    fold (queue_remove a q). rewrite (IH Hnd Ha) at 1. apply Permutation_swap.
Qed.

Lemma queues_after_completion_perm req status hd hd' :
  NoDup (queued_requests hd) →
  req ∈ queued_requests hd →
  queues_after_completion req status hd hd' →
  queued_requests hd' ≡ₚ queued_requests hd.
Proof.
  intros Hnd Hin Hq.
  rewrite (queue_remove_perm req _ Hnd Hin).
  unfold queued_requests at 1. unfold queues_after_completion in Hq.
  unfold queued_requests. rewrite !queue_remove_app.
  destruct (transient_status status); destruct Hq as (-> & -> & ->).
  - rewrite <- app_assoc. symmetry. apply Permutation_middle.
  - rewrite !app_assoc. symmetry. apply Permutation_cons_append.
Qed.

(** X6.  A send completion loses and duplicates no request: whatever the
    status, the requests linked on the three queues of the handle are the
    same afterwards; the queues of another handle that does not hold the
    request are untouched, and so is the ring. *)
Theorem send_completion_keeps_requests req status r hd w w' tr :
  w_reqs w !! req = Some r →
  w_udp w !! req_handle r = Some hd →
  NoDup (queued_requests hd) →
  req ∈ queued_requests hd →
  uv__uring_udp_sendmsg_done req status w = Val tt w' tr →
  (∃ hd', w_udp w' !! req_handle r = Some hd' ∧
          queued_requests hd' ≡ₚ queued_requests hd)
  ∧ (∀ h2 hd2, h2 ≠ req_handle r → w_udp w !! h2 = Some hd2 →
       req ∉ queued_requests hd2 → w_udp w' !! h2 = Some hd2)
  ∧ submitted_entries w' = submitted_entries w.
Proof.
  intros Hr Hh Hnd Hin H.
  destruct (uv__uring_udp_sendmsg_done_queues _ _ _ _ _ _ _ Hr Hh H)
    as ((hd' & Hh' & Hq) & Hother & Hu & Hk).
  split; [|split].
  - exists hd'. split; [done|]. by eapply queues_after_completion_perm.
  - intros h2 hd2 Hne Hh2 Habs. rewrite (Hother h2 Hne), Hh2. cbn.
    by rewrite unlink_req_absent.
  - unfold submitted_entries. by rewrite Hu, Hk.
Qed.

Lemma send_completion_keeps_requests_witness :
  (∃ hd', w_udp (world_of (uv__uring_udp_sendmsg_done sample_req_addr (- ENOBUFS)
                             two_handles_world) two_handles_world)
            !! sample_handle = Some hd' ∧
          queued_requests hd' ≡ₚ [second_req_addr; sample_req_addr])
  ∧ w_udp (world_of (uv__uring_udp_sendmsg_done sample_req_addr (- ENOBUFS)
                       two_handles_world) two_handles_world) !! other_handle
    = w_udp two_handles_world !! other_handle.
Proof.
  destruct (send_completion_keeps_requests sample_req_addr (- ENOBUFS) sample_req
              (mk_udp 0 sample_watcher [second_req_addr] [sample_req_addr] []
                 (mk_buf 0 0) msghdr_zero UV__URING_NONE)
              two_handles_world
              (world_of (uv__uring_udp_sendmsg_done sample_req_addr (- ENOBUFS)
                           two_handles_world) two_handles_world) [])
    as (H1 & H2 & _).
  - reflexivity.
  - reflexivity.
  - apply (bool_decide_unpack _). vm_compute. exact I.
  - apply (bool_decide_unpack _). vm_compute. exact I.
  - reflexivity.
  - split; [exact H1|].
    apply (H2 other_handle); [discriminate|reflexivity|].
    apply (bool_decide_unpack _). vm_compute. exact I.
Defined.

(** X7.  A request the kernel bounced with a transient status is sent again
    by the next [uv__uring_udp_sendmsg]: after the completion and the send,
    the request is in flight again, behind the requests that were pending
    before it came back, and one new send has been written for each of
    them and for the bounced request, in that order. *)
Theorem bounced_request_is_sent_again req status r hd w :
  w_reqs w !! req = Some r →
  w_udp w !! req_handle r = Some hd →
  NoDup (queued_requests hd) →
  req ∈ write_pending_queue hd →
  transient_status status = true →
  match (uv__uring_udp_sendmsg_done req status;;;
         uv__uring_udp_sendmsg (req_handle r)) w with
  | Val _ w' _ =>
      ∃ hd' es,
        w_udp w' !! req_handle r = Some hd' ∧
        write_queue hd' = [] ∧
        write_pending_queue hd' =
          queue_remove req (write_pending_queue hd) ++ write_queue hd ++ [req] ∧
        submitted_entries w' = submitted_entries w ++ es ∧
        sends_of (write_queue hd ++ [req]) es
  | Crash f _ => genuine f
  end.
Proof.
  intros Hr Hh Hnd Hin Ht. unfold bind.
  destruct (uv__uring_udp_sendmsg_done req status w) as [[] w1 tr1|f tr1] eqn:Hdone.
  2:{ by eapply genuine_uv__uring_udp_sendmsg_done. }
  destruct (uv__uring_udp_sendmsg_done_queues _ _ _ _ _ _ _ Hr Hh Hdone)
    as ((hd1 & Hh1 & Hq) & _ & Hu & Hk).
  assert (Hin' : req ∈ queued_requests hd).
  { unfold queued_requests. rewrite !elem_of_app. by right; left. }
  assert (Hnd1 : NoDup (queued_requests hd1)).
  { by rewrite (queues_after_completion_perm _ _ _ _ Hnd Hin' Hq). }
  assert (Hout : req ∉ write_queue hd).
  { unfold queued_requests in Hnd. apply NoDup_app in Hnd as (_ & Hd & _).
    intros Hw. apply (Hd req Hw). apply elem_of_app. by left. }
  unfold queues_after_completion in Hq. rewrite Ht in Hq.
  destruct Hq as (Hq1 & Hp1 & Hc1). rewrite queue_remove_absent in Hq1 by done.
  unfold uv__uring_udp_sendmsg.
  rewrite (bind_val _ _ _ _ _ _ (load_udp_eq _ _ _ Hh1)), prepend_nil.
  pose proof (udp_sendmsg_loop_drains (length (write_queue hd1)) (req_handle r) w1 hd1
                Hh1 Hnd1 ltac:(done)) as Hloop.
  destruct (udp_sendmsg_loop _ _ w1) as [[] w' tr'|f tr']; cbn; [|done].
  destruct Hloop as (hd' & es & Hh' & Hq' & Hp' & _ & Hes & Hsends).
  exists hd', es. split; [done|]. split; [done|].
  split; [by rewrite Hp', Hp1, Hq1|].
  split; [|by rewrite <- Hq1].
  rewrite Hes. unfold submitted_entries. by rewrite Hu, Hk.
Qed.

Lemma bounced_request_is_sent_again_witness :
  ∃ hd' es,
    w_udp (world_of ((uv__uring_udp_sendmsg_done sample_req_addr (- EAGAIN);;;
                      uv__uring_udp_sendmsg sample_handle) two_handles_world)
             two_handles_world) !! sample_handle = Some hd' ∧
    write_queue hd' = [] ∧
    write_pending_queue hd' = [second_req_addr; sample_req_addr] ∧
    submitted_entries
      (world_of ((uv__uring_udp_sendmsg_done sample_req_addr (- EAGAIN);;;
                  uv__uring_udp_sendmsg sample_handle) two_handles_world)
         two_handles_world)
      = submitted_entries two_handles_world ++ es ∧
    sends_of [second_req_addr; sample_req_addr] es.
Proof.
  pose proof (bounced_request_is_sent_again sample_req_addr (- EAGAIN) sample_req
                (mk_udp 0 sample_watcher [second_req_addr] [sample_req_addr] []
                   (mk_buf 0 0) msghdr_zero UV__URING_NONE)
                two_handles_world eq_refl eq_refl) as H.
  remember ((uv__uring_udp_sendmsg_done sample_req_addr (- EAGAIN);;;
             uv__uring_udp_sendmsg sample_handle) two_handles_world) as res eqn:E.
  vm_compute in E. subst res. apply H.
  - apply (bool_decide_unpack _). vm_compute. exact I.
  - apply (bool_decide_unpack _). vm_compute. exact I.
  - reflexivity.
Defined.

(** ** The events of one dispatch *)

Section DispatchEvents.

Variable signal_io_watcher : addr.
Variable io_cb : addr → Z → World → World.

Local Abbreviation dispatch := (dispatch_watcher signal_io_watcher io_cb).

Lemma descriptor_goneb_spec i w :
  descriptor_goneb i w = true ↔ descriptor_gone i w.
Proof.
  unfold descriptor_goneb, descriptor_gone.
  rewrite orb_true_iff, Z.eqb_eq, bool_decide_eq_true. done.
Qed.

Lemma trace_of_delivered l a ev w :
  trace_of (delivered signal_io_watcher io_cb l a ev w) =
    if (ev =? 0) || (a =? signal_io_watcher) then [] else [EvIoCb a ev].
Proof.
  unfold delivered. destruct (ev =? 0); [done|]. by destruct (a =? signal_io_watcher).
Qed.

(** A one-shot watcher is not armed again: the completion is delivered in
    the world as it is. *)
Lemma dispatch_watcher_oneshot l a res w i :
  w_io w !! a = Some i →
  0 ≤ io_fd i < nwatchers (w_loop w) →
  ¬ descriptor_gone i w →
  io_oneshot i = true →
  dispatch l a res w = delivered signal_io_watcher io_cb l a (masked_events i res) w.
Proof.
  intros Hi Hfd Hg Ho. unfold dispatch_watcher.
  rewrite (bind_val _ _ _ _ _ _ (load_io_eq _ _ _ Hi)), prepend_nil.
  destruct (io_fd i =? -1) eqn:E.
  { apply Z.eqb_eq in E. exfalso. apply Hg. by left. }
  rewrite (bind_val _ _ _ _ _ _ (load_watcher_slot_eq _ _ Hfd)), prepend_nil.
  destruct (watchers (w_loop w) !! io_fd i) eqn:Hs.
  2:{ exfalso. apply Hg. by right. }
  rewrite Ho. cbn [negb].
  unfold bind at 1, ret at 1. cbn [prepend app].
  rewrite (bind_val _ _ _ _ _ _ (load_io_eq _ _ _ Hi)), prepend_nil.
  unfold delivered. fold (masked_events i res).
  destruct (masked_events i res =? 0); [done|]. cbn [negb].
  destruct (a =? signal_io_watcher); reflexivity.
Qed.

Lemma masked_events_within i res :
  Z.land (masked_events i res) (Z.lnot (Z.lor (Z.lor (io_pevents i) POLLERR) POLLHUP)) = 0.
Proof.
  unfold masked_events. rewrite <- Z.land_assoc, Z.land_lnot_diag. apply Z.land_0_r.
Qed.

(** X8.  What one dispatch lets out of the backend.  For a descriptor that
    is gone, nothing.  Otherwise a watcher that is not one-shot is armed
    again (a one-shot watcher is not), and then the watcher's callback is
    run at most once: exactly when some reported event is one the watcher
    asked for, or an error or a hang-up, and the watcher is not the signal
    watcher.  The callback is never told of an event outside that mask, and
    never run with no event at all. *)
Theorem dispatch_lets_out l a res w i :
  w_io w !! a = Some i →
  io_fd i = -1 ∨ 0 ≤ io_fd i < nwatchers (w_loop w) →
  trace_of (dispatch l a res w) = dispatch_events signal_io_watcher a i res w
  ∧ Z.land (masked_events i res)
      (Z.lnot (Z.lor (Z.lor (io_pevents i) POLLERR) POLLHUP)) = 0
  ∧ Forall (λ e, ∀ a' ev, e = EvIoCb a' ev → ev ≠ 0 ∧ a' ≠ signal_io_watcher)
      (trace_of (dispatch l a res w)).
Proof.
  intros Hi Hfd.
  assert (Heq : trace_of (dispatch l a res w)
                = dispatch_events signal_io_watcher a i res w).
  { unfold dispatch_events.
    destruct (descriptor_goneb i w) eqn:Hg.
    - apply descriptor_goneb_spec in Hg.
      by rewrite (dispatch_watcher_gone _ _ _ _ _ _ _ Hi Hfd Hg).
    - assert (Hng : ¬ descriptor_gone i w).
      { intros Hc. apply descriptor_goneb_spec in Hc. congruence. }
      destruct Hfd as [Hfd|Hfd]; [exfalso; apply Hng; by left|].
      destruct (io_oneshot i) eqn:Ho.
      + rewrite (dispatch_watcher_oneshot _ _ _ _ _ Hi Hfd Hng Ho).
        apply trace_of_delivered.
      + destruct (dispatch_watcher_rearm signal_io_watcher io_cb l a res w i
                    Hi Hfd Hng Ho) as (w2 & _ & _ & _ & _ & _ & _ & ->).
        rewrite trace_of_prepend, trace_of_delivered. reflexivity. }
  split; [exact Heq|]. split; [apply masked_events_within|].
  rewrite Heq. unfold dispatch_events.
  destruct (descriptor_goneb i w); [constructor|].
  apply Forall_app. split.
  - destruct (io_oneshot i); [constructor|].
    constructor; [|constructor]. intros a' ev. discriminate.
  - destruct (masked_events i res =? 0) eqn:Ez; [constructor|].
    destruct (a =? signal_io_watcher) eqn:Ea; [constructor|].
    constructor; [|constructor]. intros a' ev [= <- <-].
    split; [by apply Z.eqb_neq|by apply Z.eqb_neq].
Qed.

End DispatchEvents.

Lemma dispatch_lets_out_witness :
  trace_of (dispatch_watcher sample_signal_watcher idle_io_cb no_events_yet
              oneshot_watcher (Z.lor POLLIN 4) oneshot_world)
    = [EvIoCb oneshot_watcher POLLIN]
  ∧ trace_of (dispatch_watcher sample_signal_watcher idle_io_cb no_events_yet
                sample_watcher 4 sample_world)
    = [EvIoStart sample_watcher POLLIN].
Proof.
  split.
  - apply (proj1 (dispatch_lets_out sample_signal_watcher idle_io_cb no_events_yet
                    oneshot_watcher (Z.lor POLLIN 4) oneshot_world
                    (mk_io 5 POLLIN POLLIN true) eq_refl
                    ltac:(right; vm_compute; split; [discriminate|reflexivity]))).
  - apply (proj1 (dispatch_lets_out sample_signal_watcher idle_io_cb no_events_yet
                    sample_watcher 4 sample_world sample_io eq_refl
                    ltac:(right; vm_compute; split; [discriminate|reflexivity]))).
Defined.

(** ** A receive for which the consumer has no buffer *)

Section NoBuffer.

Variable alloc_cb : addr → Z → World → World.
Variable recv_cb : addr → Z → bool → Z → World → World.

(** X9.  When the consumer's allocator returns no buffer (a NULL base or a
    zero length), starting a receive writes nothing to the ring and does not
    mark the handle read-pending: the consumer is told once, through
    [recv_cb], of [UV_ENOBUFS], without address, and the receive is not
    tried again.  If the allocator has closed the handle, nothing is
    reported. *)
Theorem recv_without_buffer handle w hd hd1 :
  w_udp w !! handle = Some hd →
  test_flag (udp_flags hd) UV_HANDLE_READ_PENDING = false →
  let w1 := alloc_cb handle UV__UDP_DGRAM_MAXSIZE (recv_buf_reset handle hd w) in
  w_udp w1 !! handle = Some hd1 →
  no_buffer hd1 →
  uv__uring_udp_recvmsg alloc_cb recv_cb handle w =
    if uv__is_closing hd1 then
      Val tt w1 [EvAllocCb handle UV__UDP_DGRAM_MAXSIZE]
    else
      Val tt (recv_cb handle UV_ENOBUFS false 0 (read_pending_cleared handle hd1 w1))
        [EvAllocCb handle UV__UDP_DGRAM_MAXSIZE; EvRecvCb handle UV_ENOBUFS false 0].
Proof.
  intros Hh Hp w1 Hh1 Hb.
  unfold uv__uring_udp_recvmsg, udp_recvmsg_body.
  rewrite (bind_val _ _ _ _ _ _ (load_udp_eq _ _ _ Hh)), prepend_nil, Hp.
  unfold store_udp at 1. unfold bind at 1, modify. rewrite prepend_nil.
  fold (recv_buf_reset handle hd w).
  unfold call_alloc_cb at 1. unfold bind at 1. unfold bind at 1, emit, modify.
  cbn [prepend app]. fold w1.
  rewrite (bind_val _ _ _ _ _ _ (load_udp_eq _ _ _ Hh1)), prepend_nil.
  assert ((buf_base (recv_buf hd1) =? 0) || (buf_len (recv_buf hd1) =? 0) = true) as ->.
  { apply orb_true_iff. destruct Hb as [Hb|Hb]; [left|right]; by apply Z.eqb_eq. }
  cbn [udp_recvmsg_done_fuel]. unfold udp_recvmsg_done_body.
  rewrite (bind_val _ _ _ _ _ _ (load_udp_eq _ _ _ Hh1)), prepend_nil.
  destruct (uv__is_closing hd1); [reflexivity|].
  change (UV_ENOBUFS =? UV_EBADF) with false. cbv iota.
  unfold store_udp at 1. unfold bind at 1, modify. rewrite prepend_nil.
  fold (read_pending_cleared handle hd1 w1).
  change (UV_ENOBUFS <? 0) with true.
  change ((UV_ENOBUFS =? UV_EAGAIN) || (UV_ENOBUFS =? UV__ERR EWOULDBLOCK)) with false.
  cbv iota. unfold call_recv_cb, bind, emit, modify. cbn. reflexivity.
Qed.

End NoBuffer.

Lemma recv_without_buffer_witness :
  uv__uring_udp_recvmsg idle_alloc_cb idle_recv_cb sample_handle sample_world
    = Val tt
        (idle_recv_cb sample_handle UV_ENOBUFS false 0
           (read_pending_cleared sample_handle sample_udp
              (idle_alloc_cb sample_handle UV__UDP_DGRAM_MAXSIZE
                 (recv_buf_reset sample_handle sample_udp sample_world))))
        [EvAllocCb sample_handle UV__UDP_DGRAM_MAXSIZE;
         EvRecvCb sample_handle UV_ENOBUFS false 0].
Proof.
  apply (recv_without_buffer idle_alloc_cb idle_recv_cb sample_handle sample_world
           sample_udp sample_udp eq_refl eq_refl eq_refl).
  by left.
Defined.

(** ** A receive started with the consumer's buffer *)

Lemma genuine_udp_recvmsg_submit handle hd :
  fails_with genuine (udp_recvmsg_submit handle hd).
Proof.
  unfold udp_recvmsg_submit, io_uring_prep_recvmsg, sqe_set_user_data, store_udp.
  fails_tac; genuine_side.
Qed.

Lemma udp_recvmsg_submit_started handle hd1 w1 w' tr :
  w_udp w1 !! handle = Some hd1 →
  udp_recvmsg_submit handle hd1 w1 = Val tt w' tr →
  recv_started handle hd1 w1 w' ∧ (tr = [] ∨ ∃ n, tr = [EvSubmit n]).
Proof.
  intros Hh1. unfold udp_recvmsg_submit. intros H.
  unfold store_udp in H. step H.
  bind_inv_as H sqe w2. destruct sqe; [|by step H].
  apply uv__io_uring_get_sqe_inv in Hm as (Hf & Htr & u1 & Hu1 & x0 & [s Hs] & Hse).
  do 2 step H.
  unfold io_uring_prep_recvmsg, sqe_set_user_data in H.
  bind_inv H. apply write_sqe_inv in Hm as (u2 & Hu2 & -> & ->).
  assert (u2 = u1) as -> by congruence.
  do 2 step H.
  bind_inv H. apply write_sqe_inv in Hm as (u3 & Hu3 & -> & ->).
  cbn in Hu3. injection Hu3 as <-.
  eapply flag_async_over_limit_inv in H as (-> & Ho & Hk & u' & Hu' & Hs');
    [|reflexivity| |].
  2:{ cbn. rewrite Hs, !upd_last_snoc. reflexivity. }
  2:{ reflexivity. }
  destruct Hf as ((_ & Hio & _ & Hud) & _).
  destruct Ho as (_ & _ & _ & Hud').
  cbn in Hio, Hud, Hud', Hk.
  split; [|rewrite !app_nil_r; by rewrite ?app_nil_l].
  match goal with
  | Hl : w_udp _ !! handle = Some ?x |- _ =>
      cbn in Hl; rewrite Hud, lookup_insert_eq in Hl; injection Hl as <-
  end.
  match goal with
  | Hi : w_io w2 !! _ = Some ?i |- _ => rewrite Hio in Hi; rename Hi into Hwatch
  end.
  eexists _, _, _. split; [rewrite Hud'; apply lookup_insert_eq|].
  split; [cbn; by apply test_flag_set_flag|].
  split; [reflexivity|]. split; [reflexivity|]. split; [reflexivity|].
  split; [exact Hwatch|]. split; [|shelve].
  unfold submitted_entries in *. rewrite Hu', Hs', Hk. cbn.
  rewrite Hu1, Hs in Hse. cbn in Hse.
  rewrite app_assoc in Hse. apply app_inj_tail in Hse as [Hse _].
  rewrite app_assoc, Hse. reflexivity.
  Unshelve. reflexivity.
Qed.

Section WithBuffer.

Variable alloc_cb : addr → Z → World → World.
Variable recv_cb : addr → Z → bool → Z → World → World.

(** X18.  When the consumer's allocator lends a buffer, starting a receive
    marks the handle read-pending and writes one receive on the handle's
    descriptor, tagged with the handle: its message header names that one
    buffer and leaves room for any peer address.  Nothing is reported to
    the consumer yet.  The call fails only for a fault of the code. *)
Theorem recv_with_buffer handle w hd hd1 :
  w_udp w !! handle = Some hd →
  test_flag (udp_flags hd) UV_HANDLE_READ_PENDING = false →
  let w1 := alloc_cb handle UV__UDP_DGRAM_MAXSIZE (recv_buf_reset handle hd w) in
  w_udp w1 !! handle = Some hd1 →
  buf_base (recv_buf hd1) ≠ 0 →
  buf_len (recv_buf hd1) ≠ 0 →
  match uv__uring_udp_recvmsg alloc_cb recv_cb handle w with
  | Val _ w' tr =>
      recv_started handle hd1 w1 w' ∧
      ∃ flush, tr = EvAllocCb handle UV__UDP_DGRAM_MAXSIZE :: flush ∧
               (flush = [] ∨ ∃ n, flush = [EvSubmit n])
  | Crash f _ => genuine f
  end.
Proof.
  intros Hh Hp w1 Hh1 Hb Hl.
  unfold uv__uring_udp_recvmsg, udp_recvmsg_body.
  rewrite (bind_val _ _ _ _ _ _ (load_udp_eq _ _ _ Hh)), prepend_nil, Hp.
  unfold store_udp at 1. unfold bind at 1, modify. rewrite prepend_nil.
  fold (recv_buf_reset handle hd w).
  unfold call_alloc_cb at 1. unfold bind at 1. unfold bind at 1, emit, modify.
  cbn [prepend app]. fold w1.
  rewrite (bind_val _ _ _ _ _ _ (load_udp_eq _ _ _ Hh1)), prepend_nil.
  apply Z.eqb_neq in Hb, Hl. rewrite Hb, Hl. cbn [orb].
  destruct (udp_recvmsg_submit handle hd1 w1) as [[] w' tr|f tr] eqn:Hsub; cbn.
  - apply (udp_recvmsg_submit_started _ _ _ _ _ Hh1) in Hsub as [Hst Htr].
    split; [exact Hst|]. by exists tr.
  - by eapply genuine_udp_recvmsg_submit.
Qed.

End WithBuffer.

Lemma recv_with_buffer_witness :
  recv_started sample_handle
    (udp_with_recv_buf (mk_buf 5000 65536) (udp_with_recv_buf (mk_buf 0 0) sample_udp))
    (lending_alloc_cb sample_handle UV__UDP_DGRAM_MAXSIZE
       (recv_buf_reset sample_handle sample_udp sample_world))
    (world_of (uv__uring_udp_recvmsg lending_alloc_cb idle_recv_cb sample_handle
                 sample_world) sample_world).
Proof.
  pose proof (recv_with_buffer lending_alloc_cb idle_recv_cb sample_handle sample_world
                sample_udp _ eq_refl eq_refl eq_refl) as H.
  remember (uv__uring_udp_recvmsg lending_alloc_cb idle_recv_cb sample_handle
              sample_world) as r eqn:E.
  vm_compute in E. subst r. apply H; discriminate.
Defined.

(** ** The watcher submission stage of the poll *)

Lemma genuine_submit_watcher a : fails_with genuine (submit_watcher a).
Proof.
  unfold submit_watcher, io_uring_prep_poll_add, sqe_set_user_data, store_io.
  fails_tac; genuine_side.
Qed.

Lemma submit_watcher_effect a w w' tr :
  submit_watcher a w = Val tt w' tr →
  ∃ i e,
    w_io w !! a = Some i ∧ io_pevents i ≠ 0 ∧
    w_io w' = <[a := io_with_events (io_pevents i) i]> (w_io w) ∧
    watcher_queue (w_loop w') = queue_remove a (watcher_queue (w_loop w)) ∧
    submitted_entries w' = submitted_entries w ++ [e] ∧
    e = poll_add_sqe a i (sqe_flags e).
Proof.
  unfold submit_watcher. intros H.
  do 6 step H.
  bind_inv_as H sqe w1. destruct sqe; [|by step H].
  apply uv__io_uring_get_sqe_inv in Hm as (Hf & _ & u1 & Hu1 & x0 & [s Hs] & Hse).
  step H.
  unfold io_uring_prep_poll_add, sqe_set_user_data in H.
  bind_inv H. apply write_sqe_inv in Hm as (u2 & Hu2 & -> & ->).
  assert (u2 = u1) as -> by congruence.
  bind_inv H. apply write_sqe_inv in Hm as (u3 & Hu3 & -> & ->).
  cbn in Hu3. injection Hu3 as <-.
  bind_inv H.
  eapply flag_async_over_limit_inv in Hm as (-> & Ho & Hk & u' & Hu' & Hs');
    [|reflexivity| |].
  2:{ cbn. rewrite Hs, !upd_last_snoc. reflexivity. }
  2:{ reflexivity. }
  unfold store_io in H. prim_inv H.
  destruct Hf as ((Hl & Hio & _ & _) & _).
  destruct Ho as (Hl' & Hio' & _ & _).
  cbn in Hl, Hio, Hl', Hio', Hk.
  match goal with Hi : w_io _ !! a = Some ?i |- _ => exists i; cbn in Hi end.
  eexists. split; [done|].
  split; [match goal with E : negb (_ =? 0) = true |- _ =>
            by apply negb_true_iff, Z.eqb_neq in E end|].
  split; [cbn; by rewrite Hio', Hio|].
  split; [cbn; by rewrite Hl', Hl|].
  split; [|shelve].
  unfold submitted_entries in *. cbn. rewrite Hu', Hs', Hk. cbn.
  rewrite Hu1, Hs in Hse. cbn in Hse.
  rewrite app_assoc in Hse. apply app_inj_tail in Hse as [Hse _].
  rewrite app_assoc, Hse. reflexivity.
  Unshelve. reflexivity.
Qed.

Lemma Forall2_impl_elem {A B} (P Q : A → B → Prop) l k :
  Forall2 P l k → (∀ x y, x ∈ l → P x y → Q x y) → Forall2 Q l k.
Proof.
  induction 1 as [|x y l k Hxy _ IH]; intros Himp; constructor.
  - apply Himp; [by left|done].
  - apply IH. intros x' y' Hx'. apply Himp. by right.
Qed.

Lemma submit_watchers_stage fuel w :
  NoDup (watcher_queue (w_loop w)) →
  (length (watcher_queue (w_loop w)) ≤ fuel)%nat →
  match submit_watchers fuel w with
  | Val _ w' _ => watchers_submitted (watcher_queue (w_loop w)) w w'
  | Crash f _ => genuine f
  end.
Proof.
  revert w. induction fuel as [|n IH]; intros w Hnd Hlen.
  - destruct (watcher_queue (w_loop w)) as [|a rest] eqn:Hq; [|simpl in Hlen; lia].
    cbn. rewrite Hq. cbn. split; [done|]. split; [done|].
    exists []. by rewrite app_nil_r.
  - cbn [submit_watchers]. unfold bind at 1, gets. rewrite prepend_nil.
    destruct (watcher_queue (w_loop w)) as [|a rest] eqn:Hq.
    { cbn. split; [done|]. split; [done|]. exists []. by rewrite app_nil_r. }
    unfold bind at 1.
    destruct (submit_watcher a w) as [[] w1 tr1|f tr1] eqn:Hone.
    2:{ by eapply genuine_submit_watcher. }
    destruct (submit_watcher_effect _ _ _ _ Hone)
      as (i & e & Hi & Hp & Hio & Hq1 & Hes & He).
    apply NoDup_cons in Hnd as [Ha Hnd].
    rewrite Hq, queue_remove_head in Hq1 by done.
    specialize (IH w1). rewrite Hq1 in IH. simpl in Hlen.
    specialize (IH Hnd ltac:(lia)).
    destruct (submit_watchers n w1) as [[] w' tr'|f tr']; cbn; [|done].
    destruct IH as (Hq' & Hframe & es & Hes' & Hall).
    split; [done|]. split.
    { intros a' i' Ha' Hi'. apply not_elem_of_cons in Ha' as [Hne Ha'].
      apply Hframe; [done|]. by rewrite Hio, lookup_insert_ne. }
    exists (e :: es). split; [by rewrite Hes', Hes, <- app_assoc|].
    constructor.
    + exists i. split; [done|]. split; [done|]. split; [|done].
      apply Hframe; [done|]. rewrite Hio. apply lookup_insert_eq.
    + eapply Forall2_impl_elem; [exact Hall|]. cbn.
      intros a' e' Ha' (i' & Hi' & Hrest).
      exists i'. split; [|done].
      rewrite Hio, lookup_insert_ne in Hi'; [done|]. by intros ->.
Qed.

(** X10.  The watcher submission stage of [uv__uring_io_poll] (the loop
    over [loop->watcher_queue]) empties the list of watchers pending
    registration: when it returns, one poll request has been written for
    each watcher of the list, in the order of the list, with the watcher's
    descriptor and requested events and tagged with the watcher; each of
    them is armed with exactly the events it asked for; no other watcher is
    touched.  The stage ends: it fails only for a fault of the code (a
    watcher without requested events or with a descriptor out of range, a
    ring that yields no slot), never for lack of fuel. *)
Theorem watcher_stage_registers_all w :
  NoDup (watcher_queue (w_loop w)) →
  match submit_watchers (length (watcher_queue (w_loop w))) w with
  | Val _ w' _ => watchers_submitted (watcher_queue (w_loop w)) w w'
  | Crash f _ => genuine f
  end.
Proof. intros Hnd. by apply submit_watchers_stage. Qed.

Lemma watcher_stage_registers_all_witness :
  watchers_submitted [sample_watcher; sample_signal_watcher] pending_world
    (world_of (submit_watchers 2 pending_world) pending_world).
Proof.
  pose proof (watcher_stage_registers_all pending_world) as H.
  remember (submit_watchers (length (watcher_queue (w_loop pending_world)))
              pending_world) as r eqn:E.
  vm_compute in E. subst r. apply H.
  apply (bool_decide_unpack _). vm_compute. exact I.
Defined.

(** ** A poll with timeout 0 never blocks *)

Lemma harmless_instant : harmless instant.
Proof. by constructor. Qed.

Lemma blocked_time_instant tr :
  Forall (λ e, instant e = true) tr → blocked_time tr = 0.
Proof.
  induction 1 as [|e tr He _ IH]; [done|].
  simpl. destruct e; try done. cbn in He. apply Z.eqb_eq in He. lia.
Qed.

Lemma quiet_mono {A} (p q : event → bool) (m : M A) :
  (∀ e, p e = true → q e = true) → quiet p m → quiet q m.
Proof. intros Hpq Hm w. eapply Forall_impl; [apply Hm|]. exact Hpq. Qed.

Lemma no_wait_instant e : no_wait e = true → instant e = true.
Proof. by destruct e. Qed.

Lemma quiet_instant_io_uring_wait_cqes ts : quiet instant (io_uring_wait_cqes 0 ts).
Proof.
  unfold io_uring_wait_cqes. change (0 =? 0) with true. cbv iota.
  quiet_tac; reflexivity.
Qed.

Lemma quiet_instant_wait_cqes_retry fuel ts : quiet instant (wait_cqes_retry fuel 0 ts).
Proof.
  induction fuel as [|n IH]; cbn [wait_cqes_retry]; quiet_tac;
    first [apply quiet_instant_io_uring_wait_cqes | exact IH].
Qed.

Lemma quiet_instant_wait_stage l : timeout l = 0 → quiet instant (wait_stage l).
Proof.
  intros Ht. unfold wait_stage, sigmask_around_wait, after_wait, pthread_sigmask.
  unfold wait_nr_of. rewrite Ht. change (0 =? 0) with true. cbv iota.
  quiet_tac;
    first [ apply quiet_instant_wait_cqes_retry
          | apply (quiet_update_timeout harmless_instant)
          | apply quiet_uv__update_time
          | reflexivity ].
Qed.

Section NonBlocking.

Variable signal_io_watcher : addr.
Variable io_cb : addr → Z → World → World.
Variable alloc_cb : addr → Z → World → World.
Variable recv_cb : addr → Z → bool → Z → World → World.

Local Abbreviation drain := (drain_stage signal_io_watcher io_cb alloc_cb recv_cb).
Local Abbreviation iteration := (poll_iteration signal_io_watcher io_cb alloc_cb recv_cb).
Local Abbreviation loop := (poll_loop signal_io_watcher io_cb alloc_cb recv_cb).
Local Abbreviation io_poll := (uv__uring_io_poll signal_io_watcher io_cb alloc_cb recv_cb).

Lemma nonblocking_restore l : nonblocking l → timeout (restore_user_timeout l) = 0.
Proof.
  intros (Ht & _ & Hu & _). unfold restore_user_timeout.
  by destruct (negb _).
Qed.

Lemma update_timeout_asserts l w c w' tr :
  update_timeout l w = Val c w' tr → 0 < timeout l.
Proof.
  unfold update_timeout. intros H. bind_inv H.
  apply assert_inv in Hm as (Hm & _). by apply Z.ltb_lt.
Qed.

Lemma wait_stage_nonblocking l w s w' tr :
  nonblocking l →
  wait_stage l w = Val s w' tr →
  s = inr Returned ∨ ∃ l1, s = inl l1 ∧ nonblocking l1.
Proof.
  intros Hnb H. pose proof Hnb as (Ht & Hr & Hu & Hn).
  unfold wait_stage in H. bind_inv H. step H. bind_inv_as H r w1. step H.
  bind_inv H. clear Hm1.
  set (l1 := with_timeout (real_timeout l) l) in *.
  assert (Hnb1 : nonblocking l1) by (by unfold nonblocking, l1).
  unfold after_wait in H. case_if H.
  { step H. rewrite (nonblocking_restore _ Hnb1) in H. cbn in H.
    apply ret_inv in H as (-> & _). by left. }
  bind_inv H. case_if H.
  - rewrite (nonblocking_restore _ Hnb1) in H. cbn in H.
    apply ret_inv in H as (-> & _). by left.
  - apply ret_inv in H as (-> & _). right. by exists l1.
Qed.

Lemma drain_stage_nonblocking l w c w' tr :
  nonblocking l → drain l w = Val c w' tr → c = Returned.
Proof.
  intros Hnb H. unfold drain_stage in H. step H.
  bind_inv_as H lc w1. destruct lc as [l1 n].
  apply for_each_cqe_progress in Hm. cbn [fst snd] in H.
  bind_inv_as H x w2.
  rewrite have_signals_restore, nevents_restore in H.
  case_if H.
  { unfold uv__metrics_update_idle_time, call_io_cb in H.
    repeat step H. all: by apply ret_inv in H as [? _]. }
  destruct Hnb as (Ht & Hr & Hu & Hn).
  destruct Hm as [Hlt|[-> _]].
  - assert (E : negb (nevents l1 =? 0) = true)
      by (apply negb_true_iff, Z.eqb_neq; lia).
    rewrite E in H. by apply ret_inv in H as [? _].
  - rewrite Hn in H. cbn [Z.eqb negb] in H.
    rewrite (nonblocking_restore l) in H by done. cbn in H.
    by apply ret_inv in H as [? _].
Qed.

Lemma poll_iteration_nonblocking l w c w' tr :
  nonblocking l → iteration l w = Val c w' tr → c = Returned.
Proof.
  intros Hnb H. unfold poll_iteration in H. bind_inv H. clear Hm. step H.
  case_if H.
  - bind_inv_as H s w1.
    apply (wait_stage_nonblocking _ _ _ _ _ Hnb) in Hm as [->|(l1 & -> & Hnb1)].
    + by apply ret_inv in H as [? _].
    + by eapply drain_stage_nonblocking.
  - by eapply drain_stage_nonblocking.
Qed.

Lemma quiet_instant_poll_iteration l : timeout l = 0 → quiet instant (iteration l).
Proof.
  intros Ht. unfold poll_iteration, uv__metrics_set_provider_entry_time.
  quiet_tac;
    first [ apply quiet_load_uring
          | by apply quiet_instant_wait_stage
          | apply (quiet_mono no_wait); [apply no_wait_instant|];
            apply quiet_drain_stage ].
Qed.

Lemma poll_loop_instant fuel l w :
  nonblocking l → Forall (λ e, instant e = true) (trace_of (loop fuel l w)).
Proof.
  intros Hnb. destruct fuel as [|n]; [constructor|].
  cbn [poll_loop]. unfold bind.
  pose proof (quiet_instant_poll_iteration l (proj1 Hnb) w) as Hq.
  destruct (iteration l w) as [c w1 tr1|f tr1] eqn:Hit; [|done].
  apply (poll_iteration_nonblocking _ _ _ _ _ Hnb) in Hit as ->.
  cbn. by rewrite app_nil_r.
Qed.

Lemma nonblocking_initial_locals lp : nonblocking (initial_locals 0 lp).
Proof. unfold initial_locals, nonblocking. by destruct (test_flag (internal_flags lp) _). Qed.

(** X11.  A poll with timeout 0 spends no time waiting, whatever the kernel
    answers (interruptions by a signal included) and whatever the
    callbacks do: every wait it makes asks for no completion and returns at
    once.  And it makes one pass only: the first pass through the loop
    returns to the caller. *)
Theorem nonblocking_poll_never_blocks fuel w :
  blocked_time (trace_of (io_poll fuel 0 w)) = 0
  ∧ Forall (λ e, instant e = true) (trace_of (io_poll fuel 0 w))
  ∧ (∀ l w0 c w' tr, nonblocking l → iteration l w0 = Val c w' tr → c = Returned).
Proof.
  assert (Hall : Forall (λ e, instant e = true) (trace_of (io_poll fuel 0 w))).
  { revert w.
    assert (Hq : quiet instant (io_poll fuel 0)); [|exact Hq].
    unfold uv__uring_io_poll.
    apply quiet_bind; [apply quiet_gets|intros lp].
    destruct (nfds lp =? 0); [quiet_tac|].
    apply quiet_bind; [apply (quiet_submit_watchers harmless_instant)|intros _].
    apply quiet_bind; [apply (quiet_uv__io_uring_submit harmless_instant)|intros r].
    apply quiet_bind; [apply quiet_assert|intros _].
    apply quiet_bind; [apply quiet_uv__update_time|intros _].
    apply quiet_bind; [apply quiet_assert|intros _].
    apply quiet_bind; [apply quiet_gets|intros lp'].
    intros w. apply poll_loop_instant, nonblocking_initial_locals. }
  split; [by apply blocked_time_instant|]. split; [exact Hall|].
  intros l w0 c w' tr. apply poll_iteration_nonblocking.
Qed.

End NonBlocking.

Lemma nonblocking_poll_never_blocks_witness :
  trace_of (uv__uring_io_poll sample_signal_watcher idle_io_cb idle_alloc_cb idle_recv_cb
              1 0 interrupted_probe_world)
    = [EvWait 0 None 0 (- EINTR); EvWait 0 None 0 (- EAGAIN)]
  ∧ returned (uv__uring_io_poll sample_signal_watcher idle_io_cb idle_alloc_cb
                idle_recv_cb 1 0 interrupted_probe_world) = true
  ∧ blocked_time
      (trace_of (uv__uring_io_poll sample_signal_watcher idle_io_cb idle_alloc_cb
                   idle_recv_cb 1 0 interrupted_probe_world)) = 0.
Proof.
  split; [reflexivity|]. split; [reflexivity|].
  apply (proj1 (nonblocking_poll_never_blocks sample_signal_watcher idle_io_cb
                  idle_alloc_cb idle_recv_cb 1 interrupted_probe_world)).
Defined.

(** ** Once something is delivered the poll does not wait again *)

Lemma quiet_val {A} (p : event → bool) (m : M A) w a w' tr :
  quiet p m → m w = Val a w' tr → Forall (λ e, p e = true) tr.
Proof. intros Hq H. specialize (Hq w). by rewrite H in Hq. Qed.

Lemma waits_before_deliveries_app tr1 tr2 :
  Forall (λ e, no_delivery e = true) tr1 →
  waits_before_deliveries (tr1 ++ tr2) = waits_before_deliveries tr2.
Proof.
  induction 1 as [|e tr1 He _ IH]; [done|].
  cbn. unfold no_delivery in He. apply negb_true_iff in He. by rewrite He.
Qed.

Lemma forallb_no_wait tr :
  Forall (λ e, no_wait e = true) tr → forallb no_wait tr = true.
Proof.
  induction 1 as [|e tr He _ IH]; [done|]. cbn. by rewrite He, IH.
Qed.

Lemma waits_before_deliveries_no_wait tr :
  Forall (λ e, no_wait e = true) tr → waits_before_deliveries tr = true.
Proof.
  induction 1 as [|e tr He Hall IH]; [done|].
  cbn. destruct (delivery e); [|done]. by apply forallb_no_wait.
Qed.

Lemma calm_io_uring_submit : quiet no_delivery io_uring_submit.
Proof.
  unfold io_uring_submit, store_uring.
  quiet_tac; first [apply quiet_load_uring | reflexivity].
Qed.

Lemma calm_uv__io_uring_submit : quiet no_delivery uv__io_uring_submit.
Proof.
  unfold uv__io_uring_submit. quiet_tac;
    first [apply quiet_load_uring | apply calm_io_uring_submit].
Qed.

Lemma calm_uv__io_uring_get_sqe : quiet no_delivery uv__io_uring_get_sqe.
Proof.
  unfold uv__io_uring_get_sqe, io_uring_get_sqe, store_uring. quiet_tac;
    first [apply quiet_load_uring | apply calm_uv__io_uring_submit].
Qed.

Lemma calm_write_sqe f : quiet no_delivery (write_sqe f).
Proof. unfold write_sqe, store_uring. quiet_tac. apply quiet_load_uring. Qed.

Lemma calm_submit_watcher a : quiet no_delivery (submit_watcher a).
Proof.
  unfold submit_watcher, io_uring_prep_poll_add, sqe_set_user_data, store_io,
    flag_async_over_limit, sqe_set_flags.
  quiet_tac;
    first [ apply quiet_load_io | apply quiet_load_uring
          | apply calm_uv__io_uring_get_sqe | apply calm_write_sqe ].
Qed.

Lemma calm_submit_watchers fuel : quiet no_delivery (submit_watchers fuel).
Proof.
  induction fuel as [|n IH]; cbn [submit_watchers]; quiet_tac;
    first [apply calm_submit_watcher | apply IH].
Qed.

Lemma calm_uv__io_start a events : quiet no_delivery (uv__io_start a events).
Proof.
  unfold uv__io_start, store_io. quiet_tac; first [apply quiet_load_io | reflexivity].
Qed.

Lemma calm_update_timeout l : quiet no_delivery (update_timeout l).
Proof. unfold update_timeout. quiet_tac. reflexivity. Qed.

Lemma calm_io_uring_wait_cqes wait_nr ts : quiet no_delivery (io_uring_wait_cqes wait_nr ts).
Proof. unfold io_uring_wait_cqes. quiet_tac; reflexivity. Qed.

Lemma calm_wait_cqes_retry fuel wait_nr ts :
  quiet no_delivery (wait_cqes_retry fuel wait_nr ts).
Proof.
  induction fuel as [|n IH]; cbn [wait_cqes_retry]; quiet_tac;
    first [apply calm_io_uring_wait_cqes | exact IH].
Qed.

Lemma calm_wait_stage l : quiet no_delivery (wait_stage l).
Proof.
  unfold wait_stage, sigmask_around_wait, after_wait, pthread_sigmask.
  quiet_tac;
    first [ apply calm_wait_cqes_retry | apply calm_update_timeout
          | apply quiet_uv__update_time | reflexivity ].
Qed.

Section Settle.

Variable signal_io_watcher : addr.
Variable io_cb : addr → Z → World → World.
Variable alloc_cb : addr → Z → World → World.
Variable recv_cb : addr → Z → bool → Z → World → World.

Local Abbreviation for_each := (for_each_cqe signal_io_watcher io_cb alloc_cb recv_cb).
Local Abbreviation drain := (drain_stage signal_io_watcher io_cb alloc_cb recv_cb).
Local Abbreviation iteration := (poll_iteration signal_io_watcher io_cb alloc_cb recv_cb).
Local Abbreviation loop := (poll_loop signal_io_watcher io_cb alloc_cb recv_cb).
Local Abbreviation io_poll := (uv__uring_io_poll signal_io_watcher io_cb alloc_cb recv_cb).

Local Abbreviation calm := (Forall (λ e, no_delivery e = true)).

(** A completion that is not counted as an event has delivered nothing. *)
Lemma dispatch_watcher_calm l a res w l' w' tr :
  dispatch_watcher signal_io_watcher io_cb l a res w = Val l' w' tr →
  nevents l' = nevents l + 1 ∨ (l' = l ∧ calm tr).
Proof.
  unfold dispatch_watcher. intros H. step H.
  case_if H.
  { prim_inv H. right. by split. }
  bind_inv_as H slot w0.
  apply load_watcher_slot_inv in Hm as (-> & -> & ->).
  destruct (watchers (w_loop w) !! io_fd a0); [|prim_inv H; right; by split].
  bind_inv_as H x w1.
  assert (Hc : calm (trace_of (Val x w1 tr))).
  { cbn [trace_of]. eapply (quiet_val no_delivery); [|exact Hm].
    unfold store_io.
    quiet_tac; first [apply quiet_load_io | apply calm_uv__io_start]. }
  cbn [trace_of] in Hc. clear Hm.
  step H. case_if H.
  - left. bind_inv_as H l1 w2. prim_inv H.
    match goal with Hd : (if a =? _ then _ else _) _ = _ |- _ => rename Hd into Hdel end.
    case_if Hdel.
    + prim_inv Hdel. done.
    + unfold uv__metrics_update_idle_time, call_io_cb in Hdel.
      repeat step Hdel. prim_inv Hdel. done.
  - prim_inv H. right. split; [done|]. by rewrite !app_nil_r.
Qed.

Lemma process_cqe_calm l cqe w l' w' tr :
  process_cqe signal_io_watcher io_cb alloc_cb recv_cb l cqe w = Val l' w' tr →
  nevents l' = nevents l + 1 ∨ (l' = l ∧ calm tr).
Proof.
  unfold process_cqe. intros H.
  case_if H.
  { prim_inv H. right. by split. }
  bind_inv_as H op w0.
  case_if H.
  { left. do 2 bind_inv H. by prim_inv H. }
  case_if H.
  { left. do 2 bind_inv H. by prim_inv H. }
  apply load_op_type_inv in Hm as (-> & -> & _).
  by apply dispatch_watcher_calm in H.
Qed.

Lemma for_each_cqe_calm cqes l count w l' count' w' tr :
  for_each cqes l count w = Val (l', count') w' tr →
  nevents l < nevents l' ∨ (l' = l ∧ calm tr).
Proof.
  revert l count w tr. induction cqes as [|cqe rest IH]; intros l count w tr H.
  - cbn in H. apply ret_inv in H as (Heq & -> & ->). injection Heq as -> ->.
    right. by split.
  - cbn [for_each_cqe] in H. bind_inv_as H l1 w1.
    pose proof (for_each_cqe_progress _ _ _ _ _ _ _ _ _ _ _ _ H) as Hmono.
    apply process_cqe_calm in Hm. apply IH in H.
    destruct Hm as [Hm|[-> Hc1]], H as [H|[-> Hc2]].
    + left. lia.
    + left. lia.
    + by left.
    + right. split; [done|]. by apply Forall_app.
Qed.

Lemma update_timeout_fields l w l' w' tr :
  update_timeout l w = Val (Continue l') w' tr →
  have_signals l' = have_signals l ∧ nevents l' = nevents l.
Proof.
  unfold update_timeout. intros H. repeat step H. case_if H.
  - by apply ret_inv in H as [? _].
  - apply ret_inv in H as (Hc & _). injection Hc as ->. done.
Qed.

Lemma restore_user_timeout_fields l :
  have_signals (restore_user_timeout l) = have_signals l ∧
  nevents (restore_user_timeout l) = nevents l.
Proof. unfold restore_user_timeout. by destruct (negb _). Qed.

Lemma drain_continues_calm l w l' w' tr :
  have_signals l = 0 → nevents l = 0 →
  drain l w = Val (Continue l') w' tr →
  calm tr ∧ have_signals l' = 0 ∧ nevents l' = 0.
Proof.
  intros Hs Hn H. unfold drain_stage in H. step H.
  bind_inv_as H lc w1. destruct lc as [l1 n].
  apply for_each_cqe_calm in Hm. cbn [fst snd] in H.
  bind_inv_as H x w2. apply io_uring_cq_advance_inv in Hm0 as (_ & _ & ->).
  rewrite have_signals_restore, nevents_restore in H.
  case_if H.
  { unfold uv__metrics_update_idle_time, call_io_cb in H.
    repeat step H. all: by apply ret_inv in H as [? _]. }
  case_if H; [by apply ret_inv in H as [? _]|].
  match goal with E : negb (nevents l1 =? 0) = false |- _ =>
    apply negb_false_iff, Z.eqb_eq in E; rename E into Hn1 end.
  destruct Hm as [Hm|[-> Hc]]; [lia|].
  destruct (restore_user_timeout_fields l) as [Hrs Hrn].
  case_if H; [by apply ret_inv in H as [? _]|].
  case_if H.
  - apply ret_inv in H as (Hc' & _ & ->). injection Hc' as ->.
    rewrite !app_nil_r. split; [done|]. by rewrite Hrs, Hrn.
  - pose proof (quiet_val _ _ _ _ _ _ (calm_update_timeout _) H) as Hcu.
    apply update_timeout_fields in H as [-> ->].
    split; [|by rewrite Hrs, Hrn]. rewrite app_nil_l. by apply Forall_app.
Qed.

Lemma wait_stage_fields l w s w' tr :
  wait_stage l w = Val s w' tr →
  match s with
  | inl l1 | inr (Continue l1) =>
      have_signals l1 = have_signals l ∧ nevents l1 = nevents l
  | inr Returned => True
  end.
Proof.
  intros H. unfold wait_stage in H. bind_inv H. step H. bind_inv_as H r w1. step H.
  bind_inv H.
  set (l1 := with_timeout (real_timeout l) l) in *.
  destruct (restore_user_timeout_fields l1) as [Hrs Hrn].
  unfold after_wait in H. case_if H.
  { step H. case_if H.
    - by apply ret_inv in H as (-> & _).
    - bind_inv_as H c wu. apply ret_inv in H as (-> & _).
      destruct c as [|l2]; [done|].
      match goal with Hu : update_timeout _ _ = _ |- _ =>
        apply update_timeout_fields in Hu as [-> ->] end.
      by rewrite Hrs, Hrn. }
  bind_inv H. case_if H.
  - case_if H; [apply ret_inv in H as (-> & _); by rewrite Hrs, Hrn|].
    case_if H; [by apply ret_inv in H as (-> & _)|].
    bind_inv_as H c wu. apply ret_inv in H as (-> & _).
    destruct c as [|l2]; [done|].
    match goal with Hu : update_timeout _ _ = _ |- _ =>
      apply update_timeout_fields in Hu as [-> ->] end.
    by rewrite Hrs, Hrn.
  - by apply ret_inv in H as (-> & _).
Qed.

Lemma settled_calm tr : calm tr → waits_before_deliveries tr = true.
Proof.
  intros Hc. rewrite <- (app_nil_r tr). by rewrite waits_before_deliveries_app.
Qed.

Lemma drain_stage_settles l w :
  have_signals l = 0 → nevents l = 0 →
  match drain l w with
  | Val (Continue l') _ tr => calm tr ∧ have_signals l' = 0 ∧ nevents l' = 0
  | Val Returned _ tr | Crash _ tr => waits_before_deliveries tr = true
  end.
Proof.
  intros Hs Hn.
  pose proof (quiet_drain_stage signal_io_watcher io_cb alloc_cb recv_cb l w) as Hq.
  destruct (drain l w) as [[|l'] w' tr|f tr] eqn:Hd; cbn [trace_of] in Hq.
  - by apply waits_before_deliveries_no_wait.
  - by eapply drain_continues_calm.
  - by apply waits_before_deliveries_no_wait.
Qed.

Lemma poll_iteration_settles l w :
  have_signals l = 0 → nevents l = 0 →
  match iteration l w with
  | Val (Continue l') _ tr => calm tr ∧ have_signals l' = 0 ∧ nevents l' = 0
  | Val Returned _ tr | Crash _ tr => waits_before_deliveries tr = true
  end.
Proof.
  intros Hs Hn. unfold poll_iteration.
  assert (Hw : when (negb (timeout l =? 0)) uv__metrics_set_provider_entry_time w
               = Val tt w []) by (by destruct (negb _)).
  rewrite (bind_val _ _ _ _ _ _ Hw), prepend_nil.
  destruct (w_uring w) as [u|] eqn:Hu.
  2:{ unfold bind, load_uring, bind, get. by rewrite Hu. }
  rewrite (bind_val _ _ _ _ _ _ (load_uring_eq _ _ Hu)), prepend_nil.
  destruct (io_uring_cq_ready (ring u) =? 0); [|by apply drain_stage_settles].
  unfold bind.
  pose proof (calm_wait_stage l w) as Hc.
  destruct (wait_stage l w) as [s w1 tr1|f tr1] eqn:Hws; cbn [trace_of] in Hc.
  2:{ by apply settled_calm. }
  pose proof (wait_stage_fields _ _ _ _ _ Hws) as Hf.
  destruct s as [l1|[|l1]].
  - destruct Hf as [Hf1 Hf2]. rewrite Hs in Hf1. rewrite Hn in Hf2.
    pose proof (drain_stage_settles l1 w1 Hf1 Hf2) as Hd.
    destruct (drain l1 w1) as [[|l'] w' tr|f tr]; cbn [prepend].
    + by rewrite waits_before_deliveries_app.
    + destruct Hd as (Hd & ? & ?). split; [by apply Forall_app|done].
    + by rewrite waits_before_deliveries_app.
  - cbn. rewrite app_nil_r. by apply settled_calm.
  - cbn. rewrite app_nil_r. destruct Hf as [-> ->]. done.
Qed.

Lemma poll_loop_settles fuel l w :
  have_signals l = 0 → nevents l = 0 →
  waits_before_deliveries (trace_of (loop fuel l w)) = true.
Proof.
  revert l w. induction fuel as [|n IH]; intros l w Hs Hn; [done|].
  cbn [poll_loop]. unfold bind.
  pose proof (poll_iteration_settles l w Hs Hn) as Hi.
  destruct (iteration l w) as [[|l'] w' tr|f tr]; cbn [prepend trace_of].
  - cbn. by rewrite app_nil_r.
  - destruct Hi as (Hc & Hs' & Hn'). rewrite trace_of_prepend.
    rewrite waits_before_deliveries_app by done. by apply IH.
  - done.
Qed.

Lemma settles_bind {A B} (m : M A) (k : A → M B) :
  quiet no_delivery m →
  (∀ a w, waits_before_deliveries (trace_of (k a w)) = true) →
  ∀ w, waits_before_deliveries (trace_of (bind m k w)) = true.
Proof.
  intros Hm Hk w. unfold bind. specialize (Hm w).
  destruct (m w) as [a w1 tr1|f tr1]; cbn [trace_of] in *.
  - rewrite trace_of_prepend, waits_before_deliveries_app by done. apply Hk.
  - by apply settled_calm.
Qed.

(** X12.  Once the poll has delivered something to the consumer (a callback
    was run, or a handle's watcher was woken for a finished send), it does
    not enter the kernel to wait again: in every run, no wait follows the
    first delivery.  Whatever the timeout, the consumer is not kept waiting
    for the rest of it. *)
Theorem poll_does_not_wait_after_delivery fuel timeout w :
  waits_before_deliveries (trace_of (io_poll fuel timeout w)) = true.
Proof.
  revert w. unfold uv__uring_io_poll.
  apply settles_bind; [apply quiet_gets|intros lp w].
  destruct (nfds lp =? 0).
  { apply settled_calm.
    assert (Hq : quiet no_delivery (assert (bool_decide (watcher_queue lp = []));;; ret tt))
      by quiet_tac.
    apply Hq. }
  revert w.
  apply settles_bind; [apply calm_submit_watchers|intros _].
  apply settles_bind; [apply calm_uv__io_uring_submit|intros r].
  apply settles_bind; [apply quiet_assert|intros _].
  apply settles_bind; [apply quiet_uv__update_time|intros _].
  apply settles_bind; [apply quiet_assert|intros _].
  apply settles_bind; [apply quiet_gets|intros lp' w].
  apply poll_loop_settles.
  - unfold initial_locals. by destruct (test_flag (internal_flags lp') _).
  - unfold initial_locals. by destruct (test_flag (internal_flags lp') _).
Qed.

End Settle.

Lemma poll_does_not_wait_after_delivery_witness :
  trace_of (uv__uring_io_poll sample_signal_watcher idle_io_cb idle_alloc_cb idle_recv_cb
              5 (-1) eventful_world)
    = [EvWait 1 None 20 0; EvIoStart sample_watcher POLLIN; EvIoCb sample_watcher POLLIN]
  ∧ waits_before_deliveries
      (trace_of (uv__uring_io_poll sample_signal_watcher idle_io_cb idle_alloc_cb
                   idle_recv_cb 5 (-1) eventful_world)) = true.
Proof.
  split; [reflexivity|].
  apply (poll_does_not_wait_after_delivery sample_signal_watcher idle_io_cb
           idle_alloc_cb idle_recv_cb 5 (-1) eventful_world).
Defined.

(** ** The descriptor check *)

Lemma poll_retry_skips fd skipped a rest :
  Forall (λ x, poll_interrupted x = true) skipped →
  poll_interrupted a = false →
  poll_retry fd (skipped ++ a :: rest)
    = (replicate (S (length skipped)) (mk_poll_call fd POLLIN 0), Some (a, rest)).
Proof.
  intros Hs Ha. induction Hs as [|x skipped Hx _ IH].
  - cbn. by rewrite Ha.
  - cbn [app poll_retry]. rewrite Hx, IH. reflexivity.
Qed.

Lemma poll_retry_unanswered fd answers :
  Forall (λ x, poll_interrupted x = true) answers →
  poll_retry fd answers = (replicate (length answers) (mk_poll_call fd POLLIN 0), None).
Proof.
  induction 1 as [|x answers Hx _ IH]; [done|].
  cbn [poll_retry]. rewrite Hx, IH. reflexivity.
Qed.

Lemma pollnval_bit x : negb (Z.land x POLLNVAL =? 0) = Z.testbit x 5.
Proof.
  change POLLNVAL with (2 ^ 5). destruct (Z.testbit x 5) eqn:Hb.
  - apply negb_true_iff, Z.eqb_neq. intros H0.
    assert (Hbit : Z.testbit (Z.land x (2 ^ 5)) 5 = true).
    { rewrite Z.land_spec, Hb. change (2 ^ 5) with (Z.shiftl 1 5).
      rewrite Z.shiftl_spec by lia. reflexivity. }
    rewrite H0 in Hbit. by rewrite Z.bits_0 in Hbit.
  - apply negb_false_iff, Z.eqb_eq. apply Z.bits_inj'. intros n Hn.
    rewrite Z.land_spec, Z.bits_0.
    destruct (decide (n = 5)) as [->|Hne]; [by rewrite Hb|].
    rewrite Z.pow2_bits_false by lia. apply andb_false_r.
Qed.

(** X13.  [uv__uring_io_check_fd] polls the descriptor for [POLLIN] with a
    zero timeout and polls again as long as the call fails with [EINTR] or
    [EAGAIN].  The first other answer decides: a failure is reported as the
    negated [errno], a descriptor the kernel flags invalid ([POLLNVAL]) as
    [UV_EINVAL], anything else as 0.  An interruption is never reported to
    the caller, and as long as the kernel answers with interruptions only
    the function does not return. *)
Theorem check_fd_verdict fd skipped a rest :
  Forall (λ x, poll_interrupted x = true) skipped →
  poll_interrupted a = false →
  uv__uring_io_check_fd fd (skipped ++ a :: rest)
    = (replicate (S (length skipped)) (mk_poll_call fd POLLIN 0),
       Some (check_verdict a, rest))
  ∧ check_verdict a ≠ UV__ERR EINTR
  ∧ check_verdict a ≠ UV__ERR EAGAIN
  ∧ snd (uv__uring_io_check_fd fd skipped) = None.
Proof.
  intros Hs Ha. split; [|split; [|split]].
  - unfold uv__uring_io_check_fd. rewrite (poll_retry_skips _ _ _ _ Hs Ha).
    unfold check_verdict, UV__ERR. by rewrite pollnval_bit.
  - unfold check_verdict, poll_interrupted, UV__ERR in *.
    destruct (pa_rv a =? -1).
    + cbn in Ha. apply orb_false_iff in Ha as [Ha _]. apply Z.eqb_neq in Ha. lia.
    + by destruct (Z.testbit _ _).
  - unfold check_verdict, poll_interrupted, UV__ERR in *.
    destruct (pa_rv a =? -1).
    + cbn in Ha. apply orb_false_iff in Ha as [_ Ha]. apply Z.eqb_neq in Ha. lia.
    + by destruct (Z.testbit _ _).
  - unfold uv__uring_io_check_fd. by rewrite (poll_retry_unanswered _ _ Hs).
Qed.

Lemma check_fd_verdict_witness :
  uv__uring_io_check_fd 7
    ([mk_poll_answer (-1) EINTR 0; mk_poll_answer (-1) EAGAIN 0]
     ++ mk_poll_answer 1 0 POLLNVAL :: [mk_poll_answer 0 0 0])
    = (replicate 3 (mk_poll_call 7 POLLIN 0), Some (UV_EINVAL, [mk_poll_answer 0 0 0])).
Proof.
  apply (check_fd_verdict 7 [mk_poll_answer (-1) EINTR 0; mk_poll_answer (-1) EAGAIN 0]
           (mk_poll_answer 1 0 POLLNVAL) [mk_poll_answer 0 0 0]).
  - by repeat constructor.
  - reflexivity.
Defined.

(** ** Loop set-up and tear-down *)

Lemma live_blocks_app c1 c2 : live_blocks (c1 ++ c2) = live_blocks c1 + live_blocks c2.
Proof.
  induction c1 as [|c c1 IH]; [done|].
  cbn. fold (live_blocks (c1 ++ c2)). fold (live_blocks c1). rewrite IH.
  destruct c as [[]| | | | |]; lia.
Qed.

Lemma open_rings_app c1 c2 : open_rings (c1 ++ c2) = open_rings c1 + open_rings c2.
Proof.
  induction c1 as [|c c1 IH]; [done|].
  cbn. fold (open_rings (c1 ++ c2)). fold (open_rings c1). rewrite IH.
  destruct c as [| |e f r| | |]; try lia. destruct (r =? 0); lia.
Qed.

(** X14.  [uv__uring_platform_loop_init] always resets the backend and
    inotify descriptors to -1 and the inotify watcher list to NULL.  When
    the allocation and [io_uring_queue_init] both succeed it returns 0 and
    leaves a ring of [IOURING_SQ_SIZE] slots with no entries and the
    threshold 40, holding one block and one ring more than before.  When
    either fails it returns [UV_ENOMEM], or the negated [errno] of
    [io_uring_queue_init], leaves the loop without a ring, and holds on to
    nothing: the block allocated for a ring that could not be set up is
    freed. *)
Theorem loop_init_outcome alloc r errno p :
  let res := fst (uv__uring_platform_loop_init alloc r errno p) in
  let p' := snd (uv__uring_platform_loop_init alloc r errno p) in
  backend_fd p' = -1 ∧ inotify_fd p' = -1 ∧ inotify_watchers p' = None
  ∧ (alloc = true → r = 0 →
       res = 0
       ∧ uv__get_io_uring p' = Some (mk_uring fresh_ring 40)
       ∧ within_capacity (pl_world p')
       ∧ live_blocks (pl_calls p') = live_blocks (pl_calls p) + 1
       ∧ open_rings (pl_calls p') = open_rings (pl_calls p) + 1)
  ∧ (alloc = false ∨ r ≠ 0 →
       res = (if alloc then UV__ERR errno else UV_ENOMEM)
       ∧ uv__get_io_uring p' = None
       ∧ live_blocks (pl_calls p') = live_blocks (pl_calls p)
       ∧ open_rings (pl_calls p') = open_rings (pl_calls p)).
Proof.
  cbv zeta. unfold uv__uring_platform_loop_init.
  destruct alloc; cbn [negb].
  - destruct (r =? 0) eqn:Hr; cbn [negb fst snd backend_fd inotify_fd inotify_watchers
                                    pl_world pl_calls].
    + apply Z.eqb_eq in Hr as ->.
      split; [done|]. split; [done|]. split; [done|]. split.
      * intros _ _. split; [done|]. split; [done|]. split.
        { unfold within_capacity, set_uring, fresh_ring. cbn [w_uring ring sq sq_entries].
          unfold io_uring_sq_ready, IOURING_SQ_SIZE. cbn [sq length]. lia. }
        rewrite live_blocks_app, open_rings_app. cbn. lia.
      * intros [|]; done.
    + apply Z.eqb_neq in Hr.
      split; [done|]. split; [done|]. split; [done|]. split; [done|].
      intros _. split; [done|]. split; [done|].
      rewrite live_blocks_app, open_rings_app. cbn.
      apply Z.eqb_neq in Hr. rewrite Hr. lia.
  - cbn [fst snd backend_fd inotify_fd inotify_watchers pl_world pl_calls].
    split; [done|]. split; [done|]. split; [done|]. split; [done|].
    intros _. split; [done|]. split; [done|].
    rewrite live_blocks_app, open_rings_app. cbn. lia.
Qed.

Lemma loop_init_outcome_witness :
  fst (uv__uring_platform_loop_init true (-1) 24 raw_platform) = UV__ERR 24
  ∧ uv__get_io_uring (snd (uv__uring_platform_loop_init true (-1) 24 raw_platform)) = None
  ∧ live_blocks (pl_calls (snd (uv__uring_platform_loop_init true (-1) 24 raw_platform)))
    = live_blocks (pl_calls raw_platform)
  ∧ open_rings (pl_calls (snd (uv__uring_platform_loop_init true (-1) 24 raw_platform)))
    = open_rings (pl_calls raw_platform).
Proof.
  apply (loop_init_outcome true (-1) 24 raw_platform). right. discriminate.
Defined.

(** *** [uv__io_stop] on the inotify watcher *)

Lemma uv__io_stop_inv a ev w (x : unit) w' tr :
  uv__io_stop a ev w = Val x w' tr →
  tr = [] ∧ w_uring w' = w_uring w ∧ w_kernel w' = w_kernel w ∧
  objects_but a w w' ∧
  ∀ i, w_io w !! a = Some i → 0 ≤ io_fd i < nwatchers (w_loop w) →
    ∃ i', w_io w' !! a = Some i' ∧
      io_pevents i' = Z.land (io_pevents i) (Z.lnot ev) ∧
      (io_pevents i' = 0 →
         (a ∉ watcher_queue (w_loop w')) ∧ watchers (w_loop w') !! io_fd i = None).
Proof.
  unfold uv__io_stop. intros H.
  bind_inv_as H x0 w0. apply assert_inv in Hm as (_ & -> & ->).
  bind_inv_as H i w0. apply load_io_inv in Hm as (Hi & -> & ->).
  assert (Hframe : ∀ (f : uv_loop_t → uv_loop_t) i1,
    objects_but a w (set_loop f (set_io (insert a i1) w))).
  { intros f i1. split; [done|]. split; [done|]. intros b Hb. cbn.
    by rewrite lookup_insert_ne. }
  destruct (io_fd i =? -1) eqn:Hfd.
  { apply ret_inv in H as (_ & -> & ->). split; [done|]. do 3 (split; [done|]).
    intros i0 Hi0 [Hge _]. apply Z.eqb_eq in Hfd.
    assert (i0 = i) as -> by congruence. lia. }
  bind_inv_as H x1 w0. apply assert_inv in Hm as (_ & -> & ->).
  bind_inv_as H l w0. apply gets_inv in Hm as (-> & -> & ->).
  destruct (nwatchers (w_loop w) <=? io_fd i) eqn:Hnw.
  { apply ret_inv in H as (_ & -> & ->). split; [done|]. do 3 (split; [done|]).
    intros i0 Hi0 [_ Hlt]. apply Z.leb_le in Hnw.
    assert (i0 = i) as -> by congruence. lia. }
  cbv zeta in H. unfold store_io in H.
  set (i1 := io_with_pevents (Z.land (io_pevents i) (Z.lnot ev)) i) in *.
  bind_inv_as H x2 w0. apply modify_inv in Hm as (-> & ->).
  destruct (io_pevents i1 =? 0) eqn:Hz.
  - bind_inv_as H x3 w0. apply modify_inv in Hm as (-> & ->).
    assert (Hq : a ∉ queue_remove a (watcher_queue (w_loop w))).
    { unfold queue_remove. rewrite list_elem_of_filter. by intros [? _]. }
    destruct (watchers (w_loop w) !! io_fd i1) as [b|] eqn:Hslot.
    + bind_inv_as H x4 w0. apply assert_inv in Hm as (_ & -> & ->).
      bind_inv_as H x5 w0. apply assert_inv in Hm as (_ & -> & ->).
      bind_inv_as H x6 w0. apply modify_inv in Hm as (-> & ->).
      apply modify_inv in H as (-> & ->).
      split; [done|]. split; [done|]. split; [done|]. split.
      { split; [done|]. split; [done|]. intros b0 Hb. cbn.
        by rewrite !lookup_insert_ne. }
      intros i0 Hi0 _. assert (i0 = i) as -> by congruence.
      eexists. split; [cbn; apply lookup_insert_eq|]. split; [done|].
      intros _. split; [exact Hq|]. cbn. apply lookup_delete_eq.
    + apply ret_inv in H as (_ & -> & ->).
      split; [done|]. split; [done|]. split; [done|]. split; [apply Hframe|].
      intros i0 Hi0 _. assert (i0 = i) as -> by congruence.
      eexists. split; [cbn; apply lookup_insert_eq|]. split; [done|].
      intros _. split; [exact Hq|exact Hslot].
  - bind_inv_as H l1 w0. apply gets_inv in Hm as (-> & -> & ->).
    assert (Hnz : ∀ i0, w_io w !! a = Some i0 →
      ∃ i', <[a:=i1]> (w_io w) !! a = Some i' ∧
        io_pevents i' = Z.land (io_pevents i0) (Z.lnot ev) ∧
        (io_pevents i' = 0 →
           (a ∉ watcher_queue (w_loop w')) ∧ watchers (w_loop w') !! io_fd i0 = None)).
    { intros i0 Hi0. assert (i0 = i) as -> by congruence.
      exists i1. split; [apply lookup_insert_eq|]. split; [done|].
      intros Hz0. apply Z.eqb_neq in Hz. done. }
    unfold when in H. destruct (negb _).
    + apply modify_inv in H as (-> & ->).
      split; [done|]. split; [done|]. split; [done|]. split; [apply Hframe|].
      intros i0 Hi0 _. by apply Hnz.
    + apply ret_inv in H as (_ & -> & ->).
      split; [done|]. split; [done|]. split; [done|]. split.
      { split; [done|]. split; [done|]. intros b0 Hb. cbn.
        by rewrite lookup_insert_ne. }
      intros i0 Hi0 _. by apply Hnz.
Qed.

Lemma delete_deleted p :
  uv__get_io_uring p = None → inotify_fd p = -1 →
  uv__uring_platform_loop_delete p = Some p.
Proof.
  intros Hu Hi. unfold uv__uring_platform_loop_delete. rewrite Hu. cbv zeta.
  by rewrite Hi.
Qed.

Lemma objects_but_same a w w' : same_objects w w' → objects_but a w w'.
Proof. intros (_ & Hio & Hr & Hu). unfold objects_but. by rewrite Hio, Hr, Hu. Qed.



(** X16.  Set-up followed by tear-down holds on to nothing: whether
    [uv__uring_platform_loop_init] succeeded or failed, and for whichever
    reason, [uv__uring_platform_loop_delete] then returns, and after it the
    loop has no ring and as many blocks and rings are held as before the
    set-up. *)
Theorem init_then_delete_balanced alloc r errno p :
  ∃ p2,
    uv__uring_platform_loop_delete (snd (uv__uring_platform_loop_init alloc r errno p))
      = Some p2
    ∧ uv__get_io_uring p2 = None
    ∧ live_blocks (pl_calls p2) = live_blocks (pl_calls p)
    ∧ open_rings (pl_calls p2) = open_rings (pl_calls p)
    ∧ closed_fds (pl_calls p2) = closed_fds (pl_calls p).
Proof.
  unfold uv__uring_platform_loop_init, uv__uring_platform_loop_delete,
    uv__get_io_uring, closed_fds.
  destruct alloc; cbn [negb]; [destruct (r =? 0) eqn:Hr|];
    cbn [negb snd pl_world set_uring w_uring inotify_fd]; cbv zeta;
    cbn [inotify_fd Z.eqb Z.opp Pos.eqb];
    (eexists; split; [reflexivity|]);
    cbn [pl_world w_uring pl_calls];
    rewrite ?live_blocks_app, ?open_rings_app, ?flat_map_app; cbn;
    rewrite ?Hr, ?app_nil_r; repeat split; lia.
Qed.

(** ** The drain takes up every ready completion once *)

Section Ready.

Variable c : list io_uring_cqe.

Lemma ready_same_ring w w' : w_uring w' = w_uring w → ready c w → ready c w'.
Proof. unfold ready, completions. by intros ->. Qed.

Lemma ready_set_sq u s w :
  w_uring w = Some u → ready c w →
  ready c (set_uring (Some (uring_with_ring (ring_with_sq s) u)) w).
Proof. unfold ready, completions. intros ->. done. Qed.

Lemma keeps_ready_io_uring_get_sqe : keeps (ready c) io_uring_get_sqe.
Proof.
  intros w b w' tr HP H. unfold io_uring_get_sqe in H. step H. case_if H.
  - unfold store_uring in H. step H. apply ret_inv in H as (_ & -> & _).
    unfold ready, completions in *.
    match goal with E : w_uring w = Some _ |- _ => by rewrite E in HP end.
  - by apply ret_inv in H as (_ & -> & _).
Qed.

Lemma keeps_ready_write_sqe f : keeps (ready c) (write_sqe f).
Proof.
  intros w b w' tr HP H. apply write_sqe_inv in H as (u & Hu & -> & _).
  by apply ready_set_sq.
Qed.

Lemma keeps_ready_io_uring_submit : keeps (ready c) io_uring_submit.
Proof.
  intros w b w' tr HP H. apply io_uring_submit_inv in H as ((_ & _ & _ & H) & _).
  destruct H as (u & u' & Hu & Hu' & _ & Hcq & _).
  unfold ready, completions in *. rewrite Hu', Hcq. by rewrite Hu in HP.
Qed.

Local Ltac same_ring_ready :=
  let w := fresh "w" in
  let H := fresh "H" in
  intros w H; eapply ready_same_ring; [|exact H]; reflexivity.

Lemma keeps_ready_uv__io_uring_submit : keeps (ready c) uv__io_uring_submit.
Proof.
  unfold uv__io_uring_submit. keeps_tac. all: apply keeps_ready_io_uring_submit.
Qed.

Lemma keeps_ready_uv__io_uring_get_sqe : keeps (ready c) uv__io_uring_get_sqe.
Proof.
  unfold uv__io_uring_get_sqe. keeps_tac;
    first [apply keeps_ready_io_uring_get_sqe | apply keeps_ready_uv__io_uring_submit].
Qed.

Lemma keeps_ready_flag_async_over_limit : keeps (ready c) flag_async_over_limit.
Proof.
  unfold flag_async_over_limit, sqe_set_flags. keeps_tac. apply keeps_ready_write_sqe.
Qed.

Lemma keeps_ready_uv__io_feed a : keeps (ready c) (uv__io_feed a).
Proof. unfold uv__io_feed. keeps_tac. same_ring_ready. Qed.

Lemma keeps_ready_uv__uring_udp_sendmsg_done req status :
  keeps (ready c) (uv__uring_udp_sendmsg_done req status).
Proof.
  unfold uv__uring_udp_sendmsg_done, store_req, store_udp, QUEUE_REMOVE_req.
  keeps_tac; first [apply keeps_ready_uv__io_feed | same_ring_ready].
Qed.

Lemma keeps_ready_uv__io_start a events : keeps (ready c) (uv__io_start a events).
Proof. unfold uv__io_start, store_io. keeps_tac; same_ring_ready. Qed.

Lemma keeps_ready_load_watcher_slot fd : keeps (ready c) (load_watcher_slot fd).
Proof. unfold load_watcher_slot. keeps_tac. Qed.

Lemma keeps_ready_load_op_type a : keeps (ready c) (load_op_type a).
Proof. unfold load_op_type. keeps_tac. Qed.

Lemma keeps_ready_update_timeout l : keeps (ready c) (update_timeout l).
Proof. unfold update_timeout. keeps_tac. Qed.

Variable signal_io_watcher : addr.
Variable io_cb : addr → Z → World → World.
Variable alloc_cb : addr → Z → World → World.
Variable recv_cb : addr → Z → bool → Z → World → World.

(** The consumer's callbacks leave the completion ring to the drain. *)
Hypothesis io_cb_ready : ∀ a ev w, ready c w → ready c (io_cb a ev w).
Hypothesis alloc_cb_ready : ∀ h n w, ready c w → ready c (alloc_cb h n w).
Hypothesis recv_cb_ready : ∀ h n b f w, ready c w → ready c (recv_cb h n b f w).

Lemma keeps_ready_udp_recvmsg_submit handle hd :
  keeps (ready c) (udp_recvmsg_submit handle hd).
Proof.
  unfold udp_recvmsg_submit, io_uring_prep_recvmsg, sqe_set_user_data, store_udp.
  keeps_tac;
    first [ apply keeps_ready_uv__io_uring_get_sqe | apply keeps_ready_write_sqe
          | apply keeps_ready_flag_async_over_limit | same_ring_ready ].
Qed.

Lemma keeps_ready_udp_recvmsg_body done handle :
  (∀ h s, keeps (ready c) (done h s)) →
  keeps (ready c) (udp_recvmsg_body alloc_cb done handle).
Proof.
  intros Hd. unfold udp_recvmsg_body, call_alloc_cb, store_udp.
  keeps_tac;
    first [ apply Hd | apply keeps_ready_udp_recvmsg_submit
          | apply alloc_cb_ready | same_ring_ready ].
Qed.

Lemma keeps_ready_udp_recvmsg_done_body restart handle status :
  (∀ h, keeps (ready c) (restart h)) →
  keeps (ready c) (udp_recvmsg_done_body recv_cb restart handle status).
Proof.
  intros Hr. unfold udp_recvmsg_done_body, restart_if_active, call_recv_cb, store_udp.
  keeps_tac; first [apply Hr | apply recv_cb_ready | same_ring_ready].
Qed.

Lemma keeps_ready_udp_recvmsg_done_fuel fuel handle status :
  keeps (ready c) (udp_recvmsg_done_fuel alloc_cb recv_cb fuel handle status).
Proof.
  revert handle status. induction fuel as [|n IH]; intros handle status.
  { apply keeps_crash. }
  cbn [udp_recvmsg_done_fuel]. apply keeps_ready_udp_recvmsg_done_body.
  intros h. by apply keeps_ready_udp_recvmsg_body.
Qed.

Lemma keeps_ready_dispatch_watcher l a res :
  keeps (ready c) (dispatch_watcher signal_io_watcher io_cb l a res).
Proof.
  unfold dispatch_watcher, store_io, call_io_cb, uv__metrics_update_idle_time.
  keeps_tac;
    first [ apply keeps_ready_load_watcher_slot | apply keeps_ready_uv__io_start
          | apply io_cb_ready | same_ring_ready ].
Qed.

Lemma keeps_ready_process_cqe l cqe :
  keeps (ready c) (process_cqe signal_io_watcher io_cb alloc_cb recv_cb l cqe).
Proof.
  unfold process_cqe, uv__metrics_update_idle_time.
  keeps_tac;
    first [ apply keeps_ready_load_op_type
          | apply keeps_ready_uv__uring_udp_sendmsg_done
          | apply keeps_ready_udp_recvmsg_done_fuel
          | apply keeps_ready_dispatch_watcher ].
Qed.

Lemma keeps_ready_for_each_cqe cqes l count :
  keeps (ready c) (for_each_cqe signal_io_watcher io_cb alloc_cb recv_cb cqes l count).
Proof.
  revert l count. induction cqes as [|cqe rest IH]; intros l count.
  - apply keeps_ret.
  - cbn [for_each_cqe]. apply keeps_bind; [apply keeps_ready_process_cqe|].
    intros l'. apply IH.
Qed.

Lemma for_each_cqe_count cqes l count w l' count' w' tr :
  for_each_cqe signal_io_watcher io_cb alloc_cb recv_cb cqes l count w
    = Val (l', count') w' tr →
  count' = count + Z.of_nat (length cqes).
Proof.
  revert l count w tr. induction cqes as [|cqe rest IH]; intros l count w tr H.
  - cbn in H. apply ret_inv in H as (Heq & _). injection Heq as _ ->. cbn. lia.
  - cbn [for_each_cqe] in H. bind_inv_as H l1 w1.
    apply IH in H. rewrite H. cbn [length]. lia.
Qed.

End Ready.

Section DrainBatch.

Variable signal_io_watcher : addr.
Variable io_cb : addr → Z → World → World.
Variable alloc_cb : addr → Z → World → World.
Variable recv_cb : addr → Z → bool → Z → World → World.

(** The consumer's callbacks leave the completion ring to the drain. *)
Hypothesis io_cb_completions : ∀ a ev w, completions (io_cb a ev w) = completions w.
Hypothesis alloc_cb_completions : ∀ h n w, completions (alloc_cb h n w) = completions w.
Hypothesis recv_cb_completions :
  ∀ h n b f w, completions (recv_cb h n b f w) = completions w.

Local Abbreviation for_each := (for_each_cqe signal_io_watcher io_cb alloc_cb recv_cb).
Local Abbreviation drain := (drain_stage signal_io_watcher io_cb alloc_cb recv_cb).

Lemma for_each_cqe_ready c cqes l count w lc w' tr :
  ready c w → for_each cqes l count w = Val lc w' tr → ready c w'.
Proof.
  intros Hr H.
  eapply (keeps_ready_for_each_cqe c signal_io_watcher io_cb alloc_cb recv_cb);
    [| | |exact Hr|exact H]; unfold ready; intros; congruence.
Qed.

(** X17.  The drain takes up every completion that is ready, once: the
    batch it walks is the content of the completion ring, the ring is
    advanced by the number of completions walked, and when the drain
    returns the completion ring is empty, so that no completion is
    dispatched a second time by a later pass.  This holds whatever the
    completions are (ignored tags included) and whichever way the drain
    ends, provided the consumer's callbacks leave the completion ring
    alone. *)
Theorem drain_takes_up_batch l w ctl w' tr :
  is_Some (w_uring w) →
  drain l w = Val ctl w' tr →
  completions w' = []
  ∧ ∃ l1 w1 tr1,
      for_each (completions w) l 0 w
        = Val (l1, Z.of_nat (length (completions w))) w1 tr1
      ∧ completions w1 = completions w.
Proof.
  intros [u Hu] H. unfold drain_stage in H. step H.
  match goal with E : w_uring w = Some ?x |- _ =>
    assert (x = u) as -> by congruence; clear E end.
  assert (Hc : completions w = cq (ring u)) by (unfold completions; by rewrite Hu).
  bind_inv_as H lc w1. destruct lc as [l1 n]. cbn [fst snd] in H.
  pose proof (for_each_cqe_count _ _ _ _ _ _ _ _ _ _ _ _ Hm) as Hn.
  pose proof (for_each_cqe_ready (cq (ring u)) _ _ _ _ _ _ _ Hc Hm) as Hr1.
  subst n. rewrite Z.add_0_l in *.
  split.
  2:{ exists l1, w1. eexists. rewrite Hc. split; [exact Hm|exact Hr1]. }
  bind_inv_as H x w2.
  assert (Hr2 : ready [] w2).
  { unfold io_uring_cq_advance, store_uring in Hm0. repeat step Hm0.
    apply modify_inv in Hm0 as (-> & _).
    unfold ready, completions in *. cbn.
    match goal with E : w_uring w1 = Some _ |- _ => rewrite E in Hr1 end.
    rewrite Hr1, Nat2Z.id. apply drop_all. }
  clear Hm Hm0.
  assert (Hk : keeps (ready [])
    (let l := restore_user_timeout l1 in
     if negb (have_signals l =? 0) then
       uv__metrics_update_idle_time;;;
       call_io_cb io_cb signal_io_watcher POLLIN;;; ret Returned
     else if negb (nevents l =? 0) then ret Returned
     else if timeout l =? 0 then ret Returned
     else if timeout l =? -1 then ret (Continue l)
     else update_timeout l)).
  { unfold call_io_cb, uv__metrics_update_idle_time. keeps_tac.
    - intros w0 H0. unfold ready in *. by rewrite io_cb_completions.
    - apply keeps_ready_update_timeout. }
  exact (Hk _ _ _ _ Hr2 H).
Qed.

End DrainBatch.

Lemma drain_takes_up_batch_witness :
  completions batch_world
    = [mk_cqe 0 0; mk_cqe sample_watcher POLLIN; mk_cqe sample_req_addr 10]
  ∧ returned (drain_stage sample_signal_watcher idle_io_cb idle_alloc_cb idle_recv_cb
                no_events_yet batch_world) = true
  ∧ completions
      (world_of (drain_stage sample_signal_watcher idle_io_cb idle_alloc_cb idle_recv_cb
                   no_events_yet batch_world) batch_world) = [].
Proof.
  split; [reflexivity|]. split; [reflexivity|].
  assert (Hret : returned (drain_stage sample_signal_watcher idle_io_cb idle_alloc_cb
                             idle_recv_cb no_events_yet batch_world) = true)
    by reflexivity.
  destruct (drain_stage sample_signal_watcher idle_io_cb idle_alloc_cb idle_recv_cb
              no_events_yet batch_world) as [ctl w' tr|] eqn:E; [|discriminate Hret].
  cbn [world_of].
  apply (drain_takes_up_batch sample_signal_watcher idle_io_cb idle_alloc_cb idle_recv_cb
           ltac:(done) ltac:(done) ltac:(done) no_events_yet batch_world ctl w' tr);
    [by eexists|exact E].
Defined.

(** ** The profiling signal is blocked around the waits only *)

Lemma mask_run_app blocking b tr1 tr2 :
  mask_run blocking b (tr1 ++ tr2) =
    mask_run blocking b tr1 ≫= λ b1, mask_run blocking b1 tr2.
Proof.
  revert b. induction tr1 as [|e tr1 IH]; intros b; [done|].
  destruct e; cbn; repeat case_match; try done; apply IH.
Qed.

Lemma mask_run_outside_wait blocking tr :
  Forall (λ e, outside_wait e = true) tr → mask_run blocking false tr = Some false.
Proof. induction 1 as [|e tr He _ IH]; [done|]. by destruct e. Qed.

Lemma mask_run_waits blocking tr :
  Forall (λ e, is_wait e = true) tr → mask_run blocking blocking tr = Some blocking.
Proof.
  induction 1 as [|e tr He _ IH]; [done|].
  destruct e; try done. cbn. by rewrite eqb_reflx.
Qed.

Lemma mask_run_no_event blocking b tr :
  Forall (λ e, no_event e = true) tr → mask_run blocking b tr = Some b.
Proof. by destruct 1. Qed.

Lemma masked_result_trace {A} blocking b b' (r : result A) :
  mask_run blocking b (trace_of r) = Some b' → masked_result blocking b b' r.
Proof. destruct r; cbn; [done|]. intros ->. by eexists. Qed.

Lemma masks_bind {A B} blocking b b1 b2 (m : M A) (f : A → M B) :
  masks blocking b b1 m → (∀ a, masks blocking b1 b2 (f a)) →
  masks blocking b b2 (bind m f).
Proof.
  intros Hm Hf w. unfold bind. specialize (Hm w).
  destruct (m w) as [a w1 tr1|x tr1]; cbn in *; [|done].
  specialize (Hf a w1).
  destruct (f a w1) as [c w2 tr2|x tr2]; cbn in *; rewrite mask_run_app, Hm; cbn; done.
Qed.

Lemma masks_outside_wait {A} blocking (m : M A) :
  quiet outside_wait m → masks blocking false false m.
Proof. intros Hm w. by apply masked_result_trace, mask_run_outside_wait. Qed.

Lemma masks_waits {A} blocking (m : M A) :
  quiet is_wait m → masks blocking blocking blocking m.
Proof. intros Hm w. by apply masked_result_trace, mask_run_waits. Qed.

Lemma masks_no_event {A} blocking b (m : M A) :
  quiet no_event m → masks blocking b b m.
Proof. intros Hm w. by apply masked_result_trace, mask_run_no_event. Qed.

Lemma masks_sigmask_around_wait l block :
  masks (negb (sigmask l =? 0)) (negb block && negb (sigmask l =? 0))
    (block && negb (sigmask l =? 0)) (sigmask_around_wait l block).
Proof.
  intros w. rewrite sigmask_around_wait_eq.
  destruct (sigmask l =? 0), block; done.
Qed.

(** *** What registering watchers and handling completions emit *)

Section Work.

Local Abbreviation p := completion_work.

Lemma plain_load_uring : quiet p load_uring.
Proof. unfold load_uring. quiet_tac. Qed.

Lemma plain_load_io a : quiet p (load_io a).
Proof. unfold load_io. quiet_tac. Qed.

Lemma plain_load_req a : quiet p (load_req a).
Proof. unfold load_req. quiet_tac. Qed.

Lemma plain_load_udp a : quiet p (load_udp a).
Proof. unfold load_udp. quiet_tac. Qed.

Lemma plain_load_watcher_slot fd : quiet p (load_watcher_slot fd).
Proof. unfold load_watcher_slot. quiet_tac. Qed.

Lemma plain_load_op_type a : quiet p (load_op_type a).
Proof. unfold load_op_type. quiet_tac. Qed.

Lemma plain_write_sqe f : quiet p (write_sqe f).
Proof. unfold write_sqe, store_uring. quiet_tac. apply plain_load_uring. Qed.

Lemma plain_io_uring_get_sqe : quiet p io_uring_get_sqe.
Proof. unfold io_uring_get_sqe, store_uring. quiet_tac. apply plain_load_uring. Qed.

Lemma plain_io_uring_submit : quiet p io_uring_submit.
Proof.
  unfold io_uring_submit, store_uring. quiet_tac; try reflexivity.
  apply plain_load_uring.
Qed.

Lemma plain_uv__io_uring_submit : quiet p uv__io_uring_submit.
Proof.
  unfold uv__io_uring_submit. quiet_tac;
    first [apply plain_load_uring | apply plain_io_uring_submit].
Qed.

Lemma plain_uv__io_uring_get_sqe : quiet p uv__io_uring_get_sqe.
Proof.
  unfold uv__io_uring_get_sqe. quiet_tac;
    first [apply plain_io_uring_get_sqe | apply plain_uv__io_uring_submit].
Qed.

Lemma plain_flag_async_over_limit : quiet p flag_async_over_limit.
Proof.
  unfold flag_async_over_limit, sqe_set_flags. quiet_tac;
    first [apply plain_load_uring | apply plain_write_sqe].
Qed.

Lemma plain_io_uring_cq_advance n : quiet p (io_uring_cq_advance n).
Proof. unfold io_uring_cq_advance, store_uring. quiet_tac. apply plain_load_uring. Qed.

Lemma plain_uv__io_start a events : quiet p (uv__io_start a events).
Proof.
  unfold uv__io_start, store_io. quiet_tac; try reflexivity. apply plain_load_io.
Qed.

Lemma plain_uv__io_feed a : quiet p (uv__io_feed a).
Proof. unfold uv__io_feed. quiet_tac; reflexivity. Qed.

Lemma plain_uv__update_time : quiet p uv__update_time.
Proof. unfold uv__update_time. quiet_tac. Qed.

Lemma plain_uv__uring_udp_sendmsg_done req status :
  quiet p (uv__uring_udp_sendmsg_done req status).
Proof.
  unfold uv__uring_udp_sendmsg_done, QUEUE_REMOVE_req, store_udp, store_req.
  quiet_tac;
    first [apply plain_load_req | apply plain_load_udp | apply plain_uv__io_feed].
Qed.

Lemma plain_submit_watcher a : quiet p (submit_watcher a).
Proof.
  unfold submit_watcher, io_uring_prep_poll_add, sqe_set_user_data, store_io.
  quiet_tac;
    first [ apply plain_load_io | apply plain_uv__io_uring_get_sqe
          | apply plain_write_sqe | apply plain_flag_async_over_limit ].
Qed.

Lemma plain_submit_watchers fuel : quiet p (submit_watchers fuel).
Proof.
  induction fuel as [|n IH]; cbn [submit_watchers]; quiet_tac;
    first [apply plain_submit_watcher | apply IH].
Qed.

Variable signal_io_watcher : addr.
Variable io_cb : addr → Z → World → World.
Variable alloc_cb : addr → Z → World → World.
Variable recv_cb : addr → Z → bool → Z → World → World.

Lemma plain_call_recv_cb h n a f : quiet p (call_recv_cb recv_cb h n a f).
Proof. unfold call_recv_cb. quiet_tac; reflexivity. Qed.

Lemma plain_call_alloc_cb h s : quiet p (call_alloc_cb alloc_cb h s).
Proof. unfold call_alloc_cb. quiet_tac; reflexivity. Qed.

Lemma plain_udp_recvmsg_submit handle hd : quiet p (udp_recvmsg_submit handle hd).
Proof.
  unfold udp_recvmsg_submit, store_udp, io_uring_prep_recvmsg, sqe_set_user_data.
  quiet_tac;
    first [ apply plain_uv__io_uring_get_sqe | apply plain_load_io
          | apply plain_load_udp | apply plain_write_sqe
          | apply plain_flag_async_over_limit ].
Qed.

Lemma plain_udp_recvmsg_body done handle :
  (∀ h s, quiet p (done h s)) → quiet p (udp_recvmsg_body alloc_cb done handle).
Proof.
  intros Hd. unfold udp_recvmsg_body, store_udp.
  quiet_tac;
    first [ apply plain_load_udp | apply plain_call_alloc_cb | apply Hd
          | apply plain_udp_recvmsg_submit ].
Qed.

Lemma plain_restart_if_active recvmsg handle :
  (∀ h, quiet p (recvmsg h)) → quiet p (restart_if_active recvmsg handle).
Proof.
  intros Hr. unfold restart_if_active.
  quiet_tac; first [apply plain_load_udp | apply plain_load_io | apply Hr].
Qed.

Lemma plain_udp_recvmsg_done_body recvmsg handle status :
  (∀ h, quiet p (recvmsg h)) →
  quiet p (udp_recvmsg_done_body recv_cb recvmsg handle status).
Proof.
  intros Hr. unfold udp_recvmsg_done_body, store_udp.
  quiet_tac;
    first [ apply plain_load_udp | apply plain_call_recv_cb
          | by apply plain_restart_if_active ].
Qed.

Lemma plain_udp_recvmsg_done_fuel fuel handle status :
  quiet p (udp_recvmsg_done_fuel alloc_cb recv_cb fuel handle status).
Proof.
  revert handle status. induction fuel as [|n IH]; intros handle status.
  - apply quiet_crash.
  - cbn [udp_recvmsg_done_fuel]. apply plain_udp_recvmsg_done_body.
    intros h. by apply plain_udp_recvmsg_body.
Qed.

Lemma plain_dispatch_watcher l a res :
  quiet p (dispatch_watcher signal_io_watcher io_cb l a res).
Proof.
  unfold dispatch_watcher, store_io, call_io_cb, uv__metrics_update_idle_time.
  quiet_tac;
    first [ apply plain_load_io | apply plain_load_watcher_slot
          | apply plain_uv__io_start | reflexivity ].
Qed.

Lemma plain_process_cqe l cqe :
  quiet p (process_cqe signal_io_watcher io_cb alloc_cb recv_cb l cqe).
Proof.
  unfold process_cqe, uv__metrics_update_idle_time.
  quiet_tac;
    first [ apply plain_load_op_type | apply plain_uv__uring_udp_sendmsg_done
          | apply plain_udp_recvmsg_done_fuel | apply plain_dispatch_watcher ].
Qed.

Lemma plain_for_each_cqe cqes l count :
  quiet p (for_each_cqe signal_io_watcher io_cb alloc_cb recv_cb cqes l count).
Proof.
  revert l count. induction cqes as [|cqe rest IH]; intros l count.
  - apply quiet_ret.
  - cbn [for_each_cqe]. apply quiet_bind; [apply plain_process_cqe|].
    intros l'. apply IH.
Qed.

End Work.

Lemma work_outside_wait e : completion_work e = true → outside_wait e = true.
Proof. by destruct e. Qed.

Lemma outside_update_timeout l : quiet outside_wait (update_timeout l).
Proof. unfold update_timeout. quiet_tac; reflexivity. Qed.

Lemma outside_after_wait l r : quiet outside_wait (after_wait l r).
Proof.
  unfold after_wait. quiet_tac;
    first [ apply outside_update_timeout
          | apply (quiet_mono completion_work); [apply work_outside_wait|];
            apply plain_uv__update_time ].
Qed.

Lemma outside_drain_stage sig io_cb alloc_cb recv_cb l :
  quiet outside_wait (drain_stage sig io_cb alloc_cb recv_cb l).
Proof.
  unfold drain_stage, call_io_cb, uv__metrics_update_idle_time.
  apply quiet_bind; [unfold load_uring; quiet_tac|intros u].
  apply quiet_bind;
    [apply (quiet_mono completion_work); [apply work_outside_wait|];
     apply plain_for_each_cqe|intros lc].
  apply quiet_bind;
    [apply (quiet_mono completion_work); [apply work_outside_wait|];
     apply plain_io_uring_cq_advance|intros _].
  quiet_tac; try reflexivity. apply outside_update_timeout.
Qed.

Lemma outside_submit_watchers fuel : quiet outside_wait (submit_watchers fuel).
Proof.
  apply (quiet_mono completion_work); [apply work_outside_wait|].
  apply plain_submit_watchers.
Qed.

Lemma outside_uv__io_uring_submit : quiet outside_wait uv__io_uring_submit.
Proof.
  apply (quiet_mono completion_work); [apply work_outside_wait|].
  apply plain_uv__io_uring_submit.
Qed.

(** *** The waits *)

Lemma waits_io_uring_wait_cqes wait_nr ts : quiet is_wait (io_uring_wait_cqes wait_nr ts).
Proof. unfold io_uring_wait_cqes. quiet_tac; reflexivity. Qed.

Lemma waits_wait_cqes_retry fuel wait_nr ts :
  quiet is_wait (wait_cqes_retry fuel wait_nr ts).
Proof.
  induction fuel as [|n IH]; cbn [wait_cqes_retry]; quiet_tac;
    first [apply waits_io_uring_wait_cqes | exact IH].
Qed.

Lemma masks_wait_stage l :
  masks (negb (sigmask l =? 0)) false false (wait_stage l).
Proof.
  unfold wait_stage.
  eapply masks_bind; [apply (masks_sigmask_around_wait l true)|intros _].
  cbn [negb andb].
  eapply masks_bind; [apply masks_no_event, quiet_gets|intros k].
  eapply masks_bind; [apply masks_waits, waits_wait_cqes_retry|intros r].
  eapply masks_bind; [apply masks_no_event, quiet_assert|intros _].
  cbv zeta.
  eapply masks_bind.
  { pose proof (masks_sigmask_around_wait (with_timeout (real_timeout l) l) false) as H.
    cbn [negb andb sigmask with_timeout] in H. exact H. }
  intros _. apply masks_outside_wait, outside_after_wait.
Qed.

(** *** What the stages before the loop leave alone *)

Section Entry.

(** A property of the loop's flags and of the kernel's scripted waits. *)
Variable P : World → Prop.
Hypothesis P_frame : ∀ w w',
  loop_flags (w_loop w') = loop_flags (w_loop w) →
  k_wait (w_kernel w') = k_wait (w_kernel w) →
  P w → P w'.

Local Ltac frame_side :=
  let w := fresh "w" in
  let H := fresh "H" in
  intros w H; eapply P_frame; [| |exact H]; reflexivity.

Lemma keeps_entry_uv__io_uring_submit : keeps P uv__io_uring_submit.
Proof.
  unfold uv__io_uring_submit, io_uring_submit, store_uring. keeps_tac; frame_side.
Qed.

Lemma keeps_entry_write_sqe f : keeps P (write_sqe f).
Proof. unfold write_sqe, store_uring. keeps_tac; frame_side. Qed.

Lemma keeps_entry_uv__io_uring_get_sqe : keeps P uv__io_uring_get_sqe.
Proof.
  unfold uv__io_uring_get_sqe, io_uring_get_sqe, store_uring.
  keeps_tac; first [apply keeps_entry_uv__io_uring_submit | frame_side].
Qed.

Lemma keeps_entry_submit_watcher a : keeps P (submit_watcher a).
Proof.
  unfold submit_watcher, io_uring_prep_poll_add, sqe_set_user_data, store_io,
    flag_async_over_limit, sqe_set_flags.
  keeps_tac;
    first [ apply keeps_entry_uv__io_uring_get_sqe | apply keeps_entry_write_sqe
          | frame_side ].
Qed.

Lemma keeps_entry_submit_watchers fuel : keeps P (submit_watchers fuel).
Proof.
  induction fuel as [|n IH]; cbn [submit_watchers]; keeps_tac;
    first [apply keeps_entry_submit_watcher | apply IH].
Qed.

Lemma keeps_entry_uv__update_time : keeps P uv__update_time.
Proof. unfold uv__update_time. keeps_tac; frame_side. Qed.

End Entry.

(** *** The signal set stays the one computed on entry *)

Lemma counters_apart_refl l : counters_apart l l.
Proof. by repeat split. Qed.

Lemma counters_apart_trans l1 l2 l3 :
  counters_apart l1 l2 → counters_apart l2 l3 → counters_apart l1 l3.
Proof.
  unfold counters_apart. intros (?&?&?&?&?&?) (?&?&?&?&?&?).
  repeat split; congruence.
Qed.

Section Mask.

Variable signal_io_watcher : addr.
Variable io_cb : addr → Z → World → World.
Variable alloc_cb : addr → Z → World → World.
Variable recv_cb : addr → Z → bool → Z → World → World.

Local Abbreviation for_each := (for_each_cqe signal_io_watcher io_cb alloc_cb recv_cb).
Local Abbreviation drain := (drain_stage signal_io_watcher io_cb alloc_cb recv_cb).
Local Abbreviation iteration := (poll_iteration signal_io_watcher io_cb alloc_cb recv_cb).
Local Abbreviation loop := (poll_loop signal_io_watcher io_cb alloc_cb recv_cb).
Local Abbreviation io_poll := (uv__uring_io_poll signal_io_watcher io_cb alloc_cb recv_cb).

Lemma dispatch_watcher_counters l a res w l' w' tr :
  dispatch_watcher signal_io_watcher io_cb l a res w = Val l' w' tr →
  counters_apart l l'.
Proof.
  unfold dispatch_watcher. intros H. step H.
  case_if H; [prim_inv H; apply counters_apart_refl|].
  bind_inv_as H slot w0.
  destruct slot; [|prim_inv H; apply counters_apart_refl].
  bind_inv_as H x w1. step H. case_if H.
  - bind_inv_as H l1 w2. prim_inv H.
    case_if Hm1.
    + prim_inv Hm1. done.
    + unfold uv__metrics_update_idle_time, call_io_cb in Hm1.
      repeat step Hm1. prim_inv Hm1. done.
  - prim_inv H. apply counters_apart_refl.
Qed.

Lemma process_cqe_counters l cqe w l' w' tr :
  process_cqe signal_io_watcher io_cb alloc_cb recv_cb l cqe w = Val l' w' tr →
  counters_apart l l'.
Proof.
  unfold process_cqe. intros H.
  case_if H; [prim_inv H; apply counters_apart_refl|].
  bind_inv_as H op w0.
  case_if H; [do 2 bind_inv H; by prim_inv H|].
  case_if H; [do 2 bind_inv H; by prim_inv H|].
  by apply dispatch_watcher_counters in H.
Qed.

Lemma for_each_cqe_counters cqes l count w l' count' w' tr :
  for_each cqes l count w = Val (l', count') w' tr → counters_apart l l'.
Proof.
  revert l count w tr. induction cqes as [|cqe rest IH]; intros l count w tr H.
  - cbn in H. apply ret_inv in H as (Heq & _). injection Heq as -> _.
    apply counters_apart_refl.
  - cbn [for_each_cqe] in H. bind_inv_as H l1 w1.
    apply process_cqe_counters in Hm. apply IH in H.
    by eapply counters_apart_trans.
Qed.

Lemma sigmask_restore l : sigmask (restore_user_timeout l) = sigmask l.
Proof. unfold restore_user_timeout. by destruct (negb _). Qed.

Lemma update_timeout_sigmask l w c w' tr :
  update_timeout l w = Val c w' tr → same_sigmask l c.
Proof.
  unfold update_timeout. intros H. repeat step H. case_if H.
  - by apply ret_inv in H as [-> _].
  - by apply ret_inv in H as [-> _].
Qed.

Lemma drain_stage_sigmask l w c w' tr :
  drain l w = Val c w' tr → same_sigmask l c.
Proof.
  intros H. destruct c as [|l']; [done|]. cbn.
  unfold drain_stage in H. step H.
  bind_inv_as H lc w1. destruct lc as [l1 n].
  apply for_each_cqe_counters in Hm as (_ & _ & _ & Hs & _). cbn [fst snd] in H.
  bind_inv_as H x w2.
  case_if H.
  { unfold uv__metrics_update_idle_time, call_io_cb in H.
    repeat step H. all: by apply ret_inv in H as [? _]. }
  case_if H; [by apply ret_inv in H as [? _]|].
  case_if H; [by apply ret_inv in H as [? _]|].
  case_if H.
  - apply ret_inv in H as (Hc & _). injection Hc as ->.
    by rewrite sigmask_restore.
  - apply update_timeout_sigmask in H. cbn in H.
    by rewrite H, sigmask_restore.
Qed.

Lemma wait_stage_sigmask l w s w' tr :
  wait_stage l w = Val s w' tr →
  match s with
  | inl l1 => sigmask l1 = sigmask l
  | inr c => same_sigmask l c
  end.
Proof.
  intros H. unfold wait_stage in H. bind_inv H. step H. bind_inv_as H r w1. step H.
  bind_inv H.
  set (l1 := with_timeout (real_timeout l) l) in *.
  assert (Hr : sigmask (restore_user_timeout l1) = sigmask l)
    by (by rewrite sigmask_restore).
  unfold after_wait in H. case_if H.
  { step H. case_if H.
    - by apply ret_inv in H as (-> & _).
    - bind_inv_as H c wu. apply ret_inv in H as (-> & _).
      match goal with Hu : update_timeout _ _ = _ |- _ =>
        apply update_timeout_sigmask in Hu end.
      destruct c; [done|]. cbn in *. congruence. }
  bind_inv H. case_if H.
  - case_if H; [by apply ret_inv in H as (-> & _)|].
    case_if H; [by apply ret_inv in H as (-> & _)|].
    bind_inv_as H c wu. apply ret_inv in H as (-> & _).
    match goal with Hu : update_timeout _ _ = _ |- _ =>
      apply update_timeout_sigmask in Hu end.
    destruct c; [done|]. cbn in *. congruence.
  - by apply ret_inv in H as (-> & _).
Qed.

Lemma poll_iteration_sigmask l w c w' tr :
  iteration l w = Val c w' tr → same_sigmask l c.
Proof.
  intros H. unfold poll_iteration in H. bind_inv H. step H.
  case_if H.
  - bind_inv_as H s w1. apply wait_stage_sigmask in Hm0.
    destruct s as [l1|c1].
    + apply drain_stage_sigmask in H. destruct c; [done|]. cbn in *. congruence.
    + by apply ret_inv in H as (-> & _).
  - by eapply drain_stage_sigmask.
Qed.

Lemma masks_poll_iteration l :
  masks (negb (sigmask l =? 0)) false false (iteration l).
Proof.
  unfold poll_iteration, uv__metrics_set_provider_entry_time.
  eapply masks_bind; [apply masks_no_event; quiet_tac|intros _].
  eapply masks_bind; [apply masks_no_event; unfold load_uring; quiet_tac|intros u].
  destruct (io_uring_cq_ready _ =? 0).
  - eapply masks_bind; [apply masks_wait_stage|intros [l1|c]].
    + apply masks_outside_wait, outside_drain_stage.
    + apply masks_no_event, quiet_ret.
  - apply masks_outside_wait, outside_drain_stage.
Qed.

Lemma masks_poll_loop fuel l :
  masks (negb (sigmask l =? 0)) false false (loop fuel l).
Proof.
  revert l. induction fuel as [|n IH]; intros l w; [by eexists|].
  cbn [poll_loop]. unfold bind.
  pose proof (masks_poll_iteration l w) as Hi.
  destruct (iteration l w) as [[|l'] w' tr|f tr] eqn:Hit; cbn in *.
  - by rewrite app_nil_r.
  - apply poll_iteration_sigmask in Hit. cbn in Hit.
    specialize (IH l' w'). rewrite Hit in IH.
    destruct (loop n l' w'); cbn in *; rewrite mask_run_app, Hi; cbn; done.
  - done.
Qed.

Lemma sigmask_initial_locals timeout lp :
  negb (sigmask (initial_locals timeout lp) =? 0)
    = test_flag (loop_flags lp) UV_LOOP_BLOCK_SIGPROF.
Proof.
  unfold initial_locals.
  by destruct (test_flag (internal_flags lp) _), (test_flag (loop_flags lp) _).
Qed.

Lemma masked_result_bind {A B} blocking b b1 b2 (P : World → Prop)
    (m : M A) (f : A → M B) w :
  masks blocking b b1 m → keeps P m → P w →
  (∀ a w1, P w1 → masked_result blocking b1 b2 (f a w1)) →
  masked_result blocking b b2 (bind m f w).
Proof.
  intros Hm Hk HP Hf. unfold bind. specialize (Hm w).
  destruct (m w) as [a w1 tr1|x tr1] eqn:E; cbn in *; [|done].
  specialize (Hf a w1 (Hk _ _ _ _ HP E)).
  destruct (f a w1) as [c w2 tr2|x tr2]; cbn in *; rewrite mask_run_app, Hm; cbn; done.
Qed.

Lemma blocks_sigprof_frame k w w' :
  loop_flags (w_loop w') = loop_flags (w_loop w) →
  k_wait (w_kernel w') = k_wait (w_kernel w) →
  blocks_sigprof w = k → blocks_sigprof w' = k.
Proof. unfold blocks_sigprof. by intros -> _. Qed.

(** X19.  The poll blocks the profiling signal around its waits in the
    kernel and nowhere else.  In every run, when the loop was told to block
    SIGPROF, each wait (retries after an interruption included) is made with
    the signal blocked; nothing but waiting happens while it is blocked, so
    every callback runs with the signal unblocked; and a poll that returns
    has unblocked it again.  A loop not told so never touches the signal
    mask. *)
Theorem sigprof_blocked_around_waits_only fuel timeout w :
  masked_result (blocks_sigprof w) false false (io_poll fuel timeout w).
Proof.
  set (k := blocks_sigprof w).
  assert (HP : (λ w, blocks_sigprof w = k) w) by done.
  clearbody k. unfold uv__uring_io_poll.
  unfold bind at 1, gets. rewrite prepend_nil.
  destruct (nfds (w_loop w) =? 0).
  { refine (masks_no_event _ _ _ _ w). quiet_tac. }
  eapply masked_result_bind;
    [apply masks_outside_wait, outside_submit_watchers
    |apply keeps_entry_submit_watchers; apply blocks_sigprof_frame|exact HP|].
  clear w HP. intros _ w HP.
  eapply masked_result_bind;
    [apply masks_outside_wait, outside_uv__io_uring_submit
    |apply keeps_entry_uv__io_uring_submit; apply blocks_sigprof_frame|exact HP|].
  clear w HP. intros r w HP.
  eapply masked_result_bind;
    [apply masks_no_event, quiet_assert|apply keeps_assert|exact HP|].
  clear w HP. intros _ w HP.
  eapply masked_result_bind;
    [apply masks_no_event; unfold uv__update_time; quiet_tac
    |apply keeps_entry_uv__update_time; apply blocks_sigprof_frame|exact HP|].
  clear w HP. intros _ w HP.
  eapply masked_result_bind;
    [apply masks_no_event, quiet_assert|apply keeps_assert|exact HP|].
  clear w HP. intros _ w HP.
  unfold bind, gets. rewrite prepend_nil.
  cbn beta in HP. rewrite <- HP. unfold blocks_sigprof.
  rewrite <- (sigmask_initial_locals timeout). apply masks_poll_loop.
Qed.

End Mask.

(** ** A poll with timeout -1 *)

Lemma work_no_deadline e : completion_work e = true → no_deadline e = true.
Proof. by destruct e. Qed.

Lemma quiet_bind_yields {A B} p (R : A → Prop) (m : M A) (f : A → M B) :
  quiet p m → yields R m → (∀ a, R a → quiet p (f a)) → quiet p (bind m f).
Proof.
  intros Hm Hy Hf w. unfold bind. specialize (Hm w).
  destruct (m w) as [a w1 tr1|] eqn:E; [|done].
  rewrite trace_of_prepend. apply Forall_app. split; [done|].
  apply Hf. by eapply Hy.
Qed.

Lemma unbounded_ts l : unbounded l → ts_of l = None.
Proof. intros (_ & [Ht|Ht] & _); unfold ts_of; by rewrite Ht. Qed.

Lemma unbounded_after_wait l :
  unbounded l →
  unbounded (with_timeout (real_timeout l) l) ∧
  timeout (with_timeout (real_timeout l) l) = -1.
Proof.
  intros (Hr & Ht & Hu). split; [|done]. unfold unbounded. cbn.
  split; [done|]. split; [by left|]. by destruct (reset_timeout l =? 0).
Qed.

Lemma unbounded_restore l :
  unbounded l →
  unbounded (restore_user_timeout l) ∧ timeout (restore_user_timeout l) = -1.
Proof.
  intros (Hr & Ht & Hu). unfold restore_user_timeout, unbounded.
  destruct (reset_timeout l =? 0) eqn:E; cbn; [by rewrite E|].
  repeat split; auto.
Qed.

Lemma unbounded_counters l l' : counters_apart l l' → unbounded l → unbounded l'.
Proof.
  intros (Ht & Hr & _ & _ & Hs & Hu). unfold unbounded. by rewrite Ht, Hr, Hs, Hu.
Qed.

Lemma unbounded_initial_locals lp : unbounded (initial_locals (-1) lp).
Proof.
  unfold initial_locals, unbounded.
  destruct (test_flag (internal_flags lp) _); cbn; repeat split; auto.
Qed.

Lemma deadline_io_uring_wait_cqes wait_nr :
  quiet no_deadline (io_uring_wait_cqes wait_nr None).
Proof. unfold io_uring_wait_cqes. cbv iota. quiet_tac; reflexivity. Qed.

Lemma deadline_wait_cqes_retry fuel wait_nr :
  quiet no_deadline (wait_cqes_retry fuel wait_nr None).
Proof.
  induction fuel as [|n IH]; cbn [wait_cqes_retry]; quiet_tac;
    first [apply deadline_io_uring_wait_cqes | exact IH].
Qed.

Lemma quiet_crash_bind {A B} p e (f : A → M B) : quiet p (bind (crash e) f).
Proof. intros w. constructor. Qed.

Lemma deadline_after_wait l r :
  timeout l = -1 → timeout (restore_user_timeout l) = -1 →
  quiet no_deadline (after_wait l r).
Proof.
  intros Ht Hr. unfold after_wait. cbv zeta. rewrite Ht, !Hr.
  change (-1 =? 0) with false. change (-1 =? -1) with true. cbv iota.
  destruct (r =? EAGAIN); [apply quiet_crash_bind|].
  unfold uv__update_time. quiet_tac.
Qed.

Lemma deadline_sigmask_around_wait l block :
  quiet no_deadline (sigmask_around_wait l block).
Proof. unfold sigmask_around_wait, pthread_sigmask. quiet_tac; reflexivity. Qed.

Lemma deadline_wait_stage l : unbounded l → quiet no_deadline (wait_stage l).
Proof.
  intros Hu. unfold wait_stage. rewrite (unbounded_ts l Hu).
  destruct (unbounded_after_wait l Hu) as [Hu1 Ht1].
  apply quiet_bind; [apply deadline_sigmask_around_wait|intros _].
  apply quiet_bind; [apply quiet_gets|intros k].
  apply quiet_bind; [apply deadline_wait_cqes_retry|intros r].
  apply quiet_bind; [apply quiet_assert|intros _]. cbv zeta.
  apply quiet_bind; [apply deadline_sigmask_around_wait|intros _].
  apply deadline_after_wait; [done|]. by apply unbounded_restore.
Qed.

Lemma restore_counters l l' :
  counters_apart l l' →
  counters_apart (restore_user_timeout l) (restore_user_timeout l').
Proof.
  intros (Ht & Hr & Hb & Hm & Hs & Hu). unfold restore_user_timeout.
  rewrite Hs. destruct (negb _); unfold counters_apart; cbn; by rewrite ?Ht, ?Hr, ?Hb, ?Hm, ?Hs, ?Hu.
Qed.

Section Unbounded.

Variable signal_io_watcher : addr.
Variable io_cb : addr → Z → World → World.
Variable alloc_cb : addr → Z → World → World.
Variable recv_cb : addr → Z → bool → Z → World → World.

Local Abbreviation for_each := (for_each_cqe signal_io_watcher io_cb alloc_cb recv_cb).
Local Abbreviation drain := (drain_stage signal_io_watcher io_cb alloc_cb recv_cb).
Local Abbreviation iteration := (poll_iteration signal_io_watcher io_cb alloc_cb recv_cb).
Local Abbreviation loop := (poll_loop signal_io_watcher io_cb alloc_cb recv_cb).
Local Abbreviation io_poll := (uv__uring_io_poll signal_io_watcher io_cb alloc_cb recv_cb).

Lemma yields_for_each_cqe cqes l count :
  yields (λ lc, counters_apart l (fst lc)) (for_each cqes l count).
Proof. intros w [l1 n] w' tr H. by eapply for_each_cqe_counters. Qed.

Lemma deadline_drain_stage l :
  timeout (restore_user_timeout l) = -1 → quiet no_deadline (drain l).
Proof.
  intros Hr. unfold drain_stage, call_io_cb, uv__metrics_update_idle_time.
  apply quiet_bind; [unfold load_uring; quiet_tac|intros u].
  eapply quiet_bind_yields; [|apply yields_for_each_cqe|].
  { apply (quiet_mono completion_work); [apply work_no_deadline|].
    apply plain_for_each_cqe. }
  intros [l1 n] Hc. cbn [fst snd] in *.
  apply restore_counters in Hc. destruct Hc as (Ht & _).
  apply quiet_bind.
  { apply (quiet_mono completion_work); [apply work_no_deadline|].
    apply plain_io_uring_cq_advance. }
  intros _. cbv zeta. rewrite !Ht, !Hr.
  change (-1 =? 0) with false. change (-1 =? -1) with true. cbv iota.
  quiet_tac; reflexivity.
Qed.

Lemma wait_stage_unbounded l w s w' tr :
  unbounded l →
  wait_stage l w = Val s w' tr →
  match s with
  | inl l1 | inr (Continue l1) => unbounded l1
  | inr Returned => False
  end.
Proof.
  intros Hu H. unfold wait_stage in H. bind_inv H. step H. bind_inv_as H r w1. step H.
  bind_inv H.
  destruct (unbounded_after_wait l Hu) as [Hu1 Ht1].
  set (l1 := with_timeout (real_timeout l) l) in *.
  destruct (unbounded_restore l1 Hu1) as [Hu2 Ht2].
  unfold after_wait in H. cbv zeta in H. rewrite Ht1, !Ht2 in H.
  change (-1 =? 0) with false in H. change (-1 =? -1) with true in H. cbv iota in H.
  case_if H; [by bind_inv H|].
  bind_inv H. case_if H.
  - by apply ret_inv in H as (-> & _).
  - by apply ret_inv in H as (-> & _).
Qed.

Lemma drain_stage_unbounded l w c w' tr :
  unbounded l →
  drain l w = Val c w' tr →
  match c with
  | Continue l' => unbounded l'
  | Returned => True
  end.
Proof.
  intros Hu H. destruct c as [|l']; [done|].
  unfold drain_stage in H. step H.
  bind_inv_as H lc w1. destruct lc as [l1 n].
  apply for_each_cqe_counters in Hm. cbn [fst snd] in H.
  bind_inv_as H x w2.
  pose proof (unbounded_counters _ _ Hm Hu) as Hu1.
  destruct (unbounded_restore l1 Hu1) as [Hu2 Ht2].
  cbv zeta in H. rewrite !Ht2 in H.
  change (-1 =? 0) with false in H. change (-1 =? -1) with true in H. cbv iota in H.
  case_if H.
  { unfold uv__metrics_update_idle_time, call_io_cb in H.
    repeat step H. all: by apply ret_inv in H as [? _]. }
  case_if H; [by apply ret_inv in H as [? _]|].
  apply ret_inv in H as (Hc & _). by injection Hc as ->.
Qed.

Lemma poll_iteration_unbounded l w c w' tr :
  unbounded l →
  iteration l w = Val c w' tr →
  match c with
  | Continue l' => unbounded l'
  | Returned => True
  end.
Proof.
  intros Hu H. unfold poll_iteration in H. bind_inv H. step H.
  case_if H.
  - bind_inv_as H s w1.
    match goal with Hw : wait_stage _ _ = _ |- _ =>
      apply (wait_stage_unbounded _ _ _ _ _ Hu) in Hw; rename Hw into Hs end.
    destruct s as [l1|[|l1]]; [|done|].
    + by eapply drain_stage_unbounded.
    + by apply ret_inv in H as (-> & _).
  - by eapply drain_stage_unbounded.
Qed.

Lemma yields_wait_stage l :
  unbounded l →
  yields (λ s, match s with
               | inl l1 => timeout (restore_user_timeout l1) = -1
               | inr _ => True
               end) (wait_stage l).
Proof.
  intros Hu w s w' tr H. apply (wait_stage_unbounded _ _ _ _ _ Hu) in H.
  destruct s as [l1|c]; [|done]. by apply unbounded_restore.
Qed.

Lemma deadline_poll_iteration l : unbounded l → quiet no_deadline (iteration l).
Proof.
  intros Hu. unfold poll_iteration, uv__metrics_set_provider_entry_time.
  apply quiet_bind; [quiet_tac|intros _].
  apply quiet_bind; [unfold load_uring; quiet_tac|intros u].
  destruct (io_uring_cq_ready _ =? 0).
  - eapply quiet_bind_yields;
      [by apply deadline_wait_stage|by apply yields_wait_stage|].
    intros [l1|c] Hs; [by apply deadline_drain_stage|apply quiet_ret].
  - apply deadline_drain_stage. by apply unbounded_restore.
Qed.

Lemma poll_loop_no_deadline fuel l w :
  unbounded l → Forall (λ e, no_deadline e = true) (trace_of (loop fuel l w)).
Proof.
  revert l w. induction fuel as [|n IH]; intros l w Hu; [constructor|].
  cbn [poll_loop]. unfold bind.
  pose proof (deadline_poll_iteration l Hu w) as Hq.
  destruct (iteration l w) as [c w1 tr1|f tr1] eqn:Hit; [|done].
  apply (poll_iteration_unbounded _ _ _ _ _ Hu) in Hit.
  rewrite trace_of_prepend. apply Forall_app. split; [done|].
  destruct c as [|l']; [constructor|]. by apply IH.
Qed.

(** X20.  A poll entered with timeout -1 never bounds a wait: in every run
    (whatever the kernel answers and the callbacks do, and whether or not
    the loop measures its idle time) no wait is given a deadline, and the
    code at [update_timeout], which shortens the timeout by the time
    elapsed, is never reached. *)
Theorem unbounded_poll_sets_no_deadline fuel w :
  Forall (λ e, no_deadline e = true) (trace_of (io_poll fuel (-1) w)).
Proof.
  revert w. change (quiet no_deadline (io_poll fuel (-1))).
  unfold uv__uring_io_poll.
  apply quiet_bind; [apply quiet_gets|intros lp].
  destruct (nfds lp =? 0); [quiet_tac|].
  apply quiet_bind.
  { apply (quiet_mono completion_work); [apply work_no_deadline|].
    apply plain_submit_watchers. }
  intros _. apply quiet_bind.
  { apply (quiet_mono completion_work); [apply work_no_deadline|].
    apply plain_uv__io_uring_submit. }
  intros r. apply quiet_bind; [apply quiet_assert|intros _].
  apply quiet_bind; [unfold uv__update_time; quiet_tac|intros _].
  apply quiet_bind; [apply quiet_assert|intros _].
  apply quiet_bind; [apply quiet_gets|intros lp'].
  intros w. apply poll_loop_no_deadline, unbounded_initial_locals.
Qed.

End Unbounded.

(** *** It does not return before something completes *)

Lemma outcome_prepend {A} Q F tr (r : result A) :
  outcome Q F (prepend tr r) ↔ outcome Q F r.
Proof. by destruct r. Qed.

Lemma outcome_bind {A B} (Q1 : A → World → Prop) Q F (m : M A) (f : A → M B) w :
  outcome Q1 F (m w) →
  (∀ a w1, Q1 a w1 → outcome Q F (f a w1)) →
  outcome Q F (bind m f w).
Proof.
  intros Hm Hf. unfold bind. destruct (m w) as [a w1 tr1|e tr1]; [|exact Hm].
  apply outcome_prepend, Hf, Hm.
Qed.

Lemma outcome_mono {A} (Q Q' : A → World → Prop) (F F' : failure → Prop) r :
  (∀ a w, Q a w → Q' a w) → (∀ f, F f → F' f) →
  outcome Q F r → outcome Q' F' r.
Proof. intros HQ HF. destruct r; cbn; auto. Qed.

Lemma starved_same w w' :
  w_uring w' = w_uring w → w_kernel w' = w_kernel w → starved w → starved w'.
Proof. unfold starved, barren, completions. by intros -> ->. Qed.

Lemma valid_wait_result_barren r :
  r = - EINTR ∨ r = 0 ∨ r = - ETIME ∨ r = - EAGAIN →
  (r =? - EINTR) = false →
  valid_wait_result r = true.
Proof. intros [-> | [-> | [-> | ->]]] Hne; done. Qed.

Lemma valid_wait_result_not_positive r :
  valid_wait_result r = true → (r =? EAGAIN) = false.
Proof. intros H. apply Z.eqb_neq. intros ->. by vm_compute in H. Qed.

(** One wait without a deadline, on a kernel that brings nothing. *)
Lemma next_wait_barren wait_nr w :
  starved w →
  match next_wait wait_nr None w with
  | Some (r, d, w1) =>
      starved w1 ∧ w_loop w1 = w_loop w ∧
      ((r =? - EINTR) = false → valid_wait_result r = true) ∧
      match k_wait (w_kernel w) with
      | [] => wait_nr = 0 ∧ r ≠ - EINTR ∧ k_wait (w_kernel w1) = []
      | _ :: rest => k_wait (w_kernel w1) = rest
      end
  | None => k_wait (w_kernel w) = [] ∧ wait_nr ≠ 0
  end.
Proof.
  intros (Hr & Hc & Hb). unfold next_wait.
  destruct (k_wait (w_kernel w)) as [|o rest] eqn:Hk.
  - destruct (wait_nr =? 0) eqn:Hn.
    + apply Z.eqb_eq in Hn. rewrite Hk. by repeat split.
    + apply Z.eqb_neq in Hn. done.
  - unfold barren in Hb. rewrite Hk in Hb. apply Forall_cons in Hb as [[Ho Hres] Hb].
    split.
    { unfold starved, barren, completions, kernel_elapse. cbn. rewrite Ho.
      destruct Hr as [u Hu]. unfold completions in Hc. rewrite Hu in *. cbn.
      rewrite app_nil_r. split; [by eexists|]. done. }
    split; [done|]. split; [by apply valid_wait_result_barren|done].
Qed.

(** The wait and its retries: it comes back with a result the code
    accepts and with nothing completed, or it never comes back. *)
Lemma wait_cqes_retry_barren fuel wait_nr w :
  starved w →
  (length (k_wait (w_kernel w)) ≤ fuel)%nat →
  outcome
    (λ r w1, valid_wait_result r = true ∧ starved w1 ∧ w_loop w1 = w_loop w ∧
       ((length (k_wait (w_kernel w1)) < length (k_wait (w_kernel w)))%nat
        ∨ (wait_nr = 0 ∧ k_wait (w_kernel w) = [] ∧ k_wait (w_kernel w1) = [])))
    (λ f, f = BlockedForever)
    (wait_cqes_retry fuel wait_nr None w).
Proof.
  revert w. induction fuel as [|n IH]; intros w Hst Hlen.
  all: cbn [wait_cqes_retry]; unfold bind at 1; rewrite io_uring_wait_cqes_eq.
  all: pose proof (next_wait_barren wait_nr w Hst) as Hnw.
  all: destruct (next_wait wait_nr None w) as [[[r d] w1]|]; [|done].
  all: destruct Hnw as (Hst1 & Hl1 & Hv & Hk); apply outcome_prepend.
  - destruct (k_wait (w_kernel w)) as [|o rest] eqn:Hkw; [|cbn in Hlen; lia].
    destruct Hk as (Hn & Hne & Hk1). apply Z.eqb_neq in Hne. rewrite Hne.
    cbn. split; [by apply Hv|]. split; [done|]. split; [done|]. by right.
  - destruct (r =? - EINTR) eqn:Hi.
    + destruct (k_wait (w_kernel w)) as [|o rest] eqn:Hkw.
      { destruct Hk as (_ & Hne & _). by apply Z.eqb_eq in Hi. }
      assert (Hlen1 : (length (k_wait (w_kernel w1)) ≤ n)%nat)
        by (rewrite Hk; cbn in Hlen; lia).
      eapply outcome_mono; [| |exact (IH w1 Hst1 Hlen1)]; [|done].
      intros r2 w2 (Hv2 & Hst2 & Hl2 & Hm2).
      split; [done|]. split; [done|]. split; [congruence|]. left.
      rewrite Hk in Hm2. cbn. destruct Hm2 as [Hm2|(_ & -> & ->)]; cbn; lia.
    + cbn. split; [by apply Hv|]. split; [done|]. split; [done|].
      destruct (k_wait (w_kernel w)) as [|o rest] eqn:Hkw.
      * destruct Hk as (Hn & _ & Hk1). by right.
      * left. rewrite Hk. cbn. lia.
Qed.

(** One wait stage of a pass that waits in vain: it hands on to a state
    that waits in vain again, with one pass fewer to go, or it is blocked
    for good. *)
Lemma wait_stage_in_vain l w :
  waiting_in_vain l w →
  outcome
    (λ s w1, match s with
             | inl l1 | inr (Continue l1) =>
                 waiting_in_vain l1 w1 ∧ timeout l1 = -1 ∧
                 (passes_left l1 w1 < passes_left l w)%nat
             | inr Returned => False
             end)
    (λ f, f = BlockedForever)
    (wait_stage l w).
Proof.
  intros (Hu & Hs & Hn & Hst). unfold wait_stage.
  rewrite (bind_val _ _ _ _ _ _ (sigmask_around_wait_eq _ _ _)).
  apply outcome_prepend.
  unfold bind at 1, gets. rewrite prepend_nil.
  rewrite (unbounded_ts l Hu).
  eapply outcome_bind;
    [exact (wait_cqes_retry_barren _ (wait_nr_of l) w Hst (le_n _))|].
  intros r w1 (Hv & Hst1 & Hl1 & Hm).
  pose proof (valid_wait_result_not_positive r Hv) as Hpos.
  unfold valid_wait_result in Hv. rewrite Hv.
  unfold assert at 1. unfold bind at 1, ret. rewrite prepend_nil.
  cbv zeta.
  rewrite (bind_val _ _ _ _ _ _ (sigmask_around_wait_eq _ _ _)).
  apply outcome_prepend.
  destruct (unbounded_after_wait l Hu) as [Hu1 Ht1].
  set (l1 := with_timeout (real_timeout l) l) in *.
  destruct (unbounded_restore l1 Hu1) as [Hu2 Ht2].
  unfold after_wait. rewrite Hpos.
  rewrite (bind_val _ _ _ _ _ _ (uv__update_time_eq _)), prepend_nil.
  assert (Hst2 : starved (time_updated w1)) by (by eapply starved_same).
  assert (Hpass : ∀ l2, timeout l2 = -1 →
            (passes_left l2 (time_updated w1) < passes_left l w)%nat).
  { intros l2 Ht. unfold passes_left. rewrite Ht.
    change (-1 =? 0) with false. cbv iota.
    cbn [time_updated set_loop w_kernel].
    destruct Hm as [Hm|(Hnr & Hk0 & Hk1)]; [lia|].
    rewrite Hk0, Hk1. unfold wait_nr_of in Hnr.
    destruct (timeout l =? 0); [cbn; lia|done]. }
  destruct (r =? - ETIME); cbv zeta.
  - rewrite Ht2. cbn.
    split; [|split; [done|by apply Hpass]].
    split; [done|]. rewrite have_signals_restore, nevents_restore.
    split; [exact Hs|]. split; [exact Hn|done].
  - cbn. split; [|split; [done|by apply Hpass]].
    split; [done|]. split; [exact Hs|]. split; [exact Hn|done].
Qed.

Section InVain.

Variable signal_io_watcher : addr.
Variable io_cb : addr → Z → World → World.
Variable alloc_cb : addr → Z → World → World.
Variable recv_cb : addr → Z → bool → Z → World → World.

Local Abbreviation drain := (drain_stage signal_io_watcher io_cb alloc_cb recv_cb).
Local Abbreviation iteration := (poll_iteration signal_io_watcher io_cb alloc_cb recv_cb).
Local Abbreviation loop := (poll_loop signal_io_watcher io_cb alloc_cb recv_cb).
Local Abbreviation io_poll := (uv__uring_io_poll signal_io_watcher io_cb alloc_cb recv_cb).

(** The drain of an empty completion ring goes round again. *)
Lemma drain_starved l w u :
  w_uring w = Some u → cq (ring u) = [] →
  have_signals l = 0 → nevents l = 0 →
  timeout (restore_user_timeout l) = -1 →
  drain l w =
    Val (Continue (restore_user_timeout l))
      (set_uring (Some (uring_with_ring (ring_with_cq []) u)) w) [].
Proof.
  intros Hu Hcq Hs Hn Ht. unfold drain_stage.
  rewrite (bind_val _ _ _ _ _ _ (load_uring_eq _ _ Hu)), prepend_nil.
  rewrite Hcq. cbn [for_each_cqe]. unfold bind at 1, ret. rewrite prepend_nil.
  cbn [fst snd].
  rewrite (bind_val _ _ _ _ _ _ (io_uring_cq_advance_eq _ _ _ Hu)), prepend_nil.
  cbv zeta. rewrite have_signals_restore, nevents_restore, Hs, Hn, !Ht, Hcq.
  reflexivity.
Qed.

Lemma poll_iteration_in_vain l w :
  waiting_in_vain l w →
  outcome
    (λ c w1, match c with
             | Continue l1 =>
                 waiting_in_vain l1 w1 ∧ (passes_left l1 w1 < passes_left l w)%nat
             | Returned => False
             end)
    (λ f, f = BlockedForever)
    (iteration l w).
Proof.
  intros Hv. pose proof Hv as (Hu & Hs & Hn & ([u Hur] & Hc & Hb)).
  unfold poll_iteration.
  assert (Hw : when (negb (timeout l =? 0)) uv__metrics_set_provider_entry_time w
               = Val tt w []) by (by destruct (negb _)).
  rewrite (bind_val _ _ _ _ _ _ Hw), prepend_nil.
  rewrite (bind_val _ _ _ _ _ _ (load_uring_eq _ _ Hur)), prepend_nil.
  assert (Hcq : io_uring_cq_ready (ring u) = 0).
  { unfold completions in Hc. rewrite Hur in Hc. unfold io_uring_cq_ready.
    by rewrite Hc. }
  rewrite Hcq. change (0 =? 0) with true. cbv iota.
  eapply outcome_bind; [exact (wait_stage_in_vain l w Hv)|].
  intros [l1|[|l1]] w1; [|done|].
  - intros ((Hu1 & Hs1 & Hn1 & ([u1 Hur1] & Hc1 & Hb1)) & Ht1 & Hp1).
    assert (Hcq1 : cq (ring u1) = [])
      by (unfold completions in Hc1; by rewrite Hur1 in Hc1).
    rewrite (drain_starved l1 w1 u1 Hur1 Hcq1 Hs1 Hn1)
      by (by apply unbounded_restore).
    cbn. destruct (unbounded_restore l1 Hu1) as [Hu2 Ht2]. split.
    + split; [done|]. rewrite have_signals_restore, nevents_restore.
      split; [done|]. split; [done|].
      split; [by eexists|]. split; [|done]. unfold completions. cbn. done.
    + unfold passes_left in *. cbn [set_uring w_kernel]. rewrite Ht2.
      rewrite Ht1 in Hp1. done.
  - intros (Hv1 & _ & Hp1). done.
Qed.

Lemma poll_loop_in_vain fuel l w :
  waiting_in_vain l w →
  outcome (λ _ _, False)
    (λ f, (f = BlockedForever ∨ f = OutOfFuel) ∧
          ((passes_left l w < fuel)%nat → f = BlockedForever))
    (loop fuel l w).
Proof.
  revert l w. induction fuel as [|n IH]; intros l w Hv.
  { cbn. split; [by right|lia]. }
  cbn [poll_loop].
  eapply outcome_bind.
  { eapply outcome_mono; [| |exact (poll_iteration_in_vain l w Hv)].
    - intros c w1 H. exact H.
    - intros f ->. split; [by left|done]. }
  intros [|l1] w1; [done|]. intros [Hv1 Hp1].
  eapply outcome_mono; [| |exact (IH l1 w1 Hv1)]; [done|].
  intros f [Hf Hen]. split; [done|]. intros Hlt. apply Hen. lia.
Qed.

(** X21.  A poll entered with timeout -1 on a loop that watches something
    does not return as long as nothing completes.  When nothing is left to
    hand to the kernel, no completion is ready on entry and no wait brings
    one (each wait is interrupted, woken for nothing, timed out or told
    that nothing is ready), the poll goes back to waiting each time: it
    fails no assertion and never returns to its caller, and once the
    kernel has no more to say it is blocked in the wait for good.  Short
    of that only the bound on the passes of the loop stops it. *)
Theorem unbounded_poll_waits_for_a_completion fuel w :
  nfds (w_loop w) ≠ 0 → all_submitted w → starved w →
  ∃ f tr,
    io_poll fuel (-1) w = Crash f tr ∧
    (f = BlockedForever ∨ f = OutOfFuel) ∧
    ((length (k_wait (w_kernel w)) + 1 < fuel)%nat → f = BlockedForever).
Proof.
  intros Hn [Hq Hsq] Hst. pose proof Hst as ([u Hu] & _).
  assert (H : outcome (λ _ _, False)
                (λ f, (f = BlockedForever ∨ f = OutOfFuel) ∧
                      ((length (k_wait (w_kernel w)) + 1 < fuel)%nat →
                       f = BlockedForever))
                (io_poll fuel (-1) w)).
  2:{ destruct (io_poll fuel (-1) w) as [a w1 tr|f tr]; [done|].
      exists f, tr. split; [done|exact H]. }
  unfold uv__uring_io_poll.
  unfold bind at 1, gets. rewrite prepend_nil.
  apply Z.eqb_neq in Hn. rewrite Hn, Hq. cbn [length submit_watchers].
  assert (Hsw : submit_watchers 0 w = Val tt w []).
  { unfold submit_watchers, bind, gets. cbn. by rewrite Hq. }
  rewrite (bind_val _ _ _ _ _ _ Hsw), prepend_nil.
  rewrite (bind_val _ _ _ _ _ _ (uv__io_uring_submit_empty _ _ Hu (Hsq _ Hu))),
    prepend_nil.
  unfold assert at 1. change (0 <=? 0) with true. cbv iota.
  unfold bind at 1, ret. rewrite prepend_nil.
  rewrite (bind_val _ _ _ _ _ _ (uv__update_time_eq _)), prepend_nil.
  unfold assert at 1. change (-1 <=? -1) with true. cbv iota.
  unfold bind at 1, ret. rewrite prepend_nil.
  unfold bind at 1, gets. rewrite prepend_nil.
  set (l := initial_locals (-1) (w_loop (time_updated w))).
  assert (Hv : waiting_in_vain l (time_updated w)).
  { split; [apply unbounded_initial_locals|].
    split; [unfold l, initial_locals; by destruct (test_flag (internal_flags _) _)|].
    split; [unfold l, initial_locals; by destruct (test_flag (internal_flags _) _)|].
    by eapply starved_same. }
  eapply outcome_mono; [| |exact (poll_loop_in_vain fuel l _ Hv)]; [done|].
  intros f [Hf Hen]. split; [done|].
  intros Hlt. apply Hen. unfold passes_left. cbn [time_updated set_loop w_kernel].
  destruct (timeout l =? 0); lia.
Qed.

End InVain.

Lemma unbounded_poll_waits_for_a_completion_witness :
  ∃ tr,
    uv__uring_io_poll sample_signal_watcher idle_io_cb idle_alloc_cb idle_recv_cb
      10 (-1) barren_world = Crash BlockedForever tr.
Proof.
  destruct (unbounded_poll_waits_for_a_completion sample_signal_watcher idle_io_cb
              idle_alloc_cb idle_recv_cb 10 barren_world)
    as (f & tr & E & _ & Hen).
  - discriminate.
  - split; [reflexivity|]. intros u [= <-]. reflexivity.
  - split; [by eexists|]. split; [reflexivity|].
    unfold barren. cbn.
    repeat (apply Forall_cons; split; [split; [reflexivity|vm_compute; auto 6]|]).
    by apply Forall_nil.
  - exists tr. rewrite E. f_equal. apply Hen. cbn. lia.
Defined.
